(** * Insert-optimised data sketches: a shallow embedding of the ingest path

    The development follows the C++ sources:
    - [include/MurmurHash3.h]     (module [Murmur])
    - [include/hash.hpp]          (module [Hash])
    - [src/cs/cs_final.hpp]       (module [CS])
    - [include/simd.hpp]          (module [Simd])
    - [src/ss/ss_final.hpp]       (module [SS])
    - [src/kll/kll_final.hpp]     (module [KLL], and module [KLLMem] for
                                   the accesses to its allocation)
    and, for the variants and baselines the sketches are compared with,
    - [include/fastrange.hpp]             (module [FastRange])
    - [src/cs/cs_fixed_size.hpp],
      [src/cs/cs_fastrange.hpp]           (module [CSSeeded])
    - [src/cs/cs_datasketches.hpp]        (module [CountMin])
    - [src/ss/ss_heap.hpp]                (module [SSHeap])
    - [src/ss/ss_naive.hpp]               (module [SSNaive])
    - the hashed specialisation of
      [src/ss/ss_final.hpp]               (module [SSH])

    Machine integers are values of [Z]; every place where the C++ arithmetic
    is taken modulo the width of the type carries its reduction explicitly. *)

From Stdlib Require Import ZArith List Lia Bool.
From stdpp Require Import base list.
Import ListNotations.
Open Scope Z_scope.

(** ** Fixed-width unsigned arithmetic *)

Definition u8 (x : Z) : Z := x mod 2 ^ 8.
Definition u16 (x : Z) : Z := x mod 2 ^ 16.
Definition u32 (x : Z) : Z := x mod 2 ^ 32.
Definition u64 (x : Z) : Z := x mod 2 ^ 64.
Definition u128 (x : Z) : Z := x mod 2 ^ 128.

(** ** MurmurHash3, x64 128-bit variant *)

Module Murmur.

(** [rotl64]: both operands of the [|] are [uint64_t]. *)
Definition rotl64 (x r : Z) : Z :=
  Z.lor (u64 (Z.shiftl x r)) (Z.shiftr x (64 - r)).

Definition fmix64 (k : Z) : Z :=
  let k := Z.lxor k (Z.shiftr k 33) in
  let k := u64 (k * 0xff51afd7ed558ccd) in
  let k := Z.lxor k (Z.shiftr k 33) in
  let k := u64 (k * 0xc4ceb9fe1a85ec53) in
  let k := Z.lxor k (Z.shiftr k 33) in
  k.

Definition c1 : Z := 0x87c37b91114253d5.
Definition c2 : Z := 0x4cf5ad432745937f.

(** Memory is a list of bytes; [byte_at data i] is [data[i]]. *)
Definition byte_at (data : list Z) (i : Z) : Z := nth (Z.to_nat i) data 0.

(** [*reinterpret_cast<const uint64_t*>(data + off)] on a little-endian
    machine. *)
Definition load64 (data : list Z) (off : Z) : Z :=
  Z.lor (byte_at data off)
  (Z.lor (Z.shiftl (byte_at data (off + 1)) 8)
  (Z.lor (Z.shiftl (byte_at data (off + 2)) 16)
  (Z.lor (Z.shiftl (byte_at data (off + 3)) 24)
  (Z.lor (Z.shiftl (byte_at data (off + 4)) 32)
  (Z.lor (Z.shiftl (byte_at data (off + 5)) 40)
  (Z.lor (Z.shiftl (byte_at data (off + 6)) 48)
         (Z.shiftl (byte_at data (off + 7)) 56))))))).

(** The mixing of one lane, shared by the body and the tail. *)
Definition mix_k1 (k1 : Z) : Z :=
  let k1 := u64 (k1 * c1) in
  let k1 := rotl64 k1 31 in
  u64 (k1 * c2).

Definition mix_k2 (k2 : Z) : Z :=
  let k2 := u64 (k2 * c2) in
  let k2 := rotl64 k2 33 in
  u64 (k2 * c1).

(** One iteration of the block loop. *)
Definition block_step (k1 k2 : Z) (h : Z * Z) : Z * Z :=
  let '(h1, h2) := h in
  let h1 := Z.lxor h1 (mix_k1 k1) in
  let h1 := rotl64 h1 27 in
  let h1 := u64 (h1 + h2) in
  let h1 := u64 (h1 * 5 + 0x52dce729) in
  let h2 := Z.lxor h2 (mix_k2 k2) in
  let h2 := rotl64 h2 31 in
  let h2 := u64 (h2 + h1) in
  let h2 := u64 (h2 * 5 + 0x38495ab5) in
  (h1, h2).

(** [for (size_t i = 0; i < nblocks; ++i)]: [n] iterations remain, the loop
    counter is [i]. *)
Fixpoint body (data : list Z) (n : nat) (i : Z) (h : Z * Z) : Z * Z :=
  match n with
  | O => h
  | S n' =>
      let k1 := load64 data ((i * 2 + 0) * 8) in
      let k2 := load64 data ((i * 2 + 1) * 8) in
      body data n' (i + 1) (block_step k1 k2 h)
  end.

(** A [case c:] label of the fall-through [switch (lenBytes & 15)]: its
    statement runs when the switch was entered at [c] or above. *)
Definition from_case (rem c : Z) (k : Z) (b : Z) (sh : Z) : Z :=
  if c <=? rem then Z.lxor k (Z.shiftl b sh) else k.

Definition tail_k2 (tail : Z -> Z) (rem : Z) : Z :=
  let k2 := 0 in
  let k2 := from_case rem 15 k2 (tail 14) 48 in
  let k2 := from_case rem 14 k2 (tail 13) 40 in
  let k2 := from_case rem 13 k2 (tail 12) 32 in
  let k2 := from_case rem 12 k2 (tail 11) 24 in
  let k2 := from_case rem 11 k2 (tail 10) 16 in
  let k2 := from_case rem 10 k2 (tail 9) 8 in
  let k2 := from_case rem 9 k2 (tail 8) 0 in
  k2.

Definition tail_k1 (tail : Z -> Z) (rem : Z) : Z :=
  let k1 := 0 in
  let k1 := from_case rem 8 k1 (tail 7) 56 in
  let k1 := from_case rem 7 k1 (tail 6) 48 in
  let k1 := from_case rem 6 k1 (tail 5) 40 in
  let k1 := from_case rem 5 k1 (tail 4) 32 in
  let k1 := from_case rem 4 k1 (tail 3) 24 in
  let k1 := from_case rem 3 k1 (tail 2) 16 in
  let k1 := from_case rem 2 k1 (tail 1) 8 in
  let k1 := from_case rem 1 k1 (tail 0) 0 in
  k1.

(** The finalization shared by every overload; [len] is [lenBytes] or
    [sizeof(k)]. *)
Definition finalize (len : Z) (h : Z * Z) : Z :=
  let '(h1, h2) := h in
  let h1 := Z.lxor h1 len in
  let h2 := Z.lxor h2 len in
  let h1 := u64 (h1 + h2) in
  let h2 := u64 (h2 + h1) in
  let h1 := fmix64 h1 in
  let h2 := fmix64 h2 in
  let h1 := u64 (h1 + h2) in
  let h2 := u64 (h2 + h1) in
  Z.lor h1 (Z.shiftl h2 64).

(** The general byte routine [MurmurHash3_x64_128(key, lenBytes, seed)]. *)
Definition MurmurHash3_x64_128 (data : list Z) (lenBytes : Z) (seed : Z) : Z :=
  let h1 := seed in
  let h2 := seed in
  let nblocks := Z.shiftr lenBytes 4 in
  let '(h1, h2) := body data (Z.to_nat nblocks) 0 (h1, h2) in
  let tail := fun i => byte_at data (Z.shiftl nblocks 4 + i) in
  let rem := Z.land lenBytes 15 in
  let h2 := if 9 <=? rem then Z.lxor h2 (mix_k2 (tail_k2 tail rem)) else h2 in
  let h1 := if 1 <=? rem then Z.lxor h1 (mix_k1 (tail_k1 tail rem)) else h1 in
  finalize lenBytes (h1, h2).

(** The overloads for [uint8_t], [uint16_t], [uint32_t] and [uint64_t] have
    the same text; [size] is [sizeof(k)]. *)
Definition MurmurHash3_small (size : Z) (k : Z) (seed : Z) : Z :=
  let h1 := seed in
  let h2 := seed in
  let k1 := 0 in
  let k1 := Z.lxor k1 k in
  let h1 := Z.lxor h1 (mix_k1 k1) in
  finalize size (h1, h2).

Definition MurmurHash3_x64_128_u8 (k seed : Z) : Z := MurmurHash3_small 1 k seed.
Definition MurmurHash3_x64_128_u16 (k seed : Z) : Z := MurmurHash3_small 2 k seed.
Definition MurmurHash3_x64_128_u32 (k seed : Z) : Z := MurmurHash3_small 4 k seed.
Definition MurmurHash3_x64_128_u64 (k seed : Z) : Z := MurmurHash3_small 8 k seed.

(** The overload for [__uint128_t]. *)
Definition MurmurHash3_x64_128_u128 (k seed : Z) : Z :=
  let h1 := seed in
  let h2 := seed in
  let k1 := u64 k in
  let k2 := u64 (Z.shiftr k 64) in
  finalize 16 (block_step k1 k2 (h1, h2)).

(** The little-endian object representation of an [n]-byte key. *)
Fixpoint le_bytes (n : nat) (k : Z) : list Z :=
  match n with
  | O => []
  | S n' => Z.land k 255 :: le_bytes n' (Z.shiftr k 8)
  end.

End Murmur.

(** ** Bit counting

    [__builtin_ctz] / [__builtin_ctzll]: the number of trailing zero bits.
    The C++ result is undefined at [0]; the model returns [0] there. *)

Fixpoint ctz_pos (p : positive) : Z :=
  match p with
  | xO p' => 1 + ctz_pos p'
  | _ => 0
  end.

Definition ctz (x : Z) : Z :=
  match x with
  | Zpos p => ctz_pos p
  | _ => 0
  end.

(** ** [detail::Hash] *)

Module Hash.

Definition kSeed : Z := 9001.

(** Keys are given by their object representation: an arithmetic key of [n]
    bytes is the unsigned integer its [8n] bits spell, so [static_cast] between
    a signed type and its unsigned counterpart and the [reinterpret_cast] of a
    floating-point key are the identity. *)
Inductive key : Type :=
  | KInt16 (bits : Z)
  | KInt32 (bits : Z)
  | KInt64 (bits : Z)
  | KInt128 (bits : Z)
  | KFloat (bits : Z)
  | KDouble (bits : Z)
  | KString (chars : list Z)
  | KUInt8 (bits : Z)
  | KUInt16 (bits : Z)
  | KUInt32 (bits : Z)
  | KUInt64 (bits : Z)
  | KUInt128 (bits : Z).

(** [fp_hash_bits(const float&)]: [(i & kMask) ? i : 0] with
    [kMask = numeric_limits<int32_t>::max()]. *)
Definition fp_hash_bits_float (i : Z) : Z :=
  let kMask := 2 ^ 31 - 1 in
  if negb (Z.land i kMask =? 0) then i else 0.

(** [fp_hash_bits(const double&)], [kMask = numeric_limits<int64_t>::max()]. *)
Definition fp_hash_bits_double (i : Z) : Z :=
  let kMask := 2 ^ 63 - 1 in
  if negb (Z.land i kMask =? 0) then i else 0.

(** [Hash(key, seed)]: the [if constexpr] chain, the last branch resolved by
    overloading on the unsigned key type. *)
Definition Hash (k : key) (seed : Z) : Z :=
  match k with
  | KInt16 b => Murmur.MurmurHash3_x64_128_u16 b seed
  | KInt32 b => Murmur.MurmurHash3_x64_128_u32 b seed
  | KInt64 b => Murmur.MurmurHash3_x64_128_u64 b seed
  | KInt128 b => Murmur.MurmurHash3_x64_128_u128 b seed
  | KFloat b => Murmur.MurmurHash3_x64_128_u32 (fp_hash_bits_float b) seed
  | KDouble b => Murmur.MurmurHash3_x64_128_u64 (fp_hash_bits_double b) seed
  | KString s => Murmur.MurmurHash3_x64_128 s (Z.of_nat (length s)) seed
  | KUInt8 b => Murmur.MurmurHash3_x64_128_u8 b seed
  | KUInt16 b => Murmur.MurmurHash3_x64_128_u16 b seed
  | KUInt32 b => Murmur.MurmurHash3_x64_128_u32 b seed
  | KUInt64 b => Murmur.MurmurHash3_x64_128_u64 b seed
  | KUInt128 b => Murmur.MurmurHash3_x64_128_u128 b seed
  end.

Definition Hash_default (k : key) : Z := Hash k kSeed.

(** [roll_down]: the result is truncated to [uint64_t]. *)
Definition roll_down (hash : Z) : Z := u64 (Z.lxor hash (Z.shiftr hash 64)).

(** The reading of the specification: the sign bit is cleared from the bit
    pattern before hashing (which also sends both zeros to [0]). *)
Definition sign_masked (width : Z) (bits : Z) : Z :=
  Z.land bits (Z.ones (width - 1)).

Definition Hash_float_spec (bits seed : Z) : Z :=
  Murmur.MurmurHash3_x64_128_u32 (sign_masked 32 bits) seed.

Definition Hash_double_spec (bits seed : Z) : Z :=
  Murmur.MurmurHash3_x64_128_u64 (sign_masked 64 bits) seed.

(** What the code hashes: the whole bit pattern, sign included, unless the
    key is one of the two zeros. *)
Definition zero_canonical (width : Z) (bits : Z) : Z :=
  if (bits =? 0) || (bits =? 2 ^ (width - 1)) then 0 else bits.

(** [sizeof(key)] of an arithmetic key, [key.size()] of a string. *)
Definition key_size (k : key) : nat :=
  match k with
  | KUInt8 _ => 1
  | KInt16 _ | KUInt16 _ => 2
  | KInt32 _ | KUInt32 _ | KFloat _ => 4
  | KInt64 _ | KUInt64 _ | KDouble _ => 8
  | KInt128 _ | KUInt128 _ => 16
  | KString s => length s
  end.

(** The bytes at [&key] ([key.data()] for a string); the machine is
    little-endian. *)
Definition key_bytes (k : key) : list Z :=
  match k with
  | KString s => s
  | KInt16 b | KInt32 b | KInt64 b | KInt128 b | KFloat b | KDouble b
  | KUInt8 b | KUInt16 b | KUInt32 b | KUInt64 b | KUInt128 b =>
      Murmur.le_bytes (key_size k) b
  end.

(** [HashNoUnroll(key)]: both branches of the [if constexpr] hand the bytes
    of the key and their number to the byte routine. *)
Definition HashNoUnroll (k : key) : Z :=
  Murmur.MurmurHash3_x64_128 (key_bytes k) (Z.of_nat (key_size k)) kSeed.

End Hash.

(** ** Count Sketch, [final::CountSketch<T, t, d>] *)

Module CS.

(** Two's complement [int64_t]. *)
Definition s64 (x : Z) : Z := (x + 2 ^ 63) mod 2 ^ 64 - 2 ^ 63.

Section CountSketch.

(** The template parameters. *)
Variables t d : Z.

Definition hash_bits : Z := ctz (2 * t).

(** [HashExtract(hash, j)]; [hashes], [h] and [g] are [uint32_t]. *)
Definition HashExtract (hash : Z) (j : Z) : Z * Z :=
  let hashes :=
    if ctz (2 * t) * d <=? 128 / 2 then
      let lower_hash := u64 hash in
      u32 (Z.shiftr lower_hash (j * hash_bits) mod t)
    else
      u32 (Z.shiftr hash (j * hash_bits) mod t) in
  let h := Z.shiftr hashes 1 in
  let g := Z.land hashes 1 in
  let sign := s64 (g * 2 - 1) in
  (h, sign).

(** [GetCounter(j, h) += sign] on the counter array [C]. *)
Definition add_counter (C : list Z) (j h sign : Z) : list Z :=
  let idx := Z.to_nat (j * t + h) in
  <[idx := s64 (C !!! idx + sign)]> C.

(** [for (size_t j = 0; j < d; j++)]: [n] iterations remain. *)
Fixpoint Insert_loop (hash : Z) (n : nat) (j : Z) (C : list Z) : list Z :=
  match n with
  | O => C
  | S n' =>
      let '(h, sign) := HashExtract hash j in
      Insert_loop hash n' (j + 1) (add_counter C j h sign)
  end.

(** [Insert(const __uint128_t& hash)]. *)
Definition Insert_hash (hash : Z) (C : list Z) : list Z :=
  Insert_loop hash (Z.to_nat d) 0 C.

(** [Insert(const T& value)]. *)
Definition Insert (value : Hash.key) (C : list Z) : list Z :=
  Insert_hash (Hash.Hash_default value) C.

(** [Insert(const T& value)] of [final_no_murmur_unroll::CountSketch], which
    has the text of this class but for the hash it calls. *)
Definition Insert_no_murmur_unroll (value : Hash.key) (C : list Z) : list Z :=
  Insert_hash (Hash.HashNoUnroll value) C.

(** The row update as the specification words it: the slice is reduced
    modulo [2t]. *)
Definition slice_spec (hash : Z) (j : Z) : Z :=
  let B := Z.log2_up (2 * t) in
  let H := if B * d <=? 64 then u64 hash else hash in
  Z.shiftr H (j * B) mod (2 * t).

Definition HashExtract_spec (hash : Z) (j : Z) : Z * Z :=
  let s := slice_spec hash j in
  (Z.shiftr s 1, 2 * Z.land s 1 - 1).

End CountSketch.

End CS.

(** ** [include/fastrange.hpp] *)

Module FastRange.

(** [fastrange32]: the product is taken in [uint64_t]. *)
Definition fastrange32 (word p : Z) : Z :=
  u32 (Z.shiftr (u64 (u64 word * u64 p)) 32).

(** [fastrange64]: the product is taken in [__uint128_t]. *)
Definition fastrange64 (word p : Z) : Z :=
  u64 (Z.shiftr (u128 (u128 word * u128 p)) 64).

End FastRange.

(** ** The count sketches with one seed per row,
    [fixed_size::CountSketch<T, t, d>] and [fastrange::CountSketch<T>] *)

Module CSSeeded.

Section CountSketch.

(** The template parameters of the one, the members [t_] and [d_] of the
    other. *)
Variables t d : Z.

(** [((hash >> 127) & 1) ? 1 : -1]. *)
Definition sign_of (hash : Z) : Z :=
  if negb (Z.land (Z.shiftr hash 127) 1 =? 0) then 1 else -1.

(** [fixed_size::CountSketch::Insert]: [n] iterations remain.  [seeds_]
    holds [__uint128_t] values and the seed of [Hash] is a [uint64_t]. *)
Fixpoint fixed_size_loop (value : Hash.key) (seeds : list Z) (n : nat)
    (i : Z) (C : list Z) : list Z :=
  match n with
  | O => C
  | S n' =>
      let hash := Hash.Hash value (u64 (seeds !!! Z.to_nat i)) in
      let h := u64 hash mod t in
      let sign := sign_of hash in
      fixed_size_loop value seeds n' (i + 1) (CS.add_counter t C i h sign)
  end.

Definition fixed_size_Insert (value : Hash.key) (seeds : list Z)
    (C : list Z) : list Z :=
  fixed_size_loop value seeds (Z.to_nat d) 0 C.

(** [fastrange::CountSketch::Insert]. *)
Fixpoint fastrange_loop (value : Hash.key) (seeds : list Z) (n : nat)
    (i : Z) (C : list Z) : list Z :=
  match n with
  | O => C
  | S n' =>
      let hash := Hash.Hash value (u64 (seeds !!! Z.to_nat i)) in
      let h := FastRange.fastrange64 (u64 hash) t in
      let sign := sign_of hash in
      fastrange_loop value seeds n' (i + 1) (CS.add_counter t C i h sign)
  end.

Definition fastrange_Insert (value : Hash.key) (seeds : list Z)
    (C : list Z) : list Z :=
  fastrange_loop value seeds (Z.to_nat d) 0 C.

End CountSketch.

End CSSeeded.

(** ** The baseline of [src/cs/cs_datasketches.hpp],
    [datasketches::CountMinSketch<T>] with [W = uint64_t] *)

Module CountMin.

Record sketch : Type := Sketch {
  _num_hashes : Z;
  _num_buckets : Z;
  _sketch_array : list Z;
  _seed : Z;
  _total_weight : Z;
  hash_seeds : list Z
}.

(** The constructor.  [num_hashes] is a [uint8_t] and [num_buckets] a
    [uint32_t], so their product is computed in [unsigned int]; [draws i] is
    the [i]-th value [extra_hash_seeds(rng)] returns.  The member
    initialisers run first, then the two checks; [None] stands for the
    exception either of them throws. *)
Definition CountMinSketch (draws : nat -> Z) (num_hashes num_buckets seed : Z)
    : option sketch :=
  let array :=
    replicate
      (Z.to_nat (if u32 (num_hashes * num_buckets) <? Z.shiftl 1 30
                 then u32 (num_hashes * num_buckets) else 0)) 0 in
  if num_buckets <? 3 then None
  else if Z.shiftl 1 30 <=? u32 (num_buckets * num_hashes) then None
  else
    Some {| _num_hashes := num_hashes;
            _num_buckets := num_buckets;
            _sketch_array := array;
            _seed := seed;
            _total_weight := 0;
            hash_seeds :=
              map (fun i => u64 (draws i + seed))
                  (seq 0 (Z.to_nat num_hashes)) |}.

(** The loop of [get_hashes] over [hash_seeds]; the result is the vector
    [sketch_update_locations]. *)
Fixpoint get_hashes_loop (num_buckets : Z) (item : list Z) (size : Z)
    (seeds : list Z) (hash_seed_index : Z) : list Z :=
  match seeds with
  | [] => []
  | it :: seeds' =>
      let hashes := Murmur.MurmurHash3_x64_128 item size it in
      let hash := u64 hashes in
      let bucket_index := hash mod num_buckets in
      u64 (u64 (hash_seed_index * num_buckets) + bucket_index) ::
      get_hashes_loop num_buckets item size seeds' (u64 (hash_seed_index + 1))
  end.

Definition get_hashes (s : sketch) (item : list Z) (size : Z) : list Z :=
  get_hashes_loop (_num_buckets s) item size (hash_seeds s) 0.

(** [for (const auto h : hash_locations) _sketch_array[h] += weight;];
    indexing the vector out of its bounds is undefined: [None]. *)
Fixpoint add_weight (array : list Z) (hash_locations : list Z) (weight : Z)
    : option (list Z) :=
  match hash_locations with
  | [] => Some array
  | h :: rest =>
      if bool_decide (Z.to_nat h < length array)%nat
      then add_weight
             (<[Z.to_nat h := u64 (array !!! Z.to_nat h + weight)]> array)
             rest weight
      else None
  end.

(** [update]; [weight >= 0] holds for every [uint64_t]. *)
Definition update (s : sketch) (item : list Z) (size : Z) (weight : Z)
    : option sketch :=
  let total := u64 (_total_weight s + weight) in
  match add_weight (_sketch_array s) (get_hashes s item size) weight with
  | Some array =>
      Some {| _num_hashes := _num_hashes s;
              _num_buckets := _num_buckets s;
              _sketch_array := array;
              _seed := _seed s;
              _total_weight := total;
              hash_seeds := hash_seeds s |}
  | None => None
  end.

(** [Insert(value)] is [update(&value, sizeof(value), 1)]: [item] holds the
    [sizeof(value)] bytes of the object [value]; for an arithmetic key these
    are the bytes of its bit pattern, [Hash.key_bytes]. *)
Definition Insert (s : sketch) (item : list Z) : option sketch :=
  update s item (Z.of_nat (length item)) 1.

(** A stream of inserts, first element first. *)
Fixpoint Insert_all (s : sketch) (items : list (list Z)) : option sketch :=
  match items with
  | [] => Some s
  | item :: items' =>
      match Insert s item with
      | Some s' => Insert_all s' items'
      | None => None
      end
  end.

End CountMin.

(** ** AVX2 equality scans, [include/simd.hpp]

    A [__m256i] is the list of its lanes, lane [0] first; the width of a lane
    is the one of the intrinsic that produced the vector.  The intrinsics
    follow the Intel reference. *)

Module Simd.

(** [_mm256_loadu_si256(keys)], read as [n] lanes. *)
Definition loadu (n : nat) (keys : list Z) : list Z := take n keys.

Definition broadcast_epi16 (x : Z) : list Z := replicate 16 x.
Definition broadcast_epi32 (x : Z) : list Z := replicate 8 x.
Definition broadcast_epi64 (x : Z) : list Z := replicate 4 x.

(** Lane-wise equality: all ones in a lane that matches. *)
Definition cmpeq (w : Z) (a b : list Z) : list Z :=
  zip_with (fun x y => if x =? y then Z.ones w else 0) a b.

Definition mm256_cmpeq_epi16 := cmpeq 16.
Definition mm256_cmpeq_epi32 := cmpeq 32.
Definition mm256_cmpeq_epi64 := cmpeq 64.

(** Signed saturation of a 16-bit lane to a byte. *)
Definition saturate_i16_i8 (x : Z) : Z :=
  let s := if x <? 2 ^ 15 then x else x - 2 ^ 16 in
  u8 (Z.max (-128) (Z.min 127 s)).

(** [_mm256_packs_epi16(a, b)]: within each 128-bit half, the eight lanes of
    [a] and then the eight lanes of [b]. *)
Definition mm256_packs_epi16 (a b : list Z) : list Z :=
  map saturate_i16_i8 (take 8 a ++ take 8 b ++ drop 8 a ++ drop 8 b).

Definition MM_SHUFFLE (z y x w : Z) : Z :=
  Z.lor (Z.shiftl z 6) (Z.lor (Z.shiftl y 4) (Z.lor (Z.shiftl x 2) w)).

(** [_mm256_permute4x64_epi64(x, imm)] on a vector of 32 bytes: quadword [i]
    of the result is quadword [(imm >> 2i) & 3] of [x]. *)
Definition qword (x : list Z) (i : Z) : list Z :=
  take 8 (drop (8 * Z.to_nat i) x).

Definition mm256_permute4x64_epi64 (x : list Z) (imm : Z) : list Z :=
  qword x (Z.land imm 3) ++
  qword x (Z.land (Z.shiftr imm 2) 3) ++
  qword x (Z.land (Z.shiftr imm 4) 3) ++
  qword x (Z.land (Z.shiftr imm 6) 3).

(** The most significant bit of every [w]-bit lane, lane [i] at bit [i]. *)
Fixpoint msb_mask (w : Z) (x : list Z) : Z :=
  match x with
  | [] => 0
  | a :: x' => Z.b2z (Z.testbit a (w - 1)) + 2 * msb_mask w x'
  end.

(** The movemask intrinsics return [int]; the wrappers return [uint64_t], so
    the conversion extends the sign. *)
Definition int_to_u64 (m : Z) : Z :=
  u64 (if m <? 2 ^ 31 then m else m - 2 ^ 32).

Definition movemask_epi8 (x : list Z) : Z := int_to_u64 (msb_mask 8 x).
Definition movemask_epi32 (x : list Z) : Z := int_to_u64 (msb_mask 32 x).
Definition movemask_epi64 (x : list Z) : Z := int_to_u64 (msb_mask 64 x).

(** [m |= x << s] on [uint64_t]. *)
Definition or_shl (m x s : Z) : Z := Z.lor m (u64 (Z.shiftl x s)).

Definition Compare64Keys16Bit (v keys : list Z) : Z :=
  let x1 := loadu 16 keys in
  let x2 := loadu 16 (drop 16 keys) in
  let x3 := loadu 16 (drop 32 keys) in
  let x4 := loadu 16 (drop 48 keys) in
  let x1 := mm256_cmpeq_epi16 x1 v in
  let x2 := mm256_cmpeq_epi16 x2 v in
  let x3 := mm256_cmpeq_epi16 x3 v in
  let x4 := mm256_cmpeq_epi16 x4 v in
  let x12 := mm256_packs_epi16 x1 x2 in
  let x34 := mm256_packs_epi16 x3 x4 in
  let x12 := mm256_permute4x64_epi64 x12 (MM_SHUFFLE 3 1 2 0) in
  let x34 := mm256_permute4x64_epi64 x34 (MM_SHUFFLE 3 1 2 0) in
  let m := movemask_epi8 x12 in
  let m := or_shl m (movemask_epi8 x34) 32 in
  m.

Definition Compare32Keys16Bit (v keys : list Z) : Z :=
  let x1 := loadu 16 keys in
  let x2 := loadu 16 (drop 16 keys) in
  let x1 := mm256_cmpeq_epi16 x1 v in
  let x2 := mm256_cmpeq_epi16 x2 v in
  let x12 := mm256_packs_epi16 x1 x2 in
  let x12 := mm256_permute4x64_epi64 x12 (MM_SHUFFLE 3 1 2 0) in
  let m := movemask_epi8 x12 in
  m.

Definition Compare64Keys32Bit (v keys : list Z) : Z :=
  let x1 := loadu 8 keys in
  let x2 := loadu 8 (drop 8 keys) in
  let x3 := loadu 8 (drop 16 keys) in
  let x4 := loadu 8 (drop 24 keys) in
  let x5 := loadu 8 (drop 32 keys) in
  let x6 := loadu 8 (drop 40 keys) in
  let x7 := loadu 8 (drop 48 keys) in
  let x8 := loadu 8 (drop 56 keys) in
  let x1 := mm256_cmpeq_epi32 x1 v in
  let x2 := mm256_cmpeq_epi32 x2 v in
  let x3 := mm256_cmpeq_epi32 x3 v in
  let x4 := mm256_cmpeq_epi32 x4 v in
  let x5 := mm256_cmpeq_epi32 x5 v in
  let x6 := mm256_cmpeq_epi32 x6 v in
  let x7 := mm256_cmpeq_epi32 x7 v in
  let x8 := mm256_cmpeq_epi32 x8 v in
  let m := movemask_epi32 x1 in
  let m := or_shl m (movemask_epi32 x2) 8 in
  let m := or_shl m (movemask_epi32 x3) 16 in
  let m := or_shl m (movemask_epi32 x4) 24 in
  let m := or_shl m (movemask_epi32 x5) 32 in
  let m := or_shl m (movemask_epi32 x6) 40 in
  let m := or_shl m (movemask_epi32 x7) 48 in
  let m := or_shl m (movemask_epi32 x8) 56 in
  m.

Definition Compare32Keys32Bit (v keys : list Z) : Z :=
  let x1 := loadu 8 keys in
  let x2 := loadu 8 (drop 8 keys) in
  let x3 := loadu 8 (drop 16 keys) in
  let x4 := loadu 8 (drop 24 keys) in
  let x1 := mm256_cmpeq_epi32 x1 v in
  let x2 := mm256_cmpeq_epi32 x2 v in
  let x3 := mm256_cmpeq_epi32 x3 v in
  let x4 := mm256_cmpeq_epi32 x4 v in
  let m := movemask_epi32 x1 in
  let m := or_shl m (movemask_epi32 x2) 8 in
  let m := or_shl m (movemask_epi32 x3) 16 in
  let m := or_shl m (movemask_epi32 x4) 24 in
  m.

Definition Compare32Keys64Bit (v keys : list Z) : Z :=
  let x1 := loadu 4 keys in
  let x2 := loadu 4 (drop 4 keys) in
  let x3 := loadu 4 (drop 8 keys) in
  let x4 := loadu 4 (drop 12 keys) in
  let x5 := loadu 4 (drop 16 keys) in
  let x6 := loadu 4 (drop 20 keys) in
  let x7 := loadu 4 (drop 24 keys) in
  let x8 := loadu 4 (drop 28 keys) in
  let x1 := mm256_cmpeq_epi64 x1 v in
  let x2 := mm256_cmpeq_epi64 x2 v in
  let x3 := mm256_cmpeq_epi64 x3 v in
  let x4 := mm256_cmpeq_epi64 x4 v in
  let x5 := mm256_cmpeq_epi64 x5 v in
  let x6 := mm256_cmpeq_epi64 x6 v in
  let x7 := mm256_cmpeq_epi64 x7 v in
  let x8 := mm256_cmpeq_epi64 x8 v in
  let m := movemask_epi64 x1 in
  let m := or_shl m (movemask_epi64 x2) 4 in
  let m := or_shl m (movemask_epi64 x3) 8 in
  let m := or_shl m (movemask_epi64 x4) 12 in
  let m := or_shl m (movemask_epi64 x5) 16 in
  let m := or_shl m (movemask_epi64 x6) 20 in
  let m := or_shl m (movemask_epi64 x7) 24 in
  let m := or_shl m (movemask_epi64 x8) 28 in
  m.

End Simd.

(** ** SpaceSaving for arithmetic keys, [final::SpaceSaving<T, K>] *)

Module SS.

(** The arithmetic key types the specialisation compiles for. *)
Inductive arith : Type :=
  | Int16 | UInt16 | Int32 | UInt32 | Float | Int64 | UInt64 | Double.

Definition sizeof (T : arith) : Z :=
  match T with
  | Int16 | UInt16 => 2
  | Int32 | UInt32 | Float => 4
  | Int64 | UInt64 | Double => 8
  end.

Definition is_floating_point (T : arith) : bool :=
  match T with
  | Float | Double => true
  | _ => false
  end.

Definition width (T : arith) : Z := 8 * sizeof T.

(** The bit pattern of the IEEE-754 number the conversion of the integer
    [i] yields, for a format with [mbits] mantissa bits and exponent bias
    [bias]: an integer below [2 ^ (mbits + 1)] is represented exactly, a
    larger one is rounded to the nearest representable number, a tie to the
    one with an even mantissa (a carry out of the mantissa raises the
    exponent). *)
Definition fp_of_index (bias mbits : Z) (i : Z) : Z :=
  if i =? 0 then 0
  else
    let e := Z.log2 i in
    if e <=? mbits then
      Z.lor (Z.shiftl (e + bias) mbits) (Z.shiftl (i - 2 ^ e) (mbits - e))
    else
      let dropped := e - mbits in
      let q := Z.shiftr i dropped in
      let rest := Z.land i (Z.ones dropped) in
      let half := 2 ^ (dropped - 1) in
      let q :=
        if (half <? rest) || ((rest =? half) && Z.odd q) then q + 1 else q in
      Z.shiftl (e + bias) mbits + (q - 2 ^ mbits).

(** The conversion [sequence[i] = i] from [size_t] to [T]. *)
Definition of_index (T : arith) (i : nat) : Z :=
  match T with
  | Float => fp_of_index 127 23 (Z.of_nat i)
  | Double => fp_of_index 1023 52 (Z.of_nat i)
  | _ => Z.of_nat i mod 2 ^ width T
  end.

(** [detail::sequence<T, K>()]. *)
Definition sequence (T : arith) (K : nat) : list Z :=
  map (of_index T) (seq 0 K).

(** [value == kZero] on a floating-point bit pattern: both zeros, and nothing
    else, compare equal to [0.0]. *)
Definition fp_is_zero (T : arith) (bits : Z) : bool :=
  Z.land bits (Z.ones (width T - 1)) =? 0.

Record sketch : Type := Sketch { values : list Z; weights : list Z }.

Section SpaceSaving.

(** The template parameters. *)
Variable T : arith.
Variable K : nat.

(** The default member initialisers. *)
Definition init : sketch :=
  {| values := sequence T K; weights := replicate K 0 |}.

Definition Normalized (value : Z) : Z :=
  if is_floating_point T then
    let kZero := 0 in
    if fp_is_zero T value then kZero else value
  else value.

(** The [while (child < K)] loop of [SiftDown]; it hands back the arrays and
    the final [parent]. *)
Fixpoint SiftDown_loop (fuel : nat) (weight : Z) (ws vs : list Z)
    (parent child : nat) : list Z * list Z * nat :=
  match fuel with
  | O => (ws, vs, parent)
  | S fuel' =>
      if (child <? K)%nat then
        let right_child := (child + 1)%nat in
        let child :=
          if (right_child <? K)%nat && (ws !!! child >? ws !!! right_child)
          then right_child else child in
        if negb (weight >? ws !!! child) then (ws, vs, parent)
        else
          let ws := <[parent := ws !!! child]> ws in
          let vs := <[parent := vs !!! child]> vs in
          let parent := child in
          let child := (2 * parent + 1)%nat in
          SiftDown_loop fuel' weight ws vs parent child
      else (ws, vs, parent)
  end.

Definition SiftDown (s : sketch) (i : nat) : sketch :=
  let weight := weights s !!! i in
  let value := values s !!! i in
  let parent := i in
  let child := (2 * parent + 1)%nat in
  let '(ws, vs, parent) :=
    SiftDown_loop K weight (weights s) (values s) parent child in
  {| values := <[parent := value]> vs; weights := <[parent := weight]> ws |}.

Definition UpdateHeap (s : sketch) (value : Z) (i : nat) : sketch :=
  let ws := <[i := u64 (weights s !!! i + 1)]> (weights s) in
  let vs := <[i := value]> (values s) in
  SiftDown {| values := vs; weights := ws |} i.

(** [for (; i + N <= K; i += N)] around one of the block comparisons:
    [inl r] when the body returned [r], [inr i] when the loop ran out with
    counter [i]. *)
Fixpoint scan_blocks (N : nat) (cmp : list Z -> Z) (data : list Z)
    (fuel : nat) (i : nat) : nat + nat :=
  match fuel with
  | O => inr i
  | S fuel' =>
      if (i + N <=? K)%nat then
        let mask := cmp (drop i data) in
        if negb (mask =? 0) then inl (i + Z.to_nat (ctz mask))%nat
        else scan_blocks N cmp data fuel' (i + N)%nat
      else inr i
  end.

(** [Find<NotFound>(value)]. *)
Definition Find (NotFound : nat) (s : sketch) (value : Z) : nat :=
  let i := 0%nat in
  let data := values s in
  match sizeof T with
  | 2 =>
      let v := Simd.broadcast_epi16 value in
      match scan_blocks 64 (Simd.Compare64Keys16Bit v) data K i with
      | inl r => r
      | inr i =>
          match scan_blocks 32 (Simd.Compare32Keys16Bit v) data K i with
          | inl r => r
          | inr _ => NotFound
          end
      end
  | 4 =>
      let v := Simd.broadcast_epi32 value in
      match scan_blocks 64 (Simd.Compare64Keys32Bit v) data K i with
      | inl r => r
      | inr i =>
          match scan_blocks 32 (Simd.Compare32Keys32Bit v) data K i with
          | inl r => r
          | inr _ => NotFound
          end
      end
  | _ =>
      let v := Simd.broadcast_epi64 value in
      match scan_blocks 32 (Simd.Compare32Keys64Bit v) data K i with
      | inl r => r
      | inr _ => NotFound
      end
  end.

Definition Insert (s : sketch) (v : Z) : sketch :=
  let value := Normalized v in
  let i := Find 0 s value in
  UpdateHeap s value i.

(** A stream of inserts, first element first. *)
Definition Insert_all (s : sketch) (vs : list Z) : sketch :=
  fold_left Insert vs s.

End SpaceSaving.

End SS.

(** ** The baseline of [src/ss/ss_heap.hpp], [heap::SpaceSaving<T>] *)

Module SSHeap.

(** The number of fraction bits of a floating-point type. *)
Definition fraction_bits (T : SS.arith) : Z :=
  match T with
  | SS.Float => 23
  | SS.Double => 52
  | _ => 0
  end.

(** A NaN is a pattern whose magnitude lies above that of infinity. *)
Definition is_nan (T : SS.arith) (bits : Z) : bool :=
  SS.is_floating_point T &&
  (Z.land bits (Z.ones (SS.width T - 1)) >?
   Z.shiftl (Z.ones (SS.width T - 1 - fraction_bits T)) (fraction_bits T)).

(** [a == b] on two values of type [T] given by their bit patterns. *)
Definition equal (T : SS.arith) (a b : Z) : bool :=
  if SS.is_floating_point T then
    negb (is_nan T a) && negb (is_nan T b) &&
    ((a =? b) || (SS.fp_is_zero T a && SS.fp_is_zero T b))
  else a =? b.

(** [std::find(values.begin(), values.end(), value)]: the position of the
    first element equal to [value], [None] for [values.end()]. *)
Fixpoint find (T : SS.arith) (value : Z) (vs : list Z) : option nat :=
  match vs with
  | [] => None
  | a :: vs' => if equal T a value then Some 0%nat else S <$> find T value vs'
  end.

Section SpaceSaving.

Variable T : SS.arith.

(** The member [k_]. *)
Variable k_ : nat.

(** The constructor: [values(detail::sequence<T>(k_)), weights(k_, 0)]. *)
Definition init : SS.sketch := SS.init T k_.

(** [Insert]; [Normalized], [UpdateHeap] and [SiftDown] have the text of
    the final class, with [k_] for [K]. *)
Definition Insert (s : SS.sketch) (v : Z) : SS.sketch :=
  let value := SS.Normalized T v in
  let i :=
    match find T value (SS.values s) with
    | Some j => j
    | None => 0%nat
    end in
  SS.UpdateHeap k_ s value i.

Definition Insert_all (s : SS.sketch) (vs : list Z) : SS.sketch :=
  fold_left Insert vs s.

End SpaceSaving.

End SSHeap.
(** ** The baseline of [src/ss/ss_naive.hpp], [naive::SpaceSaving<T>] *)

Module SSNaive.

(** [std::min_element(first, last)] on [uint64_t] weights: a loop from
    [first + 1] to [last] that moves [result] to an element only when it is
    smaller than the one at [result], so that the first of several least
    elements is returned. *)
Fixpoint min_element_loop (rest : list Z) (first result : nat) (least : Z)
    : nat :=
  match rest with
  | [] => result
  | w :: rest' =>
      if w <? least then min_element_loop rest' (S first) first w
      else min_element_loop rest' (S first) result least
  end.

(** [None] is the iterator [last], returned for an empty range. *)
Definition min_element (ws : list Z) : option nat :=
  match ws with
  | [] => None
  | w :: rest => Some (min_element_loop rest 1 0 w)
  end.

Section SpaceSaving.

Variable T : SS.arith.

(** The member [k_]. *)
Variable k_ : nat.

(** The constructor: [values(detail::sequence<T>(k_)), weights(k_, 0)]. *)
Definition init : SS.sketch := SS.init T k_.

(** [Insert]: the weight of the slot [std::find] returns is incremented; when
    it returns [values.end()], the slot [std::min_element] returns gets the
    value and one more weight.  With [k_ == 0] that iterator is
    [weights.end()] and incrementing through it is undefined: [None]. *)
Definition Insert (s : SS.sketch) (v : Z) : option SS.sketch :=
  let value := SS.Normalized T v in
  match SSHeap.find T value (SS.values s) with
  | Some i =>
      Some {| SS.values := SS.values s;
              SS.weights :=
                <[i := u64 (SS.weights s !!! i + 1)]> (SS.weights s) |}
  | None =>
      match min_element (SS.weights s) with
      | Some m =>
          Some {| SS.values := <[m := value]> (SS.values s);
                  SS.weights :=
                    <[m := u64 (SS.weights s !!! m + 1)]> (SS.weights s) |}
      | None => None
      end
  end.

(** A stream of inserts, first element first. *)
Fixpoint Insert_all (s : SS.sketch) (vs : list Z) : option SS.sketch :=
  match vs with
  | [] => Some s
  | v :: vs' =>
      match Insert s v with
      | Some s' => Insert_all s' vs'
      | None => None
      end
  end.

End SpaceSaving.

End SSNaive.

(** ** Notions used to state the properties of the SpaceSaving sketch *)

Module SSSpec.

(** The match mask of a block: bit [i] is set when [keys[i] = v]. *)
Fixpoint match_mask (v : Z) (keys : list Z) : Z :=
  match keys with
  | [] => 0
  | a :: keys' => Z.b2z (a =? v) + 2 * match_mask v keys'
  end.

(** The position of the first key equal to [v]. *)
Fixpoint find_first (v : Z) (keys : list Z) : option nat :=
  match keys with
  | [] => None
  | a :: keys' => if a =? v then Some 0%nat else S <$> find_first v keys'
  end.

(** The min-heap order on the array layout: every non-root entry is at least
    its parent. *)
Definition heap_ordered (ws : list Z) : Prop :=
  forall i : nat, (1 <= i < length ws)%nat -> ws !!! ((i - 1) / 2)%nat <= ws !!! i.

(** The heap order everywhere but between [p] and its children, with every
    child of [p] at least the parent of [p]. *)
Definition heap_but (ws : list Z) (p : nat) : Prop :=
  (forall i : nat, (1 <= i < length ws)%nat -> ((i - 1) / 2)%nat <> p ->
     ws !!! ((i - 1) / 2)%nat <= ws !!! i) /\
  (forall c : nat, (1 <= p)%nat -> (c < length ws)%nat ->
     ((c - 1) / 2)%nat = p -> (1 <= c)%nat ->
     ws !!! ((p - 1) / 2)%nat <= ws !!! c).

Definition sum_list (ws : list Z) : Z := foldr Z.add 0 ws.

(** The tracked (value, weight) pairs, slot by slot. *)
Definition pairs (s : SS.sketch) : list (Z * Z) :=
  zip (SS.values s) (SS.weights s).

(** The sketch is well formed for capacity [K]: both arrays have [K] slots
    and the weights are [uint64_t] values. *)
Definition well_formed (K : nat) (s : SS.sketch) : Prop :=
  length (SS.values s) = K /\ length (SS.weights s) = K /\
  Forall (fun w => 0 <= w < 2 ^ 64) (SS.weights s).

(** The comparison [Find] runs on a block of [N] keys of a [T] sketch. *)
Definition compare_block (T : SS.arith) (N : nat) (value : Z)
    (keys : list Z) : Z :=
  match SS.sizeof T, N with
  | 2, 64%nat => Simd.Compare64Keys16Bit (Simd.broadcast_epi16 value) keys
  | 2, _ => Simd.Compare32Keys16Bit (Simd.broadcast_epi16 value) keys
  | 4, 64%nat => Simd.Compare64Keys32Bit (Simd.broadcast_epi32 value) keys
  | 4, _ => Simd.Compare32Keys32Bit (Simd.broadcast_epi32 value) keys
  | _, _ => Simd.Compare32Keys64Bit (Simd.broadcast_epi64 value) keys
  end.

(** The block [Find] has reached when it inspects slot [i]: its base and its
    size.  Two- and four-byte keys go by blocks of 64 as long as a whole one
    fits and by blocks of 32 after that; eight-byte keys go by blocks of
    32. *)
Definition block_of (T : SS.arith) (K : nat) (i : nat) : nat * nat :=
  if SS.sizeof T =? 8 then ((i / 32) * 32, 32)%nat
  else if (i <? (K / 64) * 64)%nat then ((i / 64) * 64, 64)%nat
  else ((K / 64) * 64 + ((i - (K / 64) * 64) / 32) * 32, 32)%nat.

(** The mask of the block at [base]. *)
Definition mask_at (T : SS.arith) (s : SS.sketch) (value : Z)
    (block : nat * nat) : Z :=
  compare_block T (snd block) value (drop (fst block) (SS.values s)).

(** What [Find] needs of a block comparison [m] on [N] keys. *)
Definition finds_first (N : nat) (v : Z) (keys : list Z) (m : Z) : Prop :=
  0 <= m /\
  (m = 0 <-> find_first v (take N keys) = None) /\
  (forall i, find_first v (take N keys) = Some i -> ctz m = Z.of_nat i).

(** The state after [n] inserts: well formed, heap ordered, and the weights
    add up to [n]. *)
Definition counted (K : nat) (s : SS.sketch) (n : Z) : Prop :=
  well_formed K s /\ heap_ordered (SS.weights s) /\
  sum_list (SS.weights s) = n.

End SSSpec.

(** ** SpaceSaving for hashed keys, the second specialisation of
    [final::SpaceSaving<T, K>] *)

Module SSH.

Section SpaceSaving.

(** The key type with its [operator==] and its value-initialised object
    [T{}], and the template parameter [K]. *)
Context {T : Type} `{EqDecision T}.
Variable T_default : T.
Variable K : nat.

#[local] Instance T_inhabited : Inhabited T := populate T_default.

Record sketch : Type :=
  Sketch { hashes : list Z; weights : list Z; values : list T }.

(** The default member initialisers. *)
Definition init : sketch :=
  {| hashes := SS.sequence SS.UInt64 K;
     weights := replicate K 0;
     values := replicate K T_default |}.

(** The [while (child < K)] loop of [SiftDown].  A slot that
    [std::move] has emptied is the next slot written, so the moves are
    rendered as copies. *)
Fixpoint SiftDown_loop (fuel : nat) (weight : Z) (ws hs : list Z)
    (vs : list T) (parent child : nat) : list Z * list Z * list T * nat :=
  match fuel with
  | O => (ws, hs, vs, parent)
  | S fuel' =>
      if (child <? K)%nat then
        let right_child := (child + 1)%nat in
        let child :=
          if (right_child <? K)%nat && (ws !!! child >? ws !!! right_child)
          then right_child else child in
        if negb (weight >? ws !!! child) then (ws, hs, vs, parent)
        else
          let ws := <[parent := ws !!! child]> ws in
          let hs := <[parent := hs !!! child]> hs in
          let vs := <[parent := vs !!! child]> vs in
          let parent := child in
          let child := (2 * parent + 1)%nat in
          SiftDown_loop fuel' weight ws hs vs parent child
      else (ws, hs, vs, parent)
  end.

Definition SiftDown (s : sketch) (i : nat) : sketch :=
  let weight := weights s !!! i in
  let hash := hashes s !!! i in
  let value := values s !!! i in
  let parent := i in
  let child := (2 * parent + 1)%nat in
  let '(ws, hs, vs, parent) :=
    SiftDown_loop K weight (weights s) (hashes s) (values s) parent child in
  {| hashes := <[parent := hash]> hs;
     weights := <[parent := weight]> ws;
     values := <[parent := value]> vs |}.

Definition UpdateHeap (s : sketch) (value : T) (hash : Z) (i : nat) : sketch :=
  let hs := <[i := hash]> (hashes s) in
  let ws := <[i := u64 (weights s !!! i + 1)]> (weights s) in
  let vs := <[i := value]> (values s) in
  SiftDown {| hashes := hs; weights := ws; values := vs |} i.

(** [while (mask != 0)] over the matches of the block at [i]; [None] when
    the loop ends without a [return]. *)
Fixpoint match_loop (fuel : nat) (vs : list T) (value : T) (i : nat)
    (mask : Z) : option nat :=
  match fuel with
  | O => None
  | S fuel' =>
      if negb (mask =? 0) then
        let j := (i + Z.to_nat (ctz mask))%nat in
        if bool_decide (vs !!! j = value) then Some j
        else match_loop fuel' vs value i (Z.land mask (u64 (mask - 1)))
      else None
  end.

(** [for (size_t i = 0; i + 32 <= K; i += 32)]. *)
Fixpoint scan_blocks (s : sketch) (value : T) (hash : Z) (fuel : nat)
    (i : nat) : option nat :=
  match fuel with
  | O => None
  | S fuel' =>
      if (i + 32 <=? K)%nat then
        let mask :=
          Simd.Compare32Keys64Bit (Simd.broadcast_epi64 hash)
            (drop i (hashes s)) in
        match match_loop 64 (values s) value i mask with
        | Some j => Some j
        | None => scan_blocks s value hash fuel' (i + 32)%nat
        end
      else None
  end.

(** [Find<NotFound>(value, hash)]. *)
Definition Find (NotFound : nat) (s : sketch) (value : T) (hash : Z) : nat :=
  match scan_blocks s value hash K 0%nat with
  | Some j => j
  | None => NotFound
  end.

(** [Insert(const T& value, const __uint128_t& h)]. *)
Definition Insert_hashed (s : sketch) (value : T) (h : Z) : sketch :=
  let hash := Hash.roll_down h in
  let i := Find 0 s value hash in
  UpdateHeap s value hash i.

(** [Insert(const T& value)], [Hash_T] being [detail::Hash] on [T]. *)
Definition Insert (Hash_T : T -> Z) (s : sketch) (value : T) : sketch :=
  Insert_hashed s value (Hash_T value).

(** A stream of pre-hashed inserts, first element first. *)
Definition Insert_all (s : sketch) (xs : list (T * Z)) : sketch :=
  fold_left (fun s x => Insert_hashed s x.1 x.2) xs s.

End SpaceSaving.

End SSH.

(** ** Arrays indexed by machine integers *)

Definition rd {A : Type} `{Inhabited A} (l : list A) (i : Z) : A :=
  l !!! Z.to_nat i.

Definition wr {A : Type} (l : list A) (i : Z) (x : A) : list A :=
  <[Z.to_nat i := x]> l.

(** [arr[i] += delta] for [count] consecutive indices from [i] on, on
    [uint32_t] entries. *)
Fixpoint add_range (count : nat) (i : Z) (delta : Z) (l : list Z) : list Z :=
  match count with
  | O => l
  | S count' => add_range count' (i + 1) delta (wr l i (u32 (rd l i + delta)))
  end.

(** ** The KLL quantile sketch, [final::KarninLangLiberty<T, C, A>] *)

Module KLL.

(** [namespace kll_constants]. *)
Definition DEFAULT_K : Z := 200.
Definition DEFAULT_M : Z := 8.
Definition MIN_K : Z := DEFAULT_M.
Definition MAX_K : Z := u16 (Z.shiftl 1 16 - 1).

Definition kMaxNumLevels : Z := 60.

(** Modelled from the spec: [detail::powers_of_three] of [const.hpp], which is
    not among the sources; the specification gives the capacity as
    [floor((2k * 2^depth / 3^depth + 1) / 2)], so entry [depth] is
    [3 ^ depth]. *)
Definition powers_of_three (depth : Z) : Z := 3 ^ depth.

Definition is_even (value : Z) : bool := Z.land value 1 =? 0.
Definition is_odd (value : Z) : bool := Z.land value 1 >? 0.

Definition int_cap_aux_aux (k depth : Z) : Z :=
  let twok := Z.shiftl k 1 in
  let tmp := u64 (u64 (Z.shiftl twok depth) / powers_of_three depth) in
  let result := Z.shiftr (u64 (tmp + 1)) 1 in
  u16 result.

Definition int_cap_aux (k depth : Z) : Z :=
  if depth <=? 30 then int_cap_aux_aux k depth
  else
    let half := depth / 2 in
    let rest := u8 (depth - half) in
    let tmp := int_cap_aux_aux k half in
    int_cap_aux_aux tmp rest.

(** The second loop of [compute_level_capacities]; [n] iterations remain. *)
Fixpoint compute_level_capacities_loop (k min_wid : Z) (n : nat) (depth : Z)
    (level_capacities : list Z) : list Z :=
  match n with
  | O => level_capacities
  | S n' =>
      let level_capacities :=
        wr level_capacities depth (Z.max min_wid (int_cap_aux k depth)) in
      if rd level_capacities depth =? min_wid then level_capacities
      else compute_level_capacities_loop k min_wid n' (depth + 1)
             level_capacities
  end.

Definition compute_level_capacities (k min_wid : Z) : list Z :=
  let level_capacities := replicate (Z.to_nat kMaxNumLevels) min_wid in
  compute_level_capacities_loop k min_wid (Z.to_nat kMaxNumLevels) 0
    level_capacities.

(** [level_capacity(k, numLevels, height, m)] reads the member array. *)
Definition level_capacity (level_capacities : list Z) (numLevels height : Z)
    : Z :=
  let depth := u8 (numLevels - height - 1) in
  rd level_capacities depth.

(** The loop of [compute_total_capacity]; [n] iterations remain. *)
Fixpoint compute_total_capacity_loop (level_capacities : list Z)
    (num_levels : Z) (n : nat) (h : Z) (total : Z) : Z :=
  match n with
  | O => total
  | S n' =>
      compute_total_capacity_loop level_capacities num_levels n' (h + 1)
        (u64 (total + level_capacity level_capacities num_levels h))
  end.

Definition compute_total_capacity (level_capacities : list Z)
    (num_levels : Z) : Z :=
  compute_total_capacity_loop level_capacities num_levels
    (Z.to_nat num_levels) 0 0.

Section Sketch.

(** The item type, its comparator [C], the classification of the
    floating-point overload of [check_update_item], [std::sort] and the
    outputs of the one-bit engine [random_bit], in the order it yields
    them. *)
Context {T : Type} `{Inhabited T}.
Variable is_floating_point : bool.
Variable isnan : T -> bool.
Variable comparator_ : T -> T -> bool.
Variable std_sort : list T -> list T.
Variable random_bit : nat -> bool.

(** The data members, in the order of their declaration.  [rng_] counts
    the bits drawn from [random_bit].  [items_storage_] is the allocation
    [allocator_.allocate(n)], given by its number [n] of items.  The span
    [items_] is given by [items_ptr_], the distance of its first element
    from the start of the allocation, counted in items and negative before
    it, and by its cells [items_], index [0] being its first element; cell
    [i] of the span is item [items_ptr_ + i] of the allocation. *)
Record sketch : Type := Sketch {
  rng_ : nat;
  k_ : Z;
  m_ : Z;
  min_k_ : Z;
  num_levels_ : Z;
  is_level_zero_sorted_ : bool;
  n_ : Z;
  max_capacity_ : Z;
  levels_ : list Z;
  items_storage_ : Z;
  items_ptr_ : Z;
  items_ : list T;
  level_capacities : list Z
}.

Definition with_buffers (s : sketch) (rng : nat) (num_levels : Z)
    (levels : list Z) (items : list T) : sketch :=
  {| rng_ := rng; k_ := k_ s; m_ := m_ s; min_k_ := min_k_ s;
     num_levels_ := num_levels;
     is_level_zero_sorted_ := is_level_zero_sorted_ s; n_ := n_ s;
     max_capacity_ := max_capacity_ s; levels_ := levels;
     items_storage_ := items_storage_ s; items_ptr_ := items_ptr_ s;
     items_ := items; level_capacities := level_capacities s |}.

(** The constructor.  The parameter [k] is a [uint16_t]: the argument of
    the call is converted to it.  Members are initialised in declaration
    order, so the initialiser of [max_capacity_] runs before the one of
    [level_capacities] and sums whatever the storage of that array holds at
    that moment: [stale].  [None] is the [std::invalid_argument].  The body
    allocates [max_capacity_] items and seats the span on the last [k] of
    them, at [items_storage_ + (max_capacity_ - k)]; with
    [max_capacity_ < k] the difference wraps in [size_t] and the addition
    wraps the address, which leaves the span [k - max_capacity_] items
    before the allocation.  The allocation holds no item yet:
    [inhabitant] stands for the content of such a cell. *)
Definition KarninLangLiberty (stale : list Z) (k : Z) : option sketch :=
  let k := u16 k in
  let k_0 := k in
  let m_0 := 8 in
  let max_capacity_0 := compute_total_capacity stale kMaxNumLevels in
  let levels_0 := replicate (Z.to_nat kMaxNumLevels) 0 in
  let level_capacities_0 := compute_level_capacities k_0 m_0 in
  if (k <? MIN_K) || (k >? MAX_K) then None
  else
    let levels_1 := wr (wr levels_0 1 k) 0 k in
    Some {| rng_ := 0; k_ := k_0; m_ := m_0; min_k_ := k; num_levels_ := 1;
            is_level_zero_sorted_ := false; n_ := 0;
            max_capacity_ := max_capacity_0; levels_ := levels_1;
            items_storage_ := max_capacity_0;
            items_ptr_ := max_capacity_0 - k;
            items_ := replicate (Z.to_nat k) inhabitant;
            level_capacities := level_capacities_0 |}.

(** Assignments [buf[i] = std::move(buf[j])] copy the value; what a moved-from
    slot of a class type holds afterwards is not represented (such slots lie
    outside every level). *)

(** [for (i = start; i < start + half_length; i++)]. *)
Fixpoint halve_down_loop (fuel : nat) (lim : Z) (buf : list T) (i j : Z)
    : list T :=
  match fuel with
  | O => buf
  | S fuel' =>
      if i <? lim then
        halve_down_loop fuel' lim (wr buf i (rd buf j))
          (u32 (i + 1)) (u32 (j + 2))
      else buf
  end.

Definition randomly_halve_down (offset : Z) (buf : list T)
    (start length : Z) : list T :=
  let half_length := length / 2 in
  let j := u32 (start + offset) in
  halve_down_loop (Z.to_nat length) (u32 (start + half_length)) buf start j.

(** [for (i = start + length - 1; i >= start + half_length; i--)]. *)
Fixpoint halve_up_loop (fuel : nat) (lim : Z) (buf : list T) (i j : Z)
    : list T :=
  match fuel with
  | O => buf
  | S fuel' =>
      if i >=? lim then
        halve_up_loop fuel' lim (wr buf i (rd buf j))
          (u32 (i - 1)) (u32 (j - 2))
      else buf
  end.

Definition randomly_halve_up (offset : Z) (buf : list T)
    (start length : Z) : list T :=
  let half_length := length / 2 in
  let j := u32 (u32 (u32 (start + length) - 1) - offset) in
  halve_up_loop (Z.to_nat length) (u32 (start + half_length)) buf
    (u32 (u32 (start + length) - 1)) j.

(** [kll_helper::merge_sorted_arrays]: the loop over [c].  The helper
    compares with a default-constructed [C] where the sketch compares with
    its member [comparator_].  The comparator class is taken to have no
    state, as the default [std::less<T>] has none: every object of such a
    class compares alike, and [comparator_] stands for its call operator. *)
Fixpoint merge_loop (fuel : nat) (lim_a lim_b lim_c : Z) (buf : list T)
    (a b c : Z) : list T :=
  match fuel with
  | O => buf
  | S fuel' =>
      if c <? lim_c then
        if a =? lim_a then
          merge_loop fuel' lim_a lim_b lim_c (wr buf c (rd buf b))
            a (u32 (b + 1)) (c + 1)
        else if b =? lim_b then
          merge_loop fuel' lim_a lim_b lim_c (wr buf c (rd buf a))
            (u32 (a + 1)) b (c + 1)
        else if comparator_ (rd buf a) (rd buf b) then
          merge_loop fuel' lim_a lim_b lim_c (wr buf c (rd buf a))
            (u32 (a + 1)) b (c + 1)
        else
          merge_loop fuel' lim_a lim_b lim_c (wr buf c (rd buf b))
            a (u32 (b + 1)) (c + 1)
      else buf
  end.

Definition merge_sorted_arrays (buf : list T)
    (start_a len_a start_b len_b start_c : Z) : list T :=
  let len_c := u32 (len_a + len_b) in
  let lim_a := u32 (start_a + len_a) in
  let lim_b := u32 (start_b + len_b) in
  let lim_c := u32 (start_c + len_c) in
  merge_loop (Z.to_nat len_c) lim_a lim_b lim_c buf start_a start_b start_c.

(** [std::move_backward(first, last, d_last)] on positions of one buffer. *)
Fixpoint move_backward_loop (fuel : nat) (buf : list T)
    (first last d_last : Z) : list T :=
  match fuel with
  | O => buf
  | S fuel' =>
      if negb (last =? first) then
        let last := last - 1 in
        let d_last := d_last - 1 in
        move_backward_loop fuel' (wr buf d_last (rd buf last))
          first last d_last
      else buf
  end.

Definition move_backward (buf : list T) (first last d_last : Z) : list T :=
  move_backward_loop (Z.to_nat (last - first)) buf first last d_last.

(** [std::sort(begin + beg, begin + beg + pop, comparator_)]. *)
Definition sort_range (buf : list T) (beg pop : Z) : list T :=
  take (Z.to_nat beg) buf ++
  std_sort (take (Z.to_nat pop) (drop (Z.to_nat beg) buf)) ++
  drop (Z.to_nat beg + Z.to_nat pop) buf.

(** The two overloads of [check_update_item]. *)
Definition check_update_item (item : T) : bool :=
  if is_floating_point then negb (isnan item) else true.

(** [find_level_to_compact]: [while (true)] with [level] an [uint8_t].
    Reading past the end of [levels_] or of [level_capacities] has no C++
    meaning: [None]. *)
Fixpoint find_level_to_compact_loop (fuel : nat) (s : sketch) (level : Z)
    : option Z :=
  match fuel with
  | O => None
  | S fuel' =>
      match levels_ s !! Z.to_nat (level + 1), levels_ s !! Z.to_nat level,
            level_capacities s !! Z.to_nat (u8 (num_levels_ s - level - 1))
      with
      | Some hi, Some lo, Some cap =>
          let pop := u32 (hi - lo) in
          if pop >=? cap then Some level
          else find_level_to_compact_loop fuel' s (u8 (level + 1))
      | _, _, _ => None
      end
  end.

Definition find_level_to_compact (s : sketch) : option Z :=
  find_level_to_compact_loop (length (levels_ s)) s 0.

(** The cells of the span [items_] once it is re-seated [total] items
    before the end of the allocation, where it ended already: the cells it
    gains on the left hold no item yet. *)
Definition reseat (items : list T) (total : Z) : list T :=
  if (length items <=? Z.to_nat total)%nat then
    replicate (Z.to_nat total - length items) inhabitant ++ items
  else drop (length items - Z.to_nat total) items.

(** The span is re-seated at
    [items_storage_ + max_capacity_ - new_total_cap].  [None]:
    [level_capacities] is read past its end. *)
Definition add_empty_top_level_to_completely_full_sketch (s : sketch)
    : option sketch :=
  let cur_total_cap := rd (levels_ s) (num_levels_ s) in
  let new_levels_size := u8 (num_levels_ s + 2) in
  let levels :=
    if Z.of_nat (length (levels_ s)) <? new_levels_size
    then resize (Z.to_nat new_levels_size) 0 (levels_ s)
    else levels_ s in
  match level_capacities s !! Z.to_nat (u8 (u8 (num_levels_ s + 1) - 0 - 1))
  with
  | None => None
  | Some delta_cap =>
      let new_total_cap := u32 (cur_total_cap + delta_cap) in
      let items := reseat (items_ s) new_total_cap in
      let levels :=
        add_range (S (Z.to_nat (num_levels_ s))) 0 delta_cap levels in
      let num_levels := u8 (num_levels_ s + 1) in
      let levels := wr levels num_levels new_total_cap in
      Some {| rng_ := rng_ s; k_ := k_ s; m_ := m_ s; min_k_ := min_k_ s;
              num_levels_ := num_levels;
              is_level_zero_sorted_ := is_level_zero_sorted_ s; n_ := n_ s;
              max_capacity_ := max_capacity_ s; levels_ := levels;
              items_storage_ := items_storage_ s;
              items_ptr_ := max_capacity_ s - new_total_cap;
              items_ := items; level_capacities := level_capacities s |}
  end.

(** The body of [compress_while_updating] from the point where [level] is
    known and the top level has been added where it had to be. *)
Definition compact_level (s : sketch) (level : Z) : sketch :=
  let levels := levels_ s in
  let items := items_ s in
  let raw_beg := rd levels level in
  let raw_lim := rd levels (level + 1) in
  let pop_above := u32 (rd levels (level + 2) - raw_lim) in
  let raw_pop := u32 (raw_lim - raw_beg) in
  let odd_pop := is_odd raw_pop in
  let adj_beg := if odd_pop then u32 (raw_beg + 1) else raw_beg in
  let adj_pop := if odd_pop then u32 (raw_pop - 1) else raw_pop in
  let half_adj_pop := adj_pop / 2 in
  let items :=
    if (level =? 0) && negb (is_level_zero_sorted_ s)
    then sort_range items adj_beg adj_pop else items in
  let offset := Z.b2z (random_bit (rng_ s)) in
  let items :=
    if pop_above =? 0 then randomly_halve_up offset items adj_beg adj_pop
    else
      let items := randomly_halve_down offset items adj_beg adj_pop in
      merge_sorted_arrays items adj_beg half_adj_pop raw_lim pop_above
        (u32 (adj_beg + half_adj_pop)) in
  let levels :=
    wr levels (level + 1) (u32 (rd levels (level + 1) - half_adj_pop)) in
  let levels :=
    if odd_pop then wr levels level (u32 (rd levels (level + 1) - 1))
    else wr levels level (rd levels (level + 1)) in
  let items :=
    if odd_pop then wr items (rd levels level) (rd items raw_beg)
    else items in
  let items :=
    if level >? 0 then
      let amount := u32 (raw_beg - rd levels 0) in
      move_backward items (rd levels 0) (rd levels 0 + amount)
        (rd levels 0 + half_adj_pop + amount)
    else items in
  let levels :=
    if level >? 0 then add_range (Z.to_nat level) 0 half_adj_pop levels
    else levels in
  with_buffers s (S (rng_ s)) (num_levels_ s) levels items.

Definition compress_while_updating (s0 : sketch) : option sketch :=
  match find_level_to_compact s0 with
  | None => None
  | Some level =>
      match (if level =? u8 (num_levels_ s0 - 1)
             then add_empty_top_level_to_completely_full_sketch s0
             else Some s0) with
      | None => None
      | Some s => Some (compact_level s level)
      end
  end.

(** [internal_update]: the new state and the returned index. *)
Definition internal_update (s : sketch) : option (sketch * Z) :=
  match (if rd (levels_ s) 0 =? 0 then compress_while_updating s
         else Some s) with
  | None => None
  | Some s =>
      let index := u32 (rd (levels_ s) 0 - 1) in
      Some ({| rng_ := rng_ s; k_ := k_ s; m_ := m_ s; min_k_ := min_k_ s;
               num_levels_ := num_levels_ s;
               is_level_zero_sorted_ := false; n_ := u64 (n_ s + 1);
               max_capacity_ := max_capacity_ s;
               levels_ := wr (levels_ s) 0 index;
               items_storage_ := items_storage_ s;
               items_ptr_ := items_ptr_ s; items_ := items_ s;
               level_capacities := level_capacities s |}, index)
  end.

(** [update(item)]; the placement-new writes the item at the index. *)
Definition update (s : sketch) (item : T) : option sketch :=
  if negb (check_update_item item) then Some s
  else
    match internal_update s with
    | None => None
    | Some (s, index) =>
        Some (with_buffers s (rng_ s) (num_levels_ s) (levels_ s)
                (wr (items_ s) index item))
    end.

Definition Insert (s : sketch) (x : T) : option sketch := update s x.

(** A stream of inserts, first element first. *)
Fixpoint Insert_all (s : sketch) (xs : list T) : option sketch :=
  match xs with
  | [] => Some s
  | x :: xs' =>
      match Insert s x with
      | None => None
      | Some s' => Insert_all s' xs'
      end
  end.

End Sketch.

End KLL.

(** ** The KLL sketch and the allocation behind its span

    [KLL] follows the contents of the cells of the span [items_] wherever
    they lie.  [KLLMem] follows the same code with every access to a cell
    taken as an access to the allocation [items_storage_]: reading or
    writing [buf[i]] through the pointer [buf = items_.data()] is an access
    to item [items_ptr_ + i] of the allocation, and an access to anything
    else has no C++ meaning.  [None] stands for such an access. *)

Module KLLMem.
Import KLL.

Section Sketch.

Context {T : Type} `{Inhabited T}.

(** [std::is_fundamental_v<T>], and the parameters of [KLL]. *)
Variable is_fundamental : bool.
Variable is_floating_point : bool.
Variable isnan : T -> bool.
Variable comparator_ : T -> T -> bool.
Variable std_sort : list T -> list T.
Variable random_bit : nat -> bool.

Local Abbreviation sketch := (@KLL.sketch T).

Local Notation "x <- e1 ; e2" :=
  (match e1 with Some x => e2 | None => None end)
  (at level 200, e1 at level 100, e2 at level 200, right associativity,
   only parsing).

(** Cell [i] of the span of [s] is an item of the allocation. *)
Definition inside (s : sketch) (i : Z) : bool :=
  (0 <=? items_ptr_ s + i) && (items_ptr_ s + i <? items_storage_ s).

(** [buf[i]] read and written; [ok] tells which cells are items of the
    allocation. *)
Definition load (ok : Z -> bool) (buf : list T) (i : Z) : option T :=
  if ok i then buf !! Z.to_nat i else None.

Definition store (ok : Z -> bool) (buf : list T) (i : Z) (x : T)
    : option (list T) :=
  if ok i && (i <? Z.of_nat (length buf)) then Some (wr buf i x) else None.

(** [if (std::is_fundamental_v<T> || i != j) buf[i] = std::move(buf[j]);] *)
Definition move_if_distinct (ok : Z -> bool) (buf : list T) (i j : Z)
    : option (list T) :=
  if is_fundamental || negb (i =? j) then
    x <- load ok buf j; store ok buf i x
  else Some buf.

Fixpoint halve_down_loop (ok : Z -> bool) (fuel : nat) (lim : Z)
    (buf : list T) (i j : Z) : option (list T) :=
  match fuel with
  | O => Some buf
  | S fuel' =>
      if i <? lim then
        buf <- move_if_distinct ok buf i j;
        halve_down_loop ok fuel' lim buf (u32 (i + 1)) (u32 (j + 2))
      else Some buf
  end.

Definition randomly_halve_down (ok : Z -> bool) (offset : Z) (buf : list T)
    (start length : Z) : option (list T) :=
  let half_length := length / 2 in
  let j := u32 (start + offset) in
  halve_down_loop ok (Z.to_nat length) (u32 (start + half_length)) buf
    start j.

Fixpoint halve_up_loop (ok : Z -> bool) (fuel : nat) (lim : Z)
    (buf : list T) (i j : Z) : option (list T) :=
  match fuel with
  | O => Some buf
  | S fuel' =>
      if i >=? lim then
        buf <- move_if_distinct ok buf i j;
        halve_up_loop ok fuel' lim buf (u32 (i - 1)) (u32 (j - 2))
      else Some buf
  end.

Definition randomly_halve_up (ok : Z -> bool) (offset : Z) (buf : list T)
    (start length : Z) : option (list T) :=
  let half_length := length / 2 in
  let j := u32 (u32 (u32 (start + length) - 1) - offset) in
  halve_up_loop ok (Z.to_nat length) (u32 (start + half_length)) buf
    (u32 (u32 (start + length) - 1)) j.

(** [kll_helper::merge_sorted_arrays]; the comparison reads both cells. *)
Fixpoint merge_loop (ok : Z -> bool) (fuel : nat) (lim_a lim_b lim_c : Z)
    (buf : list T) (a b c : Z) : option (list T) :=
  match fuel with
  | O => Some buf
  | S fuel' =>
      if c <? lim_c then
        if a =? lim_a then
          buf <- move_if_distinct ok buf c b;
          merge_loop ok fuel' lim_a lim_b lim_c buf a (u32 (b + 1)) (c + 1)
        else if b =? lim_b then
          buf <- move_if_distinct ok buf c a;
          merge_loop ok fuel' lim_a lim_b lim_c buf (u32 (a + 1)) b (c + 1)
        else
          x <- load ok buf a;
          y <- load ok buf b;
          if comparator_ x y then
            buf <- move_if_distinct ok buf c a;
            merge_loop ok fuel' lim_a lim_b lim_c buf (u32 (a + 1)) b (c + 1)
          else
            buf <- move_if_distinct ok buf c b;
            merge_loop ok fuel' lim_a lim_b lim_c buf a (u32 (b + 1)) (c + 1)
      else Some buf
  end.

Definition merge_sorted_arrays (ok : Z -> bool) (buf : list T)
    (start_a len_a start_b len_b start_c : Z) : option (list T) :=
  let len_c := u32 (len_a + len_b) in
  let lim_a := u32 (start_a + len_a) in
  let lim_b := u32 (start_b + len_b) in
  let lim_c := u32 (start_c + len_c) in
  merge_loop ok (Z.to_nat len_c) lim_a lim_b lim_c buf start_a start_b
    start_c.

(** [std::move_backward]: each step reads the cell before [last] and
    writes the cell before [d_last]. *)
Fixpoint move_backward_loop (ok : Z -> bool) (fuel : nat) (buf : list T)
    (first last d_last : Z) : option (list T) :=
  match fuel with
  | O => Some buf
  | S fuel' =>
      if negb (last =? first) then
        let last := last - 1 in
        let d_last := d_last - 1 in
        x <- load ok buf last;
        buf <- store ok buf d_last x;
        move_backward_loop ok fuel' buf first last d_last
      else Some buf
  end.

Definition move_backward (ok : Z -> bool) (buf : list T)
    (first last d_last : Z) : option (list T) :=
  move_backward_loop ok (Z.to_nat (last - first)) buf first last d_last.

(** [std::sort] on a range that is not empty reads and writes its cells,
    from the first to the last. *)
Definition sort_range (ok : Z -> bool) (buf : list T) (beg pop : Z)
    : option (list T) :=
  if (pop =? 0) || (ok beg && ok (beg + pop - 1))
  then Some (KLL.sort_range std_sort buf beg pop) else None.

(** [for (uint32_t i = 0; i < half_adj_pop; i++)
    items_[i + destroy_beg].~T();]: the destructor of a fundamental type
    does nothing, any other is called on the cell. *)
Definition destroy_range (ok : Z -> bool) (destroy_beg half_adj_pop : Z)
    : bool :=
  is_fundamental ||
  forallb (fun i => ok (u32 (Z.of_nat i + destroy_beg)))
    (seq 0 (Z.to_nat half_adj_pop)).

(** The body of [compress_while_updating], as in [KLL.compact_level]. *)
Definition compact_level (s : sketch) (level : Z) : option sketch :=
  let ok := inside s in
  let levels := levels_ s in
  let items := items_ s in
  let raw_beg := rd levels level in
  let raw_lim := rd levels (level + 1) in
  let pop_above := u32 (rd levels (level + 2) - raw_lim) in
  let raw_pop := u32 (raw_lim - raw_beg) in
  let odd_pop := is_odd raw_pop in
  let adj_beg := if odd_pop then u32 (raw_beg + 1) else raw_beg in
  let adj_pop := if odd_pop then u32 (raw_pop - 1) else raw_pop in
  let half_adj_pop := adj_pop / 2 in
  let destroy_beg := rd levels 0 in
  items <-
    (if (level =? 0) && negb (is_level_zero_sorted_ s)
     then sort_range ok items adj_beg adj_pop else Some items);
  let offset := Z.b2z (random_bit (rng_ s)) in
  items <-
    (if pop_above =? 0 then randomly_halve_up ok offset items adj_beg adj_pop
     else
       items <- randomly_halve_down ok offset items adj_beg adj_pop;
       merge_sorted_arrays ok items adj_beg half_adj_pop raw_lim pop_above
         (u32 (adj_beg + half_adj_pop)));
  let levels :=
    wr levels (level + 1) (u32 (rd levels (level + 1) - half_adj_pop)) in
  let levels :=
    if odd_pop then wr levels level (u32 (rd levels (level + 1) - 1))
    else wr levels level (rd levels (level + 1)) in
  items <-
    (if odd_pop then move_if_distinct ok items (rd levels level) raw_beg
     else Some items);
  items <-
    (if level >? 0 then
       let amount := u32 (raw_beg - rd levels 0) in
       move_backward ok items (rd levels 0) (rd levels 0 + amount)
         (rd levels 0 + half_adj_pop + amount)
     else Some items);
  let levels :=
    if level >? 0 then add_range (Z.to_nat level) 0 half_adj_pop levels
    else levels in
  if destroy_range ok destroy_beg half_adj_pop
  then Some (with_buffers s (S (rng_ s)) (num_levels_ s) levels items)
  else None.

(** Adding the top level re-seats the span and touches no cell. *)
Definition compress_while_updating (s0 : sketch) : option sketch :=
  match find_level_to_compact s0 with
  | None => None
  | Some level =>
      match (if level =? u8 (num_levels_ s0 - 1)
             then add_empty_top_level_to_completely_full_sketch s0
             else Some s0) with
      | None => None
      | Some s => compact_level s level
      end
  end.

Definition internal_update (s : sketch) : option (sketch * Z) :=
  match (if rd (levels_ s) 0 =? 0 then compress_while_updating s
         else Some s) with
  | None => None
  | Some s =>
      let index := u32 (rd (levels_ s) 0 - 1) in
      Some ({| rng_ := rng_ s; k_ := k_ s; m_ := m_ s; min_k_ := min_k_ s;
               num_levels_ := num_levels_ s;
               is_level_zero_sorted_ := false; n_ := u64 (n_ s + 1);
               max_capacity_ := max_capacity_ s;
               levels_ := wr (levels_ s) 0 index;
               items_storage_ := items_storage_ s;
               items_ptr_ := items_ptr_ s; items_ := items_ s;
               level_capacities := level_capacities s |}, index)
  end.

(** [update(item)]; the placement-new at [&items_[index]] writes the
    cell. *)
Definition update (s : sketch) (item : T) : option sketch :=
  if negb (check_update_item is_floating_point isnan item) then Some s
  else
    match internal_update s with
    | None => None
    | Some (s, index) =>
        items <- store (inside s) (items_ s) index item;
        Some (with_buffers s (rng_ s) (num_levels_ s) (levels_ s) items)
    end.

Definition Insert (s : sketch) (x : T) : option sketch := update s x.

(** A stream of inserts, first element first. *)
Fixpoint Insert_all (s : sketch) (xs : list T) : option sketch :=
  match xs with
  | [] => Some s
  | x :: xs' =>
      match Insert s x with
      | None => None
      | Some s' => Insert_all s' xs'
      end
  end.

End Sketch.

End KLLMem.

(** ** Instances used to exercise the sketches *)

(** A stand-in for [std::sort]. *)
Fixpoint insert_sorted {A : Type} (lt : A -> A -> bool) (x : A) (l : list A)
    : list A :=
  match l with
  | [] => [x]
  | y :: l' => if lt x y then x :: l else y :: insert_sorted lt x l'
  end.

Definition insertion_sort {A : Type} (lt : A -> A -> bool) (l : list A)
    : list A :=
  fold_right (insert_sorted lt) [] l.

(** IEEE-754 binary32 values by their bit patterns. *)
Module F32.

Definition isnan (bits : Z) : bool :=
  (Z.land (Z.shiftr bits 23) 255 =? 255) && negb (Z.land bits (2 ^ 23 - 1) =? 0).

(** Sign and magnitude as one integer; both zeros give [0]. *)
Definition key (bits : Z) : Z :=
  let mag := Z.land bits (2 ^ 31 - 1) in
  if Z.testbit bits 31 then - mag else mag.

(** [std::less<float>]. *)
Definition lt (a b : Z) : bool :=
  negb (isnan a) && negb (isnan b) && (key a <? key b).

Definition one : Z := 0x3F800000.
Definition two : Z := 0x40000000.
Definition three : Z := 0x40400000.
Definition quiet_nan : Z := 0x7FC00000.

End F32.

(** ** Notions used to state the properties of the KLL sketch *)

Module KLLSpec.

(** The capacity table of a sketch with parameter [k]. *)
Definition cap_table (k : Z) : list Z := KLL.compute_level_capacities k 8.

(** The sum of the first [n] entries of a capacity table: the total
    capacity of a sketch of [n] levels. *)
Fixpoint total_cap (lc : list Z) (n : nat) : Z :=
  match n with
  | O => 0
  | S n' => total_cap lc n' + rd lc (Z.of_nat n')
  end.

(** The number of stream items the lowest [n] levels stand for, [lev] giving
    the boundaries of the levels: an item of level [l] counts for [2 ^ l]. *)
Fixpoint weight (lev : Z -> Z) (n : nat) : Z :=
  match n with
  | O => 0
  | S n' =>
      weight lev n' +
      2 ^ Z.of_nat n' * (lev (Z.of_nat n' + 1) - lev (Z.of_nat n'))
  end.

Section Sketch.

Context {T : Type} `{Inhabited T}.

(** The shape of the level table of a sketch built with parameter [k]. *)
Definition levels_ok (k : Z) (s : @KLL.sketch T) : Prop :=
  let L := KLL.num_levels_ s in
  let levels := KLL.levels_ s in
  8 <= k <= 65535 /\
  KLL.level_capacities s = cap_table k /\
  KLL.is_level_zero_sorted_ s = false /\
  1 <= L <= 60 /\
  L + 1 <= Z.of_nat (length levels) <= 255 /\
  0 <= rd levels 0 /\
  (forall l, 0 <= l < L -> rd levels l <= rd levels (l + 1)) /\
  rd levels L = total_cap (cap_table k) (Z.to_nat L) /\
  weight (rd levels) (Z.to_nat L) = KLL.n_ s.

(** [buf[lo .. hi)] is ascending under the comparator: no element is less
    than an earlier one. *)
Definition sorted_range (lt : T -> T -> bool) (buf : list T) (lo hi : Z)
    : Prop :=
  forall i j, lo <= i -> i < j -> j < hi -> lt (rd buf j) (rd buf i) = false.

(** Every item of [buf[lo .. hi)] passes [check_update_item]. *)
Definition valid_range (valid : T -> bool) (buf : list T) (lo hi : Z)
    : Prop :=
  forall i, lo <= i < hi -> valid (rd buf i) = true.

(** The items of a sketch: the span ends where the top level ends, every
    level above level zero is ascending, and every item of the levels passed
    [check_update_item]. *)
Definition items_ok (valid : T -> bool) (lt : T -> T -> bool)
    (s : @KLL.sketch T) : Prop :=
  Z.of_nat (length (KLL.items_ s)) =
    rd (KLL.levels_ s) (KLL.num_levels_ s) /\
  (forall l, 1 <= l < KLL.num_levels_ s ->
     sorted_range lt (KLL.items_ s)
       (rd (KLL.levels_ s) l) (rd (KLL.levels_ s) (l + 1))) /\
  valid_range valid (KLL.items_ s)
    (rd (KLL.levels_ s) 0) (rd (KLL.levels_ s) (KLL.num_levels_ s)).

(** A state of the loop of [merge_sorted_arrays] run on [buf0], whose first
    input ends at [la], where the output starts, and whose second input
    ends at [lb], where the output ends: [buf] is the buffer and [a], [b]
    and [c] are the three cursors.  What lies outside the output written so
    far is as in [buf0]; the output written so far is ascending, made of
    accepted items, none of them greater than an item still to be read. *)
Definition merge_state (valid : T -> bool) (lt : T -> T -> bool)
    (buf0 buf : list T) (la lb a b c : Z) : Prop :=
  length buf = length buf0 /\
  (forall x, 0 <= x -> x < la \/ c <= x -> rd buf x = rd buf0 x) /\
  sorted_range lt buf la c /\
  valid_range valid buf la c /\
  (forall x y, la <= x < c -> a <= y < la \/ b <= y < lb ->
     lt (rd buf0 y) (rd buf x) = false).

(** How many items of a stream pass the check. *)
Definition accepted (valid : T -> bool) (xs : list T) : Z :=
  Z.of_nat (length (List.filter valid xs)).

(** A list is ascending under the comparator. *)
Definition sorted_list (lt : T -> T -> bool) (l : list T) : Prop :=
  forall (i j : nat) (x y : T),
    (i < j)%nat -> l !! i = Some x -> l !! j = Some y -> lt y x = false.

(** What the standard asks of the comparator, on the items the sketch
    accepts: a strict weak order. *)
Definition strict_weak_order (valid : T -> bool) (lt : T -> T -> bool)
    : Prop :=
  (forall a b, valid a = true -> valid b = true ->
     lt a b = true -> lt b a = false) /\
  (forall a b c, valid a = true -> valid b = true -> valid c = true ->
     lt b a = false -> lt c b = false -> lt c a = false).

(** What the standard promises of [std::sort] on such items: an ascending
    rearrangement. *)
Definition sorts (valid : T -> bool) (lt : T -> T -> bool)
    (sort : list T -> list T) : Prop :=
  forall l, Forall (fun x => valid x = true) l ->
    sort l ≡ₚ l /\ sorted_list lt (sort l).

End Sketch.

End KLLSpec.

(** ** Notions used to state further properties of the scans and of KLL *)

Module ScanSpec.

(** Whether slot [i] of [keys] holds [v]. *)
Definition key_matches (v : Z) (keys : list Z) (i : nat) : bool :=
  match keys !! i with
  | Some a => a =? v
  | None => false
  end.

End ScanSpec.

Module RangeSpec.

(** The items [buf[lo .. hi)], in order. *)
Definition slice {A : Type} (buf : list A) (lo hi : Z) : list A :=
  take (Z.to_nat (hi - lo)) (drop (Z.to_nat lo) buf).

End RangeSpec.

(** ** A stream of inserts into a Count Sketch

    The loop of the benchmarks, [for (...) sketch.Insert(value, hash)], on a
    sketch whose counters are [C] when the loop starts. *)

Module CSStream.

Definition Insert_hashes (t d : Z) (C : list Z) (hashes : list Z) : list Z :=
  fold_left (fun C hash => CS.Insert_hash t d hash C) hashes C.

(** The index of counter [(j, h)], as [GetCounter] computes it. *)
Definition counter (t : Z) (j h : Z) : nat := Z.to_nat (j * t + h).

(** A loop over the rows that adds [snd (cell i)] to the counter of row [i]
    and column [fst (cell i)]: the shape of the insert of every count sketch
    here. *)
Fixpoint row_loop (t : Z) (cell : Z -> Z * Z) (n : nat) (i : Z)
    (C : list Z) : list Z :=
  match n with
  | O => C
  | S n' =>
      row_loop t cell n' (i + 1)
        (CS.add_counter t C i (fst (cell i)) (snd (cell i)))
  end.

(** The cell of row [i] in the two sketches with one seed per row. *)
Definition fixed_size_cell (t : Z) (value : Hash.key) (seeds : list Z)
    (i : Z) : Z * Z :=
  let hash := Hash.Hash value (u64 (seeds !!! Z.to_nat i)) in
  (u64 hash mod t, CSSeeded.sign_of hash).

Definition fastrange_cell (t : Z) (value : Hash.key) (seeds : list Z)
    (i : Z) : Z * Z :=
  let hash := Hash.Hash value (u64 (seeds !!! Z.to_nat i)) in
  (FastRange.fastrange64 (u64 hash) t, CSSeeded.sign_of hash).

(** What a stream of hashes adds to the counter of row [r] and column [c]:
    the signs of the hashes whose column in that row is [c], added up. *)
Definition net (t d : Z) (hashes : list Z) (r c : Z) : Z :=
  foldr (fun hash acc =>
           (if c =? fst (CS.HashExtract t d hash r)
            then snd (CS.HashExtract t d hash r) else 0) + acc)
        0 hashes.

End CSStream.

(** ** Notions used to state the properties of the hashes *)

Module HashSpec.
Import Hash.

(** The bit pattern of an arithmetic key. *)
Definition key_bits (k : key) : Z :=
  match k with
  | KString _ => 0
  | KInt16 b | KInt32 b | KInt64 b | KInt128 b | KFloat b | KDouble b
  | KUInt8 b | KUInt16 b | KUInt32 b | KUInt64 b | KUInt128 b => b
  end.

(** The key is a value of its type: its bit pattern fits its width, the
    characters of a string are bytes. *)
Definition representable (k : key) : Prop :=
  match k with
  | KString s => Forall (fun c => 0 <= c < 2 ^ 8) s
  | _ => 0 <= key_bits k < 2 ^ (8 * Z.of_nat (key_size k))
  end.

(** The floating-point key [-0.0]. *)
Definition negative_zero (k : key) : bool :=
  match k with
  | KFloat b => b =? 2 ^ 31
  | KDouble b => b =? 2 ^ 63
  | _ => false
  end.

End HashSpec.

(** ** Notions used to state the guarantee of the SpaceSaving sketch *)

Module SSStream.

(** The number of items of the stream that [Normalized] sends to [v]. *)
Definition occurrences (T : SS.arith) (v : Z) (vs : list Z) : Z :=
  Z.of_nat (length (List.filter (fun x => SS.Normalized T x =? v) vs)).

(** The sketch follows the stream [xs]: its values are distinct, a tracked
    value has a weight between its number of occurrences and that number
    plus the least weight, and an untracked value occurs at most as often as
    the least weight, which is the weight at the root. *)
Definition tracks (T : SS.arith) (s : SS.sketch) (xs : list Z) : Prop :=
  NoDup (SS.values s) /\
  (forall v w, (v, w) ∈ SSSpec.pairs s ->
     occurrences T v xs <= w <= occurrences T v xs + SS.weights s !!! 0%nat) /\
  (forall v, v ∉ SS.values s -> occurrences T v xs <= SS.weights s !!! 0%nat).

(** The number of indices the conversion from [size_t] to [T] keeps apart:
    every value of an integer type, and the integers a floating-point type
    represents exactly. *)
Definition distinct_below (T : SS.arith) : Z :=
  match T with
  | SS.Float => 2 ^ 24
  | SS.Double => 2 ^ 53
  | _ => 2 ^ SS.width T
  end.

End SSStream.

(** ** Notions used to state the properties of the hashed SpaceSaving
    sketch *)

Module SSHSpec.

Section Spec.

Context {T : Type} `{EqDecision T}.

(** Slot [j] holds the hash and the value. *)
Definition holds (s : @SSH.sketch T) (value : T) (hash : Z) (j : nat) : Prop :=
  SSH.hashes s !! j = Some hash /\ SSH.values s !! j = Some value.

(** The key of a slot, and the (key, weight) entries slot by slot. *)
Definition keys (s : @SSH.sketch T) : list (Z * T) :=
  zip (SSH.hashes s) (SSH.values s).

Definition entries (s : @SSH.sketch T) : list ((Z * T) * Z) :=
  zip (keys s) (SSH.weights s).

(** The key under which a pre-hashed item [(value, h)] is filed. *)
Definition key_of (x : T * Z) : Z * T := (Hash.roll_down x.2, x.1).

(** The number of items of the stream filed under [k]. *)
Definition occurrences (k : Z * T) (xs : list (T * Z)) : Z :=
  Z.of_nat (length (List.filter (fun x => bool_decide (key_of x = k)) xs)).

(** The state after [n] inserts: three arrays of [K] slots, the weights
    [uint64_t] values in heap order that add up to [n]. *)
Definition counted (K : nat) (s : @SSH.sketch T) (n : Z) : Prop :=
  length (SSH.hashes s) = K /\ length (SSH.values s) = K /\
  SSSpec.counted K
    {| SS.values := SSH.hashes s; SS.weights := SSH.weights s |} n.

End Spec.

(** A list of (key, weight) entries follows a stream whose keys occur
    [occ] times: the keys are distinct, a listed key has a weight between its
    number of occurrences and that number plus [m], an unlisted key occurs
    at most [m] times. *)
Definition tracked {Key : Type} (P : list (Key * Z)) (m : Z)
    (occ : Key -> Z) : Prop :=
  NoDup P.*1 /\
  (forall k w, (k, w) ∈ P -> occ k <= w <= occ k + m) /\
  (forall k, k ∉ P.*1 -> occ k <= m).

End SSHSpec.

(** ** Notions used to state what a compaction of the KLL sketch does *)

Module KLLCompaction.



End KLLCompaction.

(** ** Notions used to compare the SpaceSaving sketch with its baseline *)

Module SSHeapSpec.

(** A value on which [==] and the comparison of bit patterns agree: any
    value of an integer type; a floating-point value that is not a NaN, and
    is a zero only as [+0.0]. *)
Definition plain (T : SS.arith) (x : Z) : Prop :=
  SS.is_floating_point T = true ->
  SSHeap.is_nan T x = false /\ (SS.fp_is_zero T x = true -> x = 0).

End SSHeapSpec.

(** ** Notions used to state what the naive SpaceSaving sketch keeps *)

Module SSNaiveSpec.

(** [m] is the least of the weights. *)
Definition least (ws : list Z) (m : Z) : Prop :=
  m ∈ ws /\ Forall (fun w => m <= w) ws.

(** The sketch follows the stream [xs]: it is well formed, its weights add
    up to the length of the stream, [==] on its values is the comparison of
    the bit patterns, and its (value, weight) pairs bound the occurrences
    with the least weight as the error. *)
Definition follows (T : SS.arith) (K : nat) (s : SS.sketch) (xs : list Z)
    : Prop :=
  SSSpec.well_formed K s /\
  SSSpec.sum_list (SS.weights s) = Z.of_nat (length xs) /\
  Forall (SSHeapSpec.plain T) (SS.values s) /\
  forall m, least (SS.weights s) m ->
    SSHSpec.tracked (SSSpec.pairs s) m (fun v => SSStream.occurrences T v xs).

End SSNaiveSpec.

(** ** Notions used to state what the Count-Min baseline counts *)

Module CountMinSpec.

(** The bucket of [item] in row [r], and the index of its counter. *)
Definition bucket (num_buckets : Z) (seeds : list Z) (r : Z) (item : list Z)
    : Z :=
  u64 (Murmur.MurmurHash3_x64_128 item (Z.of_nat (length item))
         (seeds !!! Z.to_nat r)) mod num_buckets.

Definition location (num_buckets : Z) (seeds : list Z) (r : Z)
    (item : list Z) : Z :=
  r * num_buckets + bucket num_buckets seeds r item.

(** The number of items of the stream that row [r] sends to bucket [c]. *)
Definition hits (num_buckets : Z) (seeds : list Z) (r c : Z)
    (items : list (list Z)) : Z :=
  Z.of_nat (length (List.filter
                      (fun item => bucket num_buckets seeds r item =? c)
                      items)).

(** The number of items of the stream with the bytes of [x]. *)
Definition occurrences (x : list Z) (items : list (list Z)) : Z :=
  Z.of_nat (length (List.filter (fun item => bool_decide (item = x)) items)).

(** The sketch with parameters [nh], [nb] and seeds [seeds] has counted the
    stream [xs]. *)
Definition counts (nh nb : Z) (seeds : list Z) (s : CountMin.sketch)
    (xs : list (list Z)) : Prop :=
  CountMin._num_hashes s = nh /\ CountMin._num_buckets s = nb /\
  CountMin.hash_seeds s = seeds /\
  length (CountMin._sketch_array s) = Z.to_nat (nh * nb) /\
  CountMin._total_weight s = Z.of_nat (length xs) /\
  forall r c, 0 <= r < nh -> 0 <= c < nb ->
    CountMin._sketch_array s !!! Z.to_nat (r * nb + c) =
    hits nb seeds r c xs.

End CountMinSpec.

(** ** Notions used to state where the span of the KLL sketch lies *)

Module KLLMemSpec.

Section Sketch.

Context {T : Type} `{Inhabited T}.

(** The allocation has [max_capacity_] items and the span ends where the
    allocation ends: its first cell lies [levels_[num_levels_]] items, the
    length of the span, before that end. *)
Definition seated (s : @KLL.sketch T) : Prop :=
  KLL.items_storage_ s = KLL.max_capacity_ s /\
  KLL.items_ptr_ s =
    KLL.max_capacity_ s - rd (KLL.levels_ s) (KLL.num_levels_ s).

(** The allocation can hold the levels of a sketch with parameter [k]: the
    total capacity of [kMaxNumLevels] levels, the value the initialiser of
    [max_capacity_] is written to compute. *)
Definition roomy (k : Z) (s : @KLL.sketch T) : Prop :=
  KLLSpec.total_cap (KLLSpec.cap_table k) 60 <= KLL.max_capacity_ s.

End Sketch.

End KLLMemSpec.

(** * Proofs *)

(** ** Bit-level facts *)

Module Bits.

Lemma testbit_shl (a n m : Z) :
  Z.testbit (Z.shiftl a n) m = (0 <=? m) && Z.testbit a (m - n).
Proof.
  destruct (Z.leb_spec 0 m) as [Hm|Hm]; cbn [andb].
  - now apply Z.shiftl_spec.
  - now apply Z.testbit_neg_r.
Qed.

Lemma testbit_shr (a n m : Z) :
  Z.testbit (Z.shiftr a n) m = (0 <=? m) && Z.testbit a (m + n).
Proof.
  destruct (Z.leb_spec 0 m) as [Hm|Hm]; cbn [andb].
  - now apply Z.shiftr_spec.
  - now apply Z.testbit_neg_r.
Qed.

Lemma testbit_ones_range (n m : Z) :
  0 <= n -> Z.testbit (Z.ones n) m = (0 <=? m) && (m <? n).
Proof.
  intros Hn. destruct (Z.leb_spec 0 m) as [Hm|Hm]; cbn [andb].
  - now apply Z.testbit_ones_nonneg.
  - now apply Z.testbit_neg_r.
Qed.

Lemma testbit_mod2p (a n m : Z) :
  0 <= n -> Z.testbit (a mod 2 ^ n) m = (m <? n) && Z.testbit a m.
Proof.
  intros Hn. destruct (Z.leb_spec 0 m) as [Hm|Hm].
  - now apply Z.testbit_mod_pow2.
  - rewrite !Z.testbit_neg_r by lia. now rewrite andb_false_r.
Qed.

Lemma testbit_255 (m : Z) : Z.testbit 255 m = (0 <=? m) && (m <? 8).
Proof. change 255 with (Z.ones 8). now apply testbit_ones_range. Qed.

(** A non-negative number below [2 ^ n] has no bit at [n] or above. *)
Lemma testbit_above (a n m : Z) :
  0 <= a < 2 ^ n -> n <= m -> Z.testbit a m = false.
Proof.
  intros [Ha Hlt] Hm.
  destruct (Z.eq_dec a 0) as [->|Hne]; [apply Z.bits_0|].
  apply Z.bits_above_log2; [lia|].
  assert (Z.log2 a < n); [|lia].
  apply Z.log2_lt_pow2; lia.
Qed.

Lemma land_ones_small (a n : Z) :
  0 <= n -> 0 <= a < 2 ^ n -> Z.land a (Z.ones n) = a.
Proof.
  intros Hn Ha. rewrite Z.land_ones by lia. apply Z.mod_small; lia.
Qed.

Lemma u64_small (a : Z) : 0 <= a < 2 ^ 64 -> u64 a = a.
Proof. intros Ha. unfold u64. now apply Z.mod_small. Qed.

Lemma u32_small (a : Z) : 0 <= a < 2 ^ 32 -> u32 a = a.
Proof. intros Ha. unfold u32. now apply Z.mod_small. Qed.

Lemma u8_small (a : Z) : 0 <= a < 2 ^ 8 -> u8 a = a.
Proof. intros Ha. unfold u8. now apply Z.mod_small. Qed.

Lemma u16_small (a : Z) : 0 <= a < 2 ^ 16 -> u16 a = a.
Proof. intros Ha. unfold u16. now apply Z.mod_small. Qed.

(** Rewriting a [Z.testbit] of a bitwise expression into a Boolean formula
    over the bits of its leaves. *)
Ltac bits :=
  repeat first
    [ rewrite Z.lxor_spec | rewrite Z.lor_spec | rewrite Z.land_spec
    | rewrite testbit_shl | rewrite testbit_shr | rewrite testbit_255
    | rewrite Z.testbit_0_l | rewrite testbit_mod2p by lia
    | rewrite testbit_ones_range by lia ].

(** Case analysis on every integer comparison left in the goal. *)
Ltac cases :=
  repeat match goal with
    | |- context [?a <=? ?b] => destruct (Z.leb_spec a b)
    | |- context [?a <? ?b] => destruct (Z.ltb_spec a b)
    end;
  cbn [andb orb xorb negb]; try reflexivity; try lia.

Ltac same_bit :=
  repeat match goal with
    | |- context [Z.testbit ?x ?i] =>
        lazymatch goal with
        | |- context [Z.testbit x ?j] =>
            lazymatch j with
            | i => fail
            | _ => replace j with i by lia
            end
        end
    end.

(** ** [ctz] is the position of the lowest set bit *)

Lemma ctz_pos_nonneg (p : positive) : 0 <= ctz_pos p.
Proof. induction p; cbn [ctz_pos]; lia. Qed.

Lemma ctz_nonneg (x : Z) : 0 <= ctz x.
Proof. destruct x; cbn [ctz]; try lia. apply ctz_pos_nonneg. Qed.

Lemma ctz_pos_testbit (p : positive) : Z.testbit (Zpos p) (ctz_pos p) = true.
Proof.
  induction p as [p IH|p IH|]; cbn [ctz_pos]; try reflexivity.
  pose proof (ctz_pos_nonneg p).
  change (Z.pos p~0) with (2 * Z.pos p).
  replace (1 + ctz_pos p) with (Z.succ (ctz_pos p)) by lia.
  rewrite Z.testbit_even_succ by lia. exact IH.
Qed.

Lemma ctz_pos_below (p : positive) (m : Z) :
  0 <= m < ctz_pos p -> Z.testbit (Zpos p) m = false.
Proof.
  revert m. induction p as [p IH|p IH|]; cbn [ctz_pos]; intros m Hm; try lia.
  change (Z.pos p~0) with (2 * Z.pos p).
  destruct (Z.eq_dec m 0) as [->|Hne]; [apply Z.testbit_even_0|].
  replace m with (Z.succ (m - 1)) by lia.
  rewrite Z.testbit_even_succ by lia. apply IH. lia.
Qed.

Lemma ctz_testbit (x : Z) : 0 < x -> Z.testbit x (ctz x) = true.
Proof. destruct x; try lia. intros _. apply ctz_pos_testbit. Qed.

Lemma ctz_below (x m : Z) : 0 < x -> 0 <= m < ctz x -> Z.testbit x m = false.
Proof. destruct x; try lia. intros _. apply ctz_pos_below. Qed.

(** The lowest set bit determines [ctz]. *)
Lemma ctz_unique (x n : Z) :
  0 < x -> 0 <= n -> Z.testbit x n = true ->
  (forall m, 0 <= m < n -> Z.testbit x m = false) ->
  ctz x = n.
Proof.
  intros Hx Hn Hbit Hlow.
  pose proof (ctz_nonneg x) as Hc.
  pose proof (ctz_testbit x Hx) as Hcb.
  destruct (Z.lt_trichotomy (ctz x) n) as [Hlt|[Heq|Hgt]]; [|exact Heq|].
  - rewrite Hlow in Hcb by lia. discriminate.
  - rewrite (ctz_below x n Hx) in Hbit by lia. discriminate.
Qed.

(** A positive number has a set bit. *)
Lemma pos_has_bit (x : Z) : 0 < x -> exists n, 0 <= n /\ Z.testbit x n = true.
Proof.
  intros Hx. exists (ctz x). split; [apply ctz_nonneg|now apply ctz_testbit].
Qed.

End Bits.

(** ** MurmurHash3: the fixed-width overloads against the byte routine *)

Module MurmurProofs.
Import Murmur Bits.

(** Decide a bit equation [f (bits of k) = Z.testbit k n] by splitting on the
    position of [n] among the byte boundaries. *)
Ltac split_ranges :=
  repeat match goal with
    | |- context [?a <=? ?b] => destruct (Z.leb_spec a b); try lia
    | |- context [?a <? ?b] => destruct (Z.ltb_spec a b); try lia
    end.

Ltac align_bits k :=
  try match goal with
    | |- context [Z.testbit k ?i] =>
        let b := fresh "b" in
        let Hb := fresh "Hb" in
        remember (Z.testbit k i) as b eqn:Hb;
        repeat match goal with
          | |- context [Z.testbit k ?j] =>
              replace (Z.testbit k j) with b by (rewrite Hb; f_equal; lia)
          end;
        destruct b; reflexivity
    end.

Ltac byte_blast k w :=
  apply Z.bits_inj'; intros n Hn; bits; split_ranges;
  cbn [andb orb xorb negb];
  try rewrite (testbit_above k w n) by lia;
  try reflexivity; align_bits k.

(** Byte [i] of the little-endian representation. *)
Lemma byte_at_le_bytes (n : nat) (k i : Z) :
  0 <= i < Z.of_nat n ->
  byte_at (le_bytes n k) i = Z.land (Z.shiftr k (8 * i)) 255.
Proof.
  revert k i. induction n as [|n IH]; intros k i Hi; [lia|].
  unfold byte_at. cbn [le_bytes].
  destruct (Z.eq_dec i 0) as [->|Hne].
  - cbn. now rewrite Z.shiftr_0_r.
  - replace (Z.to_nat i) with (S (Z.to_nat (i - 1))) by lia.
    cbn [nth]. fold (byte_at (le_bytes n (Z.shiftr k 8)) (i - 1)).
    rewrite IH by lia. rewrite Z.shiftr_shiftr by lia.
    do 2 f_equal. lia.
Qed.

(** Entering the [switch] at a known label. *)
Ltac eval_cases :=
  cbv beta iota zeta delta
    [tail_k1 tail_k2 from_case Z.leb Z.compare Pos.compare Pos.compare_cont].

(** The tail of a 1-, 2-, 4- and 8-byte key reassembles the key. *)
Lemma tail_k1_width1 (k : Z) :
  0 <= k < 2 ^ 8 -> tail_k1 (byte_at (le_bytes 1 k)) 1 = k.
Proof.
  intros Hk. eval_cases. rewrite !byte_at_le_bytes by (cbn; lia).
  byte_blast k 8.
Qed.

Lemma tail_k1_width2 (k : Z) :
  0 <= k < 2 ^ 16 -> tail_k1 (byte_at (le_bytes 2 k)) 2 = k.
Proof.
  intros Hk. eval_cases. rewrite !byte_at_le_bytes by (cbn; lia).
  byte_blast k 16.
Qed.

Lemma tail_k1_width4 (k : Z) :
  0 <= k < 2 ^ 32 -> tail_k1 (byte_at (le_bytes 4 k)) 4 = k.
Proof.
  intros Hk. eval_cases. rewrite !byte_at_le_bytes by (cbn; lia).
  byte_blast k 32.
Qed.

Lemma tail_k1_width8 (k : Z) :
  0 <= k < 2 ^ 64 -> tail_k1 (byte_at (le_bytes 8 k)) 8 = k.
Proof.
  intros Hk. eval_cases. rewrite !byte_at_le_bytes by (cbn; lia).
  byte_blast k 64.
Qed.

(** The two loads of the single block of a 16-byte key. *)
Lemma load64_low (k : Z) :
  0 <= k < 2 ^ 128 -> load64 (le_bytes 16 k) ((0 * 2 + 0) * 8) = u64 k.
Proof.
  intros Hk. unfold load64, u64. rewrite !byte_at_le_bytes by (cbn; lia).
  byte_blast k 128.
Qed.

Lemma load64_high (k : Z) :
  0 <= k < 2 ^ 128 ->
  load64 (le_bytes 16 k) ((0 * 2 + 1) * 8) = u64 (Z.shiftr k 64).
Proof.
  intros Hk. unfold load64, u64. rewrite !byte_at_le_bytes by (cbn; lia).
  byte_blast k 128.
Qed.

Lemma small_refines (size : Z) (n : nat) (k seed : Z) :
  size = Z.of_nat n -> 1 <= size <= 8 ->
  tail_k1 (byte_at (le_bytes n k)) size = k ->
  MurmurHash3_small size k seed = MurmurHash3_x64_128 (le_bytes n k) size seed.
Proof.
  intros Hsz Hrange Htail.
  unfold MurmurHash3_small, MurmurHash3_x64_128.
  assert (Hblocks : Z.shiftr size 4 = 0).
  { rewrite Z.shiftr_div_pow2 by lia. apply Z.div_small. lia. }
  assert (Hrem : Z.land size 15 = size).
  { change 15 with (Z.ones 4). apply land_ones_small; lia. }
  rewrite Hblocks, Hrem. change (Z.to_nat 0) with 0%nat. cbn [body].
  rewrite Z.shiftl_0_l.
  change (fun i : Z => byte_at (le_bytes n k) (0 + i))
    with (byte_at (le_bytes n k)).
  rewrite Htail.
  destruct (Z.leb_spec 9 size); [lia|].
  destruct (Z.leb_spec 1 size); [|lia].
  rewrite Z.lxor_0_l. reflexivity.
Qed.

(** C6.  For a key of 1, 2, 4, 8 or 16 bytes and any seed, the unrolled
    overload of MurmurHash3_x64_128 for that width returns the same 128-bit
    value as the general byte routine run on the little-endian bytes of the
    key with the same seed. *)
Theorem fixed_width_overloads_refine_byte_routine (k seed : Z) :
  (0 <= k < 2 ^ 8 ->
   MurmurHash3_x64_128_u8 k seed = MurmurHash3_x64_128 (le_bytes 1 k) 1 seed) /\
  (0 <= k < 2 ^ 16 ->
   MurmurHash3_x64_128_u16 k seed = MurmurHash3_x64_128 (le_bytes 2 k) 2 seed) /\
  (0 <= k < 2 ^ 32 ->
   MurmurHash3_x64_128_u32 k seed = MurmurHash3_x64_128 (le_bytes 4 k) 4 seed) /\
  (0 <= k < 2 ^ 64 ->
   MurmurHash3_x64_128_u64 k seed = MurmurHash3_x64_128 (le_bytes 8 k) 8 seed) /\
  (0 <= k < 2 ^ 128 ->
   MurmurHash3_x64_128_u128 k seed =
   MurmurHash3_x64_128 (le_bytes 16 k) 16 seed).
Proof.
  repeat split; intros Hk.
  - apply (small_refines 1 1); [reflexivity|lia|now apply tail_k1_width1].
  - apply (small_refines 2 2); [reflexivity|lia|now apply tail_k1_width2].
  - apply (small_refines 4 4); [reflexivity|lia|now apply tail_k1_width4].
  - apply (small_refines 8 8); [reflexivity|lia|now apply tail_k1_width8].
  - unfold MurmurHash3_x64_128_u128, MurmurHash3_x64_128.
    change (Z.shiftr 16 4) with 1. change (Z.land 16 15) with 0.
    change (Z.to_nat 1) with 1%nat. cbn [body].
    rewrite load64_low, load64_high by exact Hk.
    destruct (block_step (u64 k) (u64 (Z.shiftr k 64)) (seed, seed))
      as [h1 h2].
    reflexivity.
Qed.

(** The theorem at the keys [0xAB], [0xBEEF], [42], [42] and [2^100 + 12345]
    with the default seed. *)
Lemma fixed_width_overloads_witness :
  MurmurHash3_x64_128_u8 0xAB 9001 =
    MurmurHash3_x64_128 (le_bytes 1 0xAB) 1 9001 /\
  MurmurHash3_x64_128_u16 0xBEEF 9001 =
    MurmurHash3_x64_128 (le_bytes 2 0xBEEF) 2 9001 /\
  MurmurHash3_x64_128_u32 42 9001 =
    MurmurHash3_x64_128 (le_bytes 4 42) 4 9001 /\
  MurmurHash3_x64_128_u64 42 9001 =
    MurmurHash3_x64_128 (le_bytes 8 42) 8 9001 /\
  MurmurHash3_x64_128_u128 (2 ^ 100 + 12345) 9001 =
    MurmurHash3_x64_128 (le_bytes 16 (2 ^ 100 + 12345)) 16 9001.
Proof.
  refine (conj _ (conj _ (conj _ (conj _ _)))).
  - apply (proj1 (fixed_width_overloads_refine_byte_routine 0xAB 9001)).
    lia.
  - apply (proj1 (proj2
      (fixed_width_overloads_refine_byte_routine 0xBEEF 9001))).
    lia.
  - apply (proj1 (proj2 (proj2
      (fixed_width_overloads_refine_byte_routine 42 9001)))).
    lia.
  - apply (proj1 (proj2 (proj2 (proj2
      (fixed_width_overloads_refine_byte_routine 42 9001))))).
    lia.
  - apply (proj2 (proj2 (proj2 (proj2
      (fixed_width_overloads_refine_byte_routine (2 ^ 100 + 12345) 9001))))).
    lia.
Defined.

End MurmurProofs.

(** ** [detail::Hash] on floating-point keys *)

Module HashProofs.
Import Hash Bits.

(** The mask test of [fp_hash_bits] singles out the two zeros. *)
Lemma mask_test_zero (w bits : Z) :
  1 <= w -> 0 <= bits < 2 ^ w ->
  (Z.land bits (2 ^ (w - 1) - 1) =? 0) =
  (bits =? 0) || (bits =? 2 ^ (w - 1)).
Proof.
  intros Hw Hb.
  replace (2 ^ (w - 1) - 1) with (Z.ones (w - 1))
    by (rewrite Z.ones_equiv; lia).
  rewrite Z.land_ones by lia.
  assert (Hpow : 2 ^ w = 2 * 2 ^ (w - 1)).
  { rewrite <- Z.pow_succ_r by lia. f_equal. lia. }
  assert (Hpos : 0 < 2 ^ (w - 1)) by (apply Z.pow_pos_nonneg; lia).
  pose proof (Z.div_mod bits (2 ^ (w - 1)) ltac:(lia)) as Hdm.
  pose proof (Z.mod_pos_bound bits (2 ^ (w - 1)) Hpos) as Hmod.
  assert (Hq : 0 <= bits / 2 ^ (w - 1) < 2).
  { split; [apply Z.div_pos; lia|apply Z.div_lt_upper_bound; lia]. }
  destruct (Z.eqb_spec (bits mod 2 ^ (w - 1)) 0) as [Hz|Hnz];
    destruct (Z.eqb_spec bits 0) as [H0|H0];
    destruct (Z.eqb_spec bits (2 ^ (w - 1))) as [H1|H1];
    cbn [orb]; try reflexivity; exfalso.
  - assert (bits / 2 ^ (w - 1) = 0 \/ bits / 2 ^ (w - 1) = 1) as [Hq0|Hq1]
      by lia; [rewrite Hq0 in Hdm|rewrite Hq1 in Hdm]; lia.
  - subst bits. rewrite Z.mod_0_l in Hnz by lia. lia.
  - subst bits. rewrite Z.mod_0_l in Hnz by lia. lia.
  - rewrite H1 in Hnz. rewrite Z.mod_same in Hnz by lia. lia.
Qed.

Lemma fp_hash_bits_float_canonical (bits : Z) :
  0 <= bits < 2 ^ 32 -> fp_hash_bits_float bits = zero_canonical 32 bits.
Proof.
  intros Hb. unfold fp_hash_bits_float, zero_canonical.
  change (2 ^ 31 - 1) with (2 ^ (32 - 1) - 1).
  rewrite (mask_test_zero 32) by lia.
  now destruct ((bits =? 0) || (bits =? 2 ^ (32 - 1))).
Qed.

Lemma fp_hash_bits_double_canonical (bits : Z) :
  0 <= bits < 2 ^ 64 -> fp_hash_bits_double bits = zero_canonical 64 bits.
Proof.
  intros Hb. unfold fp_hash_bits_double, zero_canonical.
  change (2 ^ 63 - 1) with (2 ^ (64 - 1) - 1).
  rewrite (mask_test_zero 64) by lia.
  now destruct ((bits =? 0) || (bits =? 2 ^ (64 - 1))).
Qed.

(** C2, as amended.  A floating-point key is hashed by its raw bit pattern,
    sign bit included; only the two zeros are sent to the pattern [0] first.
    The sign mask serves to recognise a zero and is not applied to the
    hashed value. *)
Theorem Hash_fp_raw_bits_zero_canonical (bits seed : Z) :
  (0 <= bits < 2 ^ 32 ->
   Hash (KFloat bits) seed =
   Murmur.MurmurHash3_x64_128_u32 (zero_canonical 32 bits) seed) /\
  (0 <= bits < 2 ^ 64 ->
   Hash (KDouble bits) seed =
   Murmur.MurmurHash3_x64_128_u64 (zero_canonical 64 bits) seed).
Proof.
  split; intros Hb; cbn [Hash].
  - now rewrite fp_hash_bits_float_canonical.
  - now rewrite fp_hash_bits_double_canonical.
Qed.

(** The amended statement at [-1.0f] and at the double [-0.0]. *)
Lemma Hash_fp_raw_bits_witness :
  Hash (KFloat 0xBF800000) 9001 =
    Murmur.MurmurHash3_x64_128_u32 (zero_canonical 32 0xBF800000) 9001 /\
  Hash (KDouble 0x8000000000000000) 9001 =
    Murmur.MurmurHash3_x64_128_u64
      (zero_canonical 64 0x8000000000000000) 9001.
Proof.
  refine (conj _ _).
  - apply (proj1 (Hash_fp_raw_bits_zero_canonical 0xBF800000 9001)). lia.
  - apply (proj2 (Hash_fp_raw_bits_zero_canonical 0x8000000000000000 9001)).
    lia.
Defined.

(** C2, as stated, fails at [-1.0f]: the code hashes the pattern
    [0xBF800000], the statement the pattern [0x3F800000]. *)
Lemma Hash_float_keeps_sign_bit :
  fp_hash_bits_float 0xBF800000 = 0xBF800000 /\
  sign_masked 32 0xBF800000 = 0x3F800000 /\
  Hash (KFloat 0xBF800000) kSeed <> Hash_float_spec 0xBF800000 kSeed.
Proof.
  split; [reflexivity|]. split; [reflexivity|].
  vm_compute. discriminate.
Qed.

End HashProofs.

(** ** Count Sketch: the row update *)

Module CSProofs.
Import CS Bits.

(** [ctz] of a power of two. *)
Lemma ctz_pow2 (b : Z) : 0 <= b -> ctz (2 ^ b) = b.
Proof.
  intros Hb. apply ctz_unique.
  - apply Z.pow_pos_nonneg; lia.
  - exact Hb.
  - apply Z.pow2_bits_true; lia.
  - intros m Hm. apply Z.pow2_bits_false. lia.
Qed.

(** What the code computes, for [t = 2 ^ b]: the slice is reduced modulo [t],
    so the column index stays below [t / 2]. *)
Lemma HashExtract_column_below_half (b d hash j : Z) :
  1 <= b < 32 -> 0 <= hash -> 0 <= j ->
  0 <= fst (HashExtract (2 ^ b) d hash j) < 2 ^ (b - 1).
Proof.
  intros Hb Hh Hj. unfold HashExtract.
  assert (Ht : 0 < 2 ^ b) by (apply Z.pow_pos_nonneg; lia).
  assert (Ht32 : 2 ^ b < 2 ^ 32) by (apply Z.pow_lt_mono_r; lia).
  assert (Hhalf : 2 ^ b = 2 * 2 ^ (b - 1)).
  { rewrite <- Z.pow_succ_r by lia. f_equal. lia. }
  set (s := if ctz (2 * 2 ^ b) * d <=? 128 / 2 then _ else _).
  assert (Hs : 0 <= s < 2 ^ b).
  { subst s. destruct (_ <=? _).
    - pose proof (Z.mod_pos_bound
        (Z.shiftr (u64 hash) (j * hash_bits (2 ^ b))) (2 ^ b) Ht).
      rewrite u32_small; lia.
    - pose proof (Z.mod_pos_bound
        (Z.shiftr hash (j * hash_bits (2 ^ b))) (2 ^ b) Ht).
      rewrite u32_small; lia. }
  cbn [fst]. rewrite Z.shiftr_div_pow2 by lia. change (2 ^ 1) with 2.
  split; [apply Z.div_pos; lia|apply Z.div_lt_upper_bound; lia].
Qed.

(** C1 at [t = 8], [d = 3], [H = 8], row [0]: the specified slice is
    [8 mod 16 = 8], hence column [4]; the code reduces modulo [t] and gets
    slice [0], hence column [0], and it is counter [0] that [Insert]
    changes. *)
Theorem HashExtract_reduces_modulo_t :
  HashExtract_spec 8 3 8 0 = (4, -1) /\
  HashExtract 8 3 8 0 = (0, -1) /\
  Insert_hash 8 3 8 (replicate 24 0) !! 0%nat = Some (-1) /\
  Insert_hash 8 3 8 (replicate 24 0) !! 4%nat = Some 0.
Proof. repeat split; vm_compute; reflexivity. Qed.

End CSProofs.

(** ** The block comparisons compute the match mask *)

Module SimdProofs.
Import Simd SSSpec Bits.

Lemma match_mask_range (v : Z) (keys : list Z) :
  0 <= match_mask v keys < 2 ^ Z.of_nat (length keys).
Proof.
  induction keys as [|a keys IH]; [cbn; lia|].
  cbn [match_mask length]. rewrite Nat2Z.inj_succ, Z.pow_succ_r by lia.
  destruct (a =? v); cbn [Z.b2z]; lia.
Qed.

Lemma match_mask_app (v : Z) (l1 l2 : list Z) :
  match_mask v (l1 ++ l2) =
  match_mask v l1 + 2 ^ Z.of_nat (length l1) * match_mask v l2.
Proof.
  induction l1 as [|a l1 IH]; [cbn [app match_mask length]; lia|].
  cbn [app match_mask length]. rewrite IH, Nat2Z.inj_succ, Z.pow_succ_r by lia.
  lia.
Qed.

(** A zero mask means no match; otherwise [ctz] is the first match. *)
Lemma match_mask_zero (v : Z) (keys : list Z) :
  match_mask v keys = 0 <-> find_first v keys = None.
Proof.
  induction keys as [|a keys IH]; [easy|].
  cbn [match_mask find_first]. pose proof (match_mask_range v keys).
  destruct (a =? v); cbn [Z.b2z].
  - split; [lia|discriminate].
  - destruct (find_first v keys) as [j|]; cbn; split; intros Hx;
      try discriminate; try reflexivity.
    + assert (Hz : match_mask v keys = 0) by lia.
      apply IH in Hz. discriminate.
    + destruct IH as [_ IH]. rewrite IH by reflexivity. lia.
Qed.

Lemma ctz_double (r : Z) : 0 < r -> ctz (2 * r) = 1 + ctz r.
Proof. destruct r; try lia. intros _. reflexivity. Qed.

Lemma ctz_odd (r : Z) : 0 <= r -> ctz (1 + 2 * r) = 0.
Proof. destruct r; try lia; intros _; reflexivity. Qed.

Lemma match_mask_ctz (v : Z) (keys : list Z) (i : nat) :
  find_first v keys = Some i -> ctz (match_mask v keys) = Z.of_nat i.
Proof.
  revert i. induction keys as [|a keys IH]; intros i; [discriminate|].
  cbn [match_mask find_first]. pose proof (match_mask_range v keys) as Hr.
  destruct (a =? v); cbn [Z.b2z].
  - intros [= <-]. now apply ctz_odd.
  - destruct (find_first v keys) as [j|] eqn:Hj; [|discriminate].
    cbn. intros [= <-].
    assert (match_mask v keys <> 0).
    { intros Hz. apply match_mask_zero in Hz. congruence. }
    rewrite Z.add_0_l, ctz_double by lia. rewrite (IH j) by reflexivity. lia.
Qed.

(** [find_first] is the least index holding [v]. *)
Lemma find_first_Some (v : Z) (keys : list Z) (i : nat) :
  find_first v keys = Some i <->
  keys !! i = Some v /\ forall j x, (j < i)%nat -> keys !! j = Some x -> x <> v.
Proof.
  revert i. induction keys as [|a keys IH]; intros i.
  - cbn. split; [discriminate|]. intros [Hx _]. discriminate.
  - cbn [find_first]. destruct (Z.eqb_spec a v) as [->|Hne].
    + split.
      * intros [= <-]. split; [reflexivity|]. intros j x Hj. lia.
      * intros [Hi Hlow]. destruct i as [|i]; [reflexivity|].
        exfalso. apply (Hlow 0%nat v); [lia|reflexivity|reflexivity].
    + destruct i as [|i].
      * split.
        -- destruct (find_first v keys); discriminate.
        -- intros [[= Hx] _]. congruence.
      * split.
        -- destruct (find_first v keys) as [j|] eqn:Hj; [|discriminate].
           cbn. intros [= <-].
           destruct (proj1 (IH j) eq_refl) as [Hj' Hlow].
           split; [exact Hj'|]. intros [|j'] x Hlt Hx.
           ++ cbn in Hx. congruence.
           ++ apply (Hlow j' x); [lia|exact Hx].
        -- intros [Hi Hlow]. cbn in Hi.
           assert (Hf : find_first v keys = Some i).
           { apply IH. split; [exact Hi|]. intros j x Hj Hx.
             apply (Hlow (S j) x); [lia|exact Hx]. }
           now rewrite Hf.
Qed.

Lemma find_first_None (v : Z) (keys : list Z) :
  find_first v keys = None <-> forall j x, keys !! j = Some x -> x <> v.
Proof.
  induction keys as [|a keys IH].
  - cbn. split; [|reflexivity]. intros _ j x Hx. discriminate.
  - cbn [find_first]. destruct (Z.eqb_spec a v) as [->|Hne].
    + split; [discriminate|]. intros Hall. exfalso.
      now apply (Hall 0%nat v).
    + destruct (find_first v keys) as [j|] eqn:Hj; cbn.
      * split; [discriminate|]. intros Hall. exfalso.
        destruct IH as [_ IH]. discriminate IH.
        intros j' x Hx. apply (Hall (S j') x). exact Hx.
      * split; [|reflexivity]. intros _ [|j'] x Hx.
        -- cbn in Hx. congruence.
        -- destruct IH as [IH _]. apply (IH eq_refl j' x). exact Hx.
Qed.

Lemma find_first_lt (v : Z) (keys : list Z) (i : nat) :
  find_first v keys = Some i -> (i < length keys)%nat.
Proof.
  intros Hf. apply find_first_Some in Hf as [Hi _].
  now apply lookup_lt_Some in Hi.
Qed.


(** *** The intrinsics on the result of a comparison with a broadcast *)

Lemma msb_cmpeq (w : Z) (n : nat) (v : Z) (a : list Z) :
  1 <= w -> (length a <= n)%nat ->
  msb_mask w (cmpeq w a (replicate n v)) = match_mask v a.
Proof.
  intros Hw. revert n. induction a as [|x a IH]; intros n Hn; [reflexivity|].
  destruct n as [|n]; [cbn in Hn; lia|].
  unfold cmpeq in *. cbn [replicate zip_with msb_mask match_mask].
  rewrite IH by (cbn in Hn; lia). f_equal.
  destruct (x =? v); cbn [Z.b2z].
  - rewrite Z.ones_spec_low by lia. reflexivity.
  - rewrite Z.testbit_0_l. reflexivity.
Qed.

Lemma saturate_ones : saturate_i16_i8 (Z.ones 16) = 255.
Proof. reflexivity. Qed.

Lemma saturate_zero : saturate_i16_i8 0 = 0.
Proof. reflexivity. Qed.

Lemma msb_saturate_cmpeq (n : nat) (v : Z) (a : list Z) :
  (length a <= n)%nat ->
  msb_mask 8 (map saturate_i16_i8 (cmpeq 16 a (replicate n v))) =
  match_mask v a.
Proof.
  revert n. induction a as [|x a IH]; intros n Hn; [reflexivity|].
  destruct n as [|n]; [cbn in Hn; lia|].
  unfold cmpeq in *. cbn [replicate zip_with map msb_mask match_mask].
  rewrite IH by (cbn in Hn; lia). f_equal.
  destruct (x =? v); [rewrite saturate_ones|rewrite saturate_zero];
    reflexivity.
Qed.

Lemma cmpeq_length (w : Z) (n : nat) (v : Z) (a : list Z) :
  (length a <= n)%nat -> length (cmpeq w a (replicate n v)) = length a.
Proof.
  intros Hn. unfold cmpeq. rewrite length_zip_with, length_replicate. lia.
Qed.

(** The pack followed by the [3, 1, 2, 0] permutation lists the saturated
    lanes of the first vector and then those of the second. *)
Lemma permute_packs (a b : list Z) :
  length a = 16%nat -> length b = 16%nat ->
  mm256_permute4x64_epi64 (mm256_packs_epi16 a b) (MM_SHUFFLE 3 1 2 0) =
  map saturate_i16_i8 (a ++ b).
Proof.
  intros Ha Hb.
  do 17 (destruct a as [|? a]; try discriminate Ha).
  do 17 (destruct b as [|? b]; try discriminate Hb).
  reflexivity.
Qed.

Lemma cmpeq_app (w : Z) (n m : nat) (v : Z) (a b : list Z) :
  length a = n ->
  cmpeq w a (replicate n v) ++ cmpeq w b (replicate m v) =
  cmpeq w (a ++ b) (replicate (n + m) v).
Proof.
  intros <-. unfold cmpeq. induction a as [|x a IH]; [reflexivity|].
  cbn [length replicate Nat.add app zip_with]. now rewrite IH.
Qed.

Lemma take_plus {A : Type} (n m : nat) (l : list A) :
  take (n + m) l = take n l ++ take m (drop n l).
Proof.
  revert l. induction n as [|n IH]; intros l; [reflexivity|].
  destruct l as [|x l]; [now destruct m|].
  cbn [Nat.add take drop app]. now rewrite IH.
Qed.

Lemma length_take_exact {A : Type} (n : nat) (l : list A) :
  (n <= length l)%nat -> length (take n l) = n.
Proof. intros Hn. rewrite length_take. lia. Qed.

(** Sign extension leaves a mask of fewer than 32 lanes alone. *)
Lemma int_to_u64_small (m : Z) : 0 <= m < 2 ^ 31 -> int_to_u64 m = m.
Proof.
  intros Hm. unfold int_to_u64.
  destruct (Z.ltb_spec m (2 ^ 31)); [|lia]. apply u64_small. lia.
Qed.

(** On a mask of 32 lanes it may set the upper half, but the low 32 bits
    stay. *)
Lemma int_to_u64_low (m : Z) :
  0 <= m < 2 ^ 32 -> exists c, 0 <= c /\ int_to_u64 m = m + c * 2 ^ 32 /\
    int_to_u64 m < 2 ^ 64.
Proof.
  intros Hm. unfold int_to_u64, u64.
  destruct (Z.ltb_spec m (2 ^ 31)).
  - exists 0. rewrite Z.mod_small by lia. lia.
  - exists (2 ^ 32 - 1).
    replace (m - 2 ^ 32) with (m + (2 ^ 32 - 1) * 2 ^ 32 + (-1) * 2 ^ 64) by lia.
    rewrite Z.mod_add by lia. rewrite Z.mod_small by lia. lia.
Qed.

Lemma or_shl_add (m x s : Z) :
  0 <= s -> 0 <= m < 2 ^ s -> 0 <= x -> x * 2 ^ s < 2 ^ 64 ->
  or_shl m x s = m + 2 ^ s * x.
Proof.
  intros Hs Hm Hx Hlt. unfold or_shl.
  rewrite Z.shiftl_mul_pow2 by lia. rewrite u64_small by lia.
  rewrite <- Z.lxor_lor.
  - rewrite <- Z.add_nocarry_lxor; [lia|].
    apply Z.bits_inj'. intros n Hn. rewrite Z.land_spec, Z.bits_0.
    destruct (Z.ltb_spec n s).
    + rewrite Z.mul_pow2_bits_low by lia. apply andb_false_r.
    + rewrite (testbit_above m s n) by lia. reflexivity.
  - apply Z.bits_inj'. intros n Hn. rewrite Z.land_spec, Z.bits_0.
    destruct (Z.ltb_spec n s).
    + rewrite Z.mul_pow2_bits_low by lia. apply andb_false_r.
    + rewrite (testbit_above m s n) by lia. reflexivity.
Qed.

(** *** One chunk of a block, and the accumulation of chunks *)

Lemma match_mask_take_range (v : Z) (c : nat) (keys : list Z) :
  0 <= match_mask v (take c keys) < 2 ^ Z.of_nat c.
Proof.
  pose proof (match_mask_range v (take c keys)) as Hr.
  assert (2 ^ Z.of_nat (length (take c keys)) <= 2 ^ Z.of_nat c).
  { apply Z.pow_le_mono_r; [lia|]. rewrite length_take. lia. }
  lia.
Qed.

Lemma movemask32_chunk (v : Z) (keys : list Z) :
  movemask_epi32 (mm256_cmpeq_epi32 (loadu 8 keys) (broadcast_epi32 v)) =
  match_mask v (take 8 keys).
Proof.
  unfold movemask_epi32, mm256_cmpeq_epi32, loadu, broadcast_epi32.
  rewrite msb_cmpeq by (rewrite ?length_take; lia).
  apply int_to_u64_small. pose proof (match_mask_take_range v 8 keys). lia.
Qed.

Lemma movemask64_chunk (v : Z) (keys : list Z) :
  movemask_epi64 (mm256_cmpeq_epi64 (loadu 4 keys) (broadcast_epi64 v)) =
  match_mask v (take 4 keys).
Proof.
  unfold movemask_epi64, mm256_cmpeq_epi64, loadu, broadcast_epi64.
  rewrite msb_cmpeq by (rewrite ?length_take; lia).
  apply int_to_u64_small. pose proof (match_mask_take_range v 4 keys). lia.
Qed.

(** Two vectors of sixteen 16-bit lanes, packed and permuted. *)
Lemma movemask16_chunk (v : Z) (keys : list Z) :
  (32 <= length keys)%nat ->
  movemask_epi8
    (mm256_permute4x64_epi64
       (mm256_packs_epi16
          (mm256_cmpeq_epi16 (loadu 16 keys) (broadcast_epi16 v))
          (mm256_cmpeq_epi16 (loadu 16 (drop 16 keys)) (broadcast_epi16 v)))
       (MM_SHUFFLE 3 1 2 0)) =
  int_to_u64 (match_mask v (take 32 keys)).
Proof.
  intros Hlen.
  unfold movemask_epi8, mm256_cmpeq_epi16, loadu, broadcast_epi16.
  rewrite permute_packs
    by (rewrite cmpeq_length; rewrite ?length_take, ?length_drop; lia).
  rewrite (cmpeq_app 16 16 16)
    by (rewrite length_take; lia).
  rewrite msb_saturate_cmpeq
    by (rewrite length_app, !length_take, length_drop; lia).
  change 32%nat with (16 + 16)%nat. now rewrite take_plus.
Qed.

Lemma or_shl_chunk (v : Z) (keys : list Z) (s c t : nat) (sz : Z) :
  sz = Z.of_nat s -> t = (s + c)%nat -> (s <= length keys)%nat ->
  (t <= 64)%nat ->
  or_shl (match_mask v (take s keys)) (match_mask v (take c (drop s keys))) sz
  = match_mask v (take t keys).
Proof.
  intros -> -> Hs Ht.
  pose proof (match_mask_take_range v s keys) as Hm.
  pose proof (match_mask_take_range v c (drop s keys)) as Hx.
  assert (Hpow : 2 ^ Z.of_nat s * 2 ^ Z.of_nat c <= 2 ^ 64).
  { rewrite <- Z.pow_add_r by lia. apply Z.pow_le_mono_r; lia. }
  assert (0 < 2 ^ Z.of_nat s) by (apply Z.pow_pos_nonneg; lia).
  rewrite or_shl_add by nia.
  rewrite take_plus, match_mask_app, length_take_exact by lia. reflexivity.
Qed.

(** *** The three comparisons that yield the exact mask *)

Lemma Compare32Keys64Bit_mask (v : Z) (keys : list Z) :
  (32 <= length keys)%nat ->
  Compare32Keys64Bit (broadcast_epi64 v) keys = match_mask v (take 32 keys).
Proof.
  intros Hlen. unfold Compare32Keys64Bit.
  rewrite !movemask64_chunk.
  rewrite (or_shl_chunk v keys 4 4 8) by (reflexivity || lia).
  rewrite (or_shl_chunk v keys 8 4 12) by (reflexivity || lia).
  rewrite (or_shl_chunk v keys 12 4 16) by (reflexivity || lia).
  rewrite (or_shl_chunk v keys 16 4 20) by (reflexivity || lia).
  rewrite (or_shl_chunk v keys 20 4 24) by (reflexivity || lia).
  rewrite (or_shl_chunk v keys 24 4 28) by (reflexivity || lia).
  rewrite (or_shl_chunk v keys 28 4 32) by (reflexivity || lia).
  reflexivity.
Qed.

Lemma Compare32Keys32Bit_mask (v : Z) (keys : list Z) :
  (32 <= length keys)%nat ->
  Compare32Keys32Bit (broadcast_epi32 v) keys = match_mask v (take 32 keys).
Proof.
  intros Hlen. unfold Compare32Keys32Bit.
  rewrite !movemask32_chunk.
  rewrite (or_shl_chunk v keys 8 8 16) by (reflexivity || lia).
  rewrite (or_shl_chunk v keys 16 8 24) by (reflexivity || lia).
  rewrite (or_shl_chunk v keys 24 8 32) by (reflexivity || lia).
  reflexivity.
Qed.

Lemma Compare64Keys32Bit_mask (v : Z) (keys : list Z) :
  (64 <= length keys)%nat ->
  Compare64Keys32Bit (broadcast_epi32 v) keys = match_mask v (take 64 keys).
Proof.
  intros Hlen. unfold Compare64Keys32Bit.
  rewrite !movemask32_chunk.
  rewrite (or_shl_chunk v keys 8 8 16) by (reflexivity || lia).
  rewrite (or_shl_chunk v keys 16 8 24) by (reflexivity || lia).
  rewrite (or_shl_chunk v keys 24 8 32) by (reflexivity || lia).
  rewrite (or_shl_chunk v keys 32 8 40) by (reflexivity || lia).
  rewrite (or_shl_chunk v keys 40 8 48) by (reflexivity || lia).
  rewrite (or_shl_chunk v keys 48 8 56) by (reflexivity || lia).
  rewrite (or_shl_chunk v keys 56 8 64) by (reflexivity || lia).
  reflexivity.
Qed.

(** *** The comparisons of 16-bit keys, where the sign extension shows *)

Lemma find_first_app (v : Z) (l1 l2 : list Z) :
  find_first v (l1 ++ l2) =
  match find_first v l1 with
  | Some i => Some i
  | None => (fun j => (length l1 + j)%nat) <$> find_first v l2
  end.
Proof.
  induction l1 as [|a l1 IH]; cbn [app find_first length].
  - destruct (find_first v l2); reflexivity.
  - destruct (a =? v); [reflexivity|]. rewrite IH.
    destruct (find_first v l1); [reflexivity|].
    destruct (find_first v l2); reflexivity.
Qed.

Lemma ctz_lt (m n : Z) : 0 <= n -> 0 < m < 2 ^ n -> ctz m < n.
Proof.
  intros Hn Hm. destruct (Z.lt_ge_cases (ctz m) n) as [Hlt|Hge]; [exact Hlt|].
  pose proof (ctz_testbit m ltac:(lia)) as Hb.
  rewrite (testbit_above m n) in Hb by lia. discriminate.
Qed.

(** [ctz] only looks at the low part when that is not zero. *)
Lemma ctz_low_part (x m n : Z) :
  0 <= n -> 0 < m < 2 ^ n -> 0 < x -> x mod 2 ^ n = m -> ctz x = ctz m.
Proof.
  intros Hn Hm Hx Hmod.
  pose proof (ctz_lt m n Hn Hm) as Hlt. pose proof (ctz_nonneg m) as Hnn.
  assert (Hbit : forall k, 0 <= k < n -> Z.testbit x k = Z.testbit m k).
  { intros k Hk. rewrite <- Hmod, testbit_mod2p by lia.
    destruct (Z.ltb_spec k n); [reflexivity|lia]. }
  apply ctz_unique; try lia.
  - rewrite Hbit by lia. apply ctz_testbit. lia.
  - intros k Hk. rewrite Hbit by lia. apply ctz_below; lia.
Qed.

Lemma ctz_shifted (x : Z) (n : nat) :
  0 < x -> ctz (2 ^ Z.of_nat n * x) = Z.of_nat n + ctz x.
Proof.
  intros Hx. induction n as [|n IH].
  { change (2 ^ Z.of_nat 0) with 1. now rewrite Z.mul_1_l. }
  rewrite Nat2Z.inj_succ, Z.pow_succ_r by lia.
  rewrite <- Z.mul_assoc, ctz_double.
  - rewrite IH. lia.
  - assert (0 < 2 ^ Z.of_nat n) by (apply Z.pow_pos_nonneg; lia). nia.
Qed.

Lemma exact_mask_finds_first (N : nat) (v : Z) (keys : list Z) :
  finds_first N v keys (match_mask v (take N keys)).
Proof.
  split; [apply match_mask_range|]. split.
  - apply match_mask_zero.
  - apply match_mask_ctz.
Qed.

Lemma sign_extended_finds_first (v : Z) (keys : list Z) :
  finds_first 32 v keys (int_to_u64 (match_mask v (take 32 keys))).
Proof.
  pose proof (match_mask_take_range v 32 keys) as Hr.
  destruct (int_to_u64_low (match_mask v (take 32 keys)) Hr)
    as (c & Hc & Heq & Hlt).
  rewrite Heq. split; [lia|]. split.
  - rewrite <- match_mask_zero. split; [lia|].
    intros Hz. rewrite Hz in Heq |- *. rewrite <- Heq. reflexivity.
  - intros i Hi.
    assert (Hnz : match_mask v (take 32 keys) <> 0).
    { intros Hz. apply match_mask_zero in Hz. congruence. }
    rewrite <- (match_mask_ctz v (take 32 keys) i Hi).
    apply (ctz_low_part _ _ 32); try lia.
    rewrite Z.mod_add by lia. apply Z.mod_small. exact Hr.
Qed.

Lemma Compare32Keys16Bit_finds_first (v : Z) (keys : list Z) :
  (32 <= length keys)%nat ->
  finds_first 32 v keys (Compare32Keys16Bit (broadcast_epi16 v) keys).
Proof.
  intros Hlen. unfold Compare32Keys16Bit.
  rewrite movemask16_chunk by lia. apply sign_extended_finds_first.
Qed.

Lemma Compare64Keys16Bit_finds_first (v : Z) (keys : list Z) :
  (64 <= length keys)%nat ->
  finds_first 64 v keys (Compare64Keys16Bit (broadcast_epi16 v) keys).
Proof.
  intros Hlen. unfold Compare64Keys16Bit.
  replace (drop 48 keys) with (drop 16 (drop 32 keys))
    by (now rewrite drop_drop).
  rewrite movemask16_chunk by lia.
  rewrite movemask16_chunk by (rewrite length_drop; lia).
  set (m1 := match_mask v (take 32 keys)).
  set (m2 := match_mask v (take 32 (drop 32 keys))).
  pose proof (match_mask_take_range v 32 keys) as Hr1. fold m1 in Hr1.
  pose proof (match_mask_take_range v 32 (drop 32 keys)) as Hr2.
  fold m2 in Hr2.
  destruct (int_to_u64_low m1 Hr1) as (c1 & Hc1 & He1 & Hl1).
  destruct (int_to_u64_low m2 Hr2) as (c2 & Hc2 & He2 & Hl2).
  assert (Hhi : u64 (Z.shiftl (int_to_u64 m2) 32) = 2 ^ 32 * m2).
  { rewrite Z.shiftl_mul_pow2 by lia. rewrite He2. unfold u64.
    replace ((m2 + c2 * 2 ^ 32) * 2 ^ 32) with (m2 * 2 ^ 32 + c2 * 2 ^ 64)
      by lia.
    rewrite Z.mod_add by lia. rewrite Z.mod_small; lia. }
  unfold or_shl. rewrite Hhi.
  assert (Hsplit : take 64 keys = take 32 keys ++ take 32 (drop 32 keys)).
  { change 64%nat with (32 + 32)%nat. apply take_plus. }
  assert (Hlenl : length (take 32 keys) = 32%nat)
    by (apply length_take_exact; lia).
  assert (Hlow : Z.lor (int_to_u64 m1) (2 ^ 32 * m2) mod 2 ^ 32 = m1).
  { rewrite <- Z.land_ones by lia. rewrite Z.land_lor_distr_l.
    rewrite !Z.land_ones by lia. rewrite He1, Z.mod_add by lia.
    rewrite (Z.mul_comm (2 ^ 32) m2), Z.mod_mul by lia.
    rewrite Z.lor_0_r. apply Z.mod_small. exact Hr1. }
  assert (Hnn : 0 <= Z.lor (int_to_u64 m1) (2 ^ 32 * m2)).
  { apply Z.lor_nonneg. lia. }
  split; [exact Hnn|]. rewrite Hsplit, find_first_app, Hlenl. split.
  - rewrite Z.lor_eq_0_iff. unfold m1, m2.
    pose proof (match_mask_zero v (take 32 keys)) as Hz1.
    pose proof (match_mask_zero v (take 32 (drop 32 keys))) as Hz2.
    fold m1 in Hz1. fold m2 in Hz2. fold m1 m2.
    destruct (find_first v (take 32 keys)) as [i|].
    + split; [|discriminate]. intros [Ha _]. exfalso.
      assert (m1 = 0) by lia. apply Hz1 in H. discriminate.
    + destruct (find_first v (take 32 (drop 32 keys))) as [j|]; cbn.
      * split; [|discriminate]. intros [_ Hb]. exfalso.
        assert (m2 = 0) by lia. apply Hz2 in H. discriminate.
      * split; [reflexivity|]. intros _.
        assert (m1 = 0) by (apply Hz1; reflexivity).
        assert (m2 = 0) by (apply Hz2; reflexivity).
        split; [|lia]. rewrite He1 in *. 
        assert (Hm0 : int_to_u64 0 = 0) by reflexivity.
        replace m1 with 0 in * by lia. rewrite <- He1. exact Hm0.
  - intros i.
    pose proof (match_mask_zero v (take 32 keys)) as Hz1.
    pose proof (match_mask_ctz v (take 32 keys)) as Hct1.
    pose proof (match_mask_zero v (take 32 (drop 32 keys))) as Hz2.
    pose proof (match_mask_ctz v (take 32 (drop 32 keys))) as Hct2.
    fold m1 in Hz1, Hct1. fold m2 in Hz2, Hct2.
    destruct (find_first v (take 32 keys)) as [i1|].
    + intros [= <-].
      assert (m1 <> 0) by (intros Hz; apply Hz1 in Hz; discriminate).
      rewrite <- (Hct1 i1 eq_refl).
      apply (ctz_low_part _ _ 32); try lia.
      assert (Z.lor (int_to_u64 m1) (2 ^ 32 * m2) <> 0); [|lia].
      intros Hz. rewrite Hz in Hlow. rewrite Z.mod_0_l in Hlow by lia. lia.
    + destruct (find_first v (take 32 (drop 32 keys))) as [j|];
        [|discriminate].
      cbn. intros [= <-].
      assert (m1 = 0) by (apply Hz1; reflexivity).
      assert (m2 <> 0) by (intros Hz; apply Hz2 in Hz; discriminate).
      replace (int_to_u64 m1) with 0
        by (replace m1 with 0 by lia; reflexivity).
      rewrite Z.lor_0_l.
      change (2 ^ 32) with (2 ^ Z.of_nat 32).
      rewrite ctz_shifted by lia. rewrite (Hct2 j eq_refl). lia.
Qed.

(** Every block comparison of [Find] finds the first match of its block. *)
Lemma compare_block_finds_first (T : SS.arith) (N : nat) (v : Z)
    (keys : list Z) :
  N = 32%nat \/ (N = 64%nat /\ SS.sizeof T <> 8) ->
  (N <= length keys)%nat ->
  finds_first N v keys (compare_block T N v keys).
Proof.
  intros HN Hlen. unfold compare_block.
  destruct HN as [->|[-> H8]]; destruct T; cbn [SS.sizeof] in *;
    try lia.
  all: first
    [ now apply Compare32Keys16Bit_finds_first
    | now apply Compare64Keys16Bit_finds_first
    | rewrite Compare32Keys32Bit_mask by lia; apply exact_mask_finds_first
    | rewrite Compare64Keys32Bit_mask by lia; apply exact_mask_finds_first
    | rewrite Compare32Keys64Bit_mask by lia; apply exact_mask_finds_first ].
Qed.

End SimdProofs.

(** ** SpaceSaving: [Find] returns the first slot holding the value *)

Module SSFindProofs.
Import SS SSSpec SimdProofs Bits.

(** Linear arithmetic with division by a literal. *)
Ltac dlia := zify; Z.to_euclidean_division_equations; lia.

Section Find.

Variable K : nat.

Lemma take_mul_succ {A : Type} (n N : nat) (l : list A) :
  take (S n * N) l = take N l ++ take (n * N) (drop N l).
Proof. cbn [Nat.mul]. apply take_plus. Qed.

(** The loop over blocks of [N] keys, started at [i] with enough fuel, finds
    the first match among the whole blocks that remain. *)
Lemma scan_blocks_spec (T : arith) (N : nat) (v : Z) (data : list Z) (fuel i nb : nat) :
  N = 32%nat \/ (N = 64%nat /\ sizeof T <> 8) ->
  length data = K ->
  (i + nb * N <= K)%nat -> (K < i + nb * N + N)%nat -> (nb < fuel)%nat ->
  scan_blocks K N (compare_block T N v) data fuel i =
  match find_first v (take (nb * N) (drop i data)) with
  | Some r => inl (i + r)%nat
  | None => inr (i + nb * N)%nat
  end.
Proof.
  intros HN Hlen. revert i nb.
  induction fuel as [|fuel IH]; intros i nb Hlo Hhi Hfuel; [lia|].
  cbn [scan_blocks].
  destruct nb as [|nb].
  - change (0 * N)%nat with 0%nat in *.
    destruct (Nat.leb_spec (i + N) K) as [Hle|Hgt]; [lia|].
    cbn [take find_first]. f_equal. lia.
  - destruct (Nat.leb_spec (i + N) K) as [Hle|Hgt]; [|lia].
    assert (Hblock : (N <= length (drop i data))%nat)
      by (rewrite length_drop; lia).
    destruct (compare_block_finds_first T N v (drop i data) HN Hblock)
      as (Hnn & Hzero & Hctz).
    rewrite take_mul_succ, find_first_app.
    destruct (find_first v (take N (drop i data))) as [r|] eqn:Hfind.
    + destruct (Z.eqb_spec (compare_block T N v (drop i data)) 0) as [Hz|Hnz].
      * apply Hzero in Hz. discriminate.
      * cbn [negb]. rewrite (Hctz r eq_refl). f_equal. lia.
    + destruct Hzero as [_ Hzero]. rewrite Hzero by reflexivity.
      cbn [Z.eqb negb]. rewrite length_take_exact by lia.
      rewrite (IH (i + N)%nat nb) by lia. rewrite drop_drop.
      destruct (find_first v (take (nb * N) (drop (i + N) data))); cbn;
        f_equal; lia.
Qed.

(** A value found is found below [K]. *)
Lemma find_first_bound (v : Z) (data : list Z) (r : nat) :
  length data = K -> find_first v data = Some r -> (r < K)%nat.
Proof. intros <- Hf. now apply find_first_lt in Hf. Qed.

Hypothesis K_blocks : (K mod 32 = 0)%nat.

Lemma blocks_64_32 :
  exists nb, (nb <= 1)%nat /\ (K / 64 * 64 + nb * 32 = K)%nat.
Proof.
  exists ((K - K / 64 * 64) / 32)%nat.
  assert (H64 : (K = 64 * (K / 64) + K mod 64)%nat) by apply Nat.div_mod_eq.
  assert (Hr : (K mod 64 < 64)%nat) by (apply Nat.mod_upper_bound; lia).
  assert (H32 : (K = 32 * (K / 32) + K mod 32)%nat) by apply Nat.div_mod_eq.
  assert (Hrem : (K - K / 64 * 64 = K mod 64)%nat) by lia.
  rewrite Hrem.
  assert (Hcase : (K mod 64 = 0 \/ K mod 64 = 32)%nat) by lia.
  destruct Hcase as [H0|H0]; rewrite H0 in *.
  - change (0 / 32)%nat with 0%nat. lia.
  - change (32 / 32)%nat with 1%nat. lia.
Qed.

(** [Find] returns the first index whose slot holds the value, and
    [NotFound] when no slot does. *)
Theorem Find_first (T : arith) (NotFound : nat) (s : sketch) (v : Z) :
  length (values s) = K ->
  Find T K NotFound s v =
  match find_first v (values s) with
  | Some r => r
  | None => NotFound
  end.
Proof.
  intros Hlen. unfold Find.
  destruct (Nat.eq_dec K 0%nat) as [HK0|HK0].
  { destruct (values s) as [|x l]; [|cbn in Hlen; lia].
    subst K. now destruct T. }
  pose proof (Nat.div_mod_eq K 32) as Hdm32.
  pose proof (Nat.div_mod_eq K 64) as Hdm64.
  pose proof (Nat.mod_upper_bound K 64 ltac:(lia)) as Hr64.
  assert (H32 : (K / 32 * 32 = K)%nat) by lia.
  assert (H32lt : (K / 32 < K)%nat) by lia.
  assert (H64 : (K / 64 * 64 <= K)%nat) by lia.
  assert (H64hi : (K < K / 64 * 64 + 64)%nat) by lia.
  assert (H64lt : (K / 64 < K)%nat) by lia.
  destruct blocks_64_32 as (nb32 & Hnb & Hsum).
  assert (Hall : forall i nb N, (i + nb * N = K)%nat ->
            take (nb * N) (drop i (values s)) = drop i (values s)).
  { intros i nb N Hi. apply take_ge. rewrite length_drop. lia. }
  assert (Hsplit : forall i, find_first v (values s) =
            match find_first v (take i (values s)) with
            | Some r => Some r
            | None => (fun j => (length (take i (values s)) + j)%nat) <$>
                        find_first v (drop i (values s))
            end).
  { intros i. rewrite <- find_first_app. now rewrite take_drop. }
  assert (Hwide : sizeof T = 2 \/ sizeof T = 4 ->
    match scan_blocks K 64 (compare_block T 64 v) (values s) K 0 with
    | inl r => r
    | inr i =>
        match scan_blocks K 32 (compare_block T 32 v) (values s) K i with
        | inl r => r
        | inr _ => NotFound
        end
    end =
    match find_first v (values s) with Some r => r | None => NotFound end).
  { intros Hsz.
    rewrite (scan_blocks_spec T 64 v (values s) K 0 (K / 64)) by lia.
    rewrite drop_0. cbn [Nat.add].
    rewrite (Hsplit (K / 64 * 64)%nat).
    destruct (find_first v (take (K / 64 * 64) (values s))) as [r|];
      [reflexivity|].
    rewrite (scan_blocks_spec T 32 v (values s) K (K / 64 * 64) nb32)
      by lia.
    rewrite Hall by lia. rewrite length_take_exact by lia.
    destruct (find_first v (drop (K / 64 * 64) (values s))); reflexivity. }
  assert (Hnarrow :
    match scan_blocks K 32 (compare_block Int64 32 v) (values s) K 0 with
    | inl r => r
    | inr _ => NotFound
    end =
    match find_first v (values s) with Some r => r | None => NotFound end).
  { rewrite (scan_blocks_spec Int64 32 v (values s) K 0 (K / 32)) by lia.
    rewrite Hall by lia. rewrite drop_0.
    destruct (find_first v (values s)); reflexivity. }
  destruct T;
    first [ exact (Hwide (or_introl eq_refl))
          | exact (Hwide (or_intror eq_refl))
          | exact Hnarrow ].
Qed.

End Find.

End SSFindProofs.

(** ** SpaceSaving: [SiftDown] restores the heap and permutes the slots *)

Module SSHeapProofs.
Import SS SSSpec Bits.

(** *** Lists *)

Lemma insert_delete_perm {A : Type} (l : list A) (k : nat) (x : A) :
  (k < length l)%nat -> <[k := x]> l ≡ₚ x :: delete k l.
Proof.
  revert k. induction l as [|y l IH]; intros k Hk; [cbn in Hk; lia|].
  destruct k as [|k]; [reflexivity|].
  cbn [length] in Hk. cbn. rewrite IH by lia. apply perm_swap.
Qed.

(** Exchanging the contents of two slots permutes the list. *)
Lemma exchange_lt_perm {A : Type} `{Inhabited A} (l : list A) (i j : nat) :
  (i < j)%nat -> (j < length l)%nat ->
  <[j := l !!! i]> (<[i := l !!! j]> l) ≡ₚ l.
Proof.
  revert i j. induction l as [|x l IH]; intros i j Hij Hj; [cbn in Hj; lia|].
  cbn [length] in Hj. destruct j as [|j]; [lia|].
  destruct i as [|i].
  - cbn. rewrite insert_delete_perm by lia.
    assert (Hlook : l !! j = Some (l !!! j))
      by (apply list_lookup_lookup_total_lt; lia).
    transitivity (x :: l !!! j :: delete j l); [apply perm_swap|].
    apply perm_skip. symmetry. now apply delete_Permutation.
  - cbn. f_equiv. apply IH; lia.
Qed.

Lemma exchange_perm {A : Type} `{Inhabited A} (l : list A) (i j : nat) :
  i <> j -> (i < length l)%nat -> (j < length l)%nat ->
  <[j := l !!! i]> (<[i := l !!! j]> l) ≡ₚ l.
Proof.
  intros Hne Hi Hj. destruct (Nat.lt_ge_cases i j) as [Hlt|Hge].
  - now apply exchange_lt_perm.
  - rewrite list_insert_insert_ne by lia. apply exchange_lt_perm; lia.
Qed.

Lemma zip_insert {A B : Type} (l : list A) (k : list B) (i : nat) (a : A)
    (b : B) :
  zip (<[i := a]> l) (<[i := b]> k) = <[i := (a, b)]> (zip l k).
Proof.
  revert k i. induction l as [|x l IH]; intros k i; [reflexivity|].
  destruct k as [|y k]; [now destruct i|].
  destruct i as [|i]; [reflexivity|]. cbn. now rewrite IH.
Qed.

Lemma zip_lookup_total {A B : Type} `{Inhabited A} `{Inhabited B}
    (l : list A) (k : list B) (i : nat) :
  (i < length l)%nat -> (i < length k)%nat ->
  zip l k !!! i = (l !!! i, k !!! i).
Proof.
  revert k i. induction l as [|x l IH]; intros k i Hl Hk; [cbn in Hl; lia|].
  destruct k as [|y k]; [cbn in Hk; lia|].
  destruct i as [|i]; [reflexivity|].
  cbn in Hl, Hk. cbn. apply IH; lia.
Qed.

Lemma sum_list_cons (y : Z) (l : list Z) :
  sum_list (y :: l) = y + sum_list l.
Proof. reflexivity. Qed.

Lemma sum_list_insert (l : list Z) (i : nat) (x : Z) :
  (i < length l)%nat ->
  sum_list (<[i := x]> l) = sum_list l - l !!! i + x.
Proof.
  revert i. induction l as [|y l IH]; intros i Hi; [cbn in Hi; lia|].
  cbn [length] in Hi. destruct i as [|i].
  - change (<[0%nat := x]> (y :: l)) with (x :: l).
    change ((y :: l) !!! 0%nat) with y. rewrite !sum_list_cons. lia.
  - change (<[S i := x]> (y :: l)) with (y :: <[i := x]> l).
    change ((y :: l) !!! S i) with (l !!! i).
    rewrite !sum_list_cons, IH by lia. lia.
Qed.

Lemma sum_list_perm (l k : list (Z * Z)) :
  l ≡ₚ k -> sum_list (l.*2) = sum_list (k.*2).
Proof.
  induction 1 as [|x l k Hp IH|x y l|l k m Hp1 IH1 Hp2 IH2];
    rewrite ?fmap_cons, ?sum_list_cons; lia.
Qed.

Lemma sum_list_nonneg (l : list Z) :
  Forall (fun w => 0 <= w) l -> 0 <= sum_list l.
Proof.
  induction 1 as [|y l Hy Hall IH]; [reflexivity|].
  rewrite sum_list_cons. lia.
Qed.

Lemma sum_list_lookup_le (l : list Z) (i : nat) :
  Forall (fun w => 0 <= w) l -> (i < length l)%nat -> l !!! i <= sum_list l.
Proof.
  intros Hall. revert i. induction Hall as [|y l Hy Hall IH]; intros i Hi;
    [cbn in Hi; lia|].
  pose proof (sum_list_nonneg l Hall) as Hnn.
  cbn [length] in Hi. rewrite sum_list_cons. destruct i as [|i].
  - change ((y :: l) !!! 0%nat) with y. lia.
  - change ((y :: l) !!! S i) with (l !!! i).
    specialize (IH i ltac:(lia)). lia.
Qed.

(** *** The array layout of the heap *)

Lemma parent_children (i p : nat) :
  (1 <= i)%nat ->
  ((i - 1) / 2 = p)%nat <-> (i = 2 * p + 1 \/ i = 2 * p + 2)%nat.
Proof.
  intros Hi. pose proof (Nat.div_mod_eq (i - 1) 2) as Hdm.
  pose proof (Nat.mod_upper_bound (i - 1) 2 ltac:(lia)) as Hr.
  lia.
Qed.

Lemma parent_lt (i : nat) : (1 <= i)%nat -> ((i - 1) / 2 < i)%nat.
Proof.
  intros Hi. pose proof (Nat.div_mod_eq (i - 1) 2) as Hdm. lia.
Qed.

(** The root of a heap is its minimum. *)
Lemma heap_root_min (ws : list Z) (i : nat) :
  heap_ordered ws -> (i < length ws)%nat -> ws !!! 0%nat <= ws !!! i.
Proof.
  intros Hheap. induction i as [i IH] using lt_wf_ind. intros Hi.
  destruct (Nat.eq_dec i 0%nat) as [->|Hne]; [lia|].
  pose proof (parent_lt i ltac:(lia)) as Hp.
  specialize (IH ((i - 1) / 2)%nat Hp ltac:(lia)).
  specialize (Hheap i ltac:(lia)). lia.
Qed.

(** *** The loop of [SiftDown] *)

Section SiftDown.

Variable K : nat.

(** Reading an array in which slot [p] has just been written. *)
Ltac rd_ins :=
  repeat first
    [ rewrite list_lookup_total_insert_eq by (rewrite ?length_insert; lia)
    | rewrite list_lookup_total_insert_ne by lia ].

Lemma gtb_false (a b : Z) : (a >? b) = false <-> a <= b.
Proof. rewrite Z.gtb_ltb. destruct (Z.ltb_spec b a); split; intros; try lia; easy. Qed.

Lemma gtb_true (a b : Z) : (a >? b) = true <-> b < a.
Proof. rewrite Z.gtb_ltb. destruct (Z.ltb_spec b a); split; intros; try lia; easy. Qed.

(** The child the loop settles on is the lighter one. *)
Lemma chosen_child (ws : list Z) (c : nat) :
  (c < K)%nat ->
  let ch := if ((c + 1 <? K)%nat && (ws !!! c >? ws !!! (c + 1)%nat))
            then (c + 1)%nat else c in
  (ch = c \/ ch = (c + 1)%nat) /\ (ch < K)%nat /\
  ws !!! ch <= ws !!! c /\
  ((c + 1 < K)%nat -> ws !!! ch <= ws !!! (c + 1)%nat).
Proof.
  intros Hc. cbv zeta.
  destruct (Nat.ltb_spec (c + 1) K) as [Hr|Hr]; cbn [andb].
  - destruct (ws !!! c >? ws !!! (c + 1)%nat) eqn:Hcmp.
    + apply gtb_true in Hcmp. repeat split; lia.
    + apply gtb_false in Hcmp. repeat split; lia.
  - repeat split; lia.
Qed.

Lemma SiftDown_loop_heap (fuel : nat) (w : Z) :
  forall (ws vs : list Z) (p c : nat) (ws' vs' : list Z) (p' : nat),
  length ws = K -> (p < K)%nat -> c = (2 * p + 1)%nat ->
  (K <= c + fuel)%nat ->
  heap_but (<[p := w]> ws) p ->
  SiftDown_loop K fuel w ws vs p c = (ws', vs', p') ->
  heap_ordered (<[p' := w]> ws') /\ length ws' = K /\ (p' < K)%nat.
Proof.
  induction fuel as [|fuel IH];
    intros ws vs p c ws' vs' p' Hlen Hp Hc Hfuel [Hin Hgrand] Hrun.
  - cbn in Hrun. injection Hrun as <- <- <-.
    split; [|split; [exact Hlen|exact Hp]].
    intros i Hi. rewrite length_insert in Hi.
    apply Hin; [now rewrite length_insert|].
    intros Hpar. apply parent_children in Hpar; lia.
  - cbn [SiftDown_loop] in Hrun.
    destruct (Nat.ltb_spec c K) as [HcK|HcK].
    2:{ injection Hrun as <- <- <-.
        split; [|split; [exact Hlen|exact Hp]].
        intros i Hi. rewrite length_insert in Hi.
        apply Hin; [now rewrite length_insert|].
        intros Hpar. apply parent_children in Hpar; lia. }
    destruct (chosen_child ws c HcK) as (Hch & HchK & Hle_l & Hle_r).
    set (ch := if ((c + 1 <? K)%nat && (ws !!! c >? ws !!! (c + 1)%nat))
               then (c + 1)%nat else c) in *.
    destruct (w >? ws !!! ch) eqn:Hcmp; cbn [negb] in Hrun.
    + (* descend *)
      apply gtb_true in Hcmp.
      eapply (IH _ _ ch (2 * ch + 1)%nat); [| | reflexivity | | | exact Hrun].
      * now rewrite length_insert.
      * exact HchK.
      * lia.
      * assert (Hpch : ((ch - 1) / 2 = p)%nat)
          by (apply parent_children; lia).
        split.
        -- intros i Hi Hpar. rewrite !length_insert in Hi.
           destruct (Nat.eq_dec i ch) as [->|Hich].
           { rewrite Hpch. rd_ins. lia. }
           destruct (Nat.eq_dec ((i - 1) / 2)%nat p) as [Hip|Hip].
           { (* the sibling of the chosen child *)
             apply parent_children in Hip; [|lia].
             rewrite (proj2 (parent_children i p ltac:(lia)) Hip).
             rd_ins. destruct Hch as [Hch|Hch]; destruct Hip as [Hip|Hip];
               try lia.
             - replace i with (c + 1)%nat by lia. apply Hle_r. lia.
             - replace i with c by lia. exact Hle_l. }
           destruct (Nat.eq_dec i p) as [->|Hi_p].
           { (* the slot that received the child *)
             pose proof (parent_lt p ltac:(lia)).
             rd_ins.
             specialize (Hgrand ch ltac:(lia)
               ltac:(rewrite length_insert; lia) Hpch ltac:(lia)).
             revert Hgrand. rd_ins. lia. }
           pose proof (parent_lt i ltac:(lia)).
           specialize (Hin i ltac:(rewrite length_insert; lia) Hip).
           revert Hin. rd_ins. lia.
        -- intros gc _ Hgc Hpar Hgc1. rewrite !length_insert in Hgc.
           apply parent_children in Hpar; [|lia].
           rewrite Hpch. rd_ins.
           assert (Hpg : ((gc - 1) / 2 = ch)%nat)
             by (apply parent_children; lia).
           specialize (Hin gc ltac:(rewrite length_insert; lia)
             ltac:(lia)).
           revert Hin. rewrite Hpg. rd_ins. lia.
    + (* the saved weight fits between the parent and the children *)
      apply gtb_false in Hcmp. injection Hrun as <- <- <-.
      split; [|split; [exact Hlen|exact Hp]].
      intros i Hi. rewrite length_insert in Hi.
      destruct (Nat.eq_dec ((i - 1) / 2)%nat p) as [Hip|Hip].
      * rewrite Hip. apply parent_children in Hip; [|lia]. rd_ins.
        destruct Hip as [Hip|Hip].
        -- replace i with c by lia. lia.
        -- replace i with (c + 1)%nat by lia.
           specialize (Hle_r ltac:(lia)). lia.
      * apply Hin; [now rewrite length_insert|exact Hip].
Qed.

Lemma SiftDown_loop_length (fuel : nat) (w : Z) :
  forall (ws vs : list Z) (p c : nat) (ws' vs' : list Z) (p' : nat),
  length ws = K ->
  SiftDown_loop K fuel w ws vs p c = (ws', vs', p') -> length ws' = K.
Proof.
  induction fuel as [|fuel IH]; intros ws vs p c ws' vs' p' Hlw Hrun.
  - cbn in Hrun. now injection Hrun as <- <- <-.
  - cbn [SiftDown_loop] in Hrun.
    destruct (c <? K)%nat; [|now injection Hrun as <- <- <-].
    destruct (negb _); [now injection Hrun as <- <- <-|].
    apply IH in Hrun; [exact Hrun|now rewrite length_insert].
Qed.

Lemma SiftDown_loop_perm (fuel : nat) (w v : Z) :
  forall (ws vs : list Z) (p c : nat) (ws' vs' : list Z) (p' : nat),
  length ws = K -> length vs = K -> (p < K)%nat -> (p < c)%nat ->
  SiftDown_loop K fuel w ws vs p c = (ws', vs', p') ->
  zip (<[p' := v]> vs') (<[p' := w]> ws') ≡ₚ
    zip (<[p := v]> vs) (<[p := w]> ws) /\
  length vs' = K.
Proof.
  induction fuel as [|fuel IH];
    intros ws vs p c ws' vs' p' Hlw Hlv Hp Hc Hrun.
  - cbn in Hrun. injection Hrun as <- <- <-. split; [reflexivity|exact Hlv].
  - cbn [SiftDown_loop] in Hrun.
    destruct (Nat.ltb_spec c K) as [HcK|HcK].
    2:{ injection Hrun as <- <- <-. split; [reflexivity|exact Hlv]. }
    destruct (chosen_child ws c HcK) as (Hch & HchK & _ & _).
    set (ch := if ((c + 1 <? K)%nat && (ws !!! c >? ws !!! (c + 1)%nat))
               then (c + 1)%nat else c) in *.
    destruct (w >? ws !!! ch); cbn [negb] in Hrun.
    2:{ injection Hrun as <- <- <-. split; [reflexivity|exact Hlv]. }
    apply IH in Hrun as [Hperm Hlv'];
      [|now rewrite length_insert|now rewrite length_insert|exact HchK|lia].
    split; [|exact Hlv'].
    rewrite Hperm, !zip_insert.
    set (l := <[p := (v, w)]> (zip vs ws)).
    assert (Hll : length l = K).
    { unfold l. rewrite length_insert, length_zip. lia. }
    assert (Hlp : l !!! p = (v, w)).
    { unfold l. apply list_lookup_total_insert_eq. rewrite length_zip. lia. }
    assert (Hlc : l !!! ch = (vs !!! ch, ws !!! ch)).
    { unfold l. rewrite list_lookup_total_insert_ne by lia.
      apply zip_lookup_total; lia. }
    rewrite <- Hlp, <- Hlc.
    replace (<[p := l !!! ch]> (zip vs ws)) with (<[p := l !!! ch]> l)
      by (unfold l; apply list_insert_insert_eq).
    apply exchange_perm; lia.
Qed.

(** *** [SiftDown], [UpdateHeap] and [Insert] *)

(** [SiftDown] permutes the (value, weight) pairs of the slots. *)
Lemma SiftDown_perm (s : sketch) (i : nat) :
  length (values s) = K -> length (weights s) = K -> (i < K)%nat ->
  pairs (SiftDown K s i) ≡ₚ pairs s /\
  length (values (SiftDown K s i)) = K /\
  length (weights (SiftDown K s i)) = K.
Proof.
  intros Hlv Hlw Hi. unfold SiftDown, pairs.
  destruct (SiftDown_loop K K (weights s !!! i) (weights s) (values s) i
              (2 * i + 1)) as [[ws' vs'] p'] eqn:Hrun.
  cbn [values weights].
  destruct (SiftDown_loop_perm K (weights s !!! i) (values s !!! i)
              (weights s) (values s) i (2 * i + 1)%nat ws' vs' p'
              Hlw Hlv Hi ltac:(lia) Hrun) as [Hperm Hlv'].
  split; [|split].
  - rewrite Hperm.
    rewrite !list_insert_id
      by (apply list_lookup_lookup_total_lt; lia). reflexivity.
  - now rewrite length_insert.
  - rewrite length_insert.
    exact (SiftDown_loop_length _ _ _ _ _ _ _ _ _ Hlw Hrun).
Qed.

(** [SiftDown] at a slot whose weight went up restores the heap. *)
Lemma SiftDown_heap (s : sketch) (i : nat) :
  length (weights s) = K -> (i < K)%nat ->
  heap_but (weights s) i ->
  heap_ordered (weights (SiftDown K s i)).
Proof.
  intros Hlw Hi Hbut. unfold SiftDown.
  destruct (SiftDown_loop K K (weights s !!! i) (weights s) (values s) i
              (2 * i + 1)) as [[ws' vs'] p'] eqn:Hrun.
  cbn [weights].
  eapply (SiftDown_loop_heap K (weights s !!! i)); [exact Hlw|exact Hi|
    reflexivity|lia| |exact Hrun].
  rewrite list_insert_id by (apply list_lookup_lookup_total_lt; lia).
  exact Hbut.
Qed.

(** Raising the weight of one slot of a heap leaves the heap order
    everywhere but below that slot. *)
Lemma raise_heap_but (ws : list Z) (i : nat) (x : Z) :
  heap_ordered ws -> (i < length ws)%nat -> ws !!! i <= x ->
  heap_but (<[i := x]> ws) i.
Proof.
  intros Hheap Hi Hx. split.
  - intros j Hj Hpar. rewrite length_insert in Hj.
    pose proof (parent_lt j ltac:(lia)).
    specialize (Hheap j Hj).
    destruct (Nat.eq_dec j i) as [->|Hji]; rd_ins; lia.
  - intros c Hi1 Hc Hpar Hc1. rewrite length_insert in Hc.
    pose proof (parent_lt i ltac:(lia)).
    pose proof (Hheap c ltac:(lia)) as H1. rewrite Hpar in H1.
    pose proof (Hheap i ltac:(lia)) as H2.
    assert (c <> i) by (apply parent_children in Hpar; lia).
    rd_ins. lia.
Qed.

End SiftDown.

End SSHeapProofs.


(** ** SpaceSaving: what [Insert] maintains *)

Module SSInsertProofs.
Import SS SSSpec SimdProofs SSFindProofs SSHeapProofs Bits.

Lemma sum_list_zeros (n : nat) : sum_list (replicate n 0) = 0.
Proof.
  induction n as [|n IH]; [reflexivity|].
  cbn [replicate]. rewrite sum_list_cons. lia.
Qed.

(** The slot [Find<0>] designates lies in the arrays. *)
Lemma Find_lt (T : arith) (K : nat) (s : sketch) (value : Z) :
  (0 < K)%nat -> (K mod 32 = 0)%nat ->
  length (values s) = K -> (Find T K 0 s value < K)%nat.
Proof.
  intros K_pos K_blocks Hlen.
  rewrite (Find_first K K_blocks T) by exact Hlen.
  destruct (find_first value (values s)) as [r|] eqn:Hf; [|exact K_pos].
  apply find_first_lt in Hf. lia.
Qed.

(** [UpdateHeap] overwrites one pair and permutes. *)
Lemma UpdateHeap_perm (K : nat) (s : sketch) (value : Z) (i : nat) :
  length (values s) = K -> length (weights s) = K -> (i < K)%nat ->
  pairs (UpdateHeap K s value i) ≡ₚ
    <[i := (value, u64 (weights s !!! i + 1))]> (pairs s) /\
  length (values (UpdateHeap K s value i)) = K /\
  length (weights (UpdateHeap K s value i)) = K.
Proof.
  intros Hlv Hlw Hi. unfold UpdateHeap.
  destruct (SiftDown_perm K
    {| values := <[i := value]> (values s);
       weights := <[i := u64 (weights s !!! i + 1)]> (weights s) |} i)
    as (Hperm & Hlv' & Hlw'); cbn [values weights];
    rewrite ?length_insert; try assumption.
  split; [|split; assumption].
  rewrite Hperm. unfold pairs. cbn [values weights].
  now rewrite zip_insert.
Qed.

Lemma UpdateHeap_heap (K : nat) (s : sketch) (value : Z) (i : nat) :
  length (weights s) = K -> (i < K)%nat ->
  heap_ordered (weights s) -> 0 <= weights s !!! i ->
  weights s !!! i + 1 < 2 ^ 64 ->
  heap_ordered (weights (UpdateHeap K s value i)).
Proof.
  intros Hlw Hi Hheap Hnn Hno. unfold UpdateHeap.
  apply SiftDown_heap; cbn [weights]; rewrite ?length_insert; try assumption.
  apply raise_heap_but; [exact Hheap|lia|].
  rewrite u64_small by lia. lia.
Qed.

Lemma init_counted (T : arith) (K : nat) : counted K (init T K) 0.
Proof.
  unfold counted, well_formed, init. cbn [values weights].
  unfold sequence. rewrite length_map, length_seq, length_replicate.
  repeat split.
  - apply Forall_replicate. lia.
  - intros i Hi. rewrite length_replicate in Hi.
    pose proof (parent_lt i ltac:(lia)).
    rewrite !lookup_total_replicate_2 by lia. lia.
  - apply sum_list_zeros.
Qed.

Lemma Forall_range_insert (ws : list Z) (i : nat) (x : Z) :
  Forall (fun w => 0 <= w < 2 ^ 64) ws -> 0 <= x < 2 ^ 64 ->
  Forall (fun w => 0 <= w < 2 ^ 64) (<[i := x]> ws).
Proof. intros Hall Hx. now apply Forall_insert. Qed.

Lemma Insert_counted (T : arith) (K : nat) (s : sketch) (n v : Z) :
  (0 < K)%nat -> (K mod 32 = 0)%nat ->
  counted K s n -> n + 1 < 2 ^ 64 -> counted K (Insert T K s v) (n + 1).
Proof.
  intros K_pos K_blocks ((Hlv & Hlw & Hrange) & Hheap & Hsum) Hn.
  unfold Insert.
  set (value := Normalized T v). set (i := Find T K 0 s value).
  assert (Hi : (i < K)%nat) by (apply Find_lt; assumption).
  assert (Hnonneg : Forall (fun w => 0 <= w) (weights s)).
  { eapply Forall_impl; [exact Hrange|]. cbn. intros w Hw. lia. }
  pose proof (sum_list_lookup_le (weights s) i Hnonneg ltac:(lia)) as Hle.
  assert (Hwi : 0 <= weights s !!! i).
  { rewrite Forall_lookup in Hnonneg.
    apply (Hnonneg i). apply list_lookup_lookup_total_lt. lia. }
  destruct (UpdateHeap_perm K s value i Hlv Hlw Hi) as (Hperm & Hlv' & Hlw').
  assert (Hws : weights (UpdateHeap K s value i) ≡ₚ
                <[i := u64 (weights s !!! i + 1)]> (weights s)).
  { rewrite <- (snd_zip (values (UpdateHeap K s value i))
                 (weights (UpdateHeap K s value i))) by lia.
    fold (pairs (UpdateHeap K s value i)). rewrite Hperm.
    unfold pairs. rewrite <- zip_insert.
    rewrite snd_zip by (rewrite !length_insert; lia). reflexivity. }
  split; [split; [exact Hlv'|split; [exact Hlw'|]]|split].
  - rewrite Hws. apply Forall_range_insert; [exact Hrange|].
    rewrite u64_small by lia. lia.
  - apply UpdateHeap_heap; try assumption. lia.
  - transitivity (sum_list (<[i := u64 (weights s !!! i + 1)]> (weights s))).
    + clear -Hws. unfold sum_list. induction Hws; cbn; lia.
    + rewrite sum_list_insert by lia. rewrite u64_small by lia. lia.
Qed.

Lemma Insert_all_counted (T : arith) (K : nat) (vs : list Z) :
  (0 < K)%nat -> (K mod 32 = 0)%nat ->
  forall (s : sketch) (n : Z),
  counted K s n -> n + Z.of_nat (length vs) < 2 ^ 64 ->
  counted K (Insert_all T K s vs) (n + Z.of_nat (length vs)).
Proof.
  intros K_pos K_blocks.
  induction vs as [|v vs IH]; intros s n Hs Hn.
  - cbn. now rewrite Z.add_0_r.
  - cbn [Insert_all fold_left length] in *.
    rewrite Nat2Z.inj_succ in *.
    replace (n + Z.succ (Z.of_nat (length vs)))
      with (n + 1 + Z.of_nat (length vs)) by lia.
    apply IH; [|lia]. apply Insert_counted; [assumption..|lia].
Qed.

(** C3.  For SpaceSaving<T, K> with [K] a positive multiple of 32, started
    from the initial state, the weights are in min-heap order after every
    stream of fewer than 2^64 inserts: every non-root slot [i] weighs at
    least its parent [(i - 1) / 2], and slot [0] holds the least of the [K]
    weights. *)
Theorem heap_after_every_insert (T : arith) (K : nat) (vs : list Z) :
  (0 < K)%nat -> (K mod 32 = 0)%nat -> Z.of_nat (length vs) < 2 ^ 64 ->
  let s := Insert_all T K (init T K) vs in
  length (weights s) = K /\
  (forall i : nat, (1 <= i < K)%nat ->
     weights s !!! ((i - 1) / 2)%nat <= weights s !!! i) /\
  (forall i : nat, (i < K)%nat -> weights s !!! 0%nat <= weights s !!! i).
Proof.
  intros HK HK32 Hlen s.
  destruct (Insert_all_counted T K vs HK HK32 (init T K) 0
              (init_counted T K) ltac:(lia))
    as ((Hlv & Hlw & Hrange) & Hheap & Hsum).
  fold s in Hlv, Hlw, Hrange, Hheap, Hsum.
  split; [exact Hlw|split].
  - intros i Hi. apply Hheap. lia.
  - intros i Hi. apply heap_root_min; [exact Hheap|lia].
Qed.

(** The heap theorem on a sketch of 32 [int32_t] slots and a stream with
    repeated and fresh values. *)
Lemma heap_after_every_insert_witness :
  let s := Insert_all Int32 32 (init Int32 32) [7; 1000; 7; 2000; 7; 1000] in
  length (weights s) = 32%nat /\
  (forall i : nat, (1 <= i < 32)%nat ->
     weights s !!! ((i - 1) / 2)%nat <= weights s !!! i) /\
  (forall i : nat, (i < 32)%nat -> weights s !!! 0%nat <= weights s !!! i).
Proof.
  apply (heap_after_every_insert Int32 32 [7; 1000; 7; 2000; 7; 1000]).
  - lia.
  - reflexivity.
  - cbn. lia.
Defined.

(** C10.  After [n < 2^64] inserts from the initial state the [K] weights
    add up to exactly [n]: one more insert overwrites one (value, weight)
    pair with the inserted value and the weight plus one, up to a
    permutation of the slots, and [SiftDown] only permutes the pairs. *)
Theorem weights_sum_to_insert_count (T : arith) (K : nat) (vs : list Z) :
  (0 < K)%nat -> (K mod 32 = 0)%nat -> Z.of_nat (length vs) < 2 ^ 64 ->
  let s := Insert_all T K (init T K) vs in
  sum_list (weights s) = Z.of_nat (length vs) /\
  (forall v : Z, Z.of_nat (length vs) + 1 < 2 ^ 64 ->
     exists i : nat, (i < K)%nat /\
       pairs (Insert T K s v) ≡ₚ
         <[i := (Normalized T v, weights s !!! i + 1)]> (pairs s)) /\
  (forall (s' : sketch) (i : nat),
     length (values s') = K -> length (weights s') = K -> (i < K)%nat ->
     pairs (SiftDown K s' i) ≡ₚ pairs s').
Proof.
  intros HK HK32 Hlen s.
  destruct (Insert_all_counted T K vs HK HK32 (init T K) 0
              (init_counted T K) ltac:(lia))
    as ((Hlv & Hlw & Hrange) & _ & Hsum).
  fold s in Hlv, Hlw, Hrange, Hsum.
  split; [rewrite Hsum; lia|split].
  - intros v Hn. exists (Find T K 0 s (Normalized T v)).
    assert (Hi : (Find T K 0 s (Normalized T v) < K)%nat)
      by (apply Find_lt; assumption).
    split; [exact Hi|].
    destruct (UpdateHeap_perm K s (Normalized T v) _ Hlv Hlw Hi)
      as (Hperm & _).
    unfold Insert. rewrite Hperm.
    assert (Hnonneg : Forall (fun w => 0 <= w) (weights s)).
    { eapply Forall_impl; [exact Hrange|]. cbn. intros w Hw. lia. }
    pose proof (sum_list_lookup_le (weights s) _ Hnonneg
                  ltac:(rewrite Hlw; exact Hi)) as Hle.
    assert (Hwi : 0 <= weights s !!! Find T K 0 s (Normalized T v)).
    { rewrite Forall_lookup in Hnonneg.
      eapply Hnonneg. apply list_lookup_lookup_total_lt. lia. }
    rewrite u64_small by lia. reflexivity.
  - intros s' i Hlv' Hlw' Hi. now apply SiftDown_perm.
Qed.

Lemma weights_sum_witness :
  let s := Insert_all Int32 32 (init Int32 32) [7; 1000; 7; 2000; 7; 1000] in
  sum_list (weights s) = Z.of_nat (length [7; 1000; 7; 2000; 7; 1000]) /\
  (forall v : Z, Z.of_nat (length [7; 1000; 7; 2000; 7; 1000]) + 1 < 2 ^ 64 ->
     exists i : nat, (i < 32)%nat /\
       pairs (Insert Int32 32 s v) ≡ₚ
         <[i := (Normalized Int32 v, weights s !!! i + 1)]> (pairs s)) /\
  (forall (s' : sketch) (i : nat),
     length (values s') = 32%nat -> length (weights s') = 32%nat ->
     (i < 32)%nat -> pairs (SiftDown 32 s' i) ≡ₚ pairs s').
Proof.
  apply (weights_sum_to_insert_count Int32 32 [7; 1000; 7; 2000; 7; 1000]).
  - lia.
  - reflexivity.
  - cbn. lia.
Defined.

End SSInsertProofs.

(** ** SpaceSaving: the slot an insert updates, and normalisation *)

Module SSClaims.
Import SS SSSpec SimdProofs SSFindProofs SSHeapProofs SSInsertProofs Bits.

(** *** The blocks [Find] scans *)

Lemma block_of_spec (T : arith) (K i : nat) :
  (K mod 32 = 0)%nat -> (i < K)%nat ->
  let b := fst (block_of T K i) in
  let N := snd (block_of T K i) in
  (b <= i < b + N)%nat /\ (b + N <= K)%nat /\
  (N = 32%nat \/ (N = 64%nat /\ sizeof T <> 8)) /\
  (forall j, (j < b)%nat ->
     (fst (block_of T K j) + snd (block_of T K j) <= b)%nat).
Proof.
  intros HK Hi. unfold block_of.
  pose proof (Nat.div_mod_eq K 32) as HK32.
  pose proof (Nat.div_mod_eq K 64) as HK64.
  pose proof (Nat.mod_upper_bound K 64 ltac:(lia)) as HKr.
  pose proof (Nat.div_mod_eq i 32) as Hi32.
  pose proof (Nat.mod_upper_bound i 32 ltac:(lia)) as Hir32.
  pose proof (Nat.div_mod_eq i 64) as Hi64.
  pose proof (Nat.mod_upper_bound i 64 ltac:(lia)) as Hir64.
  destruct (Z.eqb_spec (sizeof T) 8) as [H8|H8]; cbn [fst snd].
  - split; [lia|split; [lia|split; [now left|]]].
    intros j Hj. cbn [fst snd].
    pose proof (Nat.div_mod_eq j 32).
    pose proof (Nat.mod_upper_bound j 32 ltac:(lia)). lia.
  - destruct (Nat.ltb_spec i (K / 64 * 64)) as [Hlo|Hhi]; cbn [fst snd].
    + split; [lia|split; [lia|split; [right; split; [reflexivity|exact H8]|]]].
      intros j Hj.
      destruct (Nat.ltb_spec j (K / 64 * 64)) as [Hjlo|Hjhi]; [|lia].
      cbn [fst snd].
      pose proof (Nat.div_mod_eq j 64).
      pose proof (Nat.mod_upper_bound j 64 ltac:(lia)). lia.
    + assert (Hsmall : ((i - K / 64 * 64) / 32 = 0)%nat).
      { apply Nat.div_small. lia. }
      rewrite Hsmall. split; [lia|split; [lia|split; [now left|]]].
      intros j Hj.
      destruct (Nat.ltb_spec j (K / 64 * 64)) as [Hjlo|Hjhi]; [|lia].
      cbn [fst snd].
      pose proof (Nat.div_mod_eq j 64).
      pose proof (Nat.mod_upper_bound j 64 ltac:(lia)). lia.
Qed.

Section Slot.

Variable T : arith.
Variable K : nat.
Hypothesis K_blocks : (K mod 32 = 0)%nat.

(** The mask of a block that lies before the first match is zero; the mask
    of the block of the first match is not, and its lowest set bit is the
    offset of the match in the block. *)
Lemma mask_of_block (s : sketch) (value : Z) (i b N : nat) :
  length (values s) = K ->
  values s !! i = Some value ->
  (forall j x, (j < i)%nat -> values s !! j = Some x -> x <> value) ->
  (N = 32%nat \/ (N = 64%nat /\ sizeof T <> 8)) -> (b + N <= K)%nat ->
  let mask := compare_block T N value (drop b (values s)) in
  ((b + N <= i)%nat -> mask = 0) /\
  ((b <= i < b + N)%nat ->
     mask <> 0 /\ (b + Z.to_nat (ctz mask) = i)%nat).
Proof.
  intros Hlen Hi Hfirst HN HbN mask.
  destruct (compare_block_finds_first T N value (drop b (values s)) HN)
    as (Hnn & Hzero & Hctz); [rewrite length_drop; lia|].
  fold mask in Hnn, Hzero, Hctz. split.
  - intros Hbefore. apply Hzero. apply find_first_None.
    intros j x Hj. apply lookup_take_Some in Hj as [Hj HjN].
    rewrite lookup_drop in Hj. apply (Hfirst (b + j)%nat x); [lia|exact Hj].
  - intros Hin.
    assert (Hf : find_first value (take N (drop b (values s))) =
                 Some (i - b)%nat).
    { apply find_first_Some. split.
      - rewrite lookup_take_lt by lia. rewrite lookup_drop.
        replace (b + (i - b))%nat with i by lia. exact Hi.
      - intros j x Hj Hx. apply lookup_take_Some in Hx as [Hx HjN].
        rewrite lookup_drop in Hx.
        apply (Hfirst (b + j)%nat x); [lia|exact Hx]. }
    split.
    + intros Hz. apply Hzero in Hz. congruence.
    + rewrite (Hctz _ Hf). lia.
Qed.

(** C7.  On a miss (the normalised value is in no slot) [Find] designates
    slot [0]: its weight goes up by one, its value is overwritten with the
    normalised value and [SiftDown(0)] runs.  On a hit, with [i] the first
    slot holding the value, the mask of the block of [i] is the first
    non-zero mask, and the slot updated is the base of that block plus the
    count of trailing zeros of that mask, which is [i]. *)
Theorem Insert_updates_slot (s : sketch) (v : Z) :
  length (values s) = K ->
  let value := Normalized T v in
  ((forall j x, values s !! j = Some x -> x <> value) ->
     Find T K 0 s value = 0%nat /\
     Insert T K s v =
       SiftDown K
         {| values := <[0%nat := value]> (values s);
            weights := <[0%nat := u64 (weights s !!! 0%nat + 1)]> (weights s) |}
         0) /\
  (forall i : nat,
     values s !! i = Some value ->
     (forall j x, (j < i)%nat -> values s !! j = Some x -> x <> value) ->
     let block := block_of T K i in
     let mask := mask_at T s value block in
     mask <> 0 /\
     (forall j, (j < fst block)%nat ->
        mask_at T s value (block_of T K j) = 0) /\
     Find T K 0 s value = (fst block + Z.to_nat (ctz mask))%nat /\
     Find T K 0 s value = i /\
     Insert T K s v =
       SiftDown K
         {| values := <[i := value]> (values s);
            weights := <[i := u64 (weights s !!! i + 1)]> (weights s) |}
         i).
Proof.
  intros Hlen value. split.
  - intros Hmiss.
    assert (Hfind : Find T K 0 s value = 0%nat).
    { rewrite (Find_first K K_blocks T) by exact Hlen.
      now rewrite (proj2 (find_first_None value (values s)) Hmiss). }
    split; [exact Hfind|].
    unfold Insert, UpdateHeap. fold value. now rewrite Hfind.
  - intros i Hi Hfirst block mask.
    assert (HiK : (i < K)%nat) by (apply lookup_lt_Some in Hi; lia).
    assert (Hfind : Find T K 0 s value = i).
    { rewrite (Find_first K K_blocks T) by exact Hlen.
      now rewrite (proj2 (find_first_Some value (values s) i)
                     (conj Hi Hfirst)). }
    destruct (block_of_spec T K i K_blocks HiK)
      as (Hin & Hfit & HN & Hbefore).
    fold block in Hin, Hfit, HN, Hbefore.
    destruct (mask_of_block s value i (fst block) (snd block)
                Hlen Hi Hfirst HN Hfit) as [_ Hhit].
    destruct (Hhit Hin) as [Hnz Hctz].
    split; [exact Hnz|]. split; [|split; [|split]].
    + intros j Hj.
      assert (HjK : (j < K)%nat) by lia.
      destruct (block_of_spec T K j K_blocks HjK)
        as (Hjin & Hjfit & HjN & _).
      specialize (Hbefore j Hj).
      destruct (mask_of_block s value i (fst (block_of T K j))
                  (snd (block_of T K j)) Hlen Hi Hfirst HjN Hjfit)
        as [Hzero _].
      apply Hzero. lia.
    + rewrite Hfind. symmetry. exact Hctz.
    + exact Hfind.
    + unfold Insert, UpdateHeap. fold value. now rewrite Hfind.
Qed.

End Slot.

(** The slot theorem on the initial sketch of 96 [int32_t] slots: [500] is a
    miss, [70] is a hit in the block of 32 that follows the block of 64. *)
Lemma Insert_updates_slot_witness :
  let s := init Int32 96 in
  (Find Int32 96 0 s (Normalized Int32 500) = 0%nat /\
   Insert Int32 96 s 500 =
     SiftDown 96
       {| values := <[0%nat := Normalized Int32 500]> (values s);
          weights := <[0%nat := u64 (weights s !!! 0%nat + 1)]> (weights s) |}
       0) /\
  (let block := block_of Int32 96 70 in
   let mask := mask_at Int32 s (Normalized Int32 70) block in
   mask <> 0 /\
   (forall j, (j < fst block)%nat ->
      mask_at Int32 s (Normalized Int32 70) (block_of Int32 96 j) = 0) /\
   Find Int32 96 0 s (Normalized Int32 70) =
     (fst block + Z.to_nat (ctz mask))%nat /\
   Find Int32 96 0 s (Normalized Int32 70) = 70%nat /\
   Insert Int32 96 s 70 =
     SiftDown 96
       {| values := <[70%nat := Normalized Int32 70]> (values s);
          weights := <[70%nat := u64 (weights s !!! 70%nat + 1)]> (weights s) |}
       70).
Proof.
  intros s.
  assert (Hlen : length (values s) = 96%nat) by reflexivity.
  split.
  - apply (proj1 (Insert_updates_slot Int32 96 eq_refl s 500 Hlen)).
    intros j x Hj. apply list_elem_of_lookup_2 in Hj.
    revert x Hj. apply Forall_forall. vm_compute.
    repeat constructor; discriminate.
  - apply (proj2 (Insert_updates_slot Int32 96 eq_refl s 70 Hlen) 70%nat).
    + reflexivity.
    + intros j x Hj Hx.
      assert (Hx' : take 70 (values s) !! j = Some x)
        by (rewrite lookup_take_lt by lia; exact Hx).
      apply list_elem_of_lookup_2 in Hx'. clear Hx.
      revert x Hx'. apply Forall_forall. vm_compute.
      repeat constructor; discriminate.
Defined.

(** *** Normalisation and the two zeros *)

Lemma Normalized_idempotent (T : arith) (x : Z) :
  Normalized T (Normalized T x) = Normalized T x.
Proof.
  unfold Normalized. destruct (is_floating_point T); [|reflexivity].
  destruct (fp_is_zero T x) eqn:Hz.
  - unfold fp_is_zero. now rewrite Z.land_0_l.
  - now rewrite Hz.
Qed.

Lemma Normalized_negative_zero (T : arith) :
  is_floating_point T = true ->
  Normalized T (2 ^ (width T - 1)) = 0 /\ Normalized T 0 = 0.
Proof. destruct T; try discriminate; intros _; split; reflexivity. Qed.

(** The floating-point image of a positive index is not a zero. *)
Lemma fp_of_index_not_zero (bias mbits ebits j : Z) :
  0 <= mbits -> 0 < bias -> 0 < ebits -> mbits + bias < 2 ^ ebits ->
  1 <= j < 2 ^ (mbits + 1) ->
  Z.land (fp_of_index bias mbits j) (Z.ones (ebits + mbits)) <> 0.
Proof.
  intros Hm Hb He Hfit Hj. unfold fp_of_index.
  destruct (Z.eqb_spec j 0) as [->|_]; [lia|].
  assert (Hlog : 0 <= Z.log2 j <= mbits).
  { split; [apply Z.log2_nonneg|].
    assert (Z.log2 j < mbits + 1); [|lia].
    apply Z.log2_lt_pow2; lia. }
  cbv zeta. destruct (Z.leb_spec (Z.log2 j) mbits) as [_|Hbad]; [|lia].
  set (e := Z.log2 j) in *.
  destruct (pos_has_bit (e + bias) ltac:(lia)) as (n & Hn & Hbit).
  assert (Hnlt : n < ebits).
  { destruct (Z.lt_ge_cases n ebits) as [Hlt|Hge]; [exact Hlt|].
    rewrite (testbit_above (e + bias) ebits n) in Hbit by lia.
    discriminate. }
  intros Hzero.
  assert (Hset : Z.testbit
            (Z.land (Z.lor (Z.shiftl (e + bias) mbits)
                       (Z.shiftl (j - 2 ^ e) (mbits - e)))
               (Z.ones (ebits + mbits))) (n + mbits) = true).
  { rewrite Z.land_spec, Z.lor_spec, testbit_shl, testbit_ones_range by lia.
    replace (n + mbits - mbits) with n by lia. rewrite Hbit.
    destruct (Z.leb_spec 0 (n + mbits)); [|lia].
    destruct (Z.ltb_spec (n + mbits) (ebits + mbits)); [|lia].
    reflexivity. }
  rewrite Hzero, Z.bits_0 in Hset. discriminate.
Qed.

Lemma of_index_not_zero (T : arith) (j : nat) :
  is_floating_point T = true -> (1 <= j)%nat -> Z.of_nat j < 2 ^ 24 ->
  fp_is_zero T (of_index T j) = false.
Proof.
  intros HT Hj Hlt. unfold fp_is_zero.
  destruct T; try discriminate; cbn [of_index width sizeof].
  - change (width Float - 1) with (8 + 23).
    apply Z.eqb_neq. apply fp_of_index_not_zero; lia.
  - change (width Double - 1) with (11 + 52).
    apply Z.eqb_neq. apply fp_of_index_not_zero; lia.
Qed.

(** The pairs of the initial sketch: slot [0] holds the zero, no other slot
    holds a zero. *)
Lemma init_pairs (T : arith) (K : nat) :
  is_floating_point T = true -> (0 < K)%nat -> Z.of_nat K <= 2 ^ 24 ->
  exists rest : list (Z * Z),
    pairs (init T K) = (0, 0) :: rest /\
    Forall (fun p => fp_is_zero T p.1 = false) rest.
Proof.
  intros HT HK Hle. exists (drop 1 (pairs (init T K))).
  unfold pairs, init, sequence. cbn [values weights].
  destruct K as [|K]; [lia|]. split.
  - cbn [seq map replicate zip zip_with drop]. f_equal. f_equal.
    destruct T; try discriminate; reflexivity.
  - apply Forall_lookup. intros idx [x w] Hlook.
    rewrite lookup_drop in Hlook.
    apply lookup_zip_with_Some in Hlook as (x' & w' & Heq & Hx & Hw).
    injection Heq as <- <-.
    rewrite list_lookup_fmap in Hx.
    destruct (seq 0 (S K) !! (1 + idx)%nat) as [j|] eqn:Hseq;
      [|discriminate].
    apply lookup_seq in Hseq as [-> Hlt]. injection Hx as <-.
    cbn [fst]. apply of_index_not_zero; [exact HT|lia|lia].
Qed.

(** One insert of a zero into a sketch whose only zero has weight [n]. *)
Lemma insert_zero_step (T : arith) (K : nat) (s : sketch) (v n : Z)
    (rest : list (Z * Z)) :
  is_floating_point T = true -> (0 < K)%nat -> (K mod 32 = 0)%nat ->
  length (values s) = K -> length (weights s) = K ->
  pairs s ≡ₚ (0, n) :: rest ->
  Forall (fun p => fp_is_zero T p.1 = false) rest ->
  0 <= n -> n + 1 < 2 ^ 64 -> Normalized T v = 0 ->
  pairs (Insert T K s v) ≡ₚ (0, n + 1) :: rest /\
  length (values (Insert T K s v)) = K /\
  length (weights (Insert T K s v)) = K.
Proof.
  intros HT HK HK32 Hlv Hlw Hperm Hrest Hn Hn1 Hv.
  unfold Insert. rewrite Hv.
  assert (Hzero : fp_is_zero T 0 = true)
    by (unfold fp_is_zero; now rewrite Z.land_0_l).
  assert (Hin : (0, n) ∈ pairs s) by (rewrite Hperm; left).
  apply list_elem_of_lookup_1 in Hin as [idx Hidx].
  assert (Hvidx : values s !! idx = Some 0).
  { unfold pairs in Hidx.
    apply lookup_zip_with_Some in Hidx as (x & w & Heq & Hx & Hw).
    now injection Heq as <- <-. }
  destruct (find_first 0 (values s)) as [i|] eqn:Hfind.
  2:{ exfalso. exact (proj1 (find_first_None 0 (values s)) Hfind
                        idx 0 Hvidx eq_refl). }
  assert (Hfi : Find T K 0 s 0 = i).
  { rewrite (Find_first K HK32 T) by exact Hlv. now rewrite Hfind. }
  rewrite Hfi.
  apply find_first_Some in Hfind as [Hvi _].
  assert (Hi : (i < K)%nat) by (apply lookup_lt_Some in Hvi; lia).
  assert (Hpi : pairs s !! i = Some (0, weights s !!! i)).
  { unfold pairs. apply lookup_zip_with_Some.
    exists 0, (weights s !!! i). split; [reflexivity|]. split; [exact Hvi|].
    apply list_lookup_lookup_total_lt. lia. }
  assert (Hw : weights s !!! i = n).
  { assert (Hmem : (0, weights s !!! i) ∈ (0, n) :: rest).
    { rewrite <- Hperm. now apply list_elem_of_lookup_2 in Hpi. }
    apply elem_of_cons in Hmem as [Heq|Hmem]; [congruence|].
    rewrite Forall_forall in Hrest. apply Hrest in Hmem. cbn in Hmem.
    congruence. }
  destruct (UpdateHeap_perm K s 0 i Hlv Hlw Hi) as (Hup & Hlv' & Hlw').
  split; [|split; assumption].
  rewrite Hup, Hw. rewrite u64_small by lia.
  rewrite insert_delete_perm by (unfold pairs; rewrite length_zip; lia).
  apply perm_skip.
  apply (Permutation_cons_inv (a := (0, n))).
  rewrite <- Hperm. symmetry. apply delete_Permutation.
  now rewrite Hw in Hpi.
Qed.

(** C9.  Normalisation is idempotent and sends the negative zero of a
    floating-point type where it sends the positive zero; hence inserting
    [+0.0], [-0.0], [+0.0] into a fresh sketch of a floating-point type
    leaves exactly one slot that holds a zero, with the bit pattern of
    [+0.0] and weight 3. *)
Theorem Normalized_idempotent_zero_scenario (T : arith) (K : nat) :
  (forall x : Z, Normalized T (Normalized T x) = Normalized T x) /\
  (is_floating_point T = true ->
     Normalized T (2 ^ (width T - 1)) = Normalized T 0) /\
  (is_floating_point T = true ->
   (0 < K)%nat -> (K mod 32 = 0)%nat -> Z.of_nat K <= 2 ^ 24 ->
   let s := Insert_all T K (init T K) [0; 2 ^ (width T - 1); 0] in
   exists i : nat,
     (i < K)%nat /\ values s !! i = Some 0 /\ weights s !! i = Some 3 /\
     forall (j : nat) (x : Z),
       values s !! j = Some x -> fp_is_zero T x = true -> j = i).
Proof.
  split; [apply Normalized_idempotent|split].
  - intros HT. destruct (Normalized_negative_zero T HT) as [-> ->].
    reflexivity.
  - intros HT HK HK32 Hle s.
    destruct (Normalized_negative_zero T HT) as [Hneg Hpos].
    destruct (init_pairs T K HT HK Hle) as (rest & Hinit & Hrest).
    assert (Hl0 : length (values (init T K)) = K /\
                  length (weights (init T K)) = K).
    { destruct (init_counted T K) as ((Hv & Hw & _) & _). now split. }
    destruct Hl0 as [Hlv0 Hlw0].
    destruct (insert_zero_step T K (init T K) 0 0 rest HT HK HK32 Hlv0 Hlw0
                ltac:(now rewrite Hinit) Hrest ltac:(lia) ltac:(lia) Hpos)
      as (Hp1 & Hlv1 & Hlw1).
    destruct (insert_zero_step T K _ (2 ^ (width T - 1)) (0 + 1) rest
                HT HK HK32 Hlv1 Hlw1 Hp1 Hrest ltac:(lia) ltac:(lia) Hneg)
      as (Hp2 & Hlv2 & Hlw2).
    destruct (insert_zero_step T K _ 0 (0 + 1 + 1) rest
                HT HK HK32 Hlv2 Hlw2 Hp2 Hrest ltac:(lia) ltac:(lia) Hpos)
      as (Hp3 & Hlv3 & Hlw3).
    change (Insert T K (Insert T K (Insert T K (init T K) 0)
              (2 ^ (width T - 1))) 0) with s in Hp3, Hlv3, Hlw3.
    change (0 + 1 + 1 + 1) with 3 in Hp3.
    assert (Hin : (0, 3) ∈ pairs s) by (rewrite Hp3; left).
    apply list_elem_of_lookup_1 in Hin as [i Hi].
    assert (Hzero : fp_is_zero T 0 = true)
      by (unfold fp_is_zero; now rewrite Z.land_0_l).
    exists i.
    assert (Hsplit := Hi). unfold pairs in Hsplit.
    apply lookup_zip_with_Some in Hsplit as (x & w & Heq & Hx & Hw).
    injection Heq as <- <-.
    split; [apply lookup_lt_Some in Hx; lia|].
    split; [exact Hx|split; [exact Hw|]].
    intros j y Hy Hyz.
    destruct (Nat.eq_dec j i) as [Hji|Hji]; [exact Hji|exfalso].
    assert (Hjlt : (j < K)%nat) by (apply lookup_lt_Some in Hy; lia).
    assert (Hpj : pairs s !! j = Some (y, weights s !!! j)).
    { unfold pairs. apply lookup_zip_with_Some.
      exists y, (weights s !!! j). split; [reflexivity|]. split; [exact Hy|].
      apply list_lookup_lookup_total_lt. lia. }
    assert (Hrest_i : delete i (pairs s) ≡ₚ rest).
    { apply (Permutation_cons_inv (a := (0, 3))).
      rewrite <- Hp3. symmetry. now apply delete_Permutation. }
    assert (Hmem : (y, weights s !!! j) ∈ delete i (pairs s)).
    { destruct (Nat.lt_ge_cases j i) as [Hlt|Hge].
      - apply (list_elem_of_lookup_2 _ j).
        now rewrite list_lookup_delete_lt by lia.
      - apply (list_elem_of_lookup_2 _ (j - 1)).
        rewrite list_lookup_delete_ge by lia.
        now replace (S (j - 1)) with j by lia. }
    rewrite Hrest_i in Hmem. rewrite Forall_forall in Hrest.
    apply Hrest in Hmem. cbn in Hmem. congruence.
Qed.

(** The scenario on the default sketch of 96 [float] slots. *)
Lemma Normalized_zero_scenario_witness :
  let s := Insert_all Float 96 (init Float 96) [0; 2 ^ (width Float - 1); 0] in
  exists i : nat,
    (i < 96)%nat /\ values s !! i = Some 0 /\ weights s !! i = Some 3 /\
    forall (j : nat) (x : Z),
      values s !! j = Some x -> fp_is_zero Float x = true -> j = i.
Proof.
  apply (proj2 (proj2 (Normalized_idempotent_zero_scenario Float 96))).
  - reflexivity.
  - lia.
  - reflexivity.
  - cbn. lia.
Defined.

End SSClaims.

(** ** KLL: arrays and the capacity table *)

Module KLLArrays.
Import KLL KLLSpec Bits.

(** *** Reading and writing *)

Lemma length_wr {A : Type} (l : list A) (i : Z) (x : A) :
  length (wr l i x) = length l.
Proof. apply length_insert. Qed.

Lemma rd_wr_eq {A : Type} `{Inhabited A} (l : list A) (i : Z) (x : A) :
  0 <= i < Z.of_nat (length l) -> rd (wr l i x) i = x.
Proof.
  intros Hi. unfold rd, wr. apply list_lookup_total_insert_eq. lia.
Qed.

Lemma rd_wr_ne {A : Type} `{Inhabited A} (l : list A) (i j : Z) (x : A) :
  0 <= i -> 0 <= j -> i <> j -> rd (wr l i x) j = rd l j.
Proof.
  intros Hi Hj Hne. unfold rd, wr. apply list_lookup_total_insert_ne. lia.
Qed.

Lemma rd_lookup {A : Type} `{Inhabited A} (l : list A) (i : Z) :
  0 <= i < Z.of_nat (length l) -> l !! Z.to_nat i = Some (rd l i).
Proof. intros Hi. apply list_lookup_lookup_total_lt. lia. Qed.

Lemma rd_app_r {A : Type} `{Inhabited A} (l1 l2 : list A) (i : Z) :
  Z.of_nat (length l1) <= i ->
  rd (l1 ++ l2) i = rd l2 (i - Z.of_nat (length l1)).
Proof.
  intros Hi. unfold rd. rewrite lookup_total_app_r by lia.
  f_equal. lia.
Qed.

Lemma rd_app_l {A : Type} `{Inhabited A} (l1 l2 : list A) (i : Z) :
  0 <= i < Z.of_nat (length l1) -> rd (l1 ++ l2) i = rd l1 i.
Proof. intros Hi. unfold rd. apply lookup_total_app_l. lia. Qed.

(** *** [add_range] *)

Lemma length_add_range (count : nat) (i delta : Z) (l : list Z) :
  length (add_range count i delta l) = length l.
Proof.
  revert i l. induction count as [|count IH]; intros i l; [reflexivity|].
  cbn [add_range]. now rewrite IH, length_wr.
Qed.

Lemma rd_add_range (count : nat) (i delta : Z) (l : list Z) (x : Z) :
  0 <= i -> i + Z.of_nat count <= Z.of_nat (length l) -> 0 <= x ->
  rd (add_range count i delta l) x =
  if (i <=? x) && (x <? i + Z.of_nat count) then u32 (rd l x + delta)
  else rd l x.
Proof.
  revert i l. induction count as [|count IH]; intros i l Hi Hlen Hx.
  - cbn [add_range]. destruct (Z.leb_spec i x); destruct (Z.ltb_spec x (i + Z.of_nat 0));
      cbn [andb]; try reflexivity; lia.
  - cbn [add_range]. rewrite IH by (rewrite ?length_wr; lia).
    destruct (Z.leb_spec (i + 1) x); destruct (Z.ltb_spec x (i + 1 + Z.of_nat count));
      destruct (Z.leb_spec i x); destruct (Z.ltb_spec x (i + Z.of_nat (S count)));
      cbn [andb]; try lia; try (now rewrite rd_wr_ne by lia).
    assert (x = i) by lia. subst x. now rewrite rd_wr_eq by lia.
Qed.

(** *** The capacity table *)

Lemma int_cap_aux_aux_range (k depth : Z) : 0 <= int_cap_aux_aux k depth <= 65535.
Proof.
  unfold int_cap_aux_aux, u16.
  pose proof (Z.mod_pos_bound
    (Z.shiftr (u64 (u64 (u64 (Z.shiftl (Z.shiftl k 1) depth) /
       powers_of_three depth) + 1)) 1) (2 ^ 16) ltac:(lia)).
  lia.
Qed.

Lemma int_cap_aux_range (k depth : Z) : 0 <= int_cap_aux k depth <= 65535.
Proof.
  unfold int_cap_aux. destruct (depth <=? 30); apply int_cap_aux_aux_range.
Qed.

Lemma cap_loop_range (k : Z) (n : nat) (depth : Z) (lc : list Z) :
  Forall (fun c => 8 <= c <= 65535) lc ->
  Forall (fun c => 8 <= c <= 65535) (compute_level_capacities_loop k 8 n depth lc)
  /\ length (compute_level_capacities_loop k 8 n depth lc) = length lc.
Proof.
  revert depth lc. induction n as [|n IH]; intros depth lc Hlc; [now split|].
  cbn [compute_level_capacities_loop].
  assert (Hw : Forall (fun c => 8 <= c <= 65535)
                 (wr lc depth (Z.max 8 (int_cap_aux k depth)))).
  { apply Forall_insert; [exact Hlc|].
    pose proof (int_cap_aux_range k depth). lia. }
  destruct (_ =? 8).
  - split; [exact Hw|apply length_wr].
  - destruct (IH (depth + 1) _ Hw) as [Hall Hlen].
    split; [exact Hall|]. now rewrite Hlen, length_wr.
Qed.

Lemma cap_loop_head (k : Z) (n : nat) (depth : Z) (lc : list Z) :
  0 < depth ->
  rd (compute_level_capacities_loop k 8 n depth lc) 0 = rd lc 0.
Proof.
  revert depth lc. induction n as [|n IH]; intros depth lc Hd; [reflexivity|].
  cbn [compute_level_capacities_loop].
  destruct (_ =? 8).
  - apply rd_wr_ne; lia.
  - rewrite IH by lia. apply rd_wr_ne; lia.
Qed.

Lemma cap_table_length (k : Z) : length (cap_table k) = 60%nat.
Proof.
  unfold cap_table, compute_level_capacities.
  change (Z.to_nat kMaxNumLevels) with 60%nat.
  destruct (cap_loop_range k 60 0 (replicate 60 8)) as [_ Hlen].
  - apply Forall_replicate. lia.
  - rewrite Hlen. apply length_replicate.
Qed.

Lemma cap_table_range (k d : Z) :
  0 <= d < 60 -> 8 <= rd (cap_table k) d <= 65535.
Proof.
  intros Hd. unfold cap_table, compute_level_capacities.
  change (Z.to_nat kMaxNumLevels) with 60%nat.
  destruct (cap_loop_range k 60 0 (replicate 60 8)) as [Hall Hlen].
  { apply Forall_replicate. lia. }
  rewrite Forall_lookup in Hall. apply (Hall (Z.to_nat d)).
  apply rd_lookup. rewrite Hlen, length_replicate. lia.
Qed.

Lemma int_cap_aux_0 (k : Z) : 0 <= k <= 65535 -> int_cap_aux k 0 = k.
Proof.
  intros Hk. unfold int_cap_aux. change (0 <=? 30) with true. cbv iota.
  unfold int_cap_aux_aux, powers_of_three.
  change (3 ^ 0) with 1. rewrite Z.shiftl_0_r, Z.shiftl_mul_pow2 by lia.
  change (2 ^ 1) with 2. rewrite Z.div_1_r.
  rewrite (u64_small (k * 2)) by lia. rewrite (u64_small (k * 2)) by lia.
  rewrite u64_small by lia. rewrite Z.shiftr_div_pow2 by lia.
  change (2 ^ 1) with 2.
  replace ((k * 2 + 1) / 2) with k by (apply Z.div_unique with 1; lia).
  apply u16_small. lia.
Qed.

Lemma cap_loop_first (k : Z) (n : nat) (lc : list Z) :
  rd (compute_level_capacities_loop k 8 (S n) 0 lc) 0 =
  rd (wr lc 0 (Z.max 8 (int_cap_aux k 0))) 0.
Proof.
  cbn [compute_level_capacities_loop].
  destruct (_ =? 8); [reflexivity|]. now rewrite cap_loop_head by lia.
Qed.

Lemma cap_table_0 (k : Z) : 8 <= k <= 65535 -> rd (cap_table k) 0 = k.
Proof.
  intros Hk. unfold cap_table, compute_level_capacities.
  change (Z.to_nat kMaxNumLevels) with 60%nat.
  rewrite (cap_loop_first k 59).
  rewrite rd_wr_eq by (rewrite length_replicate; lia).
  rewrite int_cap_aux_0 by lia. lia.
Qed.

(** *** Total capacities *)

Lemma total_cap_bounds (k : Z) (n : nat) :
  (n <= 60)%nat ->
  8 * Z.of_nat n <= total_cap (cap_table k) n <= 65535 * Z.of_nat n.
Proof.
  induction n as [|n IH]; intros Hn; [cbn; lia|].
  cbn [total_cap]. pose proof (cap_table_range k (Z.of_nat n) ltac:(lia)).
  specialize (IH ltac:(lia)). lia.
Qed.

End KLLArrays.

(** ** KLL: the level table *)

Module KLLLevels.
Import KLL KLLSpec KLLArrays Bits.

Lemma total_cap_succ (lc : list Z) (n : Z) :
  0 <= n ->
  total_cap lc (Z.to_nat (n + 1)) = total_cap lc (Z.to_nat n) + rd lc n.
Proof.
  intros Hn. replace (Z.to_nat (n + 1)) with (S (Z.to_nat n)) by lia.
  cbn [total_cap]. now rewrite Z2Nat.id by lia.
Qed.

Lemma weight_succ (lev : Z -> Z) (n : Z) :
  0 <= n ->
  weight lev (Z.to_nat (n + 1)) =
  weight lev (Z.to_nat n) + 2 ^ n * (lev (n + 1) - lev n).
Proof.
  intros Hn. replace (Z.to_nat (n + 1)) with (S (Z.to_nat n)) by lia.
  cbn [weight]. now rewrite Z2Nat.id by lia.
Qed.

(** The weight only depends on the populations of the levels. *)
Lemma weight_pops (f g : Z -> Z) (n : nat) :
  (forall l, 0 <= l < Z.of_nat n -> g (l + 1) - g l = f (l + 1) - f l) ->
  weight g n = weight f n.
Proof.
  induction n as [|n IH]; intros Hpop; [reflexivity|].
  cbn [weight]. rewrite IH by (intros l Hl; apply Hpop; lia).
  rewrite Hpop by lia. reflexivity.
Qed.

Lemma weight_add (f g : Z -> Z) (n : nat) :
  weight (fun x => f x + g x) n = weight f n + weight g n.
Proof.
  induction n as [|n IH]; [reflexivity|].
  cbn [weight]. rewrite IH. ring.
Qed.

Lemma weight_nonneg (f : Z -> Z) (n : nat) :
  (forall l, 0 <= l < Z.of_nat n -> f l <= f (l + 1)) -> 0 <= weight f n.
Proof.
  induction n as [|n IH]; intros Hmono; [cbn; lia|].
  cbn [weight]. specialize (IH ltac:(intros l Hl; apply Hmono; lia)).
  specialize (Hmono (Z.of_nat n) ltac:(lia)).
  assert (0 < 2 ^ Z.of_nat n) by (apply Z.pow_pos_nonneg; lia). nia.
Qed.

(** The top level alone accounts for [2 ^ (n - 1)] stream items per
    element. *)
Lemma weight_top (f : Z -> Z) (n : Z) :
  1 <= n ->
  (forall l, 0 <= l < n -> f l <= f (l + 1)) ->
  2 ^ (n - 1) * (f n - f (n - 1)) <= weight f (Z.to_nat n).
Proof.
  intros Hn Hmono.
  pose proof (weight_succ f (n - 1) ltac:(lia)) as Hw.
  replace (n - 1 + 1) with n in Hw by lia. rewrite Hw.
  pose proof (weight_nonneg f (Z.to_nat (n - 1))
                ltac:(intros l Hl; apply Hmono; lia)).
  lia.
Qed.

(** The change of weight a compaction of [level] makes: none, once both
    levels it touches are counted. *)
Lemma weight_compaction (level half : Z) (n : nat) :
  0 <= level ->
  weight (fun x => if x <=? level then half
                   else if x =? level + 1 then - half else 0) n =
  if Z.of_nat n =? level + 1 then - (2 ^ (level + 1) * half) else 0.
Proof.
  intros Hl. induction n as [|n IH].
  - cbn [weight]. destruct (Z.eqb_spec (Z.of_nat 0) (level + 1)); [lia|reflexivity].
  - cbn [weight]. rewrite IH.
    destruct (Z.eqb_spec (Z.of_nat n) (level + 1)) as [Hn|Hn];
      destruct (Z.eqb_spec (Z.of_nat (S n)) (level + 1)) as [Hn'|Hn'];
      try lia.
    + rewrite Hn.
      destruct (Z.leb_spec (level + 1 + 1) level); [lia|].
      destruct (Z.eqb_spec (level + 1 + 1) (level + 1)); [lia|].
      destruct (Z.leb_spec (level + 1) level); [lia|].
      rewrite ?Z.eqb_refl. ring.
    + assert (Hn2 : Z.of_nat n = level) by lia. rewrite Hn2.
      rewrite Z.leb_refl.
      destruct (Z.leb_spec (level + 1) level); [lia|].
      rewrite ?Z.eqb_refl. rewrite Z.pow_add_r by lia. ring.
    + destruct (Z.leb_spec (Z.of_nat n + 1) level);
        destruct (Z.leb_spec (Z.of_nat n) level);
        destruct (Z.eqb_spec (Z.of_nat n + 1) (level + 1));
        destruct (Z.eqb_spec (Z.of_nat n) (level + 1)); try lia; ring.
Qed.

Lemma mono_le (f : Z -> Z) (L : Z) :
  (forall l, 0 <= l < L -> f l <= f (l + 1)) ->
  forall x y, 0 <= x <= y -> y <= L -> f x <= f y.
Proof.
  intros Hmono x y Hxy HyL.
  replace y with (x + Z.of_nat (Z.to_nat (y - x))) in * by lia.
  induction (Z.to_nat (y - x)) as [|d IH].
  - rewrite Z.add_0_r. lia.
  - specialize (IH ltac:(lia) ltac:(lia)).
    specialize (Hmono (x + Z.of_nat d) ltac:(lia)).
    replace (x + Z.of_nat (S d)) with (x + Z.of_nat d + 1) by lia. lia.
Qed.

Section Sketch.

Context {T : Type} `{Inhabited T}.
Variable comparator_ : T -> T -> bool.
Variable std_sort : list T -> list T.
Variable random_bit : nat -> bool.

Local Abbreviation sketch := (@sketch T).
Local Abbreviation compact_level := (compact_level comparator_ std_sort random_bit).
Local Abbreviation compress_while_updating :=
  (compress_while_updating comparator_ std_sort random_bit).
Local Abbreviation internal_update := (internal_update comparator_ std_sort random_bit).

(** Below the top of the table every boundary fits [uint32_t]. *)
Lemma levels_ok_bounds (k : Z) (s : sketch) (x : Z) :
  levels_ok k s -> 0 <= x <= num_levels_ s ->
  0 <= rd (levels_ s) x <= 65535 * 60.
Proof.
  intros (Hk & Hlc & Hflag & HL & Hlen & H0 & Hmono & Htop & Hw) Hx.
  pose proof (mono_le _ _ Hmono 0 x ltac:(lia) ltac:(lia)).
  pose proof (mono_le _ _ Hmono x (num_levels_ s) ltac:(lia) ltac:(lia)).
  pose proof (total_cap_bounds k (Z.to_nat (num_levels_ s)) ltac:(lia)).
  lia.
Qed.

(** The search for the level to compact, from [level] on: if the levels
    from [level] up hold as many items as they have room for, one of them
    is full, and the search stops at the first such. *)
Lemma find_level_to_compact_loop_spec (k : Z) (s : sketch) (fuel : nat)
    (level : Z) :
  levels_ok k s -> 0 <= level < num_levels_ s ->
  total_cap (cap_table k) (Z.to_nat (num_levels_ s - level)) <=
    rd (levels_ s) (num_levels_ s) - rd (levels_ s) level ->
  num_levels_ s - level <= Z.of_nat fuel ->
  exists r, find_level_to_compact_loop fuel s level = Some r /\
    level <= r < num_levels_ s /\
    rd (cap_table k) (num_levels_ s - r - 1) <=
      rd (levels_ s) (r + 1) - rd (levels_ s) r.
Proof.
  intros Hok. revert level.
  induction fuel as [|fuel IH]; intros level Hlevel Hfull Hfuel; [lia|].
  pose proof Hok as (Hk & Hlc & Hflag & HL & Hlen & H0 & Hmono & Htop & Hw).
  cbn [find_level_to_compact_loop].
  rewrite (rd_lookup (levels_ s) (level + 1)) by lia.
  rewrite (rd_lookup (levels_ s) level) by lia.
  rewrite u8_small by lia. rewrite Hlc.
  rewrite (rd_lookup (cap_table k)) by (rewrite cap_table_length; lia).
  pose proof (levels_ok_bounds k s level Hok ltac:(lia)).
  pose proof (levels_ok_bounds k s (level + 1) Hok ltac:(lia)).
  pose proof (Hmono level ltac:(lia)).
  rewrite u32_small by lia.
  destruct (Z.geb_spec (rd (levels_ s) (level + 1) - rd (levels_ s) level)
              (rd (cap_table k) (num_levels_ s - level - 1))) as [Hge|Hlt].
  - exists level. split; [reflexivity|]. split; lia.
  - destruct (Z.eq_dec (level + 1) (num_levels_ s)) as [Hlast|Hmore].
    { assert (E : Z.to_nat (num_levels_ s - level) = 1%nat) by lia.
      rewrite E in Hfull. cbn [total_cap] in Hfull.
      change (Z.of_nat 0) with 0 in Hfull.
      replace (num_levels_ s - level - 1) with 0 in Hlt by lia.
      rewrite <- Hlast in Hfull. lia. }
    pose proof (total_cap_succ (cap_table k) (num_levels_ s - level - 1)
                  ltac:(lia)) as Hsucc.
    replace (num_levels_ s - level - 1 + 1) with (num_levels_ s - level)
      in Hsucc by lia.
    rewrite u8_small by lia.
    destruct (IH (level + 1)) as (r & Hr & Hrange & Hcap); try lia.
    { replace (num_levels_ s - (level + 1)) with (num_levels_ s - level - 1)
        by lia. lia. }
    exists r. split; [exact Hr|]. split; [lia|exact Hcap].
Qed.

Lemma find_level_to_compact_spec (k : Z) (s : sketch) :
  levels_ok k s -> rd (levels_ s) 0 = 0 ->
  exists r, find_level_to_compact s = Some r /\
    0 <= r < num_levels_ s /\
    rd (cap_table k) (num_levels_ s - r - 1) <=
      rd (levels_ s) (r + 1) - rd (levels_ s) r.
Proof.
  intros Hok Hzero.
  pose proof Hok as (Hk & Hlc & Hflag & HL & Hlen & H0 & Hmono & Htop & Hw).
  unfold find_level_to_compact.
  apply (find_level_to_compact_loop_spec k); try assumption; try lia.
  rewrite Z.sub_0_r, Hzero, Htop. lia.
Qed.

(** Growing the table by one level: every boundary moves up by the capacity
    of the new bottom level, and the new top level is empty. *)
Lemma add_empty_top_level_spec (k : Z) (s : sketch) :
  levels_ok k s -> num_levels_ s <= 59 ->
  let delta := rd (cap_table k) (num_levels_ s) in
  exists s', add_empty_top_level_to_completely_full_sketch s = Some s' /\
    num_levels_ s' = num_levels_ s + 1 /\
    level_capacities s' = level_capacities s /\
    is_level_zero_sorted_ s' = is_level_zero_sorted_ s /\
    n_ s' = n_ s /\ rng_ s' = rng_ s /\ max_capacity_ s' = max_capacity_ s /\
    num_levels_ s + 2 <= Z.of_nat (length (levels_ s')) <= 255 /\
    (forall x, 0 <= x <= num_levels_ s ->
       rd (levels_ s') x = rd (levels_ s) x + delta) /\
    rd (levels_ s') (num_levels_ s + 1) =
      rd (levels_ s) (num_levels_ s) + delta /\
    items_ s' = reseat (items_ s) (rd (levels_ s) (num_levels_ s) + delta).
Proof.
  intros Hok HL59 delta.
  pose proof Hok as (Hk & Hlc & Hflag & HL & Hlen & H0 & Hmono & Htop & Hw).
  pose proof (cap_table_range k (num_levels_ s) ltac:(lia)) as Hdelta.
  fold delta in Hdelta.
  unfold add_empty_top_level_to_completely_full_sketch.
  rewrite (u8_small (num_levels_ s + 1)) by lia.
  rewrite (u8_small (num_levels_ s + 2)) by lia.
  replace (num_levels_ s + 1 - 0 - 1) with (num_levels_ s) by lia.
  rewrite u8_small by lia. rewrite Hlc.
  rewrite (rd_lookup (cap_table k)) by (rewrite cap_table_length; lia).
  fold delta.
  pose proof (levels_ok_bounds k s (num_levels_ s) Hok ltac:(lia)) as Hb.
  rewrite u32_small by lia.
  set (levels1 := if Z.of_nat (length (levels_ s)) <? num_levels_ s + 2
                  then resize (Z.to_nat (num_levels_ s + 2)) 0 (levels_ s)
                  else levels_ s).
  assert (Hlen1 : num_levels_ s + 2 <= Z.of_nat (length levels1) <= 255).
  { unfold levels1. destruct (Z.ltb_spec (Z.of_nat (length (levels_ s)))
                                (num_levels_ s + 2)).
    - rewrite length_resize. lia.
    - lia. }
  assert (Hrd1 : forall x, 0 <= x <= num_levels_ s ->
            rd levels1 x = rd (levels_ s) x).
  { intros x Hx. unfold levels1.
    destruct (Z.ltb_spec (Z.of_nat (length (levels_ s))) (num_levels_ s + 2));
      [|reflexivity].
    rewrite resize_ge by lia. apply rd_app_l. lia. }
  eexists. split; [reflexivity|]. cbn [num_levels_ level_capacities
    is_level_zero_sorted_ n_ rng_ max_capacity_ levels_ items_ with_buffers].
  do 6 (split; [first [reflexivity|exact Hlc]|]).
  split; [now rewrite length_wr, length_add_range|].
  split; [|split; [|reflexivity]].
  - intros x Hx. rewrite rd_wr_ne by lia.
    rewrite rd_add_range by lia.
    destruct (Z.leb_spec 0 x); [|lia].
    destruct (Z.ltb_spec x (0 + Z.of_nat (S (Z.to_nat (num_levels_ s)))));
      [|lia].
    cbn [andb]. rewrite Hrd1 by lia.
    pose proof (levels_ok_bounds k s x Hok ltac:(lia)).
    apply u32_small. lia.
  - apply rd_wr_eq. rewrite length_add_range. lia.
Qed.

Lemma is_odd_spec (x : Z) : is_odd x = (x mod 2 =? 1).
Proof.
  unfold is_odd. change 1 with (Z.ones 1) at 1. rewrite Z.land_ones by lia.
  change (2 ^ 1) with 2. pose proof (Z.mod_pos_bound x 2 ltac:(lia)).
  destruct (Z.gtb_spec (x mod 2) 0); destruct (Z.eqb_spec (x mod 2) 1);
    try reflexivity; lia.
Qed.

(** What a compaction of [level] does to the table: the boundaries up to
    [level] move up by half the population of the level, rounded down, the
    boundary above it moves down by as much, and the others stay. *)
Lemma compact_level_levels (s : sketch) (level : Z) :
  0 <= level -> level + 2 <= num_levels_ s ->
  num_levels_ s + 1 <= Z.of_nat (length (levels_ s)) ->
  0 <= rd (levels_ s) 0 ->
  (forall l, 0 <= l < num_levels_ s ->
     rd (levels_ s) l <= rd (levels_ s) (l + 1)) ->
  rd (levels_ s) (num_levels_ s) < 2 ^ 32 ->
  let half := (rd (levels_ s) (level + 1) - rd (levels_ s) level) / 2 in
  length (levels_ (compact_level s level)) = length (levels_ s) /\
  forall x, 0 <= x ->
    rd (levels_ (compact_level s level)) x =
    rd (levels_ s) x +
    (if x <=? level then half else if x =? level + 1 then - half else 0).
Proof.
  intros Hlevel HL Hlen H0 Hmono Htop half.
  pose proof (mono_le _ _ Hmono 0 level ltac:(lia) ltac:(lia)) as Hb0.
  pose proof (Hmono level ltac:(lia)) as Hb1.
  pose proof (mono_le _ _ Hmono (level + 1) (num_levels_ s) ltac:(lia)
                ltac:(lia)) as Hb2.
  unfold compact_level. cbv zeta. cbn [levels_ with_buffers].
  set (raw_beg := rd (levels_ s) level) in *.
  set (raw_lim := rd (levels_ s) (level + 1)) in *.
  rewrite (u32_small (raw_lim - raw_beg)) by lia.
  assert (Hhalf : 0 <= half /\ 2 * half <= raw_lim - raw_beg <= 2 * half + 1)
    by (unfold half; Z.to_euclidean_division_equations; lia).
  assert (Hadj : (if is_odd (raw_lim - raw_beg)
                  then u32 (raw_lim - raw_beg - 1) else raw_lim - raw_beg) / 2
                 = half).
  { rewrite is_odd_spec.
    destruct (Z.eqb_spec ((raw_lim - raw_beg) mod 2) 1) as [Hodd|Heven].
    - rewrite u32_small by (Z.to_euclidean_division_equations; lia).
      unfold half. Z.to_euclidean_division_equations; lia.
    - reflexivity. }
  rewrite !Hadj. rewrite rd_wr_eq by lia.
  rewrite (u32_small (raw_lim - half)) by lia.
  assert (Hleft : (if is_odd (raw_lim - raw_beg)
                   then wr (wr (levels_ s) (level + 1) (raw_lim - half)) level
                          (u32 (raw_lim - half - 1))
                   else wr (wr (levels_ s) (level + 1) (raw_lim - half)) level
                          (raw_lim - half)) =
                  wr (wr (levels_ s) (level + 1) (raw_lim - half)) level
                    (raw_beg + half)).
  { rewrite is_odd_spec.
    destruct (Z.eqb_spec ((raw_lim - raw_beg) mod 2) 1) as [Hodd|Heven].
    - rewrite u32_small by (Z.to_euclidean_division_equations; lia).
      f_equal. Z.to_euclidean_division_equations; lia.
    - f_equal. Z.to_euclidean_division_equations; lia. }
  rewrite Hleft. clear Hleft Hadj.
  split.
  - destruct (level >? 0); rewrite ?length_add_range, !length_wr; reflexivity.
  - intros x Hx.
    assert (Hrd : rd (wr (wr (levels_ s) (level + 1) (raw_lim - half)) level
                       (raw_beg + half)) x =
                  if x =? level then raw_beg + half
                  else if x =? level + 1 then raw_lim - half
                  else rd (levels_ s) x).
    { destruct (Z.eqb_spec x level) as [->|Hne].
      - apply rd_wr_eq. rewrite length_wr. lia.
      - rewrite rd_wr_ne by lia.
        destruct (Z.eqb_spec x (level + 1)) as [->|Hne'].
        + apply rd_wr_eq. lia.
        + apply rd_wr_ne; lia. }
    destruct (Z.gtb_spec level 0) as [Hpos|Hzero].
    + rewrite rd_add_range by (rewrite ?length_wr; lia).
      rewrite Hrd.
      destruct (Z.leb_spec 0 x); [|lia].
      destruct (Z.ltb_spec x (0 + Z.of_nat (Z.to_nat level)));
        destruct (Z.leb_spec x level); destruct (Z.eqb_spec x level);
        destruct (Z.eqb_spec x (level + 1)); cbn [andb]; try lia;
        try (subst x; unfold raw_beg, raw_lim; lia).
      pose proof (mono_le _ _ Hmono 0 x ltac:(lia) ltac:(lia)).
      pose proof (mono_le _ _ Hmono x level ltac:(lia) ltac:(lia)).
      rewrite u32_small by (unfold raw_beg in *; lia). reflexivity.
    + rewrite Hrd.
      destruct (Z.leb_spec x level); destruct (Z.eqb_spec x level);
        destruct (Z.eqb_spec x (level + 1)); try lia;
        try (subst x; unfold raw_beg, raw_lim; lia).
Qed.

Lemma compact_level_ok (k : Z) (s : sketch) (level : Z) :
  levels_ok k s -> 0 <= level -> level + 2 <= num_levels_ s ->
  levels_ok k (compact_level s level) /\
  rd (levels_ (compact_level s level)) 0 =
    rd (levels_ s) 0 +
    (rd (levels_ s) (level + 1) - rd (levels_ s) level) / 2.
Proof.
  intros Hok Hlevel HL2.
  pose proof Hok as (Hk & Hlc & Hflag & HL & Hlen & H0 & Hmono & Htop & Hw).
  pose proof (levels_ok_bounds k s (num_levels_ s) Hok ltac:(lia)) as Hb.
  destruct (compact_level_levels s level) as [Hlen' Hrd]; try lia;
    try assumption.
  set (half := (rd (levels_ s) (level + 1) - rd (levels_ s) level) / 2) in *.
  assert (Hhalf : 0 <= half /\
            2 * half <= rd (levels_ s) (level + 1) - rd (levels_ s) level)
    by (unfold half; pose proof (Hmono level ltac:(lia));
        Z.to_euclidean_division_equations; lia).
  split.
  - unfold levels_ok. cbv zeta.
    change (num_levels_ (compact_level s level)) with (num_levels_ s).
    change (level_capacities (compact_level s level))
      with (level_capacities s).
    change (is_level_zero_sorted_ (compact_level s level))
      with (is_level_zero_sorted_ s).
    change (n_ (compact_level s level)) with (n_ s).
    rewrite Hlen'.
    split; [exact Hk|]. split; [exact Hlc|]. split; [exact Hflag|].
    split; [exact HL|]. split; [exact Hlen|].
    split; [|split; [|split]].
    + rewrite Hrd by lia. destruct (Z.leb_spec 0 level); lia.
    + intros l Hl. rewrite !Hrd by lia.
      pose proof (Hmono l Hl).
      destruct (Z.leb_spec l level); destruct (Z.leb_spec (l + 1) level);
        destruct (Z.eqb_spec l (level + 1));
        destruct (Z.eqb_spec (l + 1) (level + 1)); try lia.
      assert (l = level) by lia. subst l. lia.
    + rewrite Hrd by lia.
      destruct (Z.leb_spec (num_levels_ s) level); [lia|].
      destruct (Z.eqb_spec (num_levels_ s) (level + 1)); [lia|]. lia.
    + rewrite <- Hw.
      rewrite (weight_pops
        (fun x => rd (levels_ s) x +
           (if x <=? level then half
            else if x =? level + 1 then - half else 0))
        (rd (levels_ (compact_level s level)))).
      * rewrite weight_add, weight_compaction by lia.
        destruct (Z.eqb_spec (Z.of_nat (Z.to_nat (num_levels_ s)))
                    (level + 1)); lia.
      * intros l Hl. rewrite !Hrd by lia. reflexivity.
  - rewrite Hrd by lia. destruct (Z.leb_spec 0 level); lia.
Qed.

Lemma add_empty_top_level_ok (k : Z) (s : sketch) :
  levels_ok k s -> num_levels_ s <= 59 ->
  exists s', add_empty_top_level_to_completely_full_sketch s = Some s' /\
    levels_ok k s' /\ n_ s' = n_ s /\ rng_ s' = rng_ s /\
    max_capacity_ s' = max_capacity_ s /\
    num_levels_ s' = num_levels_ s + 1 /\
    (forall x, 0 <= x <= num_levels_ s ->
       rd (levels_ s') x =
       rd (levels_ s) x + rd (cap_table k) (num_levels_ s)) /\
    rd (levels_ s') (num_levels_ s + 1) =
      rd (levels_ s) (num_levels_ s) + rd (cap_table k) (num_levels_ s) /\
    items_ s' =
      reseat (items_ s)
        (rd (levels_ s) (num_levels_ s) + rd (cap_table k) (num_levels_ s)).
Proof.
  intros Hok HL59.
  pose proof Hok as (Hk & Hlc & Hflag & HL & Hlen & H0 & Hmono & Htop & Hw).
  destruct (add_empty_top_level_spec k s Hok HL59)
    as (s' & Hs' & HL' & Hlc' & Hflag' & Hn' & Hrng' & Hmax' & Hlen' & Hrd &
        Hnew & Hitems).
  pose proof (cap_table_range k (num_levels_ s) ltac:(lia)) as Hdelta.
  exists s'. split; [exact Hs'|].
  split; [|repeat (split; [assumption|]); assumption].
  unfold levels_ok. cbv zeta. rewrite HL', Hlc', Hflag', Hn'.
  split; [exact Hk|]. split; [exact Hlc|]. split; [exact Hflag|].
  split; [lia|]. split; [lia|].
  split; [|split; [|split]].
  - rewrite Hrd by lia. lia.
  - intros l Hl. destruct (Z.eq_dec l (num_levels_ s)) as [->|Hne].
    + rewrite Hnew, Hrd by lia. lia.
    + rewrite !Hrd by lia. pose proof (Hmono l ltac:(lia)). lia.
  - rewrite Hnew, total_cap_succ, Htop by lia. reflexivity.
  - rewrite weight_succ by lia. rewrite Hnew, (Hrd (num_levels_ s)) by lia.
    rewrite <- Hw. rewrite (weight_pops (rd (levels_ s)) (rd (levels_ s'))).
    + lia.
    + intros l Hl. rewrite !Hrd by lia. lia.
Qed.

(** A sketch whose top level is full has seen at least [2 ^ (L + 2)]
    items; so fewer than [2 ^ 62] items leave room for one more level. *)
Lemma full_top_level_room (k : Z) (s : sketch) :
  levels_ok k s -> n_ s < 2 ^ 62 ->
  8 <= rd (levels_ s) (num_levels_ s) - rd (levels_ s) (num_levels_ s - 1) ->
  num_levels_ s <= 59.
Proof.
  intros Hok Hn Hpop.
  pose proof Hok as (Hk & Hlc & Hflag & HL & Hlen & H0 & Hmono & Htop & Hw).
  pose proof (weight_top (rd (levels_ s)) (num_levels_ s) ltac:(lia) Hmono)
    as Hwt.
  rewrite Hw in Hwt.
  destruct (Z.le_gt_cases (num_levels_ s) 59) as [Hle|Hgt]; [exact Hle|].
  assert (Hpow : 2 ^ 59 <= 2 ^ (num_levels_ s - 1))
    by (apply Z.pow_le_mono_r; lia).
  change (2 ^ 62) with (2 ^ 59 * 8) in Hn. nia.
Qed.

(** How [compress_while_updating] runs on a sketch with no free slot: it
    compacts a full level [r] of the sketch [s1], which is [s] itself, or
    [s] grown by a level when [r] is the top level of [s]. *)
Lemma compress_while_updating_runs (k : Z) (s : sketch) :
  levels_ok k s -> rd (levels_ s) 0 = 0 -> n_ s < 2 ^ 62 ->
  exists r s1,
    compress_while_updating s = Some (compact_level s1 r) /\
    (r + 1 = num_levels_ s /\
       add_empty_top_level_to_completely_full_sketch s = Some s1 \/
     r + 1 < num_levels_ s /\ s1 = s) /\
    levels_ok k s1 /\ n_ s1 = n_ s /\ rng_ s1 = rng_ s /\
    max_capacity_ s1 = max_capacity_ s /\
    0 <= r /\ r + 2 <= num_levels_ s1 /\
    8 <= rd (levels_ s1) (r + 1) - rd (levels_ s1) r.
Proof.
  intros Hok Hzero Hn.
  pose proof Hok as (Hk & Hlc & Hflag & HL & Hlen & H0 & Hmono & Htop & Hw).
  destruct (find_level_to_compact_spec k s Hok Hzero)
    as (r & Hfind & Hr & Hcap).
  pose proof (cap_table_range k (num_levels_ s - r - 1) ltac:(lia)) as Hc.
  unfold compress_while_updating. rewrite Hfind.
  rewrite u8_small by lia.
  destruct (Z.eqb_spec r (num_levels_ s - 1)) as [Htop_level|Hlower].
  - assert (HL59 : num_levels_ s <= 59).
    { apply (full_top_level_room k); [assumption..|].
      subst r. replace (num_levels_ s - 1 + 1) with (num_levels_ s) in Hcap
        by lia. lia. }
    destruct (add_empty_top_level_ok k s Hok HL59)
      as (s1 & Hs1 & Hok1 & Hn1 & Hrng1 & Hmax1 & HL1 & Hrd1 & Hnew1 & Hit1).
    rewrite Hs1. exists r, s1. split; [reflexivity|].
    split; [left; split; [lia|reflexivity]|].
    repeat (split; [first [assumption|lia]|]).
    rewrite !Hrd1 by lia. lia.
  - exists r, s. split; [reflexivity|].
    split; [right; split; [lia|reflexivity]|].
    repeat (split; [first [assumption|reflexivity|lia]|]). lia.
Qed.

Lemma compress_while_updating_ok (k : Z) (s : sketch) :
  levels_ok k s -> rd (levels_ s) 0 = 0 -> n_ s < 2 ^ 62 ->
  exists s', compress_while_updating s = Some s' /\
    levels_ok k s' /\ n_ s' = n_ s /\
    max_capacity_ s' = max_capacity_ s /\ 1 <= rd (levels_ s') 0.
Proof.
  intros Hok Hzero Hn.
  destruct (compress_while_updating_runs k s Hok Hzero Hn)
    as (r & s1 & Hrun & _ & Hok1 & Hn1 & _ & Hmax1 & Hr & Hr2 & Hpop).
  destruct (compact_level_ok k s1 r Hok1 Hr Hr2) as [Hok' Hfirst].
  exists (compact_level s1 r). split; [exact Hrun|].
  split; [exact Hok'|]. split; [exact Hn1|]. split; [exact Hmax1|].
  rewrite Hfirst.
  destruct Hok1 as (_ & _ & _ & _ & _ & H01 & _).
  Z.to_euclidean_division_equations; lia.
Qed.

Lemma weight_push (n : nat) :
  weight (fun x => if x =? 0 then -1 else 0) n =
  if Z.of_nat n =? 0 then 0 else 1.
Proof.
  induction n as [|n IH]; [reflexivity|].
  cbn [weight]. rewrite IH.
  destruct (Z.eqb_spec (Z.of_nat n) 0) as [Hn|Hn].
  - rewrite Hn. reflexivity.
  - destruct (Z.eqb_spec (Z.of_nat (S n)) 0); [lia|].
    destruct (Z.eqb_spec (Z.of_nat n + 1) 0); [lia|]. lia.
Qed.

Lemma internal_update_ok (k : Z) (s : sketch) :
  levels_ok k s -> n_ s < 2 ^ 62 ->
  exists s' index, internal_update s = Some (s', index) /\
    levels_ok k s' /\ n_ s' = n_ s + 1 /\
    max_capacity_ s' = max_capacity_ s /\
    index = rd (levels_ s') 0 /\ index < rd (levels_ s') 1.
Proof.
  intros Hok Hn. unfold internal_update.
  assert (Hfree : exists s1,
            (if rd (levels_ s) 0 =? 0 then compress_while_updating s
             else Some s) = Some s1 /\
            levels_ok k s1 /\ n_ s1 = n_ s /\
            max_capacity_ s1 = max_capacity_ s /\ 1 <= rd (levels_ s1) 0).
  { destruct (Z.eqb_spec (rd (levels_ s) 0) 0) as [Hzero|Hfree].
    - now apply compress_while_updating_ok.
    - exists s. pose proof Hok as (_ & _ & _ & _ & _ & H0 & _).
      repeat (split; [first [reflexivity|assumption]|]). lia. }
  destruct Hfree as (s1 & Hs1 & Hok1 & Hn1 & Hmax1 & Hfirst).
  rewrite Hs1. clear Hs1.
  pose proof Hok1 as (Hk & Hlc & Hflag & HL & Hlen & H0 & Hmono & Htop & Hw).
  pose proof (levels_ok_bounds k s1 0 Hok1 ltac:(lia)) as Hb.
  assert (Hnn : 0 <= n_ s1).
  { rewrite <- Hw. apply weight_nonneg. intros l Hl. apply Hmono. lia. }
  rewrite u32_small by lia.
  eexists _, _. split; [reflexivity|].
  cbn [levels_ n_ max_capacity_].
  assert (Hrd : forall x, 0 <= x ->
            rd (wr (levels_ s1) 0 (rd (levels_ s1) 0 - 1)) x =
            rd (levels_ s1) x + (if x =? 0 then -1 else 0)).
  { intros x Hx. destruct (Z.eqb_spec x 0) as [->|Hne].
    - rewrite rd_wr_eq by lia. lia.
    - rewrite rd_wr_ne by lia. lia. }
  split; [|split; [|split; [exact Hmax1|split]]].
  - unfold levels_ok. cbv zeta.
    cbn [num_levels_ level_capacities is_level_zero_sorted_ n_ levels_].
    rewrite length_wr.
    split; [exact Hk|]. split; [exact Hlc|]. split; [reflexivity|].
    split; [exact HL|]. split; [exact Hlen|].
    split; [|split; [|split]].
    + rewrite Hrd by lia. cbn. lia.
    + intros l Hl. rewrite !Hrd by lia. pose proof (Hmono l Hl).
      destruct (Z.eqb_spec l 0); destruct (Z.eqb_spec (l + 1) 0); lia.
    + rewrite Hrd by lia. destruct (Z.eqb_spec (num_levels_ s1) 0); lia.
    + rewrite (weight_pops
        (fun x => rd (levels_ s1) x + (if x =? 0 then -1 else 0))).
      * rewrite weight_add, weight_push, Hw.
        destruct (Z.eqb_spec (Z.of_nat (Z.to_nat (num_levels_ s1))) 0);
          [lia|]. symmetry. apply u64_small. lia.
      * intros l Hl. rewrite !Hrd by lia. reflexivity.
  - rewrite u64_small by lia. lia.
  - rewrite Hrd by lia. cbn. lia.
  - rewrite Hrd by lia. pose proof (Hmono 0 ltac:(lia)) as Hm.
    replace (0 + 1) with 1 in Hm by lia.
    destruct (Z.eqb_spec 1 0); lia.
Qed.

Variable is_floating_point : bool.
Variable isnan : T -> bool.

Local Abbreviation check_update_item :=
  (check_update_item is_floating_point isnan).
Local Abbreviation update :=
  (update is_floating_point isnan comparator_ std_sort random_bit).
Local Abbreviation Insert :=
  (Insert is_floating_point isnan comparator_ std_sort random_bit).
Local Abbreviation Insert_all :=
  (Insert_all is_floating_point isnan comparator_ std_sort random_bit).

Lemma update_rejected (s : sketch) (x : T) :
  check_update_item x = false -> update s x = Some s.
Proof. intros Hx. unfold KLL.update. now rewrite Hx. Qed.

Lemma update_ok (k : Z) (s : sketch) (x : T) :
  levels_ok k s -> n_ s < 2 ^ 62 -> check_update_item x = true ->
  exists s', update s x = Some s' /\ levels_ok k s' /\ n_ s' = n_ s + 1 /\
    max_capacity_ s' = max_capacity_ s.
Proof.
  intros Hok Hn Hx. unfold KLL.update. rewrite Hx. cbn [negb].
  destruct (internal_update_ok k s Hok Hn)
    as (s' & index & -> & Hok' & Hn' & Hmax' & _).
  eexists. split; [reflexivity|].
  split; [exact Hok'|]. split; [exact Hn'|exact Hmax'].
Qed.

Lemma accepted_cons (x : T) (xs : list T) :
  accepted check_update_item (x :: xs) =
  (if check_update_item x then 1 else 0) + accepted check_update_item xs.
Proof.
  unfold accepted. cbn [List.filter].
  destruct (KLL.check_update_item is_floating_point isnan x); cbn [length]; lia.
Qed.


Lemma Insert_all_ok (k : Z) (xs : list T) (s : sketch) :
  levels_ok k s -> n_ s + Z.of_nat (length xs) <= 2 ^ 62 ->
  exists s', Insert_all s xs = Some s' /\ levels_ok k s' /\
    n_ s' = n_ s + accepted check_update_item xs /\
    max_capacity_ s' = max_capacity_ s.
Proof.
  revert s. induction xs as [|x xs IH]; intros s Hok Hn.
  - exists s. split; [reflexivity|]. split; [exact Hok|].
    unfold accepted. cbn [List.filter length]. split; [lia|reflexivity].
  - cbn [KLL.Insert_all length] in *. unfold KLL.Insert.
    rewrite accepted_cons.
    destruct (KLL.check_update_item is_floating_point isnan x) eqn:Hx.
    + destruct (update_ok k s x Hok ltac:(lia) Hx)
        as (s1 & -> & Hok1 & Hn1 & Hmax1).
      destruct (IH s1 Hok1 ltac:(lia)) as (s' & Hs' & Hok' & Hn' & Hmax').
      exists s'. split; [exact Hs'|]. split; [exact Hok'|].
      split; [lia|congruence].
    + rewrite update_rejected by exact Hx.
      destruct (IH s Hok ltac:(lia)) as (s' & Hs' & Hok' & Hn' & Hmax').
      exists s'. split; [exact Hs'|]. split; [exact Hok'|].
      split; [lia|exact Hmax'].
Qed.

(** The constructor succeeds on every [k] of the range, and yields a sketch
    of one level, full of free slots. *)
Lemma KarninLangLiberty_ok (stale : list Z) (k : Z) :
  8 <= k <= 65535 ->
  exists s : sketch, KarninLangLiberty stale k = Some s /\ levels_ok k s /\
    n_ s = 0 /\ max_capacity_ s = compute_total_capacity stale kMaxNumLevels /\
    num_levels_ s = 1 /\ rd (levels_ s) 0 = k /\ rd (levels_ s) 1 = k /\
    items_ s = replicate (Z.to_nat k) inhabitant.
Proof.
  intros Hk. unfold KarninLangLiberty. cbv zeta.
  rewrite (u16_small k) by lia.
  change MIN_K with 8. change MAX_K with 65535.
  destruct (Z.ltb_spec k 8); [lia|]. destruct (Z.gtb_spec k 65535); [lia|].
  cbn [orb]. eexists. split; [reflexivity|].
  cbn [n_ max_capacity_ num_levels_ levels_ items_].
  change (Z.to_nat kMaxNumLevels) with 60%nat.
  assert (Hr0 : rd (wr (wr (replicate 60 0) 1 k) 0 k) 0 = k).
  { apply rd_wr_eq. rewrite length_wr, length_replicate. lia. }
  assert (Hr1 : rd (wr (wr (replicate 60 0) 1 k) 0 k) 1 = k).
  { rewrite rd_wr_ne by lia. apply rd_wr_eq. rewrite length_replicate. lia. }
  split; [|repeat (split; [first [reflexivity|assumption]|]); reflexivity].
  unfold levels_ok. cbv zeta.
  cbn [n_ num_levels_ levels_ level_capacities is_level_zero_sorted_].
  rewrite !length_wr, length_replicate.
  split; [exact Hk|]. split; [reflexivity|]. split; [reflexivity|].
  split; [lia|]. split; [lia|]. split; [lia|].
  split; [|split].
  - intros l Hl. assert (l = 0) by lia. subst l.
    change (0 + 1) with 1. lia.
  - change (Z.to_nat 1) with 1%nat. cbn [total_cap].
    change (Z.of_nat 0) with 0. rewrite cap_table_0 by lia. lia.
  - change (Z.to_nat 1) with 1%nat. cbn [weight].
    change (Z.of_nat 0) with 0. change (0 + 1) with 1. lia.
Qed.

(** The constructor throws exactly when the parameter, converted to
    [uint16_t], is below [MIN_K]. *)
Lemma KarninLangLiberty_fails (stale : list Z) (k : Z) :
  @KarninLangLiberty T _ stale k = None <-> ~ (8 <= u16 k <= 65535).
Proof.
  unfold KarninLangLiberty. cbv zeta.
  change MIN_K with 8. change MAX_K with 65535.
  destruct (Z.ltb_spec (u16 k) 8); destruct (Z.gtb_spec (u16 k) 65535);
    cbn [orb]; split; try discriminate; try reflexivity; lia.
Qed.

(** The memory of the sketch the constructor yields. *)
Lemma KarninLangLiberty_memory (stale : list Z) (k : Z) (s : sketch) :
  KarninLangLiberty stale k = Some s ->
  k_ s = u16 k /\
  items_storage_ s = compute_total_capacity stale kMaxNumLevels /\
  items_ptr_ s = items_storage_ s - u16 k /\
  Z.of_nat (length (items_ s)) = u16 k.
Proof.
  unfold KarninLangLiberty. cbv zeta.
  destruct (_ || _); [discriminate|]. intros Hs. injection Hs as <-.
  cbn [k_ items_storage_ items_ptr_ items_]. rewrite length_replicate.
  unfold u16. pose proof (Z.mod_pos_bound k (2 ^ 16) ltac:(lia)).
  repeat split; lia.
Qed.

End Sketch.

End KLLLevels.

(** ** KLL: the loops over the items *)

Module KLLLoops.
Import KLL KLLSpec KLLArrays Bits.

(** Reading an array after one write, done by cases on the position. *)
Ltac read_write x i :=
  cbn [andb]; try lia; try reflexivity;
  first [ rewrite rd_wr_ne by lia; first [reflexivity | f_equal; lia]
        | replace x with i by lia; rewrite rd_wr_eq by lia;
          first [reflexivity | f_equal; lia] ].

(** Case analysis on every comparison of the goal. *)
Ltac compare_cases :=
  repeat match goal with
  | |- context [Z.leb ?a ?b] => destruct (Z.leb_spec a b)
  | |- context [Z.ltb ?a ?b] => destruct (Z.ltb_spec a b)
  | |- context [Z.gtb ?a ?b] => destruct (Z.gtb_spec a b)
  | |- context [Z.eqb ?a ?b] => destruct (Z.eqb_spec a b)
  end; cbn [andb].

Section Loops.

Context {T : Type} `{Inhabited T}.
Variable valid : T -> bool.
Variable lt : T -> T -> bool.

(** *** Ranges read through a change of index *)

Lemma sorted_range_reindex (buf buf' : list T) (lo hi lo' hi' : Z)
    (phi : Z -> Z) :
  sorted_range lt buf lo hi ->
  (forall x, lo' <= x < hi' -> rd buf' x = rd buf (phi x)) ->
  (forall x, lo' <= x < hi' -> lo <= phi x < hi) ->
  (forall x y, lo' <= x -> x < y -> y < hi' -> phi x < phi y) ->
  sorted_range lt buf' lo' hi'.
Proof.
  intros Hsorted Hrd Hin Hmono i j Hi Hij Hj.
  rewrite (Hrd i), (Hrd j) by lia.
  apply Hsorted; [apply Hin; lia|apply Hmono; lia|apply Hin; lia].
Qed.

Lemma valid_range_reindex (buf buf' : list T) (lo hi lo' hi' : Z)
    (phi : Z -> Z) :
  valid_range valid buf lo hi ->
  (forall x, lo' <= x < hi' -> rd buf' x = rd buf (phi x)) ->
  (forall x, lo' <= x < hi' -> lo <= phi x < hi) ->
  valid_range valid buf' lo' hi'.
Proof.
  intros Hvalid Hrd Hin i Hi. rewrite Hrd by lia. apply Hvalid, Hin. lia.
Qed.

Lemma sorted_range_same (buf buf' : list T) (lo hi : Z) :
  sorted_range lt buf lo hi ->
  (forall x, lo <= x < hi -> rd buf' x = rd buf x) ->
  sorted_range lt buf' lo hi.
Proof.
  intros Hsorted Hrd.
  apply (sorted_range_reindex buf buf' lo hi lo hi (fun x => x));
    try assumption; intros; lia.
Qed.

Lemma valid_range_same (buf buf' : list T) (lo hi : Z) :
  valid_range valid buf lo hi ->
  (forall x, lo <= x < hi -> rd buf' x = rd buf x) ->
  valid_range valid buf' lo hi.
Proof.
  intros Hvalid Hrd.
  apply (valid_range_reindex buf buf' lo hi lo hi (fun x => x));
    try assumption; intros; lia.
Qed.

Lemma sorted_range_sub (buf : list T) (lo hi lo' hi' : Z) :
  sorted_range lt buf lo hi -> lo <= lo' -> hi' <= hi ->
  sorted_range lt buf lo' hi'.
Proof. intros Hsorted Hlo Hhi i j Hi Hij Hj. apply Hsorted; lia. Qed.

Lemma valid_range_sub (buf : list T) (lo hi lo' hi' : Z) :
  valid_range valid buf lo hi -> lo <= lo' -> hi' <= hi ->
  valid_range valid buf lo' hi'.
Proof. intros Hvalid Hlo Hhi i Hi. apply Hvalid. lia. Qed.

Lemma sorted_range_short (buf : list T) (lo hi : Z) :
  hi <= lo + 1 -> sorted_range lt buf lo hi.
Proof. intros Hshort i j Hi Hij Hj. lia. Qed.

(** *** [randomly_halve_down] *)

Lemma halve_down_loop_spec (fuel : nat) (lim : Z) (buf : list T) (i j : Z) :
  0 <= i -> i <= j -> lim <= Z.of_nat (length buf) ->
  lim - i <= Z.of_nat fuel -> j + 2 * (lim - i) < 2 ^ 32 ->
  length (halve_down_loop fuel lim buf i j) = length buf /\
  forall x, 0 <= x ->
    rd (halve_down_loop fuel lim buf i j) x =
    if (i <=? x) && (x <? lim) then rd buf (j + 2 * (x - i)) else rd buf x.
Proof.
  revert buf i j.
  induction fuel as [|fuel IH]; intros buf i j Hi Hij Hlen Hfuel Hwrap.
  - cbn [halve_down_loop]. split; [reflexivity|]. intros x Hx.
    destruct (Z.leb_spec i x); destruct (Z.ltb_spec x lim); cbn [andb];
      try reflexivity; lia.
  - cbn [halve_down_loop]. destruct (Z.ltb_spec i lim) as [Hlt|Hge].
    + rewrite !u32_small by lia.
      destruct (IH (wr buf i (rd buf j)) (i + 1) (j + 2))
        as [Hlen' Hrd]; rewrite ?length_wr; try lia.
      split; [now rewrite Hlen', length_wr|]. intros x Hx. rewrite Hrd by lia.
      destruct (Z.leb_spec (i + 1) x); destruct (Z.ltb_spec x lim);
        destruct (Z.leb_spec i x); read_write x i.
    + split; [reflexivity|]. intros x Hx.
      destruct (Z.leb_spec i x); destruct (Z.ltb_spec x lim); cbn [andb];
        try reflexivity; lia.
Qed.

Lemma randomly_halve_down_spec (offset : Z) (buf : list T)
    (start half : Z) :
  0 <= offset <= 1 -> 0 <= start -> 0 <= half ->
  start + 2 * half <= Z.of_nat (length buf) ->
  Z.of_nat (length buf) < 2 ^ 31 ->
  length (randomly_halve_down offset buf start (2 * half)) = length buf /\
  forall x, 0 <= x ->
    rd (randomly_halve_down offset buf start (2 * half)) x =
    if (start <=? x) && (x <? start + half)
    then rd buf (start + offset + 2 * (x - start)) else rd buf x.
Proof.
  intros Hoff Hstart Hhalf Hlen Hsize. unfold randomly_halve_down.
  replace (2 * half / 2) with half by (Z.to_euclidean_division_equations; lia).
  rewrite !u32_small by lia.
  apply halve_down_loop_spec; lia.
Qed.

(** *** [randomly_halve_up] *)

Lemma halve_up_loop_done (fuel : nat) (lim : Z) (buf : list T) (i j : Z) :
  i < lim -> halve_up_loop fuel lim buf i j = buf.
Proof.
  intros Hlt. destruct fuel as [|fuel]; [reflexivity|].
  cbn [halve_up_loop]. destruct (Z.geb_spec i lim); [lia|reflexivity].
Qed.

Lemma halve_up_loop_spec (fuel : nat) (lim : Z) (buf : list T) (i j : Z) :
  1 <= lim -> lim - 1 <= i -> i < Z.of_nat (length buf) ->
  Z.of_nat (length buf) < 2 ^ 32 -> j <= i ->
  0 <= j - 2 * (i - lim) -> i - lim + 1 <= Z.of_nat fuel ->
  length (halve_up_loop fuel lim buf i j) = length buf /\
  forall x, 0 <= x ->
    rd (halve_up_loop fuel lim buf i j) x =
    if (lim <=? x) && (x <=? i) then rd buf (j - 2 * (i - x)) else rd buf x.
Proof.
  revert buf i j.
  induction fuel as [|fuel IH];
    intros buf i j Hlim Hi Hlen Hsize Hji Hj Hfuel.
  - cbn [halve_up_loop]. split; [reflexivity|]. intros x Hx.
    destruct (Z.leb_spec lim x); destruct (Z.leb_spec x i); cbn [andb];
      try reflexivity; lia.
  - cbn [halve_up_loop]. destruct (Z.geb_spec i lim) as [Hge|Hlt].
    + rewrite (u32_small (i - 1)) by lia.
      destruct (Z.eq_dec i lim) as [Hlast|Hmore].
      * rewrite halve_up_loop_done by lia.
        split; [apply length_wr|]. intros x Hx.
        destruct (Z.leb_spec lim x); destruct (Z.leb_spec x i);
          read_write x i.
      * rewrite (u32_small (j - 2)) by lia.
        destruct (IH (wr buf i (rd buf j)) (i - 1) (j - 2))
          as [Hlen' Hrd]; rewrite ?length_wr; try lia.
        split; [now rewrite Hlen', length_wr|]. intros x Hx.
        rewrite Hrd by lia.
        destruct (Z.leb_spec lim x); destruct (Z.leb_spec x (i - 1));
          destruct (Z.leb_spec x i); read_write x i.
    + split; [reflexivity|]. intros x Hx.
      destruct (Z.leb_spec lim x); destruct (Z.leb_spec x i); cbn [andb];
        try reflexivity; lia.
Qed.

Lemma randomly_halve_up_spec (offset : Z) (buf : list T) (start half : Z) :
  0 <= offset <= 1 -> 0 <= start -> 1 <= half ->
  start + 2 * half <= Z.of_nat (length buf) ->
  Z.of_nat (length buf) < 2 ^ 31 ->
  length (randomly_halve_up offset buf start (2 * half)) = length buf /\
  forall x, 0 <= x ->
    rd (randomly_halve_up offset buf start (2 * half)) x =
    if (start + half <=? x) && (x <? start + 2 * half)
    then rd buf (start + (1 - offset) + 2 * (x - (start + half)))
    else rd buf x.
Proof.
  intros Hoff Hstart Hhalf Hlen Hsize. unfold randomly_halve_up.
  replace (2 * half / 2) with half by (Z.to_euclidean_division_equations; lia).
  rewrite (u32_small (start + 2 * half)) by lia.
  rewrite (u32_small (start + 2 * half - 1)) by lia.
  rewrite (u32_small (start + 2 * half - 1 - offset)) by lia.
  rewrite (u32_small (start + half)) by lia.
  destruct (halve_up_loop_spec (Z.to_nat (2 * half)) (start + half) buf
              (start + 2 * half - 1) (start + 2 * half - 1 - offset))
    as [Hlen' Hrd]; try lia.
  split; [exact Hlen'|]. intros x Hx. rewrite Hrd by lia.
  destruct (Z.leb_spec (start + half) x);
    destruct (Z.leb_spec x (start + 2 * half - 1));
    destruct (Z.ltb_spec x (start + 2 * half)); cbn [andb];
    try reflexivity; try lia.
  f_equal. lia.
Qed.

(** *** [std::move_backward] *)

Lemma move_backward_loop_spec (fuel : nat) (buf : list T)
    (first last d_last : Z) :
  0 <= first <= last -> last <= d_last ->
  d_last <= Z.of_nat (length buf) -> last - first <= Z.of_nat fuel ->
  length (move_backward_loop fuel buf first last d_last) = length buf /\
  forall x, 0 <= x ->
    rd (move_backward_loop fuel buf first last d_last) x =
    if (d_last - (last - first) <=? x) && (x <? d_last)
    then rd buf (x - (d_last - last)) else rd buf x.
Proof.
  revert buf last d_last.
  induction fuel as [|fuel IH]; intros buf last d_last Hfl Hld Hlen Hfuel.
  - cbn [move_backward_loop]. split; [reflexivity|]. intros x Hx.
    destruct (Z.leb_spec (d_last - (last - first)) x);
      destruct (Z.ltb_spec x d_last); cbn [andb]; try reflexivity; lia.
  - cbn [move_backward_loop].
    destruct (Z.eqb_spec last first) as [Heq|Hne]; cbn [negb].
    + split; [reflexivity|]. intros x Hx.
      destruct (Z.leb_spec (d_last - (last - first)) x);
        destruct (Z.ltb_spec x d_last); cbn [andb]; try reflexivity; lia.
    + destruct (IH (wr buf (d_last - 1) (rd buf (last - 1))) (last - 1)
                  (d_last - 1)) as [Hlen' Hrd]; rewrite ?length_wr; try lia.
      split; [now rewrite Hlen', length_wr|]. intros x Hx.
      rewrite Hrd by lia.
      destruct (Z.leb_spec (d_last - 1 - (last - 1 - first)) x);
        destruct (Z.ltb_spec x (d_last - 1));
        destruct (Z.leb_spec (d_last - (last - first)) x);
        destruct (Z.ltb_spec x d_last); read_write x (d_last - 1).
Qed.

Lemma move_backward_spec (buf : list T) (first last d_last : Z) :
  0 <= first <= last -> last <= d_last ->
  d_last <= Z.of_nat (length buf) ->
  length (move_backward buf first last d_last) = length buf /\
  forall x, 0 <= x ->
    rd (move_backward buf first last d_last) x =
    if (d_last - (last - first) <=? x) && (x <? d_last)
    then rd buf (x - (d_last - last)) else rd buf x.
Proof.
  intros Hfl Hld Hlen. unfold move_backward.
  apply move_backward_loop_spec; lia.
Qed.

(** *** [std::sort] on a range *)

Lemma sort_range_spec (sort : list T -> list T) (buf : list T)
    (beg pop : Z) :
  sorts valid lt sort ->
  0 <= beg -> 0 <= pop -> beg + pop <= Z.of_nat (length buf) ->
  valid_range valid buf beg (beg + pop) ->
  length (sort_range sort buf beg pop) = length buf /\
  (forall x, 0 <= x -> x < beg \/ beg + pop <= x ->
     rd (sort_range sort buf beg pop) x = rd buf x) /\
  sorted_range lt (sort_range sort buf beg pop) beg (beg + pop) /\
  valid_range valid (sort_range sort buf beg pop) beg (beg + pop).
Proof.
  intros Hsorts Hbeg Hpop Hlen Hvalid. unfold sort_range.
  set (mid := take (Z.to_nat pop) (drop (Z.to_nat beg) buf)).
  assert (Hmid_len : length mid = Z.to_nat pop).
  { unfold mid. rewrite length_take, length_drop. lia. }
  assert (Hmid : Forall (fun x => valid x = true) mid).
  { apply Forall_lookup. intros i x Hi.
    assert (Hlt : (i < Z.to_nat pop)%nat).
    { apply lookup_lt_Some in Hi. lia. }
    unfold mid in Hi. rewrite lookup_take_lt, lookup_drop in Hi by exact Hlt.
    specialize (Hvalid (beg + Z.of_nat i) ltac:(lia)).
    unfold rd in Hvalid.
    replace (Z.to_nat (beg + Z.of_nat i)) with (Z.to_nat beg + i)%nat
      in Hvalid by lia.
    apply list_lookup_total_correct in Hi. now rewrite Hi in Hvalid. }
  destruct (Hsorts mid Hmid) as [Hperm Hsorted].
  assert (Hsort_len : length (sort mid) = Z.to_nat pop)
    by now rewrite Hperm.
  assert (Htake : length (take (Z.to_nat beg) buf) = Z.to_nat beg)
    by (rewrite length_take; lia).
  assert (Hin : forall x, beg <= x < beg + pop ->
            rd (take (Z.to_nat beg) buf ++ sort mid ++
                drop (Z.to_nat beg + Z.to_nat pop) buf) x =
            rd (sort mid) (x - beg)).
  { intros x Hx. rewrite rd_app_r by lia. rewrite Htake.
    rewrite Z2Nat.id by lia. apply rd_app_l. lia. }
  split; [|split; [|split]].
  - rewrite !length_app, Htake, Hsort_len, length_drop. lia.
  - intros x Hx [Hlow|Hhigh].
    + rewrite rd_app_l by lia. unfold rd.
      rewrite lookup_total_take. destruct (decide _); [reflexivity|lia].
    + rewrite rd_app_r by lia. rewrite Htake, Z2Nat.id by lia.
      rewrite rd_app_r by lia. rewrite Hsort_len, Z2Nat.id by lia.
      unfold rd. rewrite lookup_total_drop. f_equal. lia.
  - intros i j Hi Hij Hj. rewrite !Hin by lia.
    apply (Hsorted (Z.to_nat (i - beg)) (Z.to_nat (j - beg))); [lia|..];
      apply rd_lookup; lia.
  - intros i Hi. rewrite Hin by lia.
    rewrite <- Hperm in Hmid. rewrite Forall_lookup in Hmid.
    apply (Hmid (Z.to_nat (i - beg))). apply rd_lookup. lia.
Qed.

(** *** [merge_sorted_arrays] *)

(** One iteration: the item at [p], one of the two the cursors point at, is
    appended to the output; no item still to be read is less than it. *)
Lemma merge_state_step (buf0 buf : list T) (la lb a b c a' b' p : Z) :
  merge_state valid lt buf0 buf la lb a b c ->
  0 <= la <= c -> c < Z.of_nat (length buf0) ->
  a <= a' -> b <= b' ->
  a <= p < la \/ b <= p < lb ->
  valid (rd buf0 p) = true ->
  (forall y, a' <= y < la \/ b' <= y < lb ->
     lt (rd buf0 y) (rd buf0 p) = false) ->
  merge_state valid lt buf0 (wr buf c (rd buf0 p)) la lb a' b' (c + 1).
Proof.
  intros (Hlen & Hsame & Hsorted & Hvalid & Hle) Hc Hclen Ha Hb Hp Hvp Hmin.
  split; [now rewrite length_wr|]. split; [|split; [|split]].
  - intros x Hx Hout. rewrite rd_wr_ne by lia. apply Hsame; lia.
  - intros i j Hi Hij Hj.
    rewrite (rd_wr_ne buf c i) by lia.
    destruct (Z.eq_dec j c) as [->|Hne].
    + rewrite rd_wr_eq by lia. apply Hle; [lia|exact Hp].
    + rewrite rd_wr_ne by lia. apply Hsorted; lia.
  - intros i Hi. destruct (Z.eq_dec i c) as [->|Hne].
    + now rewrite rd_wr_eq by lia.
    + rewrite rd_wr_ne by lia. apply Hvalid. lia.
  - intros x y Hx Hy. destruct (Z.eq_dec x c) as [->|Hne].
    + rewrite rd_wr_eq by lia. apply Hmin, Hy.
    + rewrite rd_wr_ne by lia. apply Hle; lia.
Qed.

Lemma merge_loop_spec (buf0 : list T) (la lb a0 b0 : Z) (fuel : nat) :
  strict_weak_order valid lt ->
  0 <= a0 -> b0 - la = la - a0 ->
  lb <= Z.of_nat (length buf0) -> lb < 2 ^ 32 ->
  sorted_range lt buf0 a0 la -> sorted_range lt buf0 b0 lb ->
  valid_range valid buf0 a0 la -> valid_range valid buf0 b0 lb ->
  forall buf a b c,
  a0 <= a <= la -> b0 <= b <= lb -> c - la = (b - b0) + (a - a0) ->
  lb - c <= Z.of_nat fuel ->
  merge_state valid lt buf0 buf la lb a b c ->
  merge_state valid lt buf0 (merge_loop lt fuel la lb lb buf a b c)
    la lb la lb lb.
Proof.
  intros [Hasym Htrans] Ha0 Hb0 Hlen Hsize HsortA HsortB HvalA HvalB.
  induction fuel as [|fuel IH]; intros buf a b c Ha Hb Hc Hfuel Hstate.
  - cbn [merge_loop]. assert (c = lb) by lia. assert (a = la) by lia.
    assert (b = lb) by lia. now subst.
  - cbn [merge_loop]. destruct (Z.ltb_spec c lb) as [Hlt|Hge].
    + pose proof Hstate as (Hl & Hsame & _).
      assert (HrdA : a < la -> rd buf a = rd buf0 a)
        by (intros; apply Hsame; lia).
      assert (HrdB : rd buf b = rd buf0 b) by (apply Hsame; lia).
      assert (HtakeA : a < la ->
                (b = lb \/ lt (rd buf0 a) (rd buf0 b) = true) ->
                merge_state valid lt buf0
                  (merge_loop lt fuel la lb lb (wr buf c (rd buf0 a))
                     (a + 1) b (c + 1)) la lb la lb lb).
      { intros Hala Hwhy. apply IH; try lia.
        apply (merge_state_step buf0 buf la lb a b c (a + 1) b a);
          try assumption; try lia.
        - apply HvalA. lia.
        - intros y [Hy|Hy].
          + apply HsortA; lia.
          + destruct Hwhy as [->|Hcmp]; [lia|].
            assert (Hba : lt (rd buf0 b) (rd buf0 a) = false).
            { apply Hasym; [apply HvalA|apply HvalB|exact Hcmp]; lia. }
            destruct (Z.eq_dec y b) as [->|Hne]; [exact Hba|].
            apply (Htrans _ (rd buf0 b)); [apply HvalA|apply HvalB|
              apply HvalB|exact Hba|apply HsortB]; lia. }
      assert (HtakeB : b < lb ->
                (a = la \/ lt (rd buf0 a) (rd buf0 b) = false) ->
                merge_state valid lt buf0
                  (merge_loop lt fuel la lb lb (wr buf c (rd buf0 b))
                     a (b + 1) (c + 1)) la lb la lb lb).
      { intros Hblb Hwhy. apply IH; try lia.
        apply (merge_state_step buf0 buf la lb a b c a (b + 1) b);
          try assumption; try lia.
        - apply HvalB. lia.
        - intros y [Hy|Hy].
          + destruct Hwhy as [->|Hcmp]; [lia|].
            destruct (Z.eq_dec y a) as [->|Hne]; [exact Hcmp|].
            apply (Htrans _ (rd buf0 a)); [apply HvalB|apply HvalA|
              apply HvalA|exact Hcmp|apply HsortA]; lia.
          + apply HsortB; lia. }
      destruct (Z.eqb_spec a la) as [Hala|Hala].
      * rewrite HrdB, u32_small by lia. apply HtakeB; [lia|now left].
      * destruct (Z.eqb_spec b lb) as [Hblb|Hblb].
        -- rewrite HrdA, u32_small by lia. apply HtakeA; [lia|now left].
        -- rewrite HrdA, HrdB by lia.
           destruct (lt (rd buf0 a) (rd buf0 b)) eqn:Hcmp.
           ++ rewrite u32_small by lia. apply HtakeA; [lia|now right].
           ++ rewrite u32_small by lia. apply HtakeB; [lia|now right].
    + assert (c = lb) by lia. assert (a = la) by lia.
      assert (b = lb) by lia. now subst.
Qed.

Lemma merge_sorted_arrays_spec (buf : list T) (start half pop_above : Z) :
  strict_weak_order valid lt ->
  0 <= start -> 0 <= half -> 0 <= pop_above ->
  start + 2 * half + pop_above <= Z.of_nat (length buf) ->
  Z.of_nat (length buf) < 2 ^ 31 ->
  sorted_range lt buf start (start + half) ->
  valid_range valid buf start (start + half) ->
  sorted_range lt buf (start + 2 * half) (start + 2 * half + pop_above) ->
  valid_range valid buf (start + 2 * half) (start + 2 * half + pop_above) ->
  let buf' := merge_sorted_arrays lt buf start half (start + 2 * half)
                pop_above (start + half) in
  length buf' = length buf /\
  (forall x, 0 <= x -> x < start + half \/ start + 2 * half + pop_above <= x ->
     rd buf' x = rd buf x) /\
  sorted_range lt buf' (start + half) (start + 2 * half + pop_above) /\
  valid_range valid buf' (start + half) (start + 2 * half + pop_above).
Proof.
  intros Hswo Hstart Hhalf Hpop Hlen Hsize HsortA HvalA HsortB HvalB buf'.
  assert (Hstate : merge_state valid lt buf buf' (start + half)
            (start + 2 * half + pop_above) (start + half)
            (start + 2 * half + pop_above) (start + 2 * half + pop_above)).
  { unfold buf', merge_sorted_arrays.
    rewrite !u32_small by lia.
    replace (start + half + (half + pop_above))
      with (start + 2 * half + pop_above) by lia.
    apply (merge_loop_spec buf (start + half) (start + 2 * half + pop_above)
             start (start + 2 * half)); try assumption; try lia.
    split; [reflexivity|]. split; [reflexivity|].
    split; [intros i j; lia|]. split; [intros i; lia|].
    intros x y Hx. lia. }
  destruct Hstate as (Hl & Hsame & Hsorted & Hvalid & _).
  split; [exact Hl|]. split; [|split; assumption].
  intros x Hx Hout. apply Hsame; lia.
Qed.

End Loops.

End KLLLoops.

(** ** KLL: the items of the levels *)

Module KLLItems.
Import KLL KLLSpec KLLArrays KLLLevels KLLLoops Bits.

Section Sketch.

Context {T : Type} `{Inhabited T}.
Variable valid : T -> bool.
Variable comparator_ : T -> T -> bool.
Variable std_sort : list T -> list T.
Variable random_bit : nat -> bool.

Local Abbreviation sketch := (@sketch T).
Local Abbreviation compact_level :=
  (compact_level comparator_ std_sort random_bit).
Local Abbreviation compress_while_updating :=
  (compress_while_updating comparator_ std_sort random_bit).
Local Abbreviation internal_update :=
  (internal_update comparator_ std_sort random_bit).
Local Abbreviation items_ok := (items_ok valid comparator_).

(** The items a compaction of [level] leaves, with the wrap-arounds and
    the parity tests resolved: [b] is the parity of the population of the
    level and [h] its half, rounded down. *)
Lemma compact_level_items_eq (s : sketch) (level : Z) :
  0 <= level -> level + 2 <= num_levels_ s ->
  num_levels_ s + 1 <= Z.of_nat (length (levels_ s)) ->
  0 <= rd (levels_ s) 0 ->
  (forall l, 0 <= l < num_levels_ s ->
     rd (levels_ s) l <= rd (levels_ s) (l + 1)) ->
  rd (levels_ s) (num_levels_ s) < 2 ^ 31 ->
  is_level_zero_sorted_ s = false ->
  let lv := levels_ s in
  let B := rd lv level in
  let M := rd lv (level + 1) in
  let U := rd lv (level + 2) in
  let h := (M - B) / 2 in
  let b := (M - B) mod 2 in
  let offset := Z.b2z (random_bit (rng_ s)) in
  let it1 := if level =? 0 then sort_range std_sort (items_ s) (B + b) (2 * h)
             else items_ s in
  let it2 := if U - M =? 0 then randomly_halve_up offset it1 (B + b) (2 * h)
             else merge_sorted_arrays comparator_
                    (randomly_halve_down offset it1 (B + b) (2 * h))
                    (B + b) h M (U - M) (B + b + h) in
  let it3 := if b =? 1 then wr it2 (B + h) (rd it2 B) else it2 in
  items_ (compact_level s level) =
  if level >? 0 then move_backward it3 (rd lv 0) B (B + h) else it3.
Proof.
  intros Hlevel HL Hlen H0 Hmono Htop Hflag lv B M U h b offset.
  pose proof (mono_le _ _ Hmono 0 level ltac:(lia) ltac:(lia)) as Hb0.
  pose proof (Hmono level ltac:(lia)) as Hb1.
  pose proof (Hmono (level + 1) ltac:(lia)) as Hb2.
  replace (level + 1 + 1) with (level + 2) in Hb2 by lia.
  pose proof (mono_le _ _ Hmono (level + 2) (num_levels_ s) ltac:(lia)
                ltac:(lia)) as Hb3.
  fold lv in H0, Htop, Hlen. fold lv B M U in Hb0, Hb1, Hb2, Hb3.
  assert (Hh : 0 <= h /\ M - B = 2 * h + b /\ 0 <= b <= 1)
    by (unfold h, b; Z.to_euclidean_division_equations; lia).
  unfold KLL.compact_level. cbv zeta. cbn [levels_ items_ with_buffers].
  fold lv. fold B M U. rewrite Hflag. cbn [negb]. rewrite andb_true_r.
  rewrite (u32_small (M - B)), (u32_small (U - M)) by lia.
  rewrite is_odd_spec. fold b.
  assert (E1 : (if b =? 1 then u32 (B + 1) else B) = B + b).
  { destruct (Z.eqb_spec b 1) as [->|]; [apply u32_small|]; lia. }
  assert (E2 : (if b =? 1 then u32 (M - B - 1) else M - B) = 2 * h).
  { destruct (Z.eqb_spec b 1) as [Hb|]; [rewrite u32_small|]; lia. }
  rewrite !E1, !E2.
  replace (2 * h / 2) with h by (Z.to_euclidean_division_equations; lia).
  rewrite (u32_small (M - h)), (u32_small (B + b + h)) by lia.
  rewrite (rd_wr_eq lv (level + 1)) by lia.
  assert (E3 : (if b =? 1
                then wr (wr lv (level + 1) (M - h)) level (u32 (M - h - 1))
                else wr (wr lv (level + 1) (M - h)) level (M - h)) =
               wr (wr lv (level + 1) (M - h)) level (B + h)).
  { destruct (Z.eqb_spec b 1) as [Hb|]; [rewrite u32_small by lia|];
      f_equal; lia. }
  rewrite !E3.
  rewrite (rd_wr_eq _ level) by (rewrite length_wr; lia).
  destruct (Z.gtb_spec level 0) as [Hpos|Hzero]; [|reflexivity].
  rewrite !(rd_wr_ne _ level 0), !(rd_wr_ne _ (level + 1) 0) by lia.
  rewrite (u32_small (B - rd lv 0)) by lia.
  replace (rd lv 0 + (B - rd lv 0)) with B by lia.
  replace (rd lv 0 + h + (B - rd lv 0)) with (B + h) by lia.
  reflexivity.
Qed.

(** A compaction keeps the levels above level zero ascending and made of
    accepted items. *)
Lemma compact_level_items (k : Z) (s : sketch) (level : Z) :
  strict_weak_order valid comparator_ ->
  sorts valid comparator_ std_sort ->
  levels_ok k s -> items_ok s ->
  0 <= level -> level + 2 <= num_levels_ s ->
  2 <= rd (levels_ s) (level + 1) - rd (levels_ s) level ->
  items_ok (compact_level s level).
Proof.
  intros Hswo Hsorts Hok (Hilen & Hisorted & Hivalid) Hlevel HL2 Hpop.
  pose proof Hok as (Hk & Hlc & Hflag & HL & Hlen & H0 & Hmono & Htop & Hw).
  pose proof (levels_ok_bounds k s (num_levels_ s) Hok ltac:(lia)) as Hb.
  destruct (compact_level_levels comparator_ std_sort random_bit s level)
    as [Hlen' Hrd]; try lia; try assumption.
  pose proof (compact_level_items_eq s level Hlevel HL2 ltac:(lia) H0 Hmono
                ltac:(lia) Hflag) as Hitems.
  cbv zeta in Hitems.
  set (s' := compact_level s level) in *.
  set (lv := levels_ s) in *. set (it0 := items_ s) in *.
  set (B := rd lv level) in *. set (M := rd lv (level + 1)) in *.
  set (U := rd lv (level + 2)) in *. set (Z0 := rd lv 0) in *.
  set (h := (M - B) / 2) in *. set (b := (M - B) mod 2) in *.
  set (offset := Z.b2z (random_bit (rng_ s))) in *.
  assert (Hoff : 0 <= offset <= 1) by (unfold offset; destruct (random_bit _); cbn; lia).
  assert (HB : Z0 <= B) by (apply (mono_le _ _ Hmono); lia).
  assert (HM : B <= M) by (apply (Hmono level); lia).
  assert (HU : M <= U).
  { pose proof (Hmono (level + 1) ltac:(lia)) as Hm.
    replace (level + 1 + 1) with (level + 2) in Hm by lia. exact Hm. }
  assert (HUL : U <= rd lv (num_levels_ s))
    by (apply (mono_le _ _ Hmono); lia).
  assert (Hh : 1 <= h /\ M = B + b + 2 * h /\ 0 <= b <= 1)
    by (unfold h, b; Z.to_euclidean_division_equations; lia).
  destruct Hh as (Hh1 & HMeq & Hb01).
  set (it1 := if level =? 0 then sort_range std_sort it0 (B + b) (2 * h)
              else it0) in *.
  assert (S1 : length it1 = length it0 /\
            (forall x, 0 <= x -> x < B + b \/ M <= x -> rd it1 x = rd it0 x) /\
            sorted_range comparator_ it1 (B + b) M /\
            valid_range valid it1 (B + b) M).
  { unfold it1. destruct (Z.eqb_spec level 0) as [Hzero|Hpos].
    - destruct (sort_range_spec valid comparator_ std_sort it0 (B + b)
                  (2 * h) Hsorts) as (Hl & Hsame & Hs & Hv); try lia.
      { apply (valid_range_sub valid it0 Z0 (rd lv (num_levels_ s)));
          [exact Hivalid|lia|lia]. }
      replace (B + b + 2 * h) with M in * by lia.
      repeat split; assumption.
    - split; [reflexivity|]. split; [reflexivity|]. split.
      + apply (sorted_range_sub comparator_ it0 B M); [|lia|lia].
        apply (Hisorted level). lia.
      + apply (valid_range_sub valid it0 Z0 (rd lv (num_levels_ s)));
          [exact Hivalid|lia|lia]. }
  destruct S1 as (Hl1 & Hsame1 & Hsorted1 & Hvalid1).
  set (it2 := if U - M =? 0 then randomly_halve_up offset it1 (B + b) (2 * h)
              else merge_sorted_arrays comparator_
                     (randomly_halve_down offset it1 (B + b) (2 * h))
                     (B + b) h M (U - M) (B + b + h)) in *.
  assert (S2 : length it2 = length it0 /\
            (forall x, 0 <= x -> x < B + b \/ U <= x -> rd it2 x = rd it0 x) /\
            sorted_range comparator_ it2 (M - h) U /\
            valid_range valid it2 (M - h) U).
  { unfold it2. destruct (Z.eqb_spec (U - M) 0) as [Hempty|Hfull].
    - destruct (randomly_halve_up_spec offset it1 (B + b) h)
        as [Hl Hread]; try lia.
      assert (HUM : U = M) by lia. rewrite HUM.
      split; [lia|]. split; [|split].
      + intros x Hx Hout. rewrite Hread by lia.
        compare_cases; try lia; apply Hsame1; lia.
      + apply (sorted_range_reindex comparator_ it1 _ (B + b) M _ _
                 (fun x => B + b + (1 - offset) + 2 * (x - (B + b + h))));
          [exact Hsorted1|..]; try (intros; lia).
        intros x Hx. rewrite Hread by lia. compare_cases; try lia.
        reflexivity.
      + apply (valid_range_reindex valid it1 _ (B + b) M _ _
                 (fun x => B + b + (1 - offset) + 2 * (x - (B + b + h))));
          [exact Hvalid1|..]; try (intros; lia).
        intros x Hx. rewrite Hread by lia. compare_cases; try lia.
        reflexivity.
    - destruct (randomly_halve_down_spec offset it1 (B + b) h)
        as [Hl Hread]; try lia.
      set (it1' := randomly_halve_down offset it1 (B + b) (2 * h)) in *.
      assert (Hupper : forall x, M <= x -> rd it1' x = rd it0 x).
      { intros x Hx. rewrite Hread by lia. compare_cases; try lia;
          apply Hsame1; lia. }
      assert (Emerge :
        merge_sorted_arrays comparator_ it1' (B + b) h M (U - M) (B + b + h) =
        merge_sorted_arrays comparator_ it1' (B + b) h (B + b + 2 * h)
          (U - M) (B + b + h)) by (f_equal; lia).
      rewrite Emerge. clear Emerge.
      destruct (merge_sorted_arrays_spec valid comparator_ it1' (B + b) h
                  (U - M) Hswo) as (Hl2 & Hsame2 & Hsorted2 & Hvalid2);
        try lia.
      + apply (sorted_range_reindex comparator_ it1 _ (B + b) M _ _
                 (fun x => B + b + offset + 2 * (x - (B + b))));
          [exact Hsorted1|..]; try (intros; lia).
        intros x Hx. rewrite Hread by lia. compare_cases; try lia.
        reflexivity.
      + apply (valid_range_reindex valid it1 _ (B + b) M _ _
                 (fun x => B + b + offset + 2 * (x - (B + b))));
          [exact Hvalid1|..]; try (intros; lia).
        intros x Hx. rewrite Hread by lia. compare_cases; try lia.
        reflexivity.
      + replace (B + b + 2 * h + (U - M)) with U by lia.
        replace (B + b + 2 * h) with M by lia.
        apply (sorted_range_same comparator_ it0).
        * pose proof (Hisorted (level + 1) ltac:(lia)) as Hs.
          replace (level + 1 + 1) with (level + 2) in Hs by lia. exact Hs.
        * intros x Hx. apply Hupper. lia.
      + replace (B + b + 2 * h + (U - M)) with U by lia.
        replace (B + b + 2 * h) with M by lia.
        apply (valid_range_same valid it0).
        * apply (valid_range_sub valid it0 Z0 (rd lv (num_levels_ s)));
            [exact Hivalid|lia|lia].
        * intros x Hx. apply Hupper. lia.
      + replace (B + b + 2 * h + (U - M)) with U in * by lia.
        replace (M - h) with (B + b + h) by lia.
        split; [lia|]. split; [|split; assumption].
        intros x Hx Hout. rewrite Hsame2 by lia.
        rewrite Hread by lia. compare_cases; try lia; apply Hsame1; lia. }
  destruct S2 as (Hl2 & Hsame2 & Hsorted2 & Hvalid2).
  set (it3 := if b =? 1 then wr it2 (B + h) (rd it2 B) else it2) in *.
  assert (S3 : length it3 = length it0 /\
            (forall x, 0 <= x -> x < B + h \/ B + h + b <= x ->
               rd it3 x = rd it2 x) /\
            (b = 1 -> rd it3 (B + h) = rd it0 B)).
  { unfold it3. destruct (Z.eqb_spec b 1) as [Hodd|Heven].
    - split; [now rewrite length_wr|]. split.
      + intros x Hx Hne. apply rd_wr_ne; lia.
      + intros _. rewrite rd_wr_eq by lia. apply Hsame2; lia.
    - split; [exact Hl2|]. split; [reflexivity|]. intros Hodd. lia. }
  destruct S3 as (Hl3 & Hsame3 & Hleft3).
  assert (S4 : length (items_ s') = length it0 /\
            (forall x, M - h <= x -> rd (items_ s') x = rd it2 x) /\
            (b = 1 -> rd (items_ s') (B + h) = rd it0 B) /\
            (forall x, Z0 + h <= x < B + h ->
               rd (items_ s') x = rd it0 (x - h))).
  { rewrite Hitems. destruct (Z.gtb_spec level 0) as [Hpos|Hzero].
    - destruct (move_backward_spec it3 Z0 B (B + h)) as [Hl4 Hread];
        try lia.
      split; [lia|]. split; [|split].
      + intros x Hx. rewrite Hread by lia. compare_cases; try lia.
        apply Hsame3; lia.
      + intros Hodd. rewrite Hread by lia. compare_cases; try lia.
        apply Hleft3, Hodd.
      + intros x Hx. rewrite Hread by lia. compare_cases; try lia.
        replace (x - (B + h - B)) with (x - h) by lia.
        rewrite Hsame3 by lia. apply Hsame2; lia.
    - assert (Hl0 : level = 0) by lia.
      assert (HZB : Z0 = B) by (unfold Z0, B; now rewrite Hl0).
      split; [exact Hl3|]. split; [|split].
      + intros x Hx. apply Hsame3; lia.
      + exact Hleft3.
      + intros x Hx. lia. }
  destruct S4 as (Hl4 & Hupper4 & Hleft4 & Hlower4).
  assert (Hin : forall x, Z0 <= x < rd lv (num_levels_ s) ->
            valid (rd it0 x) = true) by exact Hivalid.
  split; [|split].
  - change (num_levels_ s') with (num_levels_ s).
    rewrite Hl4, Hrd by lia. compare_cases; try lia.
  - change (num_levels_ s') with (num_levels_ s). intros l Hl.
    rewrite !Hrd by lia.
    destruct (Z.le_gt_cases (level + 2) l) as [Habove|Hbelow].
    + compare_cases; try lia. rewrite !Z.add_0_r.
      assert (HUl : U <= rd lv l) by (apply (mono_le _ _ Hmono); lia).
      apply (sorted_range_same comparator_ it0); [apply Hisorted; lia|].
      intros x Hx. rewrite Hupper4 by lia. apply Hsame2; lia.
    + destruct (Z.eq_dec l (level + 1)) as [->|Hne1].
      * compare_cases; try lia. rewrite Z.add_0_r.
        replace (level + 1 + 1) with (level + 2) by lia. fold U M.
        replace (M + - h) with (M - h) by lia.
        apply (sorted_range_same comparator_ it2); [exact Hsorted2|].
        intros x Hx. apply Hupper4. lia.
      * destruct (Z.eq_dec l level) as [->|Hne0].
        -- compare_cases; try lia. fold B M.
           apply sorted_range_short. lia.
        -- compare_cases; try lia.
           assert (HlB : rd lv (l + 1) <= B)
             by (apply (mono_le _ _ Hmono); lia).
           assert (HZl : Z0 <= rd lv l) by (apply (mono_le _ _ Hmono); lia).
           apply (sorted_range_reindex comparator_ it0 _ (rd lv l)
                    (rd lv (l + 1)) _ _ (fun x => x - h));
             [apply Hisorted; lia|..]; try (intros; lia).
           intros x Hx. apply Hlower4. lia.
  - change (num_levels_ s') with (num_levels_ s). intros x.
    rewrite !Hrd by lia. compare_cases; try lia. fold Z0.
    rewrite Z.add_0_r. intros Hx.
    destruct (Z.lt_ge_cases x (B + h)) as [Hlow|Hhigh].
    { rewrite Hlower4 by lia. apply Hin. lia. }
    destruct (Z.le_gt_cases (M - h) x) as [Hup|Hmid].
    + rewrite Hupper4 by lia.
      destruct (Z.lt_ge_cases x U) as [HxU|HxU].
      * apply Hvalid2. lia.
      * rewrite Hsame2 by lia. apply Hin. lia.
    + assert (Hodd : b = 1) by lia. assert (Hx' : x = B + h) by lia.
      rewrite Hx', Hleft4 by exact Hodd. apply Hin. lia.
Qed.

(** Growing the sketch by a level moves every item up by the capacity of
    the new bottom level. *)
Lemma add_empty_top_level_items (k : Z) (s s1 : sketch) :
  levels_ok k s -> items_ok s -> num_levels_ s <= 59 ->
  add_empty_top_level_to_completely_full_sketch s = Some s1 ->
  items_ok s1.
Proof.
  intros Hok (Hilen & Hisorted & Hivalid) HL59 Hs1.
  pose proof Hok as (Hk & Hlc & Hflag & HL & Hlen & H0 & Hmono & Htop & Hw).
  pose proof (levels_ok_bounds k s (num_levels_ s) Hok ltac:(lia)) as Hb.
  destruct (add_empty_top_level_ok k s Hok HL59)
    as (s1' & Hs1' & Hok1 & _ & _ & _ & HL1 & Hrd & Hnew & Hitems).
  rewrite Hs1 in Hs1'. injection Hs1' as <-.
  pose proof (cap_table_range k (num_levels_ s) ltac:(lia)) as Hdelta.
  set (delta := rd (cap_table k) (num_levels_ s)) in *.
  assert (Hit : items_ s1 = replicate (Z.to_nat delta) inhabitant ++ items_ s).
  { rewrite Hitems. unfold reseat.
    destruct (Nat.leb_spec (length (items_ s))
                (Z.to_nat (rd (levels_ s) (num_levels_ s) + delta)));
      [|lia].
    f_equal. f_equal. lia. }
  assert (Hshift : forall x, delta <= x ->
            rd (items_ s1) x = rd (items_ s) (x - delta)).
  { intros x Hx. rewrite Hit, rd_app_r by (rewrite length_replicate; lia).
    rewrite length_replicate. f_equal. lia. }
  split; [|split].
  - rewrite HL1, Hnew, Hit, length_app, length_replicate. lia.
  - rewrite HL1. intros l Hl.
    destruct (Z.eq_dec l (num_levels_ s)) as [->|Hne].
    + rewrite Hnew, Hrd by lia. apply sorted_range_short. lia.
    + rewrite !Hrd by lia.
      assert (H0l : 0 <= rd (levels_ s) l).
      { pose proof (mono_le _ _ Hmono 0 l ltac:(lia) ltac:(lia)). lia. }
      apply (sorted_range_reindex comparator_ (items_ s) _
               (rd (levels_ s) l) (rd (levels_ s) (l + 1)) _ _
               (fun x => x - delta));
        [apply Hisorted; lia|..]; try (intros; lia).
      intros x Hx. apply Hshift. lia.
  - rewrite HL1, Hnew, Hrd by lia.
    apply (valid_range_reindex valid (items_ s) _ (rd (levels_ s) 0)
             (rd (levels_ s) (num_levels_ s)) _ _ (fun x => x - delta));
      [exact Hivalid|..]; try (intros; lia).
    intros x Hx. apply Hshift. lia.
Qed.

Lemma compress_while_updating_items (k : Z) (s s' : sketch) :
  strict_weak_order valid comparator_ ->
  sorts valid comparator_ std_sort ->
  levels_ok k s -> items_ok s ->
  rd (levels_ s) 0 = 0 -> n_ s < 2 ^ 62 ->
  compress_while_updating s = Some s' -> items_ok s'.
Proof.
  intros Hswo Hsorts Hok Hitems Hzero Hn Hs'.
  destruct (compress_while_updating_runs comparator_ std_sort random_bit
              k s Hok Hzero Hn)
    as (r & s1 & Hrun & Hcase & Hok1 & _ & _ & _ & Hr & Hr2 & Hpop).
  rewrite Hrun in Hs'. injection Hs' as <-.
  apply (compact_level_items k); try assumption; try lia.
  destruct Hcase as [[Htop Hadd]|[_ ->]]; [|exact Hitems].
  apply (add_empty_top_level_items k s); try assumption.
  destruct Hok1 as (_ & _ & _ & HL1 & _).
  destruct (Z.le_gt_cases (num_levels_ s) 59) as [Hle|Hgt]; [exact Hle|].
  destruct Hok as (_ & _ & _ & HL & _).
  assert (Hfull : num_levels_ s = 60) by lia.
  pose proof Hadd as Hadd'.
  unfold add_empty_top_level_to_completely_full_sketch in Hadd'.
  destruct (level_capacities s !! _); [|discriminate].
  injection Hadd' as <-. cbn [num_levels_ with_buffers] in HL1.
  rewrite Hfull in HL1. change (u8 (60 + 1)) with 61 in HL1. lia.
Qed.

Variable is_floating_point : bool.
Variable isnan : T -> bool.

Local Abbreviation update :=
  (update is_floating_point isnan comparator_ std_sort random_bit).
Local Abbreviation Insert_all :=
  (Insert_all is_floating_point isnan comparator_ std_sort random_bit).

(** [internal_update] first makes sure that level zero has a free slot. *)
Lemma free_slot (k : Z) (s : sketch) :
  strict_weak_order valid comparator_ ->
  sorts valid comparator_ std_sort ->
  levels_ok k s -> items_ok s -> n_ s < 2 ^ 62 ->
  exists s0,
    (if rd (levels_ s) 0 =? 0 then compress_while_updating s else Some s)
      = Some s0 /\
    levels_ok k s0 /\ items_ok s0 /\ 1 <= rd (levels_ s0) 0.
Proof.
  intros Hswo Hsorts Hok Hitems Hn.
  destruct (Z.eqb_spec (rd (levels_ s) 0) 0) as [Hzero|Hfree].
  - destruct (compress_while_updating_ok comparator_ std_sort random_bit
                k s Hok Hzero Hn) as (s0 & Hs0 & Hok0 & _ & _ & Hfirst).
    exists s0. split; [exact Hs0|]. split; [exact Hok0|].
    split; [|exact Hfirst].
    now apply (compress_while_updating_items k s s0).
  - exists s. split; [reflexivity|]. split; [exact Hok|].
    split; [exact Hitems|].
    destruct Hok as (_ & _ & _ & _ & _ & H0 & _). lia.
Qed.

(** An accepted item becomes the first item of level zero; the levels
    above stay as the compaction, if any, left them. *)
Lemma update_items (k : Z) (s : sketch) (x : T) :
  strict_weak_order valid comparator_ ->
  sorts valid comparator_ std_sort ->
  levels_ok k s -> items_ok s -> n_ s < 2 ^ 62 ->
  check_update_item is_floating_point isnan x = true -> valid x = true ->
  exists s', update s x = Some s' /\ items_ok s' /\
    rd (levels_ s') 0 < rd (levels_ s') 1 /\
    rd (items_ s') (rd (levels_ s') 0) = x.
Proof.
  intros Hswo Hsorts Hok Hitems Hn Hcheck Hvalid.
  destruct (free_slot k s Hswo Hsorts Hok Hitems Hn)
    as (s0 & Hs0 & Hok0 & (Hilen & Hisorted & Hivalid) & Hfirst).
  pose proof Hok0 as (Hk & Hlc & Hflag & HL & Hlen & H0 & Hmono & Htop & Hw).
  pose proof (levels_ok_bounds k s0 (num_levels_ s0) Hok0 ltac:(lia)) as Hb.
  pose proof (mono_le _ _ Hmono 0 (num_levels_ s0) ltac:(lia) ltac:(lia))
    as Hb0.
  pose proof (mono_le _ _ Hmono 1 (num_levels_ s0) ltac:(lia) ltac:(lia))
    as Hb1.
  pose proof (Hmono 0 ltac:(lia)) as Hb01.
  replace (0 + 1) with 1 in Hb01 by lia.
  unfold KLL.update. rewrite Hcheck. cbn [negb].
  unfold KLL.internal_update. rewrite Hs0.
  rewrite u32_small by lia.
  eexists. split; [reflexivity|].
  unfold KLLSpec.items_ok. cbn [levels_ items_ num_levels_ with_buffers].
  set (index := rd (levels_ s0) 0 - 1).
  assert (Hrd0 : rd (wr (levels_ s0) 0 index) 0 = index)
    by (apply rd_wr_eq; lia).
  assert (Hrd : forall l, 1 <= l ->
            rd (wr (levels_ s0) 0 index) l = rd (levels_ s0) l)
    by (intros l Hl; apply rd_wr_ne; lia).
  split; [split; [|split]|split].
  - rewrite length_wr, Hrd by lia.
    exact Hilen.
  - intros l Hl. rewrite !Hrd by lia.
    assert (H1l : rd (levels_ s0) 1 <= rd (levels_ s0) l)
      by (apply (mono_le _ _ Hmono); lia).
    apply (sorted_range_same comparator_ (items_ s0));
      [apply Hisorted; lia|].
    intros y Hy. apply rd_wr_ne; lia.
  - rewrite Hrd0, Hrd by lia.
    intros y Hy. destruct (Z.eq_dec y index) as [->|Hne].
    + rewrite rd_wr_eq by lia. exact Hvalid.
    + rewrite rd_wr_ne by lia. apply Hivalid. lia.
  - rewrite Hrd0, Hrd by lia. lia.
  - rewrite Hrd0. apply rd_wr_eq. lia.
Qed.

End Sketch.

End KLLItems.

(** ** KLL: total capacity, and the instances used to exercise the sketch *)

Module KLLInstances.
Import KLL KLLSpec KLLArrays KLLLevels KLLLoops Bits.

(** [compute_total_capacity] on a table whose entries fit [uint16_t] adds
    up the capacities of the levels. *)
Lemma compute_total_capacity_loop_spec (lc : list Z) (num : Z) (n : nat)
    (h total : Z) :
  (forall d, 0 <= d < Z.of_nat n -> 0 <= rd lc d <= 65535) ->
  num = h + Z.of_nat n -> 0 <= h -> num <= 255 ->
  0 <= total -> total + 65535 * Z.of_nat n < 2 ^ 64 ->
  compute_total_capacity_loop lc num n h total = total + total_cap lc n.
Proof.
  revert h total.
  induction n as [|n IH]; intros h total Hlc Hnum Hh Hsmall Htotal Hwrap.
  - cbn. lia.
  - cbn [compute_total_capacity_loop total_cap]. unfold level_capacity.
    replace (num - h - 1) with (Z.of_nat n) by lia.
    rewrite u8_small by lia.
    pose proof (Hlc (Z.of_nat n) ltac:(lia)) as Hentry.
    rewrite u64_small by lia.
    rewrite IH; try lia. intros d Hd. apply Hlc. lia.
Qed.

Lemma compute_total_capacity_spec (k : Z) :
  compute_total_capacity (cap_table k) kMaxNumLevels =
  total_cap (cap_table k) 60.
Proof.
  unfold compute_total_capacity. change (Z.to_nat kMaxNumLevels) with 60%nat.
  change kMaxNumLevels with 60.
  rewrite (compute_total_capacity_loop_spec (cap_table k) 60 60 0 0);
    try lia.
  intros d Hd. pose proof (cap_table_range k d ltac:(lia)). lia.
Qed.

Lemma total_cap_mono (k : Z) (n m : nat) :
  (n <= m)%nat -> (m <= 60)%nat ->
  total_cap (cap_table k) n <= total_cap (cap_table k) m.
Proof.
  intros Hnm Hm. induction m as [|m IH].
  - assert (n = 0%nat) by lia. subst n. lia.
  - destruct (Nat.eq_dec n (S m)) as [->|Hne]; [lia|].
    specialize (IH ltac:(lia) ltac:(lia)). cbn [total_cap].
    pose proof (cap_table_range k (Z.of_nat m) ltac:(lia)). lia.
Qed.

(** *** Insertion sort meets the contract of [std::sort] *)

Section Sorting.

Context {T : Type}.
Variable valid : T -> bool.
Variable lt : T -> T -> bool.

Lemma insert_sorted_perm (x : T) (l : list T) :
  insert_sorted lt x l ≡ₚ x :: l.
Proof.
  induction l as [|y l IH]; [reflexivity|].
  cbn [insert_sorted]. destruct (lt x y); [reflexivity|].
  rewrite IH. apply perm_swap.
Qed.

Lemma insertion_sort_perm (l : list T) : insertion_sort lt l ≡ₚ l.
Proof.
  induction l as [|x l IH]; [reflexivity|].
  unfold insertion_sort in *. cbn [fold_right].
  now rewrite insert_sorted_perm, IH.
Qed.

Lemma insert_sorted_sorted (x : T) (l : list T) :
  strict_weak_order valid lt ->
  valid x = true -> Forall (fun y => valid y = true) l ->
  ForallOrdPairs (fun a b => lt b a = false) l ->
  ForallOrdPairs (fun a b => lt b a = false) (insert_sorted lt x l).
Proof.
  intros [Hasym Htrans] Hx Hl Hsorted.
  induction Hsorted as [|y l Hy Hsorted IH]; cbn [insert_sorted].
  - repeat constructor.
  - apply Forall_cons in Hl as [Hvy Hl].
    destruct (lt x y) eqn:Hxy.
    + assert (Hyx : lt y x = false) by now apply Hasym.
      constructor; [|now constructor].
      constructor; [exact Hyx|].
      rewrite Forall_forall in Hy, Hl. apply Forall_forall.
      intros z Hz. apply (Htrans x y z); auto.
    + constructor; [|now apply IH].
      rewrite insert_sorted_perm. constructor; assumption.
Qed.

Lemma insertion_sort_sorted (l : list T) :
  strict_weak_order valid lt ->
  Forall (fun y => valid y = true) l ->
  ForallOrdPairs (fun a b => lt b a = false) (insertion_sort lt l).
Proof.
  intros Hswo Hl. induction l as [|x l IH].
  - constructor.
  - apply Forall_cons in Hl as [Hx Hl].
    unfold insertion_sort in *. cbn [fold_right].
    apply insert_sorted_sorted; try assumption; [|now apply IH].
    fold (insertion_sort lt l). now rewrite insertion_sort_perm.
Qed.

Lemma ordered_pairs_sorted_list (l : list T) :
  ForallOrdPairs (fun a b => lt b a = false) l -> sorted_list lt l.
Proof.
  intros Hsorted. induction Hsorted as [|x l Hx Hsorted IH].
  - intros i j a b Hij Ha. discriminate.
  - intros i j a b Hij Ha Hb. destruct j as [|j]; [lia|].
    cbn in Hb. destruct i as [|i].
    + cbn in Ha. injection Ha as <-.
      rewrite Forall_forall in Hx. apply Hx.
      now apply list_elem_of_lookup_2 in Hb.
    + cbn in Ha. apply (IH i j); [lia|assumption..].
Qed.

Lemma insertion_sort_sorts :
  strict_weak_order valid lt -> sorts valid lt (insertion_sort lt).
Proof.
  intros Hswo l Hl. split; [apply insertion_sort_perm|].
  now apply ordered_pairs_sorted_list, insertion_sort_sorted.
Qed.

End Sorting.

(** *** [std::less<float>] on the floats that are not NaN *)

Lemma F32_strict_weak_order :
  strict_weak_order (check_update_item true F32.isnan) F32.lt.
Proof.
  unfold check_update_item, F32.lt. split.
  - intros a b Ha Hb Hab. rewrite Ha, Hb in *. cbn [andb] in *.
    apply Z.ltb_lt in Hab. apply Z.ltb_ge. lia.
  - intros a b c Ha Hb Hc Hba Hcb. rewrite Ha, Hb, Hc in *.
    cbn [andb] in *. apply Z.ltb_ge in Hba, Hcb. apply Z.ltb_ge. lia.
Qed.

End KLLInstances.

(** ** KLL: the sketch from its construction on *)

Module KLLClaims.
Import KLL KLLSpec KLLArrays KLLLevels KLLLoops KLLItems KLLInstances Bits.

Section Sketch.

Context {T : Type} `{Inhabited T}.
Variable is_floating_point : bool.
Variable isnan : T -> bool.
Variable comparator_ : T -> T -> bool.
Variable std_sort : list T -> list T.
Variable random_bit : nat -> bool.

Local Abbreviation sketch := (@sketch T).
Local Abbreviation valid := (check_update_item is_floating_point isnan).
Local Abbreviation update :=
  (update is_floating_point isnan comparator_ std_sort random_bit).
Local Abbreviation Insert :=
  (Insert is_floating_point isnan comparator_ std_sort random_bit).
Local Abbreviation Insert_all :=
  (Insert_all is_floating_point isnan comparator_ std_sort random_bit).
Local Abbreviation items_ok := (items_ok valid comparator_).

(** The sketch the constructor yields has no item. *)
Lemma KarninLangLiberty_items_ok (stale : list Z) (k : Z) (s : sketch) :
  8 <= k <= 65535 -> KarninLangLiberty stale k = Some s -> items_ok s.
Proof.
  intros Hk Hs.
  destruct (KarninLangLiberty_ok (T := T) stale k Hk)
    as (s0 & Hs0 & _ & _ & _ & HL & Hl0 & Hl1 & Hitems).
  rewrite Hs in Hs0. injection Hs0 as <-.
  split; [|split].
  - rewrite HL, Hl1, Hitems, length_replicate. lia.
  - rewrite HL. intros l Hl. lia.
  - rewrite HL, Hl0, Hl1. intros i Hi. lia.
Qed.

(** One accepted insert keeps both the table and the items in shape. *)
Lemma update_invariants (k : Z) (s : sketch) (x : T) :
  strict_weak_order valid comparator_ ->
  sorts valid comparator_ std_sort ->
  levels_ok k s -> items_ok s -> n_ s < 2 ^ 62 -> valid x = true ->
  exists s', update s x = Some s' /\ levels_ok k s' /\ items_ok s' /\
    n_ s' = n_ s + 1 /\ max_capacity_ s' = max_capacity_ s /\
    rd (levels_ s') 0 < rd (levels_ s') 1 /\
    rd (items_ s') (rd (levels_ s') 0) = x.
Proof.
  intros Hswo Hsorts Hok Hitems Hn Hx.
  destruct (update_ok comparator_ std_sort random_bit is_floating_point
              isnan k s x Hok Hn Hx) as (s1 & Hs1 & Hok1 & Hn1 & Hmax1).
  destruct (update_items valid comparator_ std_sort random_bit
              is_floating_point isnan k s x Hswo Hsorts Hok Hitems Hn Hx Hx)
    as (s2 & Hs2 & Hitems2 & Hfree & Hstored).
  rewrite Hs1 in Hs2. injection Hs2 as <-.
  exists s1. repeat (split; [assumption|]). assumption.
Qed.

Lemma Insert_all_invariants (k : Z) (xs : list T) (s : sketch) :
  strict_weak_order valid comparator_ ->
  sorts valid comparator_ std_sort ->
  levels_ok k s -> items_ok s -> n_ s + Z.of_nat (length xs) <= 2 ^ 62 ->
  exists s', Insert_all s xs = Some s' /\ levels_ok k s' /\ items_ok s' /\
    max_capacity_ s' = max_capacity_ s.
Proof.
  intros Hswo Hsorts. revert s.
  induction xs as [|x xs IH]; intros s Hok Hitems Hn.
  - exists s. repeat (split; [first [reflexivity|assumption]|]). reflexivity.
  - cbn [KLL.Insert_all length] in *. unfold KLL.Insert.
    destruct (KLL.check_update_item is_floating_point isnan x) eqn:Hx.
    + destruct (update_invariants k s x Hswo Hsorts Hok Hitems ltac:(lia) Hx)
        as (s1 & -> & Hok1 & Hitems1 & Hn1 & Hmax1 & _).
      destruct (IH s1 Hok1 Hitems1 ltac:(lia))
        as (s' & Hs' & Hok' & Hitems' & Hmax').
      exists s'. repeat (split; [assumption|]). congruence.
    + rewrite (update_rejected comparator_ std_sort random_bit
                 is_floating_point isnan s x Hx).
      apply IH; [assumption..|lia].
Qed.


(** C4.  After every stream of at most [2^62] inserts, the comparator being
    a strict weak order on the accepted items and [std::sort] sorting:
    [levels_] is non-decreasing up to [num_levels_]; every level above
    level zero is ascending; the span [items_] ends where the top level
    ends; and [levels_[num_levels_]] is at most the total capacity of
    [kMaxNumLevels] levels.  But [max_capacity_] is not
    that total: it is the sum [compute_total_capacity] made of what the
    storage of [level_capacities] held before the table was built, [stale];
    where that storage was zero-filled, [max_capacity_] is [0], below
    [levels_[num_levels_]]. *)
Theorem levels_sorted_max_capacity_stale (stale : list Z) (k : Z)
    (xs : list T) :
  strict_weak_order valid comparator_ ->
  sorts valid comparator_ std_sort ->
  8 <= k <= 65535 -> Z.of_nat (length xs) <= 2 ^ 62 ->
  exists s0 s, KarninLangLiberty stale k = Some s0 /\
    Insert_all s0 xs = Some s /\
    (forall l, 0 <= l < num_levels_ s ->
       rd (levels_ s) l <= rd (levels_ s) (l + 1)) /\
    (forall l, 1 <= l < num_levels_ s ->
       sorted_range comparator_ (items_ s)
         (rd (levels_ s) l) (rd (levels_ s) (l + 1))) /\
    Z.of_nat (length (items_ s)) = rd (levels_ s) (num_levels_ s) /\
    rd (levels_ s) (num_levels_ s) <=
      compute_total_capacity (cap_table k) kMaxNumLevels /\
    max_capacity_ s = compute_total_capacity stale kMaxNumLevels /\
    (stale = replicate 60 0 ->
     max_capacity_ s = 0 /\ max_capacity_ s < rd (levels_ s) (num_levels_ s)).
Proof.
  intros Hswo Hsorts Hk Hlen.
  destruct (KarninLangLiberty_ok (T := T) stale k Hk)
    as (s0 & Hs0 & Hok0 & Hn0 & Hmax0 & _).
  destruct (Insert_all_invariants k xs s0 Hswo Hsorts Hok0
              (KarninLangLiberty_items_ok stale k s0 Hk Hs0) ltac:(lia))
    as (s & Hs & Hok & (Hspan & Hsorted & _) & Hmax).
  pose proof Hok as (_ & _ & _ & HL & _ & _ & Hmono & Htop & _).
  pose proof (total_cap_bounds k (Z.to_nat (num_levels_ s)) ltac:(lia))
    as Hbounds.
  exists s0, s. split; [exact Hs0|]. split; [exact Hs|].
  split; [exact Hmono|]. split; [exact Hsorted|]. split; [exact Hspan|].
  split; [|split].
  - rewrite compute_total_capacity_spec, Htop. apply total_cap_mono; lia.
  - congruence.
  - intros ->. rewrite Hmax, Hmax0.
    change (compute_total_capacity (replicate 60 0) kMaxNumLevels) with 0.
    split; [reflexivity|lia].
Qed.

End Sketch.

(** The theorems on a sketch of [float] items with [k = 8] whose storage
    was zero-filled, with insertion sort standing for [std::sort], and on a
    stream long enough to compact level zero. *)


Lemma levels_sorted_witness :
  let xs := [F32.three; F32.one; F32.quiet_nan; F32.two; F32.one; F32.two;
             F32.three; F32.two; F32.one; F32.three] in
  exists s0 s, KarninLangLiberty (T := Z) (replicate 60 0) 8 = Some s0 /\
    Insert_all true F32.isnan F32.lt (insertion_sort F32.lt) Nat.odd s0 xs
      = Some s /\
    (forall l, 0 <= l < num_levels_ s ->
       rd (levels_ s) l <= rd (levels_ s) (l + 1)) /\
    (forall l, 1 <= l < num_levels_ s ->
       sorted_range F32.lt (items_ s)
         (rd (levels_ s) l) (rd (levels_ s) (l + 1))) /\
    Z.of_nat (length (items_ s)) = rd (levels_ s) (num_levels_ s) /\
    rd (levels_ s) (num_levels_ s) <=
      compute_total_capacity (cap_table 8) kMaxNumLevels /\
    max_capacity_ s = compute_total_capacity (replicate 60 0) kMaxNumLevels /\
    (replicate 60 0 = replicate 60 0 ->
     max_capacity_ s = 0 /\ max_capacity_ s < rd (levels_ s) (num_levels_ s)).
Proof.
  intros xs.
  apply (levels_sorted_max_capacity_stale true F32.isnan F32.lt
           (insertion_sort F32.lt) Nat.odd (replicate 60 0) 8 xs).
  - exact F32_strict_weak_order.
  - exact (insertion_sort_sorts _ _ F32_strict_weak_order).
  - lia.
  - cbn [length xs]. lia.
Defined.

End KLLClaims.

(** ** The AVX2 scans, bit by bit *)

Module ScanProofs.
Import Simd SSSpec ScanSpec SimdProofs Bits.

Lemma match_mask_testbit (v : Z) (keys : list Z) (i : nat) :
  Z.testbit (match_mask v keys) (Z.of_nat i) = key_matches v keys i.
Proof.
  revert i. induction keys as [|a keys IH]; intros i.
  - cbn [match_mask]. unfold key_matches. rewrite Z.testbit_0_l.
    now rewrite lookup_nil.
  - cbn [match_mask]. rewrite Z.add_comm. destruct i as [|i].
    + change (Z.of_nat 0) with 0. rewrite Z.testbit_0_r. reflexivity.
    + rewrite Nat2Z.inj_succ, Z.testbit_succ_r by lia.
      rewrite IH. reflexivity.
Qed.

(** The conversion of the [int] a movemask returns to [uint64_t] copies
    bit 31 into bits 32 to 63. *)
Lemma int_to_u64_testbit (m i : Z) :
  0 <= m < 2 ^ 32 -> 0 <= i < 64 ->
  Z.testbit (int_to_u64 m) i =
  if i <? 32 then Z.testbit m i else Z.testbit m 31.
Proof.
  intros Hm Hi. unfold int_to_u64.
  destruct (Z.ltb_spec m (2 ^ 31)) as [Hlow|Hhigh].
  - rewrite u64_small by lia.
    destruct (Z.ltb_spec i 32); [reflexivity|].
    rewrite (testbit_above m 31 i), (testbit_above m 31 31) by lia.
    reflexivity.
  - assert (H31 : Z.testbit m 31 = true).
    { apply Z.testbit_true; [lia|].
      assert (m / 2 ^ 31 = 1)
        by (symmetry; apply Z.div_unique with (m - 2 ^ 31); lia).
      now replace (m / 2 ^ 31) with 1. }
    assert (Heq : u64 (m - 2 ^ 32) = Z.lor m (Z.shiftl (Z.ones 32) 32)).
    { unfold u64.
      replace (m - 2 ^ 32) with (m + (2 ^ 32 - 1) * 2 ^ 32 + (-1) * 2 ^ 64)
        by lia.
      rewrite Z.mod_add, Z.mod_small by lia.
      pose proof (or_shl_add m (2 ^ 32 - 1) 32 ltac:(lia) ltac:(lia)
                    ltac:(lia) ltac:(lia)) as Hor.
      unfold or_shl in Hor. rewrite u64_small in Hor.
      - change (Z.ones 32) with (2 ^ 32 - 1). lia.
      - rewrite Z.shiftl_mul_pow2 by lia. lia. }
    rewrite Heq, H31. bits.
    destruct (Z.ltb_spec i 32).
    + destruct (Z.leb_spec 0 i); [|lia].
      destruct (Z.leb_spec 0 (i - 32)); [lia|].
      cbn [andb]. now rewrite orb_false_r.
    + rewrite (testbit_above m 32 i) by lia.
      destruct (Z.leb_spec 0 i); [|lia].
      destruct (Z.leb_spec 0 (i - 32)); [|lia].
      destruct (Z.ltb_spec (i - 32) 32); [|lia]. reflexivity.
Qed.

Lemma key_matches_take (v : Z) (keys : list Z) (n i : nat) :
  key_matches v (take n keys) i = (i <? n)%nat && key_matches v keys i.
Proof.
  unfold key_matches. destruct (Nat.ltb_spec i n) as [Hlt|Hge].
  - now rewrite lookup_take_lt.
  - now rewrite lookup_take_ge.
Qed.

Lemma key_matches_drop (v : Z) (keys : list Z) (n i : nat) :
  key_matches v (drop n keys) i = key_matches v keys (n + i).
Proof. unfold key_matches. now rewrite lookup_drop. Qed.

(** X1.  On 32-bit and on 64-bit keys the block comparisons return exactly
    the match mask: bit [i] of the result is set if and only if [i] is below
    the size of the block and [keys[i]] equals the value searched; no other
    bit is ever set. *)
Theorem wide_key_masks_exact (v : Z) (keys : list Z) (i : nat) :
  ((32 <= length keys)%nat ->
   Z.testbit (Compare32Keys64Bit (broadcast_epi64 v) keys) (Z.of_nat i) =
   (i <? 32)%nat && key_matches v keys i) /\
  ((32 <= length keys)%nat ->
   Z.testbit (Compare32Keys32Bit (broadcast_epi32 v) keys) (Z.of_nat i) =
   (i <? 32)%nat && key_matches v keys i) /\
  ((64 <= length keys)%nat ->
   Z.testbit (Compare64Keys32Bit (broadcast_epi32 v) keys) (Z.of_nat i) =
   (i <? 64)%nat && key_matches v keys i).
Proof.
  split; [|split]; intros Hlen.
  - rewrite Compare32Keys64Bit_mask by exact Hlen.
    now rewrite match_mask_testbit, key_matches_take.
  - rewrite Compare32Keys32Bit_mask by exact Hlen.
    now rewrite match_mask_testbit, key_matches_take.
  - rewrite Compare64Keys32Bit_mask by exact Hlen.
    now rewrite match_mask_testbit, key_matches_take.
Qed.

Lemma wide_key_masks_witness :
  let keys := map Z.of_nat (seq 0 64) in
  Z.testbit (Compare32Keys64Bit (broadcast_epi64 7) keys) (Z.of_nat 7) =
    (7 <? 32)%nat && key_matches 7 keys 7 /\
  Z.testbit (Compare32Keys32Bit (broadcast_epi32 7) keys) (Z.of_nat 7) =
    (7 <? 32)%nat && key_matches 7 keys 7 /\
  Z.testbit (Compare64Keys32Bit (broadcast_epi32 7) keys) (Z.of_nat 7) =
    (7 <? 64)%nat && key_matches 7 keys 7.
Proof.
  intros keys.
  pose proof (wide_key_masks_exact 7 keys 7) as (H64 & H32 & H6432).
  assert (Hlen : length keys = 64%nat) by reflexivity.
  split; [apply H64; rewrite Hlen; lia|].
  split; [apply H32; rewrite Hlen; lia|apply H6432; rewrite Hlen; lia].
Defined.

(** The sign-extended mask of one block of 32 sixteen-bit keys. *)
Lemma sign_extended_testbit (v : Z) (keys : list Z) (i : nat) :
  (i < 64)%nat ->
  Z.testbit (int_to_u64 (match_mask v (take 32 keys))) (Z.of_nat i) =
  if (i <? 32)%nat then key_matches v keys i else key_matches v keys 31.
Proof.
  intros Hi.
  rewrite int_to_u64_testbit by (pose proof (match_mask_take_range v 32 keys); lia).
  destruct (Z.ltb_spec (Z.of_nat i) 32); destruct (Nat.ltb_spec i 32);
    try lia.
  - rewrite match_mask_testbit, key_matches_take.
    destruct (Nat.ltb_spec i 32); [reflexivity|lia].
  - change 31 with (Z.of_nat 31).
    rewrite match_mask_testbit, key_matches_take. reflexivity.
Qed.

(** X2.  On 16-bit keys the mask goes through [_mm256_movemask_epi8], whose
    [int] result is sign-extended to [uint64_t].  [Compare32Keys16Bit]:
    bits 0 to 31 are the matches, and bits 32 to 63 all copy the match of key
    31.  [Compare64Keys16Bit]: bits 0 to 31 are the matches of keys 0 to 31,
    and bit [i] from 32 to 63 is set when key [i] matches or key 31 does:
    a match of key 31 reports every key above it as a match. *)
Theorem narrow_key_masks_sign_extended (v : Z) (keys : list Z) (i : nat) :
  (i < 64)%nat ->
  ((32 <= length keys)%nat ->
   Z.testbit (Compare32Keys16Bit (broadcast_epi16 v) keys) (Z.of_nat i) =
   if (i <? 32)%nat then key_matches v keys i else key_matches v keys 31) /\
  ((64 <= length keys)%nat ->
   Z.testbit (Compare64Keys16Bit (broadcast_epi16 v) keys) (Z.of_nat i) =
   if (i <? 32)%nat then key_matches v keys i
   else key_matches v keys i || key_matches v keys 31).
Proof.
  intros Hi. split; intros Hlen.
  - unfold Compare32Keys16Bit. rewrite movemask16_chunk by lia.
    now apply sign_extended_testbit.
  - unfold Compare64Keys16Bit.
    replace (drop 48 keys) with (drop 16 (drop 32 keys))
      by (now rewrite drop_drop).
    rewrite movemask16_chunk by lia.
    rewrite movemask16_chunk by (rewrite length_drop; lia).
    unfold or_shl. rewrite Z.lor_spec.
    rewrite sign_extended_testbit by exact Hi.
    unfold u64. rewrite testbit_mod2p by lia. rewrite testbit_shl.
    destruct (Nat.ltb_spec i 32) as [Hlow|Hhigh].
    + destruct (Z.ltb_spec (Z.of_nat i) 64); [|lia].
      destruct (Z.leb_spec 0 (Z.of_nat i)); [|lia]. cbn [andb].
      rewrite Z.testbit_neg_r by lia. now rewrite orb_false_r.
    + destruct (Z.ltb_spec (Z.of_nat i) 64); [|lia].
      destruct (Z.leb_spec 0 (Z.of_nat i)); [|lia]. cbn [andb].
      replace (Z.of_nat i - 32) with (Z.of_nat (i - 32)) by lia.
      rewrite sign_extended_testbit by lia.
      destruct (Nat.ltb_spec (i - 32) 32); [|lia].
      rewrite key_matches_drop.
      replace (32 + (i - 32))%nat with i by lia. apply orb_comm.
Qed.

Lemma narrow_key_masks_witness :
  let keys := replicate 31 0 ++ [7] ++ replicate 32 0 in
  Z.testbit (Compare32Keys16Bit (broadcast_epi16 7) keys) (Z.of_nat 40) =
    (if (40 <? 32)%nat then key_matches 7 keys 40
     else key_matches 7 keys 31) /\
  Z.testbit (Compare64Keys16Bit (broadcast_epi16 7) keys) (Z.of_nat 40) =
    (if (40 <? 32)%nat then key_matches 7 keys 40
     else key_matches 7 keys 40 || key_matches 7 keys 31).
Proof.
  intros keys.
  pose proof (narrow_key_masks_sign_extended 7 keys 40 ltac:(lia))
    as (H32 & H64).
  assert (Hlen : length keys = 64%nat) by reflexivity.
  split; [apply H32; rewrite Hlen; lia|apply H64; rewrite Hlen; lia].
Defined.

End ScanProofs.

(** ** KLL: the helpers on their own *)

Module KLLHelpers.
Import KLL KLLSpec RangeSpec KLLArrays KLLLevels KLLLoops Bits.

(** *** Slices *)

Lemma slice_empty {A : Type} (buf : list A) (lo hi : Z) :
  hi <= lo -> slice buf lo hi = [].
Proof.
  intros Hle. unfold slice. now replace (Z.to_nat (hi - lo)) with 0%nat by lia.
Qed.

Lemma slice_cons {A : Type} `{Inhabited A} (buf : list A) (lo hi : Z) :
  0 <= lo < hi -> lo < Z.of_nat (length buf) ->
  slice buf lo hi = rd buf lo :: slice buf (lo + 1) hi.
Proof.
  intros Hlo Hlen. unfold slice, rd.
  replace (Z.to_nat (hi - lo)) with (S (Z.to_nat (hi - (lo + 1)))) by lia.
  replace (Z.to_nat (lo + 1)) with (S (Z.to_nat lo)) by lia.
  rewrite (drop_S buf (buf !!! Z.to_nat lo) (Z.to_nat lo)).
  - reflexivity.
  - apply list_lookup_lookup_total_lt. lia.
Qed.

Lemma slice_same {A : Type} `{Inhabited A} (buf buf' : list A) (lo hi : Z) :
  0 <= lo -> hi <= Z.of_nat (length buf) -> length buf' = length buf ->
  (forall x, lo <= x < hi -> rd buf' x = rd buf x) ->
  slice buf' lo hi = slice buf lo hi.
Proof.
  intros Hlo Hhi Hlen Hrd.
  destruct (Z.le_gt_cases hi lo) as [Hempty|Hlt].
  { now rewrite !slice_empty by lia. }
  remember (Z.to_nat (hi - lo)) as n eqn:Hn.
  revert lo Hlo Hrd Hlt Hn. induction n as [|n IH]; intros lo Hlo Hrd Hlt Hn;
    [lia|].
  rewrite (slice_cons buf), (slice_cons buf') by lia.
  rewrite Hrd by lia. f_equal.
  destruct (Z.eq_dec (lo + 1) hi) as [Hlast|Hmore].
  - now rewrite !slice_empty by lia.
  - apply IH; try lia. intros x Hx. apply Hrd. lia.
Qed.

Section Merge.

Context {T : Type} `{Inhabited T}.
Variable lt : T -> T -> bool.

(** The merge loop writes nowhere but from [c] up to [lim_c]. *)
Lemma merge_loop_outside (fuel : nat) (lim_a lim_b lim_c : Z) :
  forall (buf : list T) (a b c x : Z),
  0 <= c -> x < c \/ lim_c <= x -> 0 <= x ->
  length (merge_loop lt fuel lim_a lim_b lim_c buf a b c) = length buf /\
  rd (merge_loop lt fuel lim_a lim_b lim_c buf a b c) x = rd buf x.
Proof.
  induction fuel as [|fuel IH]; intros buf a b c x Hc Hout Hx;
    [now split|].
  cbn [merge_loop]. destruct (Z.ltb_spec c lim_c) as [Hlt|Hge]; [|now split].
  assert (Hstep : forall e a' b',
            length (merge_loop lt fuel lim_a lim_b lim_c (wr buf c e) a' b'
                      (c + 1)) = length buf /\
            rd (merge_loop lt fuel lim_a lim_b lim_c (wr buf c e) a' b'
                  (c + 1)) x = rd buf x).
  { intros e a' b'.
    destruct (IH (wr buf c e) a' b' (c + 1) x) as [Hl Hr]; try lia.
    rewrite Hl, Hr, length_wr. split; [reflexivity|].
    apply rd_wr_ne; lia. }
  destruct (a =? lim_a); [apply Hstep|].
  destruct (b =? lim_b); [apply Hstep|].
  destruct (lt (rd buf a) (rd buf b)); apply Hstep.
Qed.

Lemma length_merge_loop (fuel : nat) (lim_a lim_b lim_c : Z) :
  forall (buf : list T) (a b c : Z),
  length (merge_loop lt fuel lim_a lim_b lim_c buf a b c) = length buf.
Proof.
  induction fuel as [|fuel IH]; intros buf a b c; [reflexivity|].
  cbn [merge_loop]. destruct (c <? lim_c); [|reflexivity].
  destruct (a =? lim_a); [now rewrite IH, length_wr|].
  destruct (b =? lim_b); [now rewrite IH, length_wr|].
  destruct (lt (rd buf a) (rd buf b)); now rewrite IH, length_wr.
Qed.

(** What the merge loop still has to write is a rearrangement of what it
    still has to read. *)
Lemma merge_loop_perm (la lb : Z) (fuel : nat) :
  forall (buf : list T) (a b c : Z),
  0 <= a <= la -> la <= c -> b <= lb -> c = b - (la - a) ->
  lb <= Z.of_nat (length buf) -> lb < 2 ^ 32 -> lb - c <= Z.of_nat fuel ->
  slice (merge_loop lt fuel la lb lb buf a b c) c lb ≡ₚ
    slice buf a la ++ slice buf b lb.
Proof.
  induction fuel as [|fuel IH]; intros buf a b c Ha Hc Hb Hcb Hlen Hsize Hfuel.
  - cbn [merge_loop]. now rewrite !slice_empty by lia.
  - cbn [merge_loop]. destruct (Z.ltb_spec c lb) as [Hlt|Hge];
      [|now rewrite !slice_empty by lia].
    assert (HtakeA : a < la ->
              slice (merge_loop lt fuel la lb lb (wr buf c (rd buf a))
                       (a + 1) b (c + 1)) c lb ≡ₚ
                slice buf a la ++ slice buf b lb).
    { intros Hala.
      destruct (merge_loop_outside fuel la lb lb (wr buf c (rd buf a))
                  (a + 1) b (c + 1) c) as [Hl Hr]; try lia.
      rewrite slice_cons by (rewrite ?Hl, ?length_wr; lia).
      rewrite Hr, rd_wr_eq by lia.
      rewrite IH by (rewrite ?length_wr; lia).
      rewrite (slice_same buf (wr buf c (rd buf a)) (a + 1) la),
        (slice_same buf (wr buf c (rd buf a)) b lb);
        try (rewrite ?length_wr; lia);
        try (intros x Hx; apply rd_wr_ne; lia).
      now rewrite (slice_cons buf a la) by lia. }
    assert (HtakeB : b < lb ->
              slice (merge_loop lt fuel la lb lb (wr buf c (rd buf b))
                       a (b + 1) (c + 1)) c lb ≡ₚ
                slice buf a la ++ slice buf b lb).
    { intros Hblb.
      destruct (merge_loop_outside fuel la lb lb (wr buf c (rd buf b))
                  a (b + 1) (c + 1) c) as [Hl Hr]; try lia.
      rewrite slice_cons by (rewrite ?Hl, ?length_wr; lia).
      rewrite Hr, rd_wr_eq by lia.
      rewrite IH by (rewrite ?length_wr; lia).
      rewrite (slice_same buf (wr buf c (rd buf b)) a la),
        (slice_same buf (wr buf c (rd buf b)) (b + 1) lb);
        try (rewrite ?length_wr; lia);
        try (intros x Hx; apply rd_wr_ne; lia).
      rewrite (slice_cons buf b lb) by lia.
      apply Permutation_middle. }
    destruct (Z.eqb_spec a la) as [Hala|Hala].
    + rewrite u32_small by lia. apply HtakeB. lia.
    + destruct (Z.eqb_spec b lb) as [Hblb|Hblb].
      * rewrite u32_small by lia. apply HtakeA. lia.
      * destruct (lt (rd buf a) (rd buf b)); rewrite u32_small by lia.
        -- apply HtakeA. lia.
        -- apply HtakeB. lia.
Qed.

(** X3.  [merge_sorted_arrays] called as the compaction calls it, on a run
    A of [half] items at [start], a gap of [half] slots and a run B of
    [pop_above] items behind it: the output, which fills the gap and the
    place of B, is a rearrangement of the items of A and B, whatever their
    order; nothing outside the output is written; and when A and B are
    ascending runs of items on which the comparator is a strict weak order,
    the output is ascending. *)
Theorem merge_sorted_arrays_merges (valid : T -> bool) (buf : list T)
    (start half pop_above : Z) :
  0 <= start -> 0 <= half -> 0 <= pop_above ->
  start + 2 * half + pop_above <= Z.of_nat (length buf) ->
  Z.of_nat (length buf) < 2 ^ 31 ->
  let lim := start + 2 * half + pop_above in
  let buf' := merge_sorted_arrays lt buf start half (start + 2 * half)
                pop_above (start + half) in
  length buf' = length buf /\
  (forall x, 0 <= x -> x < start + half \/ lim <= x -> rd buf' x = rd buf x) /\
  slice buf' (start + half) lim ≡ₚ
    slice buf start (start + half) ++ slice buf (start + 2 * half) lim /\
  (strict_weak_order valid lt ->
   valid_range valid buf start (start + half) ->
   valid_range valid buf (start + 2 * half) lim ->
   sorted_range lt buf start (start + half) ->
   sorted_range lt buf (start + 2 * half) lim ->
   sorted_range lt buf' (start + half) lim).
Proof.
  intros Hstart Hhalf Hpop Hlen Hsize lim buf'.
  assert (Hbuf' : buf' = merge_loop lt (Z.to_nat (half + pop_above))
            (start + half) lim lim buf start (start + 2 * half)
            (start + half)).
  { unfold buf', merge_sorted_arrays, lim. rewrite !u32_small by lia.
    f_equal; lia. }
  split; [|split; [|split]].
  - rewrite Hbuf'. apply length_merge_loop.
  - intros x Hx Hout. rewrite Hbuf'.
    apply (merge_loop_outside _ _ _ _ buf start (start + 2 * half)
             (start + half) x); lia.
  - rewrite Hbuf'. apply merge_loop_perm; unfold lim; lia.
  - intros Hswo HvA HvB HsA HsB.
    destruct (merge_sorted_arrays_spec valid lt buf start half pop_above
                Hswo) as (_ & _ & Hsorted & _); try assumption; try lia.
Qed.

End Merge.

Lemma merge_sorted_arrays_witness :
  let buf := [1; 4; 9; 0; 0; 0; 2; 3; 10] in
  let buf' := merge_sorted_arrays Z.ltb buf 0 3 6 3 3 in
  length buf' = length buf /\
  (forall x, 0 <= x -> x < 0 + 3 \/ 0 + 2 * 3 + 3 <= x ->
     rd buf' x = rd buf x) /\
  slice buf' (0 + 3) (0 + 2 * 3 + 3) ≡ₚ
    slice buf 0 (0 + 3) ++ slice buf (0 + 2 * 3) (0 + 2 * 3 + 3) /\
  (strict_weak_order (fun _ => true) Z.ltb ->
   valid_range (fun _ => true) buf 0 (0 + 3) ->
   valid_range (fun _ => true) buf (0 + 2 * 3) (0 + 2 * 3 + 3) ->
   sorted_range Z.ltb buf 0 (0 + 3) ->
   sorted_range Z.ltb buf (0 + 2 * 3) (0 + 2 * 3 + 3) ->
   sorted_range Z.ltb buf' (0 + 3) (0 + 2 * 3 + 3)).
Proof.
  intros buf buf'.
  apply (merge_sorted_arrays_merges Z.ltb (fun _ => true) buf 0 3 3);
    cbn [length buf]; lia.
Defined.

Section Halve.

Context {T : Type} `{Inhabited T}.

(** X4.  The two halving loops on a range of [2 * half] items, [offset]
    being the bit drawn.  [randomly_halve_down] leaves in the lower half of
    the range the items that stood at [start + offset], [start + offset + 2],
    ..., in their order; [randomly_halve_up] leaves in the upper half the
    items that stood at [start + 1 - offset], [start + 3 - offset], ..., in
    their order.  Neither writes outside the half it fills. *)
Theorem halving_keeps_every_other_item (offset : Z) (buf : list T)
    (start half : Z) :
  0 <= offset <= 1 -> 0 <= start -> 1 <= half ->
  start + 2 * half <= Z.of_nat (length buf) ->
  Z.of_nat (length buf) < 2 ^ 31 ->
  let down := randomly_halve_down offset buf start (2 * half) in
  let up := randomly_halve_up offset buf start (2 * half) in
  (length down = length buf /\
   (forall t, 0 <= t < half ->
      rd down (start + t) = rd buf (start + offset + 2 * t)) /\
   (forall x, 0 <= x -> x < start \/ start + half <= x ->
      rd down x = rd buf x)) /\
  (length up = length buf /\
   (forall t, 0 <= t < half ->
      rd up (start + half + t) = rd buf (start + (1 - offset) + 2 * t)) /\
   (forall x, 0 <= x -> x < start + half \/ start + 2 * half <= x ->
      rd up x = rd buf x)).
Proof.
  intros Hoff Hstart Hhalf Hlen Hsize down up.
  destruct (randomly_halve_down_spec offset buf start half)
    as [Hld Hrd]; try lia.
  destruct (randomly_halve_up_spec offset buf start half)
    as [Hlu Hru]; try lia.
  fold down in Hld, Hrd. fold up in Hlu, Hru.
  split; (split; [assumption|split]).
  - intros t Ht. rewrite Hrd by lia. compare_cases; try lia. f_equal. lia.
  - intros x Hx Hout. rewrite Hrd by lia. compare_cases; try lia; reflexivity.
  - intros t Ht. rewrite Hru by lia. compare_cases; try lia. f_equal. lia.
  - intros x Hx Hout. rewrite Hru by lia. compare_cases; try lia; reflexivity.
Qed.

End Halve.

Lemma halving_witness :
  let buf := [10; 11; 12; 13; 14; 15; 16; 17] in
  let down := randomly_halve_down 1 buf 2 (2 * 3) in
  let up := randomly_halve_up 1 buf 2 (2 * 3) in
  (length down = length buf /\
   (forall t, 0 <= t < 3 -> rd down (2 + t) = rd buf (2 + 1 + 2 * t)) /\
   (forall x, 0 <= x -> x < 2 \/ 2 + 3 <= x -> rd down x = rd buf x)) /\
  (length up = length buf /\
   (forall t, 0 <= t < 3 ->
      rd up (2 + 3 + t) = rd buf (2 + (1 - 1) + 2 * t)) /\
   (forall x, 0 <= x -> x < 2 + 3 \/ 2 + 2 * 3 <= x -> rd up x = rd buf x)).
Proof.
  intros buf down up.
  apply (halving_keeps_every_other_item 1 buf 2 3); cbn [length buf]; lia.
Defined.

(** *** The capacity table *)

Lemma cap_loop_shape (k : Z) (n : nat) :
  forall (depth : Z) (lc : list Z),
  0 <= depth -> depth + Z.of_nat n = 60 -> length lc = 60%nat ->
  (forall d, 0 <= d < depth -> 8 < rd lc d <= 65535) ->
  (forall d, depth <= d < 60 -> rd lc d = 8) ->
  exists D, depth <= D <= 60 /\
    (forall d, 0 <= d < D ->
       8 < rd (compute_level_capacities_loop k 8 n depth lc) d <= 65535) /\
    (forall d, D <= d < 60 ->
       rd (compute_level_capacities_loop k 8 n depth lc) d = 8).
Proof.
  induction n as [|n IH]; intros depth lc Hd Hn Hlen Hbig Hflat.
  - exists depth. cbn [compute_level_capacities_loop].
    split; [lia|]. split; [exact Hbig|]. intros d Hd'. lia.
  - cbn [compute_level_capacities_loop].
    pose proof (int_cap_aux_range k depth) as Hcap.
    set (e := Z.max 8 (int_cap_aux k depth)) in *.
    rewrite rd_wr_eq by lia.
    destruct (Z.eqb_spec e 8) as [He|He].
    + exists depth. split; [lia|]. split.
      * intros d Hd'. rewrite rd_wr_ne by lia. apply Hbig. lia.
      * intros d Hd'. destruct (Z.eq_dec d depth) as [->|Hne].
        -- now rewrite rd_wr_eq by lia.
        -- rewrite rd_wr_ne by lia. apply Hflat. lia.
    + destruct (IH (depth + 1) (wr lc depth e)) as (D & HD & Hb & Hf);
        try lia; rewrite ?length_wr; try assumption.
      * intros d Hd'. destruct (Z.eq_dec d depth) as [->|Hne].
        -- rewrite rd_wr_eq by lia. unfold e in *. lia.
        -- rewrite rd_wr_ne by lia. apply Hbig. lia.
      * intros d Hd'. rewrite rd_wr_ne by lia. apply Hflat. lia.
      * exists D. split; [lia|]. split; assumption.
Qed.

(** X5.  With [powers_of_three depth = 3 ^ depth], the table
    [compute_level_capacities(k, 8)] builds has 60 entries, each a
    [uint16_t]; up to some depth [D] they are above 8, and from [D] on, where
    the loop broke off, they are all 8.  For [k] in [[8, 65535]] entry 0 is
    [k] itself, [powers_of_three 0] being 1. *)
Theorem level_capacities_shape (k : Z) :
  length (compute_level_capacities k 8) = 60%nat /\
  (exists D, 0 <= D <= 60 /\
     (forall d, 0 <= d < D ->
        8 < rd (compute_level_capacities k 8) d <= 65535) /\
     (forall d, D <= d < 60 -> rd (compute_level_capacities k 8) d = 8)) /\
  (8 <= k <= 65535 -> rd (compute_level_capacities k 8) 0 = k).
Proof.
  split; [apply cap_table_length|]. split; [|apply cap_table_0].
  unfold compute_level_capacities. change (Z.to_nat kMaxNumLevels) with 60%nat.
  apply cap_loop_shape; try lia.
  - apply length_replicate.
  - intros d Hd. unfold rd. apply lookup_total_replicate_2. lia.
Qed.

Lemma level_capacities_shape_witness :
  rd (compute_level_capacities 200 8) 0 = 200.
Proof.
  apply (proj2 (proj2 (level_capacities_shape 200))). lia.
Defined.

End KLLHelpers.

(** ** KLL: what a stream of inserts leaves in the sketch *)

Module KLLStream.
Import KLL KLLSpec KLLArrays KLLLevels KLLLoops KLLItems KLLInstances Bits.


Section Sketch.

Context {T : Type} `{Inhabited T}.
Variable is_floating_point : bool.
Variable isnan : T -> bool.
Variable comparator_ : T -> T -> bool.
Variable std_sort : list T -> list T.
Variable random_bit : nat -> bool.

Local Abbreviation sketch := (@sketch T).
Local Abbreviation check := (check_update_item is_floating_point isnan).
Local Abbreviation update :=
  (update is_floating_point isnan comparator_ std_sort random_bit).
Local Abbreviation Insert_all :=
  (Insert_all is_floating_point isnan comparator_ std_sort random_bit).
Local Abbreviation compress_while_updating :=
  (compress_while_updating comparator_ std_sort random_bit).






End Sketch.


Section Members.

Context {T : Type} `{Inhabited T} `{EqDecision T}.
Variable is_floating_point : bool.
Variable isnan : T -> bool.
Variable comparator_ : T -> T -> bool.
Variable std_sort : list T -> list T.
Variable random_bit : nat -> bool.

Local Abbreviation sketch := (@sketch T).
Local Abbreviation check := (check_update_item is_floating_point isnan).
Local Abbreviation Insert_all :=
  (Insert_all is_floating_point isnan comparator_ std_sort random_bit).
Local Abbreviation from total :=
  (fun x : T => check x && bool_decide (x ∈ total)).





End Members.



End KLLStream.

(** ** KLL: what one compaction does *)

Module KLLCompact.
Import KLL KLLSpec KLLCompaction KLLArrays KLLLevels KLLLoops KLLItems
  KLLInstances Bits.

Section Sketch.

Context {T : Type} `{Inhabited T}.
Variable is_floating_point : bool.
Variable isnan : T -> bool.
Variable comparator_ : T -> T -> bool.
Variable std_sort : list T -> list T.
Variable random_bit : nat -> bool.

Local Abbreviation sketch := (@sketch T).
Local Abbreviation check := (check_update_item is_floating_point isnan).
Local Abbreviation Insert_all :=
  (Insert_all is_floating_point isnan comparator_ std_sort random_bit).
Local Abbreviation compress_while_updating :=
  (compress_while_updating comparator_ std_sort random_bit).
Local Abbreviation compact_level :=
  (compact_level comparator_ std_sort random_bit).




End Sketch.


End KLLCompact.

(** ** KLL: the accesses to the allocation behind the span *)

Module KLLMemory.
Import KLL KLLSpec KLLMemSpec KLLArrays KLLLevels KLLLoops KLLItems
  KLLInstances Bits.

Section Cells.

Context {T : Type} `{Inhabited T}.
Variable is_fundamental : bool.

(** The cells [0 .. n) are items of the allocation, and the buffers have
    [n] cells. *)
Variable ok : Z -> bool.
Variable n : Z.
Hypothesis Hok : forall i, 0 <= i < n -> ok i = true.

Local Abbreviation move_if_distinct := (KLLMem.move_if_distinct is_fundamental ok).

Lemma load_inside (buf : list T) (i : Z) :
  Z.of_nat (length buf) = n -> 0 <= i < n ->
  KLLMem.load ok buf i = Some (rd buf i).
Proof.
  intros Hlen Hi. unfold KLLMem.load. rewrite (Hok i Hi).
  apply rd_lookup. lia.
Qed.

Lemma store_inside (buf : list T) (i : Z) (x : T) :
  Z.of_nat (length buf) = n -> 0 <= i < n ->
  KLLMem.store ok buf i x = Some (wr buf i x).
Proof.
  intros Hlen Hi. unfold KLLMem.store. rewrite (Hok i Hi).
  destruct (Z.ltb_spec i (Z.of_nat (length buf))); [reflexivity|lia].
Qed.

Lemma move_if_distinct_inside (buf : list T) (i j : Z) :
  Z.of_nat (length buf) = n -> 0 <= i < n -> 0 <= j < n ->
  move_if_distinct buf i j = Some (wr buf i (rd buf j)).
Proof.
  intros Hlen Hi Hj. unfold KLLMem.move_if_distinct.
  destruct (is_fundamental || negb (i =? j)) eqn:Hcase.
  - rewrite (load_inside buf j Hlen Hj). now apply store_inside.
  - apply orb_false_elim in Hcase as [_ Hij].
    apply negb_false_iff, Z.eqb_eq in Hij. subst j.
    f_equal. unfold wr, rd. symmetry. apply list_insert_id.
    apply list_lookup_lookup_total_lt. lia.
Qed.

Lemma halve_down_loop_inside (fuel : nat) (lim : Z) :
  n < 2 ^ 31 ->
  forall (buf : list T) (i j : Z),
  Z.of_nat (length buf) = n -> 0 <= i -> i <= j -> lim <= n ->
  j + 2 * (lim - i) <= n + 1 ->
  KLLMem.halve_down_loop is_fundamental ok fuel lim buf i j =
  Some (halve_down_loop fuel lim buf i j).
Proof.
  intros Hn.
  induction fuel as [|fuel IH]; intros buf i j Hlen Hi Hij Hlim Hj;
    [reflexivity|].
  cbn [KLLMem.halve_down_loop halve_down_loop].
  destruct (Z.ltb_spec i lim) as [Hlt|Hge]; [|reflexivity].
  rewrite move_if_distinct_inside by lia.
  rewrite (u32_small (i + 1)), (u32_small (j + 2)) by lia.
  apply IH; rewrite ?length_wr; lia.
Qed.

Lemma randomly_halve_down_inside (offset : Z) (buf : list T)
    (start half : Z) :
  n < 2 ^ 31 ->
  Z.of_nat (length buf) = n -> 0 <= offset <= 1 -> 0 <= start ->
  0 <= half -> start + 2 * half <= n ->
  KLLMem.randomly_halve_down is_fundamental ok offset buf start (2 * half) =
  Some (randomly_halve_down offset buf start (2 * half)).
Proof.
  intros Hn Hlen Hoff Hstart Hhalf Hend.
  unfold KLLMem.randomly_halve_down, randomly_halve_down.
  replace (2 * half / 2) with half by (Z.to_euclidean_division_equations; lia).
  rewrite (u32_small (start + offset)), (u32_small (start + half)) by lia.
  apply halve_down_loop_inside; lia.
Qed.

Lemma halve_up_loop_inside (fuel : nat) (lim : Z) :
  n < 2 ^ 31 ->
  forall (buf : list T) (i j : Z),
  Z.of_nat (length buf) = n -> 1 <= lim -> lim - 1 <= i -> i < n ->
  j <= i -> 0 <= j - 2 * (i - lim) ->
  KLLMem.halve_up_loop is_fundamental ok fuel lim buf i j =
  Some (halve_up_loop fuel lim buf i j).
Proof.
  intros Hn.
  induction fuel as [|fuel IH]; intros buf i j Hlen Hlim Hi Hin Hj Hj0;
    [reflexivity|].
  cbn [KLLMem.halve_up_loop halve_up_loop].
  destruct (Z.geb_spec i lim) as [Hge|Hlt]; [|reflexivity].
  rewrite move_if_distinct_inside by lia.
  rewrite (u32_small (i - 1)) by lia.
  destruct (Z.eq_dec i lim) as [->|Hne].
  - destruct fuel as [|fuel']; [reflexivity|].
    cbn [KLLMem.halve_up_loop halve_up_loop].
    destruct (Z.geb_spec (lim - 1) lim); [lia|reflexivity].
  - rewrite (u32_small (j - 2)) by lia.
    apply IH; rewrite ?length_wr; lia.
Qed.

Lemma randomly_halve_up_inside (offset : Z) (buf : list T)
    (start half : Z) :
  n < 2 ^ 31 ->
  Z.of_nat (length buf) = n -> 0 <= offset <= 1 -> 0 <= start ->
  1 <= half -> start + 2 * half <= n ->
  KLLMem.randomly_halve_up is_fundamental ok offset buf start (2 * half) =
  Some (randomly_halve_up offset buf start (2 * half)).
Proof.
  intros Hn Hlen Hoff Hstart Hhalf Hend.
  unfold KLLMem.randomly_halve_up, randomly_halve_up.
  replace (2 * half / 2) with half by (Z.to_euclidean_division_equations; lia).
  rewrite (u32_small (start + 2 * half)) by lia.
  rewrite (u32_small (start + 2 * half - 1)) by lia.
  rewrite (u32_small (start + 2 * half - 1 - offset)) by lia.
  rewrite (u32_small (start + half)) by lia.
  apply halve_up_loop_inside; lia.
Qed.

Variable comparator_ : T -> T -> bool.

Lemma merge_loop_inside (fuel : nat) (lim_a lim_b lim_c : Z) :
  n < 2 ^ 31 ->
  forall (buf : list T) (a b c : Z),
  Z.of_nat (length buf) = n ->
  0 <= a <= lim_a -> 0 <= b <= lim_b -> 0 <= c ->
  lim_a <= n -> lim_b <= n -> lim_c <= n ->
  lim_c - c = (lim_a - a) + (lim_b - b) ->
  KLLMem.merge_loop is_fundamental comparator_ ok fuel lim_a lim_b lim_c
    buf a b c =
  Some (merge_loop comparator_ fuel lim_a lim_b lim_c buf a b c).
Proof.
  intros Hn.
  induction fuel as [|fuel IH];
    intros buf a b c Hlen Ha Hb Hc Hla Hlb Hlc Hrel; [reflexivity|].
  cbn [KLLMem.merge_loop merge_loop].
  destruct (Z.ltb_spec c lim_c) as [Hlt|Hge]; [|reflexivity].
  destruct (Z.eqb_spec a lim_a) as [Hea|Hna].
  - rewrite move_if_distinct_inside by lia.
    rewrite (u32_small (b + 1)) by lia.
    apply IH; rewrite ?length_wr; lia.
  - destruct (Z.eqb_spec b lim_b) as [Heb|Hnb].
    + rewrite move_if_distinct_inside by lia.
      rewrite (u32_small (a + 1)) by lia.
      apply IH; rewrite ?length_wr; lia.
    + rewrite (load_inside buf a), (load_inside buf b) by lia.
      destruct (comparator_ (rd buf a) (rd buf b)).
      * rewrite move_if_distinct_inside by lia.
        rewrite (u32_small (a + 1)) by lia.
        apply IH; rewrite ?length_wr; lia.
      * rewrite move_if_distinct_inside by lia.
        rewrite (u32_small (b + 1)) by lia.
        apply IH; rewrite ?length_wr; lia.
Qed.

Lemma merge_sorted_arrays_inside (buf : list T)
    (start half pop_above : Z) :
  n < 2 ^ 31 ->
  Z.of_nat (length buf) = n -> 0 <= start -> 0 <= half -> 0 <= pop_above ->
  start + 2 * half + pop_above <= n ->
  KLLMem.merge_sorted_arrays is_fundamental comparator_ ok buf start half
    (start + 2 * half) pop_above (start + half) =
  Some (merge_sorted_arrays comparator_ buf start half (start + 2 * half)
          pop_above (start + half)).
Proof.
  intros Hn Hlen Hstart Hhalf Hpop Hend.
  unfold KLLMem.merge_sorted_arrays, merge_sorted_arrays.
  rewrite (u32_small (half + pop_above)) by lia.
  rewrite (u32_small (start + half)) by lia.
  rewrite (u32_small (start + 2 * half + pop_above)) by lia.
  rewrite (u32_small (start + half + (half + pop_above))) by lia.
  apply merge_loop_inside; lia.
Qed.

Lemma move_backward_loop_inside (fuel : nat) :
  forall (buf : list T) (first last d_last : Z),
  Z.of_nat (length buf) = n -> 0 <= first <= last -> last <= d_last ->
  d_last <= n ->
  KLLMem.move_backward_loop ok fuel buf first last d_last =
  Some (move_backward_loop fuel buf first last d_last).
Proof.
  induction fuel as [|fuel IH]; intros buf first last d_last Hlen Hf Hl Hd;
    [reflexivity|].
  cbn [KLLMem.move_backward_loop move_backward_loop].
  destruct (Z.eqb_spec last first) as [Heq|Hne]; [reflexivity|].
  cbn [negb]. rewrite (load_inside buf (last - 1)) by lia.
  rewrite store_inside by lia.
  apply IH; rewrite ?length_wr; lia.
Qed.

Variable std_sort : list T -> list T.

Lemma sort_range_inside (buf : list T) (beg pop : Z) :
  0 <= beg -> 0 <= pop -> beg + pop <= n ->
  KLLMem.sort_range std_sort ok buf beg pop =
  Some (sort_range std_sort buf beg pop).
Proof.
  intros Hbeg Hpop Hend. unfold KLLMem.sort_range.
  destruct (Z.eqb_spec pop 0) as [Hz|Hnz]; [reflexivity|].
  rewrite !Hok by lia. reflexivity.
Qed.

Lemma destroy_range_inside (destroy_beg half : Z) :
  n < 2 ^ 31 -> 0 <= destroy_beg -> destroy_beg + half <= n ->
  KLLMem.destroy_range is_fundamental ok destroy_beg half = true.
Proof.
  intros Hn Hbeg Hend. unfold KLLMem.destroy_range.
  apply orb_true_intro. right. apply forallb_forall. intros i Hi.
  apply in_seq in Hi. rewrite u32_small by lia. apply Hok. lia.
Qed.

End Cells.

(** Whenever [KLLMem] returns, it returns what [KLL] returns: it is the
    same code, with the accesses checked. *)
Section Refinement.

Context {T : Type} `{Inhabited T}.
Variable is_fundamental : bool.
Variable ok : Z -> bool.

Lemma load_Some (buf : list T) (i : Z) (x : T) :
  KLLMem.load ok buf i = Some x -> x = rd buf i.
Proof.
  unfold KLLMem.load. destruct (ok i); [|discriminate].
  intros Hx. symmetry. now apply list_lookup_total_correct.
Qed.

Lemma store_Some (buf buf' : list T) (i : Z) (x : T) :
  KLLMem.store ok buf i x = Some buf' -> buf' = wr buf i x.
Proof.
  unfold KLLMem.store. destruct (_ && _); [|discriminate]. congruence.
Qed.

Lemma move_if_distinct_Some (buf buf' : list T) (i j : Z) :
  KLLMem.move_if_distinct is_fundamental ok buf i j = Some buf' ->
  buf' = wr buf i (rd buf j).
Proof.
  unfold KLLMem.move_if_distinct.
  destruct (is_fundamental || negb (i =? j)) eqn:Hcase.
  - destruct (KLLMem.load ok buf j) as [x|] eqn:Hx; [|discriminate].
    apply load_Some in Hx. subst x. apply store_Some.
  - intros Hb. injection Hb as <-.
    apply orb_false_elim in Hcase as [_ Hij].
    apply negb_false_iff, Z.eqb_eq in Hij. subst j. unfold wr, rd.
    destruct (Nat.lt_ge_cases (Z.to_nat i) (length buf)) as [Hlt|Hge].
    + symmetry. apply list_insert_id.
      now apply list_lookup_lookup_total_lt.
    + symmetry. now apply list_insert_ge.
Qed.

Lemma halve_down_loop_Some (fuel : nat) (lim : Z) :
  forall (buf buf' : list T) (i j : Z),
  KLLMem.halve_down_loop is_fundamental ok fuel lim buf i j = Some buf' ->
  buf' = halve_down_loop fuel lim buf i j.
Proof.
  induction fuel as [|fuel IH]; intros buf buf' i j;
    cbn [KLLMem.halve_down_loop halve_down_loop]; [congruence|].
  destruct (i <? lim); [|congruence].
  destruct (KLLMem.move_if_distinct is_fundamental ok buf i j) as [buf1|]
    eqn:Hm; [|discriminate].
  apply move_if_distinct_Some in Hm. subst buf1. apply IH.
Qed.

Lemma halve_up_loop_Some (fuel : nat) (lim : Z) :
  forall (buf buf' : list T) (i j : Z),
  KLLMem.halve_up_loop is_fundamental ok fuel lim buf i j = Some buf' ->
  buf' = halve_up_loop fuel lim buf i j.
Proof.
  induction fuel as [|fuel IH]; intros buf buf' i j;
    cbn [KLLMem.halve_up_loop halve_up_loop]; [congruence|].
  destruct (i >=? lim); [|congruence].
  destruct (KLLMem.move_if_distinct is_fundamental ok buf i j) as [buf1|]
    eqn:Hm; [|discriminate].
  apply move_if_distinct_Some in Hm. subst buf1. apply IH.
Qed.

Lemma move_backward_loop_Some (fuel : nat) :
  forall (buf buf' : list T) (first last d_last : Z),
  KLLMem.move_backward_loop ok fuel buf first last d_last = Some buf' ->
  buf' = move_backward_loop fuel buf first last d_last.
Proof.
  induction fuel as [|fuel IH]; intros buf buf' first last d_last;
    cbn [KLLMem.move_backward_loop move_backward_loop]; [congruence|].
  destruct (negb (last =? first)); [|congruence].
  destruct (KLLMem.load ok buf (last - 1)) as [x|] eqn:Hx; [|discriminate].
  apply load_Some in Hx. subst x.
  destruct (KLLMem.store ok buf (d_last - 1) (rd buf (last - 1)))
    as [buf1|] eqn:Hs; [|discriminate].
  apply store_Some in Hs. subst buf1. apply IH.
Qed.

Variable comparator_ : T -> T -> bool.

Lemma merge_loop_Some (fuel : nat) (lim_a lim_b lim_c : Z) :
  forall (buf buf' : list T) (a b c : Z),
  KLLMem.merge_loop is_fundamental comparator_ ok fuel lim_a lim_b lim_c
    buf a b c = Some buf' ->
  buf' = merge_loop comparator_ fuel lim_a lim_b lim_c buf a b c.
Proof.
  induction fuel as [|fuel IH]; intros buf buf' a b c;
    cbn [KLLMem.merge_loop merge_loop]; [congruence|].
  destruct (c <? lim_c); [|congruence].
  destruct (a =? lim_a).
  { destruct (KLLMem.move_if_distinct is_fundamental ok buf c b) as [buf1|]
      eqn:Hm; [|discriminate].
    apply move_if_distinct_Some in Hm. subst buf1. apply IH. }
  destruct (b =? lim_b).
  { destruct (KLLMem.move_if_distinct is_fundamental ok buf c a) as [buf1|]
      eqn:Hm; [|discriminate].
    apply move_if_distinct_Some in Hm. subst buf1. apply IH. }
  destruct (KLLMem.load ok buf a) as [x|] eqn:Hx; [|discriminate].
  destruct (KLLMem.load ok buf b) as [y|] eqn:Hy; [|discriminate].
  apply load_Some in Hx, Hy. subst x y.
  destruct (comparator_ (rd buf a) (rd buf b)).
  - destruct (KLLMem.move_if_distinct is_fundamental ok buf c a) as [buf1|]
      eqn:Hm; [|discriminate].
    apply move_if_distinct_Some in Hm. subst buf1. apply IH.
  - destruct (KLLMem.move_if_distinct is_fundamental ok buf c b) as [buf1|]
      eqn:Hm; [|discriminate].
    apply move_if_distinct_Some in Hm. subst buf1. apply IH.
Qed.

Variable std_sort : list T -> list T.

Lemma sort_range_Some (buf buf' : list T) (beg pop : Z) :
  KLLMem.sort_range std_sort ok buf beg pop = Some buf' ->
  buf' = sort_range std_sort buf beg pop.
Proof.
  unfold KLLMem.sort_range. destruct (_ || _); [|discriminate]. congruence.
Qed.

End Refinement.

Section Refines.

Context {T : Type} `{Inhabited T}.
Variable is_fundamental : bool.
Variable is_floating_point : bool.
Variable isnan : T -> bool.
Variable comparator_ : T -> T -> bool.
Variable std_sort : list T -> list T.
Variable random_bit : nat -> bool.

Local Abbreviation sketch := (@sketch T).

Lemma compact_level_Some (s s' : sketch) (level : Z) :
  KLLMem.compact_level is_fundamental comparator_ std_sort random_bit s level
    = Some s' ->
  s' = compact_level comparator_ std_sort random_bit s level.
Proof.
  unfold KLLMem.compact_level, compact_level,
    KLLMem.randomly_halve_up, KLLMem.randomly_halve_down,
    KLLMem.merge_sorted_arrays, KLLMem.move_backward,
    randomly_halve_up, randomly_halve_down, merge_sorted_arrays,
    move_backward.
  cbv zeta.
  destruct ((level =? 0) && negb (is_level_zero_sorted_ s));
    destruct (u32 (rd (levels_ s) (level + 2) - rd (levels_ s) (level + 1))
              =? 0);
    destruct (is_odd (u32 (rd (levels_ s) (level + 1) - rd (levels_ s) level)));
    destruct (level >? 0); cbv beta iota;
    repeat
      match goal with
      | |- context [match ?e with Some _ => _ | None => _ end] =>
          lazymatch e with
          | context [match _ with Some _ => _ | None => _ end] => fail
          | _ => idtac
          end;
          let E := fresh "E" in
          destruct e eqn:E; cbv beta iota; [|discriminate];
          first [apply sort_range_Some in E
                |apply halve_up_loop_Some in E
                |apply halve_down_loop_Some in E
                |apply merge_loop_Some in E
                |apply move_if_distinct_Some in E
                |apply move_backward_loop_Some in E];
          subst
      end;
    (destruct (KLLMem.destroy_range _ _ _ _); [|discriminate]);
    intros Hs; injection Hs as <-; reflexivity.
Qed.

Lemma update_Some (s s' : sketch) (x : T) :
  KLLMem.update is_fundamental is_floating_point isnan comparator_ std_sort
    random_bit s x = Some s' ->
  update is_floating_point isnan comparator_ std_sort random_bit s x
    = Some s'.
Proof.
  unfold KLLMem.update, update, KLLMem.internal_update, internal_update,
    KLLMem.compress_while_updating, compress_while_updating.
  destruct (negb _); [congruence|].
  destruct (rd (levels_ s) 0 =? 0).
  - destruct (find_level_to_compact s) as [level|]; [|discriminate].
    destruct (if level =? u8 (num_levels_ s - 1)
              then add_empty_top_level_to_completely_full_sketch s
              else Some s) as [s1|]; [|discriminate].
    destruct (KLLMem.compact_level _ _ _ _ s1 level) as [s2|] eqn:Hc;
      [|discriminate].
    apply compact_level_Some in Hc. subst s2.
    destruct (KLLMem.store _ _ _ _) as [items|] eqn:Hst; [|discriminate].
    apply store_Some in Hst. subst items. congruence.
  - destruct (KLLMem.store _ _ _ _) as [items|] eqn:Hst; [|discriminate].
    apply store_Some in Hst. subst items. congruence.
Qed.

(** A run inside the allocation is a run of [KLL]. *)
Lemma Insert_all_Some (xs : list T) :
  forall s s' : sketch,
  KLLMem.Insert_all is_fundamental is_floating_point isnan comparator_
    std_sort random_bit s xs = Some s' ->
  Insert_all is_floating_point isnan comparator_ std_sort random_bit s xs
    = Some s'.
Proof.
  induction xs as [|x xs IH]; intros s s'; cbn [KLLMem.Insert_all Insert_all];
    [congruence|].
  unfold KLLMem.Insert, Insert.
  destruct (KLLMem.update _ _ _ _ _ _ s x) as [s1|] eqn:Hu; [|discriminate].
  apply update_Some in Hu. rewrite Hu. apply IH.
Qed.

End Refines.

Section Lengths.

Context {T : Type} `{Inhabited T}.
Variable comparator_ : T -> T -> bool.

Lemma halve_down_loop_keeps_length (fuel : nat) (lim : Z) :
  forall (buf : list T) (i j : Z),
  length (halve_down_loop fuel lim buf i j) = length buf.
Proof.
  induction fuel as [|fuel IH]; intros buf i j; [reflexivity|].
  cbn [halve_down_loop]. destruct (i <? lim); [|reflexivity].
  now rewrite IH, length_wr.
Qed.

Lemma halve_up_loop_keeps_length (fuel : nat) (lim : Z) :
  forall (buf : list T) (i j : Z),
  length (halve_up_loop fuel lim buf i j) = length buf.
Proof.
  induction fuel as [|fuel IH]; intros buf i j; [reflexivity|].
  cbn [halve_up_loop]. destruct (i >=? lim); [|reflexivity].
  now rewrite IH, length_wr.
Qed.

Lemma merge_loop_keeps_length (fuel : nat) (lim_a lim_b lim_c : Z) :
  forall (buf : list T) (a b c : Z),
  length (merge_loop comparator_ fuel lim_a lim_b lim_c buf a b c) =
  length buf.
Proof.
  induction fuel as [|fuel IH]; intros buf a b c; [reflexivity|].
  cbn [merge_loop]. destruct (c <? lim_c); [|reflexivity].
  destruct (a =? lim_a); [now rewrite IH, length_wr|].
  destruct (b =? lim_b); [now rewrite IH, length_wr|].
  destruct (comparator_ (rd buf a) (rd buf b)); now rewrite IH, length_wr.
Qed.

Lemma move_backward_loop_keeps_length (fuel : nat) :
  forall (buf : list T) (first last d_last : Z),
  length (move_backward_loop fuel buf first last d_last) = length buf.
Proof.
  induction fuel as [|fuel IH]; intros buf first last d_last; [reflexivity|].
  cbn [move_backward_loop]. destruct (negb (last =? first)); [|reflexivity].
  now rewrite IH, length_wr.
Qed.

End Lengths.

Section Sketch.

Context {T : Type} `{Inhabited T}.
Variable is_fundamental : bool.
Variable is_floating_point : bool.
Variable isnan : T -> bool.
Variable comparator_ : T -> T -> bool.
Variable std_sort : list T -> list T.
Variable random_bit : nat -> bool.

Local Abbreviation sketch := (@sketch T).
Local Abbreviation valid := (check_update_item is_floating_point isnan).
Local Abbreviation items_ok := (items_ok valid comparator_).

Hypothesis Hswo : strict_weak_order valid comparator_.
Hypothesis Hsorts : sorts valid comparator_ std_sort.

(** A compaction in a span that lies inside the allocation touches no other
    memory and does what [KLL.compact_level] says. *)
Lemma compact_level_inside (k : Z) (s : sketch) (level : Z) :
  levels_ok k s -> items_ok s ->
  0 <= level -> level + 2 <= num_levels_ s ->
  2 <= rd (levels_ s) (level + 1) - rd (levels_ s) level ->
  (forall i, 0 <= i < Z.of_nat (length (items_ s)) ->
     KLLMem.inside s i = true) ->
  KLLMem.compact_level is_fundamental comparator_ std_sort random_bit s level =
  Some (compact_level comparator_ std_sort random_bit s level).
Proof.
  intros Hok (Hilen & Hisorted & Hivalid) Hlevel HL2 Hpop Hin.
  pose proof Hok as (Hk & Hlc & Hflag & HL & Hlen & H0 & Hmono & Htop & Hw).
  pose proof (levels_ok_bounds k s (num_levels_ s) Hok ltac:(lia)) as Hb.
  set (n := Z.of_nat (length (items_ s))) in *.
  assert (Hn : n < 2 ^ 31) by lia.
  set (lv := levels_ s) in *. set (it0 := items_ s) in *.
  set (B := rd lv level) in *. set (M := rd lv (level + 1)) in *.
  set (U := rd lv (level + 2)) in *. set (Z0 := rd lv 0) in *.
  set (h := (M - B) / 2). set (b := (M - B) mod 2).
  set (offset := Z.b2z (random_bit (rng_ s))).
  assert (Hoff : 0 <= offset <= 1)
    by (unfold offset; destruct (random_bit _); cbn; lia).
  assert (HB : Z0 <= B) by (apply (mono_le _ _ Hmono); lia).
  assert (HM : B <= M) by (apply (Hmono level); lia).
  assert (HU : M <= U).
  { pose proof (Hmono (level + 1) ltac:(lia)) as Hm.
    replace (level + 1 + 1) with (level + 2) in Hm by lia. exact Hm. }
  assert (HUL : U <= rd lv (num_levels_ s))
    by (apply (mono_le _ _ Hmono); lia).
  assert (Hh : 1 <= h /\ M = B + b + 2 * h /\ 0 <= b <= 1)
    by (unfold h, b; Z.to_euclidean_division_equations; lia).
  destruct Hh as (Hh1 & HMeq & Hb01).
  unfold KLLMem.compact_level, compact_level. cbv zeta.
  cbn [levels_ items_ with_buffers].
  fold lv. fold it0. fold B M U Z0. rewrite Hflag. cbn [negb].
  rewrite andb_true_r.
  rewrite (u32_small (M - B)), (u32_small (U - M)) by lia.
  rewrite is_odd_spec. fold b.
  assert (E1 : (if b =? 1 then u32 (B + 1) else B) = B + b).
  { destruct (Z.eqb_spec b 1) as [->|]; [apply u32_small|]; lia. }
  assert (E2 : (if b =? 1 then u32 (M - B - 1) else M - B) = 2 * h).
  { destruct (Z.eqb_spec b 1) as [Hb1|]; [rewrite u32_small|]; lia. }
  rewrite !E1, !E2.
  replace (2 * h / 2) with h by (Z.to_euclidean_division_equations; lia).
  rewrite (u32_small (M - h)), (u32_small (B + b + h)) by lia.
  rewrite (rd_wr_eq lv (level + 1)) by lia.
  assert (E3 : (if b =? 1
                then wr (wr lv (level + 1) (M - h)) level (u32 (M - h - 1))
                else wr (wr lv (level + 1) (M - h)) level (M - h)) =
               wr (wr lv (level + 1) (M - h)) level (B + h)).
  { destruct (Z.eqb_spec b 1) as [Hb1|]; [rewrite u32_small by lia|];
      f_equal; lia. }
  rewrite !E3.
  rewrite (rd_wr_eq _ level) by (rewrite length_wr; lia).
  fold offset.
  set (it1 := if level =? 0 then sort_range std_sort it0 (B + b) (2 * h)
              else it0).
  assert (S1 : (if level =? 0
                then KLLMem.sort_range std_sort (KLLMem.inside s) it0
                       (B + b) (2 * h)
                else Some it0) = Some it1 /\ Z.of_nat (length it1) = n).
  { unfold it1. destruct (Z.eqb_spec level 0) as [Hzero|Hpos].
    - split.
      + apply (sort_range_inside (KLLMem.inside s) n Hin std_sort); lia.
      + destruct (sort_range_spec valid comparator_ std_sort it0 (B + b)
                    (2 * h) Hsorts) as (Hl & _); try lia.
        apply (valid_range_sub valid it0 Z0 (rd lv (num_levels_ s)));
          [exact Hivalid|lia|lia].
    - split; reflexivity. }
  destruct S1 as [-> Hl1]. cbv beta iota.
  set (it2 := if U - M =? 0 then randomly_halve_up offset it1 (B + b) (2 * h)
              else merge_sorted_arrays comparator_
                     (randomly_halve_down offset it1 (B + b) (2 * h))
                     (B + b) h M (U - M) (B + b + h)).
  assert (S2 : (if U - M =? 0
                then KLLMem.randomly_halve_up is_fundamental
                       (KLLMem.inside s) offset it1 (B + b) (2 * h)
                else
                  match KLLMem.randomly_halve_down is_fundamental
                          (KLLMem.inside s) offset it1 (B + b) (2 * h) with
                  | Some items0 =>
                      KLLMem.merge_sorted_arrays is_fundamental comparator_
                        (KLLMem.inside s) items0 (B + b) h M (U - M)
                        (B + b + h)
                  | None => None
                  end) = Some it2 /\ Z.of_nat (length it2) = n).
  { unfold it2. destruct (Z.eqb_spec (U - M) 0) as [Hempty|Hfull].
    - split.
      + apply (randomly_halve_up_inside is_fundamental (KLLMem.inside s) n
                 Hin); lia.
      + unfold randomly_halve_up. now rewrite halve_up_loop_keeps_length.
    - rewrite (randomly_halve_down_inside is_fundamental (KLLMem.inside s) n
                 Hin) by lia.
      assert (Hld : Z.of_nat (length (randomly_halve_down offset it1 (B + b)
                                        (2 * h))) = n).
      { unfold randomly_halve_down.
        now rewrite halve_down_loop_keeps_length. }
      replace M with (B + b + 2 * h) at 1 3 by lia.
      split.
      + apply (merge_sorted_arrays_inside is_fundamental
                 (KLLMem.inside s) n Hin comparator_); lia.
      + unfold merge_sorted_arrays. now rewrite merge_loop_keeps_length. }
  destruct S2 as [-> Hl2]. cbv beta iota.
  set (it3 := if b =? 1 then wr it2 (B + h) (rd it2 B) else it2).
  assert (S3 : (if b =? 1
                then KLLMem.move_if_distinct is_fundamental (KLLMem.inside s)
                       it2 (B + h) B
                else Some it2) = Some it3 /\ Z.of_nat (length it3) = n).
  { unfold it3. destruct (b =? 1).
    - split; [|now rewrite length_wr].
      apply (move_if_distinct_inside is_fundamental (KLLMem.inside s) n Hin);
        lia.
    - split; [reflexivity|assumption]. }
  destruct S3 as [-> Hl3]. cbv beta iota.
  rewrite (destroy_range_inside is_fundamental (KLLMem.inside s) n Hin)
    by lia.
  destruct (Z.gtb_spec level 0) as [Hpos|Hzero]; [|reflexivity].
  rewrite !(rd_wr_ne _ level 0), !(rd_wr_ne _ (level + 1) 0) by lia.
  fold Z0. rewrite (u32_small (B - Z0)) by lia.
  unfold KLLMem.move_backward, move_backward.
  rewrite (move_backward_loop_inside (KLLMem.inside s) n Hin) by lia.
  reflexivity.
Qed.

(** Re-seating the span keeps it at the end of the allocation. *)
Lemma add_empty_top_level_seated (k : Z) (s s1 : sketch) :
  levels_ok k s -> num_levels_ s <= 59 -> seated s ->
  add_empty_top_level_to_completely_full_sketch s = Some s1 -> seated s1.
Proof.
  intros Hok HL59 [Hst Hptr] Hadd.
  destruct (add_empty_top_level_spec k s Hok HL59)
    as (s' & Hs' & HL' & _ & _ & _ & _ & Hmax' & _ & _ & Hnew' & _).
  rewrite Hadd in Hs'. injection Hs' as <-.
  pose proof Hok as (Hk & Hlc & Hflag & HL & Hlen & H0 & Hmono & Htop & Hw).
  pose proof (cap_table_range k (num_levels_ s) ltac:(lia)) as Hdelta.
  pose proof (levels_ok_bounds k s (num_levels_ s) Hok ltac:(lia)) as Hb.
  split.
  - rewrite Hmax', <- Hst. revert Hadd.
    unfold add_empty_top_level_to_completely_full_sketch.
    destruct (level_capacities s !! _); [|discriminate].
    intros Hadd. now injection Hadd as <-.
  - rewrite HL', Hnew', Hmax'. revert Hadd.
    unfold add_empty_top_level_to_completely_full_sketch.
    rewrite (u8_small (num_levels_ s + 1)) by lia.
    replace (num_levels_ s + 1 - 0 - 1) with (num_levels_ s) by lia.
    rewrite u8_small by lia. rewrite Hlc.
    rewrite (rd_lookup (cap_table k)) by (rewrite cap_table_length; lia).
    rewrite u32_small by lia.
    intros Hadd. now injection Hadd as <-.
Qed.

(** A compaction leaves the span where it is. *)
Lemma compact_level_seated (k : Z) (s : sketch) (level : Z) :
  levels_ok k s -> 0 <= level -> level + 2 <= num_levels_ s -> seated s ->
  seated (compact_level comparator_ std_sort random_bit s level).
Proof.
  intros Hok Hlevel HL2 [Hst Hptr].
  pose proof Hok as (Hk & Hlc & Hflag & HL & Hlen & H0 & Hmono & Htop & Hw).
  pose proof (levels_ok_bounds k s (num_levels_ s) Hok ltac:(lia)) as Hb.
  destruct (compact_level_levels comparator_ std_sort random_bit s level)
    as [_ Hrd]; try lia; try assumption.
  split; [exact Hst|].
  change (items_ptr_ (compact_level comparator_ std_sort random_bit s level))
    with (items_ptr_ s).
  change (max_capacity_ (compact_level comparator_ std_sort random_bit s level))
    with (max_capacity_ s).
  change (num_levels_ (compact_level comparator_ std_sort random_bit s level))
    with (num_levels_ s).
  rewrite Hrd by lia.
  destruct (Z.leb_spec (num_levels_ s) level); [lia|].
  destruct (Z.eqb_spec (num_levels_ s) (level + 1)); [lia|]. lia.
Qed.

(** In a roomy allocation every cell of the span is an item of it. *)
Lemma span_inside (k : Z) (s : sketch) :
  levels_ok k s -> items_ok s -> seated s -> roomy k s ->
  forall i, 0 <= i < Z.of_nat (length (items_ s)) ->
    KLLMem.inside s i = true.
Proof.
  intros Hok (Hilen & _) [Hst Hptr] Hroom i Hi.
  pose proof Hok as (Hk & Hlc & Hflag & HL & Hlen & H0 & Hmono & Htop & Hw).
  pose proof (total_cap_mono k (Z.to_nat (num_levels_ s)) 60 ltac:(lia)
                ltac:(lia)) as Hcap.
  unfold roomy in Hroom. unfold KLLMem.inside. rewrite Hst, Hptr.
  apply andb_true_intro. split; [apply Z.leb_le|apply Z.ltb_lt]; lia.
Qed.

(** A compaction in a roomy allocation: both readings of the code agree,
    and the state stays in shape. *)
Lemma compact_level_step (k : Z) (s : sketch) (level : Z) :
  levels_ok k s -> items_ok s -> seated s -> roomy k s ->
  0 <= level -> level + 2 <= num_levels_ s ->
  2 <= rd (levels_ s) (level + 1) - rd (levels_ s) level ->
  let s0 := compact_level comparator_ std_sort random_bit s level in
  KLLMem.compact_level is_fundamental comparator_ std_sort random_bit s level
    = Some s0 /\
  levels_ok k s0 /\ items_ok s0 /\ seated s0 /\ roomy k s0 /\
  n_ s0 = n_ s /\ max_capacity_ s0 = max_capacity_ s /\
  1 <= rd (levels_ s0) 0.
Proof.
  intros Hok Hitems Hseat Hroom Hlevel HL2 Hpop s0.
  destruct (compact_level_ok comparator_ std_sort random_bit k s level Hok
              Hlevel HL2) as [Hok0 Hfirst].
  fold s0 in Hok0, Hfirst.
  split; [|split; [exact Hok0|split; [|split; [|split; [|split; [|split]]]]]].
  - apply (compact_level_inside k s level Hok Hitems Hlevel HL2 Hpop).
    now apply (span_inside k).
  - now apply (compact_level_items valid comparator_ std_sort random_bit k).
  - now apply (compact_level_seated k).
  - exact Hroom.
  - reflexivity.
  - reflexivity.
  - rewrite Hfirst. destruct Hok as (_ & _ & _ & _ & _ & H0 & _).
    assert (1 <= (rd (levels_ s) (level + 1) - rd (levels_ s) level) / 2)
      by (Z.to_euclidean_division_equations; lia).
    lia.
Qed.

(** Making room for one more item, in a roomy allocation. *)
Lemma free_slot_inside (k : Z) (s : sketch) :
  levels_ok k s -> items_ok s -> seated s -> roomy k s -> n_ s < 2 ^ 62 ->
  exists s0,
    (if rd (levels_ s) 0 =? 0
     then KLLMem.compress_while_updating is_fundamental comparator_ std_sort
            random_bit s
     else Some s) = Some s0 /\
    (if rd (levels_ s) 0 =? 0
     then compress_while_updating comparator_ std_sort random_bit s
     else Some s) = Some s0 /\
    levels_ok k s0 /\ items_ok s0 /\ seated s0 /\ roomy k s0 /\
    n_ s0 = n_ s /\ max_capacity_ s0 = max_capacity_ s /\
    1 <= rd (levels_ s0) 0.
Proof.
  intros Hok Hitems Hseat Hroom Hn.
  pose proof Hok as (Hk & Hlc & Hflag & HL & Hlen & H0 & Hmono & Htop & Hw).
  destruct (Z.eqb_spec (rd (levels_ s) 0) 0) as [Hzero|Hfree].
  2:{ exists s. repeat (split; [first [reflexivity|assumption]|]). lia. }
  destruct (find_level_to_compact_spec k s Hok Hzero)
    as (r & Hfind & Hr & Hcap).
  pose proof (cap_table_range k (num_levels_ s - r - 1) ltac:(lia)) as Hc.
  unfold KLLMem.compress_while_updating, compress_while_updating.
  rewrite Hfind. rewrite u8_small by lia.
  destruct (Z.eqb_spec r (num_levels_ s - 1)) as [Htop_level|Hlower].
  - assert (HL59 : num_levels_ s <= 59).
    { apply (full_top_level_room k); [assumption..|].
      subst r. replace (num_levels_ s - 1 + 1) with (num_levels_ s) in Hcap
        by lia. lia. }
    destruct (add_empty_top_level_ok k s Hok HL59)
      as (s1 & Hs1 & Hok1 & Hn1 & Hrng1 & Hmax1 & HL1 & Hrd1 & Hnew1 & Hit1).
    rewrite Hs1.
    pose proof (add_empty_top_level_items valid comparator_ k s s1 Hok
                  Hitems HL59 Hs1) as Hitems1.
    pose proof (add_empty_top_level_seated k s s1 Hok HL59 Hseat Hs1)
      as Hseat1.
    assert (Hroom1 : roomy k s1)
      by (unfold roomy in *; rewrite Hmax1; exact Hroom).
    destruct (compact_level_step k s1 r Hok1 Hitems1 Hseat1 Hroom1)
      as (Hmem & Hok0 & Hitems0 & Hseat0 & Hroom0 & Hn0 & Hmax0 & Hfirst);
      [lia|lia|rewrite !Hrd1 by lia; lia|].
    eexists. split; [exact Hmem|]. split; [reflexivity|].
    repeat (split; [first [assumption|congruence]|]). exact Hfirst.
  - destruct (compact_level_step k s r Hok Hitems Hseat Hroom)
      as (Hmem & Hok0 & Hitems0 & Hseat0 & Hroom0 & Hn0 & Hmax0 & Hfirst);
      [lia|lia|lia|].
    eexists. split; [exact Hmem|]. split; [reflexivity|].
    repeat (split; [first [assumption|congruence]|]). exact Hfirst.
Qed.

(** One accepted insert, in a roomy allocation. *)
Lemma update_inside (k : Z) (s : sketch) (x : T) :
  levels_ok k s -> items_ok s -> seated s -> roomy k s -> n_ s < 2 ^ 62 ->
  valid x = true ->
  exists s',
    KLLMem.update is_fundamental is_floating_point isnan comparator_
      std_sort random_bit s x = Some s' /\
    update is_floating_point isnan comparator_ std_sort random_bit s x
      = Some s' /\
    levels_ok k s' /\ items_ok s' /\ seated s' /\ roomy k s' /\
    n_ s' = n_ s + 1.
Proof.
  intros Hok Hitems Hseat Hroom Hn Hx.
  destruct (update_ok comparator_ std_sort random_bit is_floating_point
              isnan k s x Hok Hn Hx) as (s1 & Hs1 & Hok1 & Hn1 & Hmax1).
  destruct (update_items valid comparator_ std_sort random_bit
              is_floating_point isnan k s x Hswo Hsorts Hok Hitems Hn Hx Hx)
    as (s2 & Hs2 & Hitems2 & _).
  rewrite Hs1 in Hs2. injection Hs2 as <-.
  destruct (free_slot_inside k s Hok Hitems Hseat Hroom Hn)
    as (s0 & Hmem0 & Hbase0 & Hok0 & Hitems0 & Hseat0 & Hroom0 & Hn0 & Hmax0
        & Hfirst).
  pose proof Hok0 as (Hk & Hlc & Hflag & HL & Hlen & H0 & Hmono & Htop & Hw).
  pose proof (levels_ok_bounds k s0 (num_levels_ s0) Hok0 ltac:(lia)) as Hb.
  pose proof (mono_le _ _ Hmono 0 (num_levels_ s0) ltac:(lia) ltac:(lia))
    as Hb0.
  destruct Hitems0 as (Hilen0 & Hirest0).
  pose proof (span_inside k s0 Hok0 (conj Hilen0 Hirest0) Hseat0 Hroom0)
    as Hin0.
  revert Hs1.
  unfold KLLMem.update, KLLMem.internal_update, KLL.update,
    KLL.internal_update.
  rewrite Hx, Hmem0, Hbase0. cbn [negb].
  rewrite u32_small by lia. cbn [items_ levels_ num_levels_ rng_].
  rewrite (store_inside _ (Z.of_nat (length (items_ s0)))); [| |reflexivity|lia].
  2:{ intros i Hi. specialize (Hin0 i Hi). exact Hin0. }
  intros Hs1. exists s1. split; [exact Hs1|]. split; [exact Hs1|].
  split; [exact Hok1|]. split; [exact Hitems2|].
  injection Hs1 as <-. split; [|split].
  - destruct Hseat0 as [Hst0 Hptr0]. split; [exact Hst0|].
    cbn [items_ptr_ max_capacity_ levels_ num_levels_ with_buffers].
    rewrite rd_wr_ne by lia. exact Hptr0.
  - exact Hroom0.
  - cbn [n_ with_buffers]. rewrite u64_small; [lia|].
    assert (0 <= n_ s0); [|lia].
    rewrite <- Hw. apply weight_nonneg. intros l Hl. apply Hmono. lia.
Qed.

(** A stream of inserts, in a roomy allocation. *)
Lemma Insert_all_inside (k : Z) (xs : list T) :
  forall s : sketch,
  levels_ok k s -> items_ok s -> seated s -> roomy k s ->
  n_ s + Z.of_nat (length xs) <= 2 ^ 62 ->
  exists s',
    KLLMem.Insert_all is_fundamental is_floating_point isnan comparator_
      std_sort random_bit s xs = Some s' /\
    Insert_all is_floating_point isnan comparator_ std_sort random_bit s xs
      = Some s' /\
    levels_ok k s' /\ items_ok s' /\ seated s' /\ roomy k s' /\
    n_ s' = n_ s + accepted valid xs.
Proof.
  induction xs as [|x xs IH]; intros s Hok Hitems Hseat Hroom Hn.
  - exists s. repeat (split; [first [reflexivity|assumption]|]).
    unfold accepted. cbn. lia.
  - cbn [KLLMem.Insert_all KLL.Insert_all length] in *.
    unfold KLLMem.Insert, KLL.Insert. rewrite accepted_cons.
    destruct (check_update_item is_floating_point isnan x) eqn:Hx.
    + destruct (update_inside k s x Hok Hitems Hseat Hroom ltac:(lia) Hx)
        as (s1 & -> & -> & Hok1 & Hitems1 & Hseat1 & Hroom1 & Hn1).
      destruct (IH s1 Hok1 Hitems1 Hseat1 Hroom1 ltac:(lia))
        as (s' & Hm' & Hb' & Hok' & Hitems' & Hseat' & Hroom' & Hn').
      exists s'. repeat (split; [assumption|]). lia.
    + unfold KLLMem.update, KLL.update. rewrite Hx. cbn [negb].
      destruct (IH s Hok Hitems Hseat Hroom ltac:(lia))
        as (s' & Hm' & Hb' & Hok' & Hitems' & Hseat' & Hroom' & Hn').
      exists s'. repeat (split; [assumption|]). lia.
Qed.

End Sketch.

Section Claim.

Context {T : Type} `{Inhabited T}.
Variable is_fundamental : bool.
Variable is_floating_point : bool.
Variable isnan : T -> bool.
Variable comparator_ : T -> T -> bool.
Variable std_sort : list T -> list T.
Variable random_bit : nat -> bool.

Local Abbreviation sketch := (@sketch T).
Local Abbreviation valid := (check_update_item is_floating_point isnan).
Local Abbreviation items_ok := (items_ok valid comparator_).

(** The sum the initialiser of [max_capacity_] makes of the stale array is
    a [size_t]. *)
Lemma compute_total_capacity_loop_nonneg (lc : list Z) (num : Z) (m : nat) :
  forall h total : Z,
  0 <= total -> 0 <= compute_total_capacity_loop lc num m h total.
Proof.
  induction m as [|m IH]; intros h total Htotal; [exact Htotal|].
  cbn [compute_total_capacity_loop]. apply IH. unfold u64.
  apply Z.mod_pos_bound. lia.
Qed.

(** A new sketch whose allocation has [c < k] items: [j] accepted items
    went into the cells [c - 1] down to [c - j] of the allocation. *)
Lemma Insert_all_outside (k c : Z) (xs : list T) :
  8 <= k <= 65535 -> 0 <= c < k ->
  forall (s : sketch) (j : Z),
  0 <= j <= c -> rd (levels_ s) 0 = k - j ->
  (0 < length (levels_ s))%nat ->
  items_ptr_ s = c - k -> items_storage_ s = c ->
  Z.of_nat (length (items_ s)) = k ->
  c - j < accepted valid xs ->
  KLLMem.Insert_all is_fundamental is_floating_point isnan comparator_
    std_sort random_bit s xs = None.
Proof.
  intros Hk Hc.
  induction xs as [|x xs IH]; intros s j Hj Hl0 Hlev Hptr Hst Hlen Hacc.
  - unfold accepted in Hacc. cbn in Hacc. lia.
  - rewrite accepted_cons in Hacc.
    cbn [KLLMem.Insert_all]. unfold KLLMem.Insert, KLLMem.update.
    destruct (check_update_item is_floating_point isnan x) eqn:Hx;
      cbn [negb].
    2:{ apply (IH s j); try assumption; lia. }
    unfold KLLMem.internal_update. rewrite Hl0.
    destruct (Z.eqb_spec (k - j) 0) as [Hz|_]; [lia|].
    rewrite !Hl0. rewrite u32_small by lia.
    cbn [items_ levels_ num_levels_ rng_].
    unfold KLLMem.store, KLLMem.inside. cbn [items_ptr_ items_storage_].
    rewrite Hptr, Hst.
    destruct (Z.eq_dec j c) as [->|Hjc].
    + destruct (Z.leb_spec 0 (c - k + (k - c - 1))); [lia|reflexivity].
    + destruct (Z.leb_spec 0 (c - k + (k - j - 1))); [|lia].
      destruct (Z.ltb_spec (c - k + (k - j - 1)) c); [|lia].
      destruct (Z.ltb_spec (k - j - 1) (Z.of_nat (length (items_ s))));
        [|lia].
      cbn [andb]. apply (IH _ (j + 1)); cbn [levels_ items_ptr_
        items_storage_ items_ with_buffers]; rewrite ?length_wr;
        try assumption; try lia.
      rewrite rd_wr_eq by lia. lia.
Qed.

(** C8.  The constructor takes its parameter as a [uint16_t]: it throws
    exactly when the converted argument is below [MIN_K = 8], so for every
    [k] of [[8, 2^16 - 1]] it yields a sketch and for every other
    [uint16_t] it throws, while an argument above that range is converted
    first ([65544] builds the sketch of [k = 8]).  The sketch owns an
    allocation of [max_capacity_] items, the sum the initialiser made of
    the stale array, and its span starts [k] items before the end of it.
    Where that allocation can hold the levels (at least the total capacity
    of [kMaxNumLevels] levels, what the initialiser is written to compute),
    every stream of at most [2^62] inserts runs through inside the
    allocation, the comparator being a strict weak order on the accepted
    items and [std::sort] sorting.  Where it has fewer than [k] items, as
    with zero-filled storage, [Insert] is not total: a stream with more
    accepted items than the allocation has cells writes before it.  A run
    that stays inside the allocation is the run of [KLL], and its [n_] is
    the number of accepted items. *)
Theorem constructor_range_Insert_needs_allocation (stale : list Z) (k : Z)
    (xs : list T) :
  MIN_K = 8 /\ MAX_K = 2 ^ 16 - 1 /\
  (@KarninLangLiberty T _ stale k = None <-> ~ (MIN_K <= u16 k <= MAX_K)) /\
  @KarninLangLiberty T _ stale k = KarninLangLiberty stale (u16 k) /\
  (MIN_K <= u16 k <= MAX_K -> Z.of_nat (length xs) <= 2 ^ 62 ->
   exists s0 : sketch, KarninLangLiberty stale k = Some s0 /\
     k_ s0 = u16 k /\
     items_storage_ s0 = compute_total_capacity stale kMaxNumLevels /\
     items_ptr_ s0 = items_storage_ s0 - u16 k /\
     (strict_weak_order valid comparator_ ->
      sorts valid comparator_ std_sort ->
      compute_total_capacity (cap_table (u16 k)) kMaxNumLevels <=
        items_storage_ s0 ->
      exists s,
        KLLMem.Insert_all is_fundamental is_floating_point isnan comparator_
          std_sort random_bit s0 xs = Some s /\
        Insert_all is_floating_point isnan comparator_ std_sort random_bit
          s0 xs = Some s /\
        n_ s = accepted valid xs) /\
     (items_storage_ s0 < u16 k ->
      items_storage_ s0 < accepted valid xs ->
      KLLMem.Insert_all is_fundamental is_floating_point isnan comparator_
        std_sort random_bit s0 xs = None) /\
     (stale = replicate 60 0 -> items_storage_ s0 = 0) /\
     (forall s,
        KLLMem.Insert_all is_fundamental is_floating_point isnan comparator_
          std_sort random_bit s0 xs = Some s ->
        Insert_all is_floating_point isnan comparator_ std_sort random_bit
          s0 xs = Some s /\
        n_ s = accepted valid xs)).
Proof.
  split; [reflexivity|]. split; [reflexivity|].
  change MIN_K with 8. change MAX_K with 65535.
  split; [apply KarninLangLiberty_fails|].
  split.
  { unfold KarninLangLiberty. cbv zeta.
    assert (Hidem : u16 (u16 k) = u16 k)
      by (unfold u16; apply Z.mod_mod; lia).
    now rewrite Hidem. }
  intros Hk Hlen.
  assert (Hctor : @KarninLangLiberty T _ stale k =
                  KarninLangLiberty stale (u16 k)).
  { unfold KarninLangLiberty. cbv zeta.
    assert (Hidem : u16 (u16 k) = u16 k)
      by (unfold u16; apply Z.mod_mod; lia).
    now rewrite Hidem. }
  destruct (KarninLangLiberty_ok (T := T) stale (u16 k) Hk)
    as (s0 & Hs0 & Hok0 & Hn0 & Hmax0 & HL0 & Hl0 & Hl1 & Hitems0).
  rewrite <- Hctor in Hs0.
  destruct (KarninLangLiberty_memory stale k s0 Hs0)
    as (Hk0 & Hst0 & Hptr0 & Hlen0).
  exists s0. split; [exact Hs0|]. split; [exact Hk0|].
  split; [exact Hst0|]. split; [exact Hptr0|]. split; [|split; [|split]].
  - intros Hswo Hsorts Hroom.
    assert (Hitems_ok : items_ok s0).
    { split; [|split].
      - rewrite HL0, Hl1. exact Hlen0.
      - rewrite HL0. intros l Hl. lia.
      - rewrite HL0, Hl0, Hl1. intros i Hi. lia. }
    destruct (Insert_all_inside is_fundamental is_floating_point isnan
                comparator_ std_sort random_bit Hswo Hsorts (u16 k) xs s0
                Hok0 Hitems_ok)
      as (s & Hmem & Hbase & _ & _ & _ & _ & Hn); [| |lia|].
    + split; [congruence|]. rewrite HL0, Hl1. lia.
    + unfold roomy. rewrite <- compute_total_capacity_spec. congruence.
    + exists s. split; [exact Hmem|]. split; [exact Hbase|]. lia.
  - intros Hsmall Hacc.
    assert (Hc0 : 0 <= items_storage_ s0).
    { rewrite Hst0. unfold compute_total_capacity.
      apply compute_total_capacity_loop_nonneg. lia. }
    destruct Hok0 as (_ & _ & _ & _ & Hlv & _).
    apply (Insert_all_outside (u16 k) (items_storage_ s0) xs Hk
             ltac:(lia) s0 0); try lia; reflexivity.
  - intros ->. rewrite Hst0. reflexivity.
  - intros s Hmem.
    pose proof (Insert_all_Some is_fundamental is_floating_point isnan
                  comparator_ std_sort random_bit xs s0 s Hmem) as Hbase.
    split; [exact Hbase|].
    destruct (Insert_all_ok comparator_ std_sort random_bit
                is_floating_point isnan (u16 k) xs s0 Hok0 ltac:(lia))
      as (s' & Hs' & _ & Hn' & _).
    rewrite Hbase in Hs'. injection Hs' as <-. lia.
Qed.

End Claim.

(** The theorem for a sketch of [float] items with [k = 8] and a stream of
    one item: with zero-filled storage the allocation is empty and the first
    insert writes before it; with the capacities in place ([8] in every
    entry for [k = 8]) the insert stays inside the allocation. *)
Lemma constructor_range_witness :
  let Insert_all :=
    KLLMem.Insert_all true true F32.isnan F32.lt (insertion_sort F32.lt)
      Nat.odd in
  (exists s0, KarninLangLiberty (T := Z) (replicate 60 0) 8 = Some s0 /\
     items_storage_ s0 = 0 /\ items_ptr_ s0 = -8 /\
     Insert_all s0 [F32.one] = None) /\
  (exists s0 s, KarninLangLiberty (T := Z) (replicate 60 8) 8 = Some s0 /\
     Insert_all s0 [F32.one] = Some s /\ n_ s = 1).
Proof.
  intros Insert_all. split.
  - destruct (constructor_range_Insert_needs_allocation true true F32.isnan
                F32.lt (insertion_sort F32.lt) Nat.odd
                (replicate 60 0) 8 [F32.one])
      as (_ & _ & _ & _ & Hrun).
    destruct Hrun as (s0 & Hs0 & _ & Hst & Hptr & _ & Hout & Hzero & _).
    + change MIN_K with 8. change MAX_K with 65535.
      change (u16 8) with 8. lia.
    + cbn [length]. lia.
    + pose proof (Hzero eq_refl) as Hz. exists s0.
      split; [exact Hs0|]. split; [exact Hz|].
      split; [rewrite Hptr, Hz; reflexivity|].
      apply Hout; rewrite Hz; reflexivity.
  - destruct (constructor_range_Insert_needs_allocation true true F32.isnan
                F32.lt (insertion_sort F32.lt) Nat.odd
                (replicate 60 8) 8 [F32.one])
      as (_ & _ & _ & _ & Hrun).
    destruct Hrun as (s0 & Hs0 & _ & Hst & _ & Hin & _).
    + change MIN_K with 8. change MAX_K with 65535.
      change (u16 8) with 8. lia.
    + cbn [length]. lia.
    + destruct Hin as (s & Hmem & _ & Hn).
      * exact F32_strict_weak_order.
      * exact (insertion_sort_sorts _ _ F32_strict_weak_order).
      * rewrite Hst. vm_compute. discriminate.
      * exists s0, s. split; [exact Hs0|]. split; [exact Hmem|].
        rewrite Hn. reflexivity.
Defined.

End KLLMemory.

(** ** Count Sketch: what one insert and a stream of inserts do *)

Module CSMore.
Import CS CSStream Bits.

Lemma s64_range (x : Z) : - 2 ^ 63 <= s64 x < 2 ^ 63.
Proof.
  unfold s64. pose proof (Z.mod_pos_bound (x + 2 ^ 63) (2 ^ 64) ltac:(lia)).
  lia.
Qed.

Lemma s64_small (x : Z) : - 2 ^ 63 <= x < 2 ^ 63 -> s64 x = x.
Proof. intros Hx. unfold s64. rewrite Z.mod_small; lia. Qed.

(** The wrap-around is a reduction modulo [2^64]. *)
Lemma s64_add_l (a b : Z) : s64 (s64 a + b) = s64 (a + b).
Proof.
  unfold s64. f_equal.
  replace ((a + 2 ^ 63) mod 2 ^ 64 - 2 ^ 63 + b + 2 ^ 63)
    with ((a + 2 ^ 63) mod 2 ^ 64 + b) by lia.
  rewrite Zplus_mod_idemp_l. f_equal. lia.
Qed.

Section CountSketch.

Variables t d : Z.

(** The column is taken from a slice reduced modulo [t] and halved; the sign
    is [+1] or [-1]. *)
Lemma HashExtract_range (hash j : Z) :
  0 < t ->
  0 <= fst (HashExtract t d hash j) /\
  2 * fst (HashExtract t d hash j) < t /\
  (snd (HashExtract t d hash j) = 1 \/ snd (HashExtract t d hash j) = -1).
Proof.
  intros Ht. unfold HashExtract.
  set (hashes := if ctz (2 * t) * d <=? 128 / 2
                 then u32 (Z.shiftr (u64 hash) (j * hash_bits t) mod t)
                 else u32 (Z.shiftr hash (j * hash_bits t) mod t)).
  assert (Hh : 0 <= hashes < t).
  { unfold hashes, u32. destruct (_ <=? _).
    - pose proof (Z.mod_pos_bound (Z.shiftr (u64 hash) (j * hash_bits t)) t Ht).
      pose proof (Z.mod_pos_bound
                    (Z.shiftr (u64 hash) (j * hash_bits t) mod t) (2 ^ 32)
                    ltac:(lia)).
      pose proof (Z.mod_le (Z.shiftr (u64 hash) (j * hash_bits t) mod t)
                    (2 ^ 32) ltac:(lia) ltac:(lia)). lia.
    - pose proof (Z.mod_pos_bound (Z.shiftr hash (j * hash_bits t)) t Ht).
      pose proof (Z.mod_pos_bound
                    (Z.shiftr hash (j * hash_bits t) mod t) (2 ^ 32)
                    ltac:(lia)).
      pose proof (Z.mod_le (Z.shiftr hash (j * hash_bits t) mod t)
                    (2 ^ 32) ltac:(lia) ltac:(lia)). lia. }
  cbn [fst snd]. rewrite Z.shiftr_div_pow2 by lia. change (2 ^ 1) with 2.
  split; [|split].
  - Z.to_euclidean_division_equations; lia.
  - Z.to_euclidean_division_equations; lia.
  - assert (Hland : Z.land hashes 1 = hashes mod 2)
      by exact (Z.land_ones hashes 1 ltac:(lia)).
    rewrite Hland.
    assert (Hg : hashes mod 2 = 0 \/ hashes mod 2 = 1)
      by (Z.to_euclidean_division_equations; lia).
    destruct Hg as [-> | ->]; [right|left]; reflexivity.
Qed.

(** Two counters share an index only if they are the same counter. *)
Lemma counter_inj (j h j' h' : Z) :
  0 < t -> 0 <= j -> 0 <= j' -> 0 <= h < t -> 0 <= h' < t ->
  counter t j h = counter t j' h' -> j = j' /\ h = h'.
Proof.
  intros Ht Hj Hj' Hh Hh' Heq. unfold counter in Heq.
  assert (0 <= j * t) by nia. assert (0 <= j' * t) by nia.
  assert (Hsum : j * t + h = j' * t + h') by lia.
  assert (j = j') by nia. subst j'. lia.
Qed.

Lemma counter_lt (j h : Z) :
  0 < t -> 0 <= j < d -> 0 <= h < t -> (counter t j h < Z.to_nat (t * d))%nat.
Proof.
  intros Ht Hj Hh. unfold counter.
  assert (0 <= j * t) by nia. assert (j * t + h < t * d) by nia. lia.
Qed.

Lemma Insert_loop_spec (hash : Z) (n : nat) :
  forall (j : Z) (C : list Z) (r c : Z),
  0 < t -> 0 <= j -> j + Z.of_nat n <= d ->
  length C = Z.to_nat (t * d) -> 0 <= r < d -> 0 <= c < t ->
  length (Insert_loop t d hash n j C) = length C /\
  Insert_loop t d hash n j C !!! counter t r c =
  if (j <=? r) && (r <? j + Z.of_nat n) &&
     (c =? fst (HashExtract t d hash r))
  then s64 (C !!! counter t r c + snd (HashExtract t d hash r))
  else C !!! counter t r c.
Proof.
  induction n as [|n IH]; intros j C r c Ht Hj Hn Hlen Hr Hc.
  - cbn [Insert_loop]. split; [reflexivity|].
    destruct (Z.leb_spec j r); destruct (Z.ltb_spec r (j + Z.of_nat 0));
      cbn [andb]; try reflexivity; lia.
  - cbn [Insert_loop].
    destruct (HashExtract t d hash j) as [h sign] eqn:Hex.
    pose proof (HashExtract_range hash j Ht) as (Hh0 & Hh1 & _).
    rewrite Hex in Hh0, Hh1. cbn [fst] in Hh0, Hh1.
    unfold add_counter. fold (counter t j h).
    destruct (IH (j + 1) (<[counter t j h := s64 (C !!! counter t j h + sign)]> C)
                r c) as [Hl Hv]; try lia; rewrite ?length_insert; try lia.
    split; [now rewrite Hl, length_insert|]. rewrite Hv.
    pose proof (counter_lt j h Ht ltac:(lia) ltac:(lia)) as Hidx.
    destruct (Z.eq_dec r j) as [->|Hrj].
    + rewrite Hex. cbn [fst snd].
      destruct (Z.leb_spec (j + 1) j); [lia|].
      destruct (Z.leb_spec j j); [|lia].
      destruct (Z.ltb_spec j (j + Z.of_nat (S n))); [|lia]. cbn [andb].
      destruct (Z.eqb_spec c h) as [->|Hch].
      * apply list_lookup_total_insert_eq. lia.
      * apply list_lookup_total_insert_ne. intros Heq.
        apply counter_inj in Heq; lia.
    + rewrite list_lookup_total_insert_ne
        by (intros Heq; apply counter_inj in Heq; lia).
      destruct (Z.leb_spec (j + 1) r); destruct (Z.leb_spec j r);
        destruct (Z.ltb_spec r (j + 1 + Z.of_nat n));
        destruct (Z.ltb_spec r (j + Z.of_nat (S n))); cbn [andb];
        try reflexivity; lia.
Qed.

(** The effect of the whole loop of [Insert] on one counter. *)
Lemma Insert_hash_cell (hash : Z) (C : list Z) (r c : Z) :
  0 < t -> 0 <= d -> length C = Z.to_nat (t * d) ->
  0 <= r < d -> 0 <= c < t ->
  length (Insert_hash t d hash C) = length C /\
  Insert_hash t d hash C !!! counter t r c =
    if c =? fst (HashExtract t d hash r)
    then s64 (C !!! counter t r c + snd (HashExtract t d hash r))
    else C !!! counter t r c.
Proof.
  intros Ht Hd Hlen Hr Hc. unfold Insert_hash.
  destruct (Insert_loop_spec hash (Z.to_nat d) 0 C r c) as [Hl Hv];
    try lia.
  split; [exact Hl|]. rewrite Hv.
  destruct (Z.leb_spec 0 r); [|lia].
  destruct (Z.ltb_spec r (0 + Z.of_nat (Z.to_nat d))); [|lia].
  reflexivity.
Qed.

(** X9.  One insert into a sketch of [d] rows of [t] counters: the array
    keeps its size; in every row [r] exactly the counter of the column
    [HashExtract] yields moves, by the sign it yields (with [int64_t]
    wrap-around), and every other counter keeps its value.  That column lies
    in the lower half of the row and the sign is [+1] or [-1]. *)
Theorem Insert_moves_one_counter_per_row (hash : Z) (C : list Z) (r c : Z) :
  0 < t -> 0 <= d -> length C = Z.to_nat (t * d) ->
  0 <= r < d -> 0 <= c < t ->
  let h := fst (HashExtract t d hash r) in
  let sign := snd (HashExtract t d hash r) in
  length (Insert_hash t d hash C) = length C /\
  0 <= h /\ 2 * h < t /\ (sign = 1 \/ sign = -1) /\
  Insert_hash t d hash C !!! counter t r c =
    if c =? h then s64 (C !!! counter t r c + sign) else C !!! counter t r c.
Proof.
  intros Ht Hd Hlen Hr Hc h sign.
  pose proof (HashExtract_range hash r Ht) as (Hh0 & Hh1 & Hsign).
  unfold Insert_hash.
  destruct (Insert_loop_spec hash (Z.to_nat d) 0 C r c) as [Hl Hv];
    try lia.
  split; [exact Hl|]. split; [exact Hh0|]. split; [exact Hh1|].
  split; [exact Hsign|]. rewrite Hv.
  destruct (Z.leb_spec 0 r); [|lia].
  destruct (Z.ltb_spec r (0 + Z.of_nat (Z.to_nat d))); [|lia].
  reflexivity.
Qed.

Lemma counter_of_index (i : nat) :
  0 < t -> 0 <= d -> (i < Z.to_nat (t * d))%nat ->
  exists r c, 0 <= r < d /\ 0 <= c < t /\ counter t r c = i.
Proof.
  intros Ht Hd Hi. exists (Z.of_nat i / t), (Z.of_nat i mod t).
  pose proof (Z.mod_pos_bound (Z.of_nat i) t Ht) as Hc.
  pose proof (Z.div_mod (Z.of_nat i) t ltac:(lia)) as Hdm.
  assert (Hr0 : 0 <= Z.of_nat i / t) by (apply Z.div_pos; lia).
  assert (Hr1 : Z.of_nat i / t < d).
  { apply Z.div_lt_upper_bound; [lia|]. lia. }
  split; [lia|]. split; [exact Hc|]. unfold counter. lia.
Qed.

Lemma Insert_hash_length (hash : Z) (C : list Z) :
  0 < t -> 0 <= d -> length C = Z.to_nat (t * d) ->
  length (Insert_hash t d hash C) = Z.to_nat (t * d).
Proof.
  intros Ht Hd Hlen.
  destruct (Z.eq_dec d 0) as [->|Hd0]; [exact Hlen|].
  destruct (Insert_hash_cell hash C 0 0) as [Hl _]; try lia.
Qed.

(** Two inserts can be swapped. *)
Lemma Insert_hash_comm (h1 h2 : Z) (C : list Z) :
  0 < t -> 0 <= d -> length C = Z.to_nat (t * d) ->
  Insert_hash t d h1 (Insert_hash t d h2 C) =
  Insert_hash t d h2 (Insert_hash t d h1 C).
Proof.
  intros Ht Hd Hlen.
  pose proof (Insert_hash_length h1 C Ht Hd Hlen) as Hl1.
  pose proof (Insert_hash_length h2 C Ht Hd Hlen) as Hl2.
  pose proof (Insert_hash_length h1 _ Ht Hd Hl2) as Hl12.
  pose proof (Insert_hash_length h2 _ Ht Hd Hl1) as Hl21.
  apply list_eq. intros i.
  destruct (Nat.lt_ge_cases i (Z.to_nat (t * d))) as [Hi|Hi].
  - rewrite !list_lookup_lookup_total_lt by lia. f_equal.
    destruct (counter_of_index i Ht Hd Hi) as (r & c & Hr & Hc & <-).
    destruct (Insert_hash_cell h1 (Insert_hash t d h2 C) r c
                Ht Hd Hl2 Hr Hc) as (_ & ->).
    destruct (Insert_hash_cell h2 (Insert_hash t d h1 C) r c
                Ht Hd Hl1 Hr Hc) as (_ & ->).
    destruct (Insert_hash_cell h1 C r c Ht Hd Hlen Hr Hc) as (_ & ->).
    destruct (Insert_hash_cell h2 C r c Ht Hd Hlen Hr Hc) as (_ & ->).
    destruct (c =? fst (HashExtract t d h1 r));
      destruct (c =? fst (HashExtract t d h2 r)); try reflexivity.
    rewrite !s64_add_l. f_equal. lia.
  - rewrite !lookup_ge_None_2 by lia. reflexivity.
Qed.

Lemma Insert_hashes_length (hs : list Z) :
  0 < t -> 0 <= d ->
  forall C, length C = Z.to_nat (t * d) ->
  length (Insert_hashes t d C hs) = Z.to_nat (t * d).
Proof.
  intros Ht Hd. induction hs as [|h hs IH]; intros C Hlen; [exact Hlen|].
  unfold Insert_hashes in *. cbn [fold_left]. apply IH.
  now apply Insert_hash_length.
Qed.

(** X10.  The counters do not depend on the order of the stream: two
    streams of hashes that are rearrangements of one another leave the same
    counters; in particular two inserts can be swapped. *)
Theorem Insert_order_irrelevant (C : list Z) (hs hs' : list Z) :
  0 < t -> 0 <= d -> length C = Z.to_nat (t * d) -> hs ≡ₚ hs' ->
  Insert_hashes t d C hs = Insert_hashes t d C hs'.
Proof.
  intros Ht Hd Hlen Hperm. revert C Hlen.
  induction Hperm as [|h hs hs' Hperm IH|h1 h2 hs|hs1 hs2 hs3 H12 IH12 H23 IH23];
    intros C Hlen.
  - reflexivity.
  - unfold Insert_hashes in *. cbn [fold_left]. apply IH.
    now apply Insert_hash_length.
  - unfold Insert_hashes. cbn [fold_left].
    now rewrite Insert_hash_comm.
  - now rewrite IH12, IH23.
Qed.

Lemma net_bound (hs : list Z) (r c : Z) :
  0 < t -> Z.abs (net t d hs r c) <= Z.of_nat (length hs).
Proof.
  intros Ht. induction hs as [|h hs IH]; [cbn; lia|].
  cbn [net foldr length]. fold (net t d hs r c).
  pose proof (HashExtract_range h r Ht) as (_ & _ & Hs).
  destruct (c =? fst (HashExtract t d h r)); lia.
Qed.

Lemma Insert_hashes_cell (hs : list Z) (r c : Z) :
  0 < t -> 0 <= d -> 0 <= r < d -> 0 <= c < t ->
  forall C, length C = Z.to_nat (t * d) ->
  - 2 ^ 63 <= C !!! counter t r c < 2 ^ 63 ->
  Insert_hashes t d C hs !!! counter t r c =
    s64 (C !!! counter t r c + net t d hs r c).
Proof.
  intros Ht Hd Hr Hc.
  induction hs as [|h hs IH]; intros C Hlen HC.
  - cbn [Insert_hashes fold_left net foldr]. rewrite Z.add_0_r.
    symmetry. now apply s64_small.
  - unfold Insert_hashes. cbn [fold_left]. fold (Insert_hashes t d (Insert_hash t d h C) hs).
    cbn [net foldr]. fold (net t d hs r c).
    destruct (Insert_hash_cell h C r c Ht Hd Hlen Hr Hc) as [Hl Hv].
    rewrite IH; [|rewrite Hl; exact Hlen|].
    + rewrite Hv. destruct (c =? fst (HashExtract t d h r)).
      * rewrite s64_add_l. f_equal. lia.
      * f_equal.
    + rewrite Hv. destruct (c =? fst (HashExtract t d h r));
        [apply s64_range|exact HC].
Qed.

(** X24.  A counter after a stream: the counter of row [r] and column [c]
    holds what it held before plus the signs of the hashes of the stream that
    [HashExtract] sends to column [c] in row [r], reduced to [int64_t].  The
    net sum is at most the stream length in absolute value, so a counter that
    starts at zero holds the exact sum for every stream shorter than
    [2^63]. *)
Theorem counter_adds_the_signs_of_its_hashes (C : list Z) (hs : list Z)
    (r c : Z) :
  0 < t -> 0 <= d -> length C = Z.to_nat (t * d) ->
  0 <= r < d -> 0 <= c < t ->
  - 2 ^ 63 <= C !!! counter t r c < 2 ^ 63 ->
  Insert_hashes t d C hs !!! counter t r c =
    s64 (C !!! counter t r c + net t d hs r c) /\
  Z.abs (net t d hs r c) <= Z.of_nat (length hs) /\
  (C !!! counter t r c = 0 -> Z.of_nat (length hs) < 2 ^ 63 ->
   Insert_hashes t d C hs !!! counter t r c = net t d hs r c).
Proof.
  intros Ht Hd Hlen Hr Hc HC.
  pose proof (Insert_hashes_cell hs r c Ht Hd Hr Hc C Hlen HC) as Hmain.
  pose proof (net_bound hs r c Ht) as Hb.
  split; [exact Hmain|]. split; [exact Hb|].
  intros H0 Hn. rewrite Hmain, H0, Z.add_0_l. apply s64_small. lia.
Qed.

End CountSketch.

Lemma Insert_order_irrelevant_witness :
  Insert_hashes 8 3 (replicate 24 0) [11; 22; 33] =
  Insert_hashes 8 3 (replicate 24 0) [33; 11; 22].
Proof.
  apply (Insert_order_irrelevant 8 3 (replicate 24 0) [11; 22; 33]
           [33; 11; 22]); try lia.
  - reflexivity.
  - change [33; 11; 22] with ([33] ++ [11; 22]).
    change [11; 22; 33] with ([11; 22] ++ [33]). apply Permutation_app_comm.
Defined.

Lemma Insert_moves_one_counter_witness :
  let C := replicate 24 5 in
  let h := fst (HashExtract 8 3 1234567 1) in
  let sign := snd (HashExtract 8 3 1234567 1) in
  length (Insert_hash 8 3 1234567 C) = length C /\
  0 <= h /\ 2 * h < 8 /\ (sign = 1 \/ sign = -1) /\
  Insert_hash 8 3 1234567 C !!! counter 8 1 2 =
    if 2 =? h then s64 (C !!! counter 8 1 2 + sign) else C !!! counter 8 1 2.
Proof.
  intros C.
  apply (Insert_moves_one_counter_per_row 8 3 1234567 C 1 2); try lia.
  reflexivity.
Defined.

(** The theorem for a sketch of 3 rows of 8 counters that starts at zero and
    a stream of four hashes. *)
Lemma counter_adds_the_signs_witness :
  let C := replicate 24 0 in
  let hs := [1234567; 7654321; 1234567; 400] in
  Insert_hashes 8 3 C hs !!! counter 8 1 0 =
    s64 (C !!! counter 8 1 0 + net 8 3 hs 1 0) /\
  Z.abs (net 8 3 hs 1 0) <= Z.of_nat (length hs) /\
  (C !!! counter 8 1 0 = 0 -> Z.of_nat (length hs) < 2 ^ 63 ->
   Insert_hashes 8 3 C hs !!! counter 8 1 0 = net 8 3 hs 1 0).
Proof.
  intros C hs.
  apply (counter_adds_the_signs_of_its_hashes 8 3 C hs 1 0); try lia.
  - reflexivity.
  - vm_compute. split; [discriminate|reflexivity].
Defined.

End CSMore.

(** ** [fastrange] and the count sketches with one seed per row *)

Module CSVariants.
Import CS CSStream CSSeeded FastRange CSMore Bits.

(** [fastrange] is the floor of [word * p / 2^w]. *)
Lemma fastrange64_floor (word p : Z) :
  0 <= word < 2 ^ 64 -> 0 <= p < 2 ^ 64 ->
  fastrange64 word p = word * p / 2 ^ 64.
Proof.
  intros Hw Hp. unfold fastrange64, u128.
  assert (Hprod : 0 <= word * p <= (2 ^ 64 - 1) * (2 ^ 64 - 1))
    by (split; [apply Z.mul_nonneg_nonneg|apply Z.mul_le_mono_nonneg]; lia).
  rewrite (Z.mod_small word), (Z.mod_small p) by lia.
  rewrite (Z.mod_small (word * p)) by lia.
  rewrite Z.shiftr_div_pow2 by lia.
  apply u64_small. split.
  - apply Z.div_pos; lia.
  - apply Z.div_lt_upper_bound; lia.
Qed.

Lemma fastrange32_floor (word p : Z) :
  0 <= word < 2 ^ 32 -> 0 <= p < 2 ^ 32 ->
  fastrange32 word p = word * p / 2 ^ 32.
Proof.
  intros Hw Hp. unfold fastrange32, u64.
  assert (Hprod : 0 <= word * p <= (2 ^ 32 - 1) * (2 ^ 32 - 1))
    by (split; [apply Z.mul_nonneg_nonneg|apply Z.mul_le_mono_nonneg]; lia).
  rewrite (Z.mod_small word), (Z.mod_small p) by lia.
  rewrite (Z.mod_small (word * p)) by lia.
  rewrite Z.shiftr_div_pow2 by lia.
  apply u32_small. split.
  - apply Z.div_pos; lia.
  - apply Z.div_lt_upper_bound; lia.
Qed.

Lemma floor_scaled (w word word' p r : Z) :
  0 < w -> 0 <= word < w -> 0 <= p ->
  (0 < p -> 0 <= word * p / w < p) /\
  (p = 0 -> word * p / w = 0) /\
  (word <= word' -> word * p / w <= word' * p / w) /\
  (word * p / w = r <-> r * w <= word * p < (r + 1) * w).
Proof.
  intros Hw Hword Hp.
  split; [|split; [|split; [|split]]].
  - intros Hpos. split.
    + apply Z.div_pos; nia.
    + apply Z.div_lt_upper_bound; nia.
  - intros ->. now rewrite Z.mul_0_r.
  - intros Hle. apply Z.div_le_mono; nia.
  - intros <-. pose proof (Z.mul_div_le (word * p) w Hw).
    pose proof (Z.mul_succ_div_gt (word * p) w Hw). lia.
  - intros [Hlo Hhi]. symmetry.
    apply Z.div_unique with (word * p - r * w); lia.
Qed.

(** X20.  [fastrange32] and [fastrange64] return the floor of
    [word * p / 2^w]: a value below [p] (and 0 when [p] is 0), that does not
    decrease when [word] grows; the words sent to [r] are those with
    [r * 2^w <= word * p < (r + 1) * 2^w], an interval. *)
Theorem fastrange_maps_into_the_range (word word' p r : Z) :
  (0 <= word < 2 ^ 64 -> 0 <= p < 2 ^ 64 ->
   (0 < p -> 0 <= fastrange64 word p < p) /\
   (p = 0 -> fastrange64 word p = 0) /\
   (word <= word' < 2 ^ 64 -> fastrange64 word p <= fastrange64 word' p) /\
   (fastrange64 word p = r <->
    r * 2 ^ 64 <= word * p < (r + 1) * 2 ^ 64)) /\
  (0 <= word < 2 ^ 32 -> 0 <= p < 2 ^ 32 ->
   (0 < p -> 0 <= fastrange32 word p < p) /\
   (p = 0 -> fastrange32 word p = 0) /\
   (word <= word' < 2 ^ 32 -> fastrange32 word p <= fastrange32 word' p) /\
   (fastrange32 word p = r <->
    r * 2 ^ 32 <= word * p < (r + 1) * 2 ^ 32)).
Proof.
  split; intros Hw Hp.
  - rewrite fastrange64_floor by assumption.
    destruct (floor_scaled (2 ^ 64) word word' p r ltac:(lia) Hw ltac:(lia))
      as (H1 & H2 & H3 & H4).
    split; [exact H1|]. split; [exact H2|]. split; [|exact H4].
    intros Hw'. rewrite fastrange64_floor by lia. apply H3. lia.
  - rewrite fastrange32_floor by assumption.
    destruct (floor_scaled (2 ^ 32) word word' p r ltac:(lia) Hw ltac:(lia))
      as (H1 & H2 & H3 & H4).
    split; [exact H1|]. split; [exact H2|]. split; [|exact H4].
    intros Hw'. rewrite fastrange32_floor by lia. apply H3. lia.
Qed.

Lemma fastrange_witness :
  0 <= fastrange64 (2 ^ 63) 2048 < 2048 /\
  fastrange64 (2 ^ 63) 2048 <= fastrange64 (2 ^ 63 + 5) 2048 /\
  0 <= fastrange32 12345 96 < 96.
Proof.
  pose proof (fastrange_maps_into_the_range (2 ^ 63) (2 ^ 63 + 5) 2048 0)
    as [H64 _].
  pose proof (fastrange_maps_into_the_range 12345 12345 96 0) as [_ H32].
  destruct (H64 ltac:(lia) ltac:(lia)) as (Ha & _ & Hb & _).
  destruct (H32 ltac:(lia) ltac:(lia)) as (Hc & _).
  split; [apply Ha; lia|]. split; [apply Hb; lia|apply Hc; lia].
Defined.

Section CountSketch.

Variables t d : Z.

Lemma fixed_size_loop_rows (value : Hash.key) (seeds : list Z) (n : nat) :
  forall (i : Z) (C : list Z),
  fixed_size_loop t value seeds n i C =
  row_loop t (fixed_size_cell t value seeds) n i C.
Proof.
  induction n as [|n IH]; intros i C; [reflexivity|].
  cbn [fixed_size_loop row_loop]. now rewrite IH.
Qed.

Lemma fastrange_loop_rows (value : Hash.key) (seeds : list Z) (n : nat) :
  forall (i : Z) (C : list Z),
  fastrange_loop t value seeds n i C =
  row_loop t (fastrange_cell t value seeds) n i C.
Proof.
  induction n as [|n IH]; intros i C; [reflexivity|].
  cbn [fastrange_loop row_loop]. now rewrite IH.
Qed.

Lemma row_loop_spec (cell : Z -> Z * Z) (n : nat) :
  forall (j : Z) (C : list Z) (r c : Z),
  0 < t -> (forall i, 0 <= fst (cell i) < t) ->
  0 <= j -> j + Z.of_nat n <= d ->
  length C = Z.to_nat (t * d) -> 0 <= r < d -> 0 <= c < t ->
  length (row_loop t cell n j C) = length C /\
  row_loop t cell n j C !!! counter t r c =
  if (j <=? r) && (r <? j + Z.of_nat n) && (c =? fst (cell r))
  then s64 (C !!! counter t r c + snd (cell r))
  else C !!! counter t r c.
Proof.
  induction n as [|n IH]; intros j C r c Ht Hcell Hj Hn Hlen Hr Hc.
  - cbn [row_loop]. split; [reflexivity|].
    destruct (Z.leb_spec j r); destruct (Z.ltb_spec r (j + Z.of_nat 0));
      cbn [andb]; try reflexivity; lia.
  - cbn [row_loop].
    pose proof (Hcell j) as Hh.
    set (h := fst (cell j)) in *. set (sign := snd (cell j)).
    unfold add_counter. fold (counter t j h).
    destruct (IH (j + 1)
                (<[counter t j h := s64 (C !!! counter t j h + sign)]> C)
                r c) as [Hl Hv]; try lia; rewrite ?length_insert; try lia;
      try assumption.
    split; [now rewrite Hl, length_insert|]. rewrite Hv.
    pose proof (counter_lt t d j h Ht ltac:(lia) ltac:(lia)) as Hidx.
    destruct (Z.eq_dec r j) as [->|Hrj].
    + fold h. fold sign.
      destruct (Z.leb_spec (j + 1) j); [lia|].
      destruct (Z.leb_spec j j); [|lia].
      destruct (Z.ltb_spec j (j + Z.of_nat (S n))); [|lia]. cbn [andb].
      destruct (Z.eqb_spec c h) as [->|Hch].
      * apply list_lookup_total_insert_eq. lia.
      * apply list_lookup_total_insert_ne. intros Heq.
        apply (counter_inj t) in Heq; lia.
    + rewrite list_lookup_total_insert_ne
        by (intros Heq; apply (counter_inj t) in Heq; lia).
      destruct (Z.leb_spec (j + 1) r); destruct (Z.leb_spec j r);
        destruct (Z.ltb_spec r (j + 1 + Z.of_nat n));
        destruct (Z.ltb_spec r (j + Z.of_nat (S n))); cbn [andb];
        try reflexivity; lia.
Qed.

Lemma sign_of_cases (hash : Z) : sign_of hash = 1 \/ sign_of hash = -1.
Proof. unfold sign_of. destruct (negb _); [now left|now right]. Qed.

(** X21.  One insert into [fixed_size::CountSketch] or into
    [fastrange::CountSketch] with [t > 0]: the array keeps its size, and in
    every row [r] exactly one counter moves, by [+1] or [-1] as bit 127 of
    the hash of the row says; its column, the low 64 bits of that hash taken
    modulo [t] in the one and through [fastrange64] in the other, lies
    inside the row. *)
Theorem seeded_insert_moves_one_counter_per_row (value : Hash.key)
    (seeds : list Z) (C : list Z) (r c : Z) :
  0 < t < 2 ^ 64 -> 0 <= d -> length C = Z.to_nat (t * d) ->
  0 <= r < d -> 0 <= c < t ->
  let hash := Hash.Hash value (u64 (seeds !!! Z.to_nat r)) in
  let h1 := u64 hash mod t in
  let h2 := fastrange64 (u64 hash) t in
  (length (fixed_size_Insert t d value seeds C) = length C /\
   0 <= h1 < t /\
   fixed_size_Insert t d value seeds C !!! counter t r c =
     if c =? h1 then s64 (C !!! counter t r c + sign_of hash)
     else C !!! counter t r c) /\
  (length (fastrange_Insert t d value seeds C) = length C /\
   0 <= h2 < t /\
   fastrange_Insert t d value seeds C !!! counter t r c =
     if c =? h2 then s64 (C !!! counter t r c + sign_of hash)
     else C !!! counter t r c) /\
  (sign_of hash = 1 \/ sign_of hash = -1).
Proof.
  intros Ht Hd Hlen Hr Hc hash h1 h2.
  assert (Hu : forall x, 0 <= u64 x < 2 ^ 64)
    by (intros x; unfold u64; apply Z.mod_pos_bound; lia).
  assert (H1 : forall i, 0 <= fst (fixed_size_cell t value seeds i) < t).
  { intros i. cbn [fixed_size_cell fst]. apply Z.mod_pos_bound. lia. }
  assert (H2 : forall i, 0 <= fst (fastrange_cell t value seeds i) < t).
  { intros i. cbn [fastrange_cell fst].
    rewrite fastrange64_floor by (auto || lia).
    apply (floor_scaled (2 ^ 64) _ 0 t 0); auto; lia. }
  split; [|split; [|apply sign_of_cases]].
  - unfold fixed_size_Insert. rewrite fixed_size_loop_rows.
    destruct (row_loop_spec (fixed_size_cell t value seeds) (Z.to_nat d) 0 C
                r c) as [Hl Hv]; try lia; try assumption.
    split; [exact Hl|]. split; [apply (H1 r)|]. rewrite Hv.
    destruct (Z.leb_spec 0 r); [|lia].
    destruct (Z.ltb_spec r (0 + Z.of_nat (Z.to_nat d))); [|lia].
    reflexivity.
  - unfold fastrange_Insert. rewrite fastrange_loop_rows.
    destruct (row_loop_spec (fastrange_cell t value seeds) (Z.to_nat d) 0 C
                r c) as [Hl Hv]; try lia; try assumption.
    split; [exact Hl|]. split; [apply (H2 r)|]. rewrite Hv.
    destruct (Z.leb_spec 0 r); [|lia].
    destruct (Z.ltb_spec r (0 + Z.of_nat (Z.to_nat d))); [|lia].
    reflexivity.
Qed.

End CountSketch.

(** A sketch of 3 rows of 8 counters, the key [42] of type [int32_t]. *)
Lemma seeded_insert_witness :
  let t := 8 in
  let d := 3 in
  let value := Hash.KInt32 42 in
  let seeds := [1; 2; 3] in
  let C := replicate 24 0 in
  let hash := Hash.Hash value (u64 (seeds !!! Z.to_nat 1)) in
  let h1 := u64 hash mod t in
  let h2 := fastrange64 (u64 hash) t in
  (length (fixed_size_Insert t d value seeds C) = length C /\
   0 <= h1 < t /\
   fixed_size_Insert t d value seeds C !!! counter t 1 0 =
     if 0 =? h1 then s64 (C !!! counter t 1 0 + sign_of hash)
     else C !!! counter t 1 0) /\
  (length (fastrange_Insert t d value seeds C) = length C /\
   0 <= h2 < t /\
   fastrange_Insert t d value seeds C !!! counter t 1 0 =
     if 0 =? h2 then s64 (C !!! counter t 1 0 + sign_of hash)
     else C !!! counter t 1 0) /\
  (sign_of hash = 1 \/ sign_of hash = -1).
Proof.
  intros t d value seeds C.
  refine (seeded_insert_moves_one_counter_per_row t d value seeds C 1 0
            _ _ _ _ _); unfold t, d; try lia.
  reflexivity.
Defined.

End CSVariants.

(** ** The Count-Min baseline: what the constructor accepts and what the
    counters hold *)

Module CountMinProofs.
Import CountMin CountMinSpec Bits.

(** The update locations, one per seed: row [k + j] and the bucket of the
    [j]-th seed. *)
Lemma get_hashes_loop_lookup (nb : Z) (item : list Z) (size : Z)
    (seeds : list Z) :
  forall k : Z, 0 < nb < 2 ^ 32 -> 0 <= k ->
  k + Z.of_nat (length seeds) <= 2 ^ 8 ->
  length (get_hashes_loop nb item size seeds k) = length seeds /\
  forall (j : nat) (it : Z), seeds !! j = Some it ->
    get_hashes_loop nb item size seeds k !! j =
    Some ((k + Z.of_nat j) * nb +
          u64 (Murmur.MurmurHash3_x64_128 item size it) mod nb).
Proof.
  induction seeds as [|it0 seeds IH]; intros k Hnb Hk Hlen.
  - split; [reflexivity|]. intros j it Hj. discriminate.
  - cbn [get_hashes_loop length] in *.
    assert (Hk1 : u64 (k + 1) = k + 1) by (apply u64_small; lia).
    rewrite Hk1.
    destruct (IH (k + 1) Hnb ltac:(lia) ltac:(lia)) as [Hl Hlook].
    split; [now rewrite Hl|].
    intros [|j] it Hj; simpl in Hj |- *.
    + injection Hj as ->. f_equal.
      pose proof (Z.mod_pos_bound
                    (u64 (Murmur.MurmurHash3_x64_128 item size it)) nb
                    ltac:(lia)) as Hb.
      assert (Hrow : 0 <= k * nb < 2 ^ 8 * 2 ^ 32) by nia.
      rewrite (u64_small (k * nb)) by lia.
      rewrite u64_small by lia. f_equal. lia.
    + rewrite (Hlook j it Hj). f_equal. f_equal. lia.
Qed.

(** The loop of [update] runs through exactly when every location lies
    inside the array. *)
Lemma add_weight_Some (locs : list Z) (w : Z) :
  forall a a' : list Z, add_weight a locs w = Some a' ->
  length a' = length a /\
  Forall (fun h => (Z.to_nat h < length a)%nat) locs.
Proof.
  induction locs as [|h locs IH]; intros a a' Ha.
  - injection Ha as <-. split; [reflexivity|constructor].
  - cbn [add_weight] in Ha.
    destruct (bool_decide _) eqn:Hb in Ha; [|discriminate].
    apply bool_decide_eq_true_1 in Hb.
    apply IH in Ha as [Hl Hall]. rewrite length_insert in Hl, Hall.
    split; [exact Hl|]. constructor; assumption.
Qed.

Lemma add_weight_cells (locs : list Z) (w : Z) :
  forall a : list Z,
  Forall (fun h => 0 <= h /\ (Z.to_nat h < length a)%nat) locs ->
  NoDup locs ->
  exists a', add_weight a locs w = Some a' /\ length a' = length a /\
    forall p : nat, (p < length a)%nat ->
      a' !!! p =
      if bool_decide (Z.of_nat p ∈ locs) then u64 (a !!! p + w) else a !!! p.
Proof.
  induction locs as [|h locs IH]; intros a Hall Hnd.
  - exists a. split; [reflexivity|]. split; [reflexivity|].
    intros p Hp. rewrite bool_decide_eq_false_2; [reflexivity|].
    apply not_elem_of_nil.
  - apply Forall_cons in Hall as [[Hh0 Hh] Hall].
    apply NoDup_cons in Hnd as [Hfresh Hnd].
    cbn [add_weight]. rewrite bool_decide_eq_true_2 by exact Hh.
    destruct (IH (<[Z.to_nat h := u64 (a !!! Z.to_nat h + w)]> a))
      as (a' & Ha' & Hl & Hcells).
    { eapply Forall_impl; [exact Hall|]. cbn. intros x Hx.
      now rewrite length_insert. }
    { exact Hnd. }
    rewrite length_insert in Hl, Hcells.
    exists a'. split; [exact Ha'|]. split; [exact Hl|].
    intros p Hp. rewrite (Hcells p Hp).
    destruct (Z.eq_dec (Z.of_nat p) h) as [<-|Hne].
    + rewrite Nat2Z.id.
      rewrite bool_decide_eq_false_2 by exact Hfresh.
      rewrite bool_decide_eq_true_2 by apply list_elem_of_here.
      apply list_lookup_total_insert_eq. exact Hp.
    + rewrite list_lookup_total_insert_ne by lia.
      destruct (bool_decide (Z.of_nat p ∈ locs)) eqn:Hin.
      * apply bool_decide_eq_true_1 in Hin.
        rewrite bool_decide_eq_true_2; [reflexivity|].
        now apply list_elem_of_further.
      * apply bool_decide_eq_false_1 in Hin.
        rewrite bool_decide_eq_false_2; [reflexivity|].
        intros Hin'. apply elem_of_cons in Hin' as [Heq|Hin']; congruence.
Qed.

Lemma hits_bounds (nb : Z) (seeds : list Z) (r c : Z)
    (xs : list (list Z)) :
  0 <= hits nb seeds r c xs <= Z.of_nat (length xs).
Proof.
  unfold hits. pose proof (filter_length_le
    (fun item => bucket nb seeds r item =? c) xs). lia.
Qed.

Lemma hits_snoc (nb : Z) (seeds : list Z) (r c : Z) (xs : list (list Z))
    (x : list Z) :
  hits nb seeds r c (xs ++ [x]) =
  hits nb seeds r c xs + (if c =? bucket nb seeds r x then 1 else 0).
Proof.
  unfold hits. rewrite List.filter_app, length_app. cbn [List.filter].
  rewrite (Z.eqb_sym c).
  destruct (bucket nb seeds r x =? c); cbn [length]; lia.
Qed.

Lemma hits_occurrences (nb : Z) (seeds : list Z) (r : Z) (x : list Z)
    (xs : list (list Z)) :
  occurrences x xs <= hits nb seeds r (bucket nb seeds r x) xs.
Proof.
  unfold occurrences, hits. induction xs as [|y xs IH]; [reflexivity|].
  cbn [List.filter].
  destruct (bool_decide (y = x)) eqn:Hy.
  - apply bool_decide_eq_true_1 in Hy. subst y. rewrite Z.eqb_refl.
    cbn [length]. lia.
  - destruct (_ =? _); cbn [length]; lia.
Qed.

Lemma bucket_range (nb : Z) (seeds : list Z) (r : Z) (item : list Z) :
  0 < nb -> 0 <= bucket nb seeds r item < nb.
Proof. intros Hnb. unfold bucket. now apply Z.mod_pos_bound. Qed.

Section Sketch.

Variables nh nb : Z.
Variable seeds : list Z.
Hypothesis Hnh : 0 <= nh < 2 ^ 8.
Hypothesis Hnb : 0 < nb < 2 ^ 32.
Hypothesis Hseeds : length seeds = Z.to_nat nh.

Lemma locations_lookup (item : list Z) (j : nat) :
  (j < Z.to_nat nh)%nat ->
  get_hashes_loop nb item (Z.of_nat (length item)) seeds 0 !! j =
  Some (location nb seeds (Z.of_nat j) item).
Proof.
  intros Hj.
  destruct (get_hashes_loop_lookup nb item (Z.of_nat (length item)) seeds 0
              Hnb ltac:(lia) ltac:(lia)) as [_ Hlook].
  assert (Hit : seeds !! j = Some (seeds !!! j))
    by (apply list_lookup_lookup_total_lt; lia).
  rewrite (Hlook j _ Hit). unfold location, bucket.
  now rewrite Nat2Z.id.
Qed.

Lemma locations_elem (item : list Z) (h : Z) :
  h ∈ get_hashes_loop nb item (Z.of_nat (length item)) seeds 0 <->
  exists r, 0 <= r < nh /\ h = location nb seeds r item.
Proof.
  destruct (get_hashes_loop_lookup nb item (Z.of_nat (length item)) seeds 0
              Hnb ltac:(lia) ltac:(lia)) as [Hlen _].
  split.
  - intros Hin. apply list_elem_of_lookup in Hin as [j Hj].
    assert (Hjn : (j < Z.to_nat nh)%nat)
      by (apply lookup_lt_Some in Hj; lia).
    rewrite (locations_lookup item j Hjn) in Hj. injection Hj as <-.
    exists (Z.of_nat j). split; [lia|reflexivity].
  - intros (r & Hr & ->).
    apply list_elem_of_lookup. exists (Z.to_nat r).
    rewrite locations_lookup by lia. now rewrite Z2Nat.id by lia.
Qed.

Lemma location_inj (r r' : Z) (item : list Z) (c : Z) :
  0 <= r -> 0 <= r' -> 0 <= c < nb ->
  r * nb + c = location nb seeds r' item ->
  r = r' /\ c = bucket nb seeds r' item.
Proof.
  intros Hr Hr' Hc Heq. unfold location in Heq.
  pose proof (bucket_range nb seeds r' item ltac:(lia)) as Hb.
  assert (r = r') by nia. subst r'. split; [reflexivity|lia].
Qed.

Lemma locations_NoDup (item : list Z) :
  NoDup (get_hashes_loop nb item (Z.of_nat (length item)) seeds 0).
Proof.
  destruct (get_hashes_loop_lookup nb item (Z.of_nat (length item)) seeds 0
              Hnb ltac:(lia) ltac:(lia)) as [Hlen _].
  apply NoDup_alt. intros i j h Hi Hj.
  assert (Hin : (i < Z.to_nat nh)%nat) by (apply lookup_lt_Some in Hi; lia).
  assert (Hjn : (j < Z.to_nat nh)%nat) by (apply lookup_lt_Some in Hj; lia).
  rewrite locations_lookup in Hi by exact Hin.
  rewrite locations_lookup in Hj by exact Hjn.
  injection Hi as <-. unfold location at 1 in Hj.
  pose proof (bucket_range nb seeds (Z.of_nat i) item ltac:(lia)) as Hb.
  injection Hj as Hj. symmetry in Hj.
  apply location_inj in Hj as [Hij _]; lia.
Qed.

(** One insert into a sketch whose array has [nh * nb] counters. *)
Lemma Insert_counts (s : sketch) (xs : list (list Z)) (x : list Z) :
  counts nh nb seeds s xs -> Z.of_nat (length xs) + 1 < 2 ^ 64 ->
  exists s', Insert s x = Some s' /\ counts nh nb seeds s' (xs ++ [x]).
Proof.
  intros (Hh & Hb & Hs & Hlen & Htot & Hcells) Hn.
  unfold Insert, update, get_hashes. rewrite Hb, Hs.
  destruct (add_weight_cells
              (get_hashes_loop nb x (Z.of_nat (length x)) seeds 0) 1
              (_sketch_array s)) as (a' & Ha' & Hl & Hnew).
  { apply Forall_forall. intros h Hin.
    apply locations_elem in Hin as (r & Hr & ->). unfold location.
    pose proof (bucket_range nb seeds r x ltac:(lia)) as Hbr. split; [nia|].
    rewrite Hlen. assert (r * nb + bucket nb seeds r x < nh * nb) by nia.
    assert (0 <= r * nb) by nia. lia. }
  { apply locations_NoDup. }
  rewrite Ha'. eexists. split; [reflexivity|].
  split; [exact Hh|]. split; [reflexivity|]. split; [reflexivity|].
  cbn [_sketch_array _total_weight].
  split; [now rewrite Hl|]. split.
  - rewrite Htot, length_app. cbn [length]. rewrite u64_small; lia.
  - intros r c Hr Hc.
    assert (Hp : (Z.to_nat (r * nb + c) < length (_sketch_array s))%nat).
    { rewrite Hlen. assert (r * nb + c < nh * nb) by nia.
      assert (0 <= r * nb) by nia. lia. }
    rewrite (Hnew _ Hp), (Hcells r c Hr Hc), hits_snoc.
    assert (Hidx : Z.of_nat (Z.to_nat (r * nb + c)) = r * nb + c).
    { assert (0 <= r * nb) by nia. lia. }
    rewrite Hidx.
    pose proof (hits_bounds nb seeds r c xs) as Hhb.
    destruct (Z.eqb_spec c (bucket nb seeds r x)) as [Hcb|Hcb].
    + rewrite bool_decide_eq_true_2.
      * apply u64_small. lia.
      * apply locations_elem. exists r. split; [exact Hr|].
        unfold location. now rewrite Hcb.
    + rewrite bool_decide_eq_false_2; [lia|].
      intros Hin. apply locations_elem in Hin as (r' & Hr' & Heq).
      apply location_inj in Heq as [-> Heq]; [congruence|lia..].
Qed.

Lemma count_min_Insert_all (items : list (list Z)) :
  forall (s : sketch) (xs : list (list Z)),
  counts nh nb seeds s xs ->
  Z.of_nat (length xs) + Z.of_nat (length items) < 2 ^ 64 ->
  exists s', Insert_all s items = Some s' /\
    counts nh nb seeds s' (xs ++ items).
Proof.
  induction items as [|x items IH]; intros s xs Hs Hn.
  - exists s. rewrite app_nil_r. split; [reflexivity|exact Hs].
  - cbn [length] in Hn.
    destruct (Insert_counts s xs x Hs ltac:(lia)) as (s1 & Hs1 & Hc1).
    destruct (IH s1 (xs ++ [x]) Hc1) as (s' & Hs' & Hc').
    { rewrite length_app. cbn [length]. lia. }
    exists s'. cbn [Insert_all]. rewrite Hs1.
    split; [exact Hs'|]. now rewrite <- app_assoc in Hc'.
Qed.

End Sketch.

(** What the constructor accepts, and the sketch it builds. *)
Lemma CountMinSketch_cases (draws : nat -> Z) (nh nb seed : Z) :
  0 <= nh < 2 ^ 8 -> 0 <= nb < 2 ^ 32 ->
  (3 <= nb /\ u32 (nh * nb) < 2 ^ 30 /\
   CountMinSketch draws nh nb seed =
     Some {| _num_hashes := nh; _num_buckets := nb;
             _sketch_array := replicate (Z.to_nat (u32 (nh * nb))) 0;
             _seed := seed; _total_weight := 0;
             hash_seeds := map (fun i => u64 (draws i + seed))
                               (seq 0 (Z.to_nat nh)) |}) \/
  ((nb < 3 \/ 2 ^ 30 <= u32 (nh * nb)) /\
   CountMinSketch draws nh nb seed = None).
Proof.
  intros Hnh Hnb. unfold CountMinSketch.
  change (Z.shiftl 1 30) with (2 ^ 30).
  rewrite (Z.mul_comm nb nh).
  destruct (Z.ltb_spec nb 3) as [Hlt|Hge]; [right; split; [lia|reflexivity]|].
  destruct (Z.leb_spec (2 ^ 30) (u32 (nh * nb))) as [Hbig|Hsmall].
  - right. split; [lia|reflexivity].
  - left. split; [lia|]. split; [lia|].
    destruct (Z.ltb_spec (u32 (nh * nb)) (2 ^ 30)); [reflexivity|lia].
Qed.

(** X26.  The Count-Min baseline.  The constructor accepts its parameters
    exactly when [num_buckets >= 3] and the product
    [num_hashes * num_buckets], computed in [unsigned int], is below [2^30].
    When the product does not wrap, every stream of fewer than [2^64] inserts
    runs through, [_total_weight] is the stream length and the counter of
    row [r] and bucket [c] holds the number of items row [r] sends to [c]:
    the counter of an item's bucket is never below its number of occurrences
    and never above the stream length.  When the product wraps past [2^32],
    the accepted sketch has too short an array and every insert indexes it
    out of bounds. *)
Theorem count_min_counts_bucket_hits (draws : nat -> Z) (nh nb seed : Z)
    (items : list (list Z)) :
  0 <= nh < 2 ^ 8 -> 0 <= nb < 2 ^ 32 ->
  ((exists s0, CountMinSketch draws nh nb seed = Some s0) <->
   3 <= nb /\ u32 (nh * nb) < 2 ^ 30) /\
  (forall s0, CountMinSketch draws nh nb seed = Some s0 ->
     (nh * nb < 2 ^ 32 -> Z.of_nat (length items) < 2 ^ 64 ->
      exists s, Insert_all s0 items = Some s /\
        _total_weight s = Z.of_nat (length items) /\
        (forall r c, 0 <= r < nh -> 0 <= c < nb ->
           _sketch_array s !!! Z.to_nat (r * nb + c) =
           hits nb (hash_seeds s0) r c items) /\
        (forall r x, 0 <= r < nh ->
           occurrences x items <=
             _sketch_array s !!!
               Z.to_nat (location nb (hash_seeds s0) r x) <=
             Z.of_nat (length items))) /\
     (2 ^ 32 <= nh * nb -> forall item, Insert s0 item = None)).
Proof.
  intros Hnh Hnb.
  destruct (CountMinSketch_cases draws nh nb seed Hnh Hnb)
    as [(Hnb3 & Hprod & Hctor)|(Hbad & Hctor)]; rewrite Hctor.
  2:{ split.
      - split; [intros [s0 Hs0]; discriminate|intros [? ?]; lia].
      - intros s0 Hs0. discriminate. }
  split; [split; [intros _; split; assumption|intros _; eexists; reflexivity]|].
  intros s0 Hs0. injection Hs0 as <-. cbn [hash_seeds].
  set (seeds := map (fun i => u64 (draws i + seed)) (seq 0 (Z.to_nat nh))).
  assert (Hseeds : length seeds = Z.to_nat nh)
    by (unfold seeds; now rewrite length_map, length_seq).
  split.
  - intros Hnowrap Hn.
    assert (Hu : u32 (nh * nb) = nh * nb).
    { unfold u32. apply Z.mod_small. nia. }
    rewrite Hu.
    destruct (count_min_Insert_all nh nb seeds Hnh ltac:(lia) Hseeds items
                {| _num_hashes := nh; _num_buckets := nb;
                   _sketch_array := replicate (Z.to_nat (nh * nb)) 0;
                   _seed := seed; _total_weight := 0;
                   hash_seeds := seeds |} [])
      as (s & Hs & Hc).
    { split; [reflexivity|]. split; [reflexivity|]. split; [reflexivity|].
      cbn [_sketch_array _total_weight length].
      split; [apply length_replicate|]. split; [reflexivity|].
      intros r c Hr Hc. unfold hits. cbn [List.filter length].
      apply lookup_total_replicate_2.
      assert (r * nb + c < nh * nb) by nia. assert (0 <= r * nb) by nia.
      lia. }
    { cbn [length]. lia. }
    rewrite app_nil_l in Hc.
    destruct Hc as (_ & _ & _ & _ & Htot & Hcells).
    exists s. split; [exact Hs|]. split; [exact Htot|].
    split; [exact Hcells|].
    intros r x Hr. unfold location.
    pose proof (bucket_range nb seeds r x ltac:(lia)) as Hb.
    rewrite (Hcells r _ Hr Hb).
    pose proof (hits_occurrences nb seeds r x items).
    pose proof (hits_bounds nb seeds r (bucket nb seeds r x) items). lia.
  - intros Hwrap item. unfold Insert, update, get_hashes.
    cbn [_sketch_array _num_buckets hash_seeds]. fold seeds.
    destruct (add_weight _ _ 1) as [a'|] eqn:Ha; [|reflexivity].
    exfalso. apply add_weight_Some in Ha as [_ Hall].
    rewrite length_replicate in Hall.
    assert (Hnh2 : 2 <= nh) by nia.
    assert (Hin : location nb seeds (nh - 1) item ∈
                  get_hashes_loop nb item (Z.of_nat (length item)) seeds 0).
    { apply (locations_elem nh nb seeds Hnh ltac:(lia) Hseeds).
      exists (nh - 1). split; [lia|reflexivity]. }
    apply (proj1 (Forall_forall _ _) Hall) in Hin.
    unfold location in Hin.
    pose proof (bucket_range nb seeds (nh - 1) item ltac:(lia)) as Hb.
    assert (2 ^ 31 <= (nh - 1) * nb) by nia.
    lia.
Qed.

(** The theorem for [CountMinSketch(3, 8, 9001)] and a stream of three
    4-byte keys, and for [CountMinSketch(4, 1 << 30)], whose product wraps
    to 0. *)
Lemma count_min_witness :
  let draws := fun i : nat => Z.of_nat i * 1000003 in
  let items := [[1; 0; 0; 0]; [2; 0; 0; 0]; [1; 0; 0; 0]] in
  (exists s0 s, CountMinSketch draws 3 8 9001 = Some s0 /\
     Insert_all s0 items = Some s /\
     _total_weight s = 3 /\
     (forall r, 0 <= r < 3 ->
        occurrences [1; 0; 0; 0] items <=
          _sketch_array s !!!
            Z.to_nat (location 8 (hash_seeds s0) r [1; 0; 0; 0]) <= 3)) /\
  (exists s0, CountMinSketch draws 4 (2 ^ 30) 9001 = Some s0 /\
     Insert s0 [1; 0; 0; 0] = None).
Proof.
  intros draws items. split.
  - destruct (count_min_counts_bucket_hits draws 3 8 9001 items
                ltac:(lia) ltac:(lia)) as [Hctor Hrun].
    destruct (proj2 Hctor) as [s0 Hs0].
    { split; [lia|]. vm_compute. reflexivity. }
    destruct (proj1 (Hrun s0 Hs0)) as (s & Hs & Htot & _ & Hocc).
    { lia. }
    { vm_compute. reflexivity. }
    exists s0, s. split; [exact Hs0|]. split; [exact Hs|].
    split; [exact Htot|]. intros r Hr. apply Hocc. exact Hr.
  - destruct (count_min_counts_bucket_hits draws 4 (2 ^ 30) 9001 []
                ltac:(lia) ltac:(lia)) as [Hctor Hrun].
    destruct (proj2 Hctor) as [s0 Hs0].
    { split; [lia|]. vm_compute. reflexivity. }
    exists s0. split; [exact Hs0|].
    apply (proj2 (Hrun s0 Hs0)). lia.
Defined.

End CountMinProofs.

(** ** MurmurHash3: the mixing steps are one-to-one *)

Module MurmurInjective.
Import Murmur Bits.

(** *** Arithmetic modulo [2^64] *)

Lemma u64_range (x : Z) : 0 <= u64 x < 2 ^ 64.
Proof. unfold u64. apply Z.mod_pos_bound. lia. Qed.

Lemma lxor_range (a b n : Z) :
  0 <= n -> 0 <= a < 2 ^ n -> 0 <= b < 2 ^ n -> 0 <= Z.lxor a b < 2 ^ n.
Proof.
  intros Hn Ha Hb.
  assert (Hnn : 0 <= Z.lxor a b) by (apply Z.lxor_nonneg; lia).
  split; [exact Hnn|].
  destruct (Z.eq_dec (Z.lxor a b) 0) as [->|Hnz];
    [apply Z.pow_pos_nonneg; lia|].
  apply Z.log2_lt_pow2; [lia|].
  pose proof (Z.log2_lxor a b ltac:(lia) ltac:(lia)) as Hlog.
  destruct (Z.eq_dec a 0) as [->|Ha0];
    destruct (Z.eq_dec b 0) as [->|Hb0].
  - now rewrite Z.lxor_0_l in Hnz.
  - rewrite Z.lxor_0_l. apply Z.log2_lt_pow2; lia.
  - rewrite Z.lxor_0_r. apply Z.log2_lt_pow2; lia.
  - assert (Z.log2 a < n) by (apply Z.log2_lt_pow2; lia).
    assert (Z.log2 b < n) by (apply Z.log2_lt_pow2; lia). lia.
Qed.

Lemma lxor_cancel_l (a b c : Z) : Z.lxor a b = Z.lxor a c -> b = c.
Proof.
  intros Heq.
  rewrite <- (Z.lxor_0_l b), <- (Z.lxor_0_l c), <- (Z.lxor_nilpotent a).
  rewrite !Z.lxor_assoc. now rewrite Heq.
Qed.

Lemma lxor_cancel_r (a b c : Z) : Z.lxor b a = Z.lxor c a -> b = c.
Proof. rewrite !(Z.lxor_comm _ a). apply lxor_cancel_l. Qed.

Lemma lor_range (a b n : Z) :
  0 <= n -> 0 <= a < 2 ^ n -> 0 <= b < 2 ^ n -> 0 <= Z.lor a b < 2 ^ n.
Proof.
  intros Hn Ha Hb.
  assert (Hnn : 0 <= Z.lor a b) by (apply Z.lor_nonneg; lia).
  split; [exact Hnn|].
  destruct (Z.eq_dec (Z.lor a b) 0) as [->|Hnz];
    [apply Z.pow_pos_nonneg; lia|].
  apply Z.log2_lt_pow2; [lia|].
  rewrite Z.log2_lor by lia.
  destruct (Z.eq_dec a 0) as [->|Ha0];
    destruct (Z.eq_dec b 0) as [->|Hb0].
  - now rewrite Z.lor_0_l in Hnz.
  - cbn. assert (Z.log2 b < n) by (apply Z.log2_lt_pow2; lia).
    pose proof (Z.log2_nonneg b). lia.
  - cbn. assert (Z.log2 a < n) by (apply Z.log2_lt_pow2; lia).
    pose proof (Z.log2_nonneg a). lia.
  - assert (Z.log2 a < n) by (apply Z.log2_lt_pow2; lia).
    assert (Z.log2 b < n) by (apply Z.log2_lt_pow2; lia). lia.
Qed.

(** Adding a constant is one-to-one. *)
Lemma u64_add_inj_r (a b c : Z) : u64 (a + c) = u64 (b + c) -> u64 a = u64 b.
Proof.
  unfold u64. intros Heq.
  apply (f_equal (fun x => (x - c) mod 2 ^ 64)) in Heq. cbv beta in Heq.
  rewrite !Zminus_mod_idemp_l in Heq.
  now replace (a + c - c) with a in Heq by lia;
    replace (b + c - c) with b in Heq by lia.
Qed.

Lemma u64_add_cancel_r (a b c : Z) :
  0 <= a < 2 ^ 64 -> 0 <= b < 2 ^ 64 -> u64 (a + c) = u64 (b + c) -> a = b.
Proof.
  intros Ha Hb Heq. apply u64_add_inj_r in Heq.
  now rewrite !u64_small in Heq.
Qed.

Lemma u64_add_cancel_l (a b c : Z) :
  0 <= a < 2 ^ 64 -> 0 <= b < 2 ^ 64 -> u64 (c + a) = u64 (c + b) -> a = b.
Proof. rewrite !(Z.add_comm c). apply u64_add_cancel_r. Qed.

(** Multiplying by a constant that has an inverse is one-to-one. *)
Lemma u64_mul_cancel (c cinv a b : Z) :
  u64 (c * cinv) = 1 -> 0 <= a < 2 ^ 64 -> 0 <= b < 2 ^ 64 ->
  u64 (a * c) = u64 (b * c) -> a = b.
Proof.
  intros Hinv Ha Hb Heq.
  assert (Hback : forall x, 0 <= x < 2 ^ 64 -> u64 (u64 (x * c) * cinv) = x).
  { intros x Hx. unfold u64 in *.
    rewrite Z.mul_mod_idemp_l by lia.
    rewrite <- Z.mul_assoc, <- Z.mul_mod_idemp_r by lia.
    rewrite Hinv, Z.mul_1_r. apply Z.mod_small. exact Hx. }
  rewrite <- (Hback a Ha), <- (Hback b Hb). now rewrite Heq.
Qed.

(** *** [k ^= k >> 33] *)

Lemma xorshift33_range (x : Z) :
  0 <= x < 2 ^ 64 -> 0 <= Z.lxor x (Z.shiftr x 33) < 2 ^ 64.
Proof.
  intros Hx. apply lxor_range; [lia|exact Hx|].
  rewrite Z.shiftr_div_pow2 by lia. split.
  - apply Z.div_pos; lia.
  - apply Z.div_lt_upper_bound; lia.
Qed.

Lemma xorshift33_involutive (x : Z) :
  0 <= x < 2 ^ 64 ->
  let y := Z.lxor x (Z.shiftr x 33) in
  Z.lxor y (Z.shiftr y 33) = x.
Proof.
  intros Hx y. unfold y.
  rewrite Z.shiftr_lxor, Z.shiftr_shiftr by lia.
  assert (Hhigh : Z.shiftr x (33 + 33) = 0).
  { rewrite Z.shiftr_div_pow2 by lia. apply Z.div_small. lia. }
  rewrite Hhigh, Z.lxor_0_r.
  rewrite Z.lxor_assoc, Z.lxor_nilpotent. apply Z.lxor_0_r.
Qed.

Lemma xorshift33_inj (a b : Z) :
  0 <= a < 2 ^ 64 -> 0 <= b < 2 ^ 64 ->
  Z.lxor a (Z.shiftr a 33) = Z.lxor b (Z.shiftr b 33) -> a = b.
Proof.
  intros Ha Hb Heq.
  rewrite <- (xorshift33_involutive a Ha), <- (xorshift33_involutive b Hb).
  cbv zeta. now rewrite Heq.
Qed.

(** ** [fmix64] *)

Lemma fmix64_range (k : Z) : 0 <= k < 2 ^ 64 -> 0 <= fmix64 k < 2 ^ 64.
Proof.
  intros Hk. unfold fmix64. cbv zeta.
  apply xorshift33_range, u64_range.
Qed.

Lemma fmix64_inj (a b : Z) :
  0 <= a < 2 ^ 64 -> 0 <= b < 2 ^ 64 -> fmix64 a = fmix64 b -> a = b.
Proof.
  intros Ha Hb. unfold fmix64. cbv zeta. intros Heq.
  apply xorshift33_inj in Heq; try apply u64_range.
  apply (u64_mul_cancel _ 0x9cb4b2f8129337db) in Heq;
    [|reflexivity|apply xorshift33_range, u64_range..].
  apply xorshift33_inj in Heq; try apply u64_range.
  apply (u64_mul_cancel _ 0x4f74430c22a54005) in Heq;
    [|reflexivity|apply xorshift33_range; assumption..].
  now apply xorshift33_inj in Heq.
Qed.

(** ** [rotl64] *)

Lemma rotl64_range (x r : Z) :
  0 <= x < 2 ^ 64 -> 0 <= r <= 64 -> 0 <= rotl64 x r < 2 ^ 64.
Proof.
  intros Hx Hr. unfold rotl64. apply lor_range; [lia|apply u64_range|].
  rewrite Z.shiftr_div_pow2 by lia. split.
  - apply Z.div_pos; [lia|]. apply Z.pow_pos_nonneg; lia.
  - apply Z.div_lt_upper_bound; [apply Z.pow_pos_nonneg; lia|].
    assert (0 < 2 ^ (64 - r)) by (apply Z.pow_pos_nonneg; lia). nia.
Qed.

(** Bit [i] of the rotation is bit [i - r] of [x], counted round the 64. *)
Lemma rotl64_testbit (x r i : Z) :
  0 <= x < 2 ^ 64 -> 0 < r < 64 -> 0 <= i < 64 ->
  Z.testbit (rotl64 x r) i =
  Z.testbit x (if i <? r then i + 64 - r else i - r).
Proof.
  intros Hx Hr Hi. unfold rotl64, u64. bits.
  destruct (Z.ltb_spec i 64); [|lia].
  destruct (Z.leb_spec 0 i); [|lia]. cbn [andb].
  destruct (Z.ltb_spec i r).
  - rewrite (Z.testbit_neg_r x (i - r)) by lia. cbn [orb].
    f_equal. lia.
  - rewrite (testbit_above x 64 (i + (64 - r))) by lia.
    now rewrite orb_false_r.
Qed.

Lemma rotl64_round_trip (x r : Z) :
  0 <= x < 2 ^ 64 -> 0 < r < 64 -> rotl64 (rotl64 x r) (64 - r) = x.
Proof.
  intros Hx Hr.
  pose proof (rotl64_range x r Hx ltac:(lia)) as Hy.
  pose proof (rotl64_range (rotl64 x r) (64 - r) Hy ltac:(lia)) as Hz.
  apply Z.bits_inj'. intros i Hi.
  destruct (Z.ltb_spec i 64) as [Hlt|Hge].
  - rewrite rotl64_testbit by lia.
    destruct (Z.ltb_spec i (64 - r)).
    + rewrite rotl64_testbit by lia.
      destruct (Z.ltb_spec (i + 64 - (64 - r)) r); [lia|]. f_equal. lia.
    + rewrite rotl64_testbit by lia.
      destruct (Z.ltb_spec (i - (64 - r)) r); [|lia]. f_equal. lia.
  - now rewrite (testbit_above _ 64 i Hz), (testbit_above _ 64 i Hx).
Qed.

Lemma rotl64_inj (a b r : Z) :
  0 <= a < 2 ^ 64 -> 0 <= b < 2 ^ 64 -> 0 < r < 64 ->
  rotl64 a r = rotl64 b r -> a = b.
Proof.
  intros Ha Hb Hr Heq.
  rewrite <- (rotl64_round_trip a r Ha Hr), <- (rotl64_round_trip b r Hb Hr).
  now rewrite Heq.
Qed.

(** ** The lane mixes *)

Lemma mix_k1_range (k : Z) : 0 <= mix_k1 k < 2 ^ 64.
Proof. apply u64_range. Qed.

Lemma mix_k2_range (k : Z) : 0 <= mix_k2 k < 2 ^ 64.
Proof. apply u64_range. Qed.

Lemma mix_k1_inj (a b : Z) :
  0 <= a < 2 ^ 64 -> 0 <= b < 2 ^ 64 -> mix_k1 a = mix_k1 b -> a = b.
Proof.
  intros Ha Hb Heq. unfold mix_k1 in Heq. cbv zeta in Heq.
  apply (u64_mul_cancel c2 0xa81e14edd9de2c7f) in Heq;
    [|reflexivity|apply rotl64_range; [apply u64_range|lia]..].
  apply rotl64_inj in Heq; [|apply u64_range..|lia].
  now apply (u64_mul_cancel c1 0xa98409e882ce4d7d) in Heq.
Qed.

Lemma mix_k2_inj (a b : Z) :
  0 <= a < 2 ^ 64 -> 0 <= b < 2 ^ 64 -> mix_k2 a = mix_k2 b -> a = b.
Proof.
  intros Ha Hb Heq. unfold mix_k2 in Heq. cbv zeta in Heq.
  apply (u64_mul_cancel c1 0xa98409e882ce4d7d) in Heq;
    [|reflexivity|apply rotl64_range; [apply u64_range|lia]..].
  apply rotl64_inj in Heq; [|apply u64_range..|lia].
  now apply (u64_mul_cancel c2 0xa81e14edd9de2c7f) in Heq.
Qed.

(** ** The finalization *)

(** The two halves of the 128-bit result. *)
Lemma halves_inj (c d c' d' : Z) :
  0 <= c < 2 ^ 64 -> 0 <= c' < 2 ^ 64 -> 0 <= d -> 0 <= d' ->
  Z.lor c (Z.shiftl d 64) = Z.lor c' (Z.shiftl d' 64) -> c = c' /\ d = d'.
Proof.
  intros Hc Hc' Hd Hd' Heq.
  assert (Hlow : forall x y, 0 <= x < 2 ^ 64 ->
            Z.land (Z.lor x (Z.shiftl y 64)) (Z.ones 64) = x).
  { intros x y Hx. apply Z.bits_inj'. intros i Hi. bits.
    destruct (Z.leb_spec 0 i); [|lia]. cbn [andb].
    destruct (Z.ltb_spec i 64).
    - rewrite (Z.testbit_neg_r y (i - 64)) by lia.
      now rewrite orb_false_r, andb_true_r.
    - rewrite (testbit_above x 64 i) by lia. now rewrite andb_false_r. }
  assert (Hhigh : forall x y, 0 <= x < 2 ^ 64 ->
            Z.shiftr (Z.lor x (Z.shiftl y 64)) 64 = y).
  { intros x y Hx. apply Z.bits_inj'. intros i Hi. bits.
    destruct (Z.leb_spec 0 i); [|lia].
    destruct (Z.leb_spec 0 (i + 64)); [|lia]. cbn [andb].
    rewrite (testbit_above x 64 (i + 64)) by lia. cbn [orb].
    f_equal. lia. }
  split.
  - rewrite <- (Hlow c d Hc), <- (Hlow c' d' Hc'). now rewrite Heq.
  - rewrite <- (Hhigh c d Hc), <- (Hhigh c' d' Hc'). now rewrite Heq.
Qed.

(** The additions before and after the two [fmix64]. *)
Lemma sums_inj (a b a' b' : Z) :
  0 <= a < 2 ^ 64 -> 0 <= b < 2 ^ 64 -> 0 <= a' < 2 ^ 64 -> 0 <= b' < 2 ^ 64 ->
  u64 (a + b) = u64 (a' + b') ->
  u64 (b + u64 (a + b)) = u64 (b' + u64 (a' + b')) ->
  a = a' /\ b = b'.
Proof.
  intros Ha Hb Ha' Hb' Hx Hy. rewrite Hx in Hy.
  pose proof (u64_add_cancel_r b b' _ Hb Hb' Hy) as Hbb. subst b'.
  split; [|reflexivity]. exact (u64_add_cancel_r a a' b Ha Ha' Hx).
Qed.

Lemma mixdown_inj (x y x' y' : Z) :
  0 <= x < 2 ^ 64 -> 0 <= y < 2 ^ 64 -> 0 <= x' < 2 ^ 64 -> 0 <= y' < 2 ^ 64 ->
  Z.lor (u64 (fmix64 x + fmix64 y))
    (Z.shiftl (u64 (fmix64 y + u64 (fmix64 x + fmix64 y))) 64) =
  Z.lor (u64 (fmix64 x' + fmix64 y'))
    (Z.shiftl (u64 (fmix64 y' + u64 (fmix64 x' + fmix64 y'))) 64) ->
  x = x' /\ y = y'.
Proof.
  intros Hx Hy Hx' Hy' Heq.
  pose proof (fmix64_range x Hx) as Hfx. pose proof (fmix64_range y Hy) as Hfy.
  pose proof (fmix64_range x' Hx') as Hfx'.
  pose proof (fmix64_range y' Hy') as Hfy'.
  destruct (halves_inj _ _ _ _ (u64_range _) (u64_range _)
              (proj1 (u64_range _)) (proj1 (u64_range _)) Heq) as [Hc Hd].
  destruct (sums_inj _ _ _ _ Hfx Hfy Hfx' Hfy' Hc Hd) as [Hxx Hyy].
  split.
  - exact (fmix64_inj x x' Hx Hx' Hxx).
  - exact (fmix64_inj y y' Hy Hy' Hyy).
Qed.

Lemma finalize_eq (len h1 h2 : Z) :
  finalize len (h1, h2) =
  Z.lor
    (u64 (fmix64 (u64 (Z.lxor h1 len + Z.lxor h2 len)) +
          fmix64 (u64 (Z.lxor h2 len + u64 (Z.lxor h1 len + Z.lxor h2 len)))))
    (Z.shiftl
       (u64 (fmix64 (u64 (Z.lxor h2 len +
                          u64 (Z.lxor h1 len + Z.lxor h2 len))) +
             u64 (fmix64 (u64 (Z.lxor h1 len + Z.lxor h2 len)) +
                  fmix64 (u64 (Z.lxor h2 len +
                               u64 (Z.lxor h1 len + Z.lxor h2 len))))))
       64).
Proof. reflexivity. Qed.

(** [finalize] loses nothing but the distinction between a state and its
    length: equal results come from equal [h1 ^ len] and equal [h2 ^ len]. *)
Lemma finalize_inj (len len' h1 h2 h1' h2' : Z) :
  0 <= len < 2 ^ 64 -> 0 <= len' < 2 ^ 64 ->
  0 <= h1 < 2 ^ 64 -> 0 <= h2 < 2 ^ 64 ->
  0 <= h1' < 2 ^ 64 -> 0 <= h2' < 2 ^ 64 ->
  finalize len (h1, h2) = finalize len' (h1', h2') ->
  Z.lxor h1 len = Z.lxor h1' len' /\ Z.lxor h2 len = Z.lxor h2' len'.
Proof.
  intros Hl Hl' H1 H2 H1' H2' Heq. rewrite !finalize_eq in Heq.
  pose proof (lxor_range h1 len 64 ltac:(lia) H1 Hl) as Ha.
  pose proof (lxor_range h2 len 64 ltac:(lia) H2 Hl) as Hb.
  pose proof (lxor_range h1' len' 64 ltac:(lia) H1' Hl') as Ha'.
  pose proof (lxor_range h2' len' 64 ltac:(lia) H2' Hl') as Hb'.
  destruct (mixdown_inj _ _ _ _ (u64_range _) (u64_range _) (u64_range _)
              (u64_range _) Heq) as [Hx Hy].
  exact (sums_inj _ _ _ _ Ha Hb Ha' Hb' Hx Hy).
Qed.

(** ** The overloads for integer keys *)

Lemma MurmurHash3_small_eq (size k seed : Z) :
  MurmurHash3_small size k seed =
  finalize size (Z.lxor seed (mix_k1 k), seed).
Proof. unfold MurmurHash3_small. cbv zeta. now rewrite Z.lxor_0_l. Qed.

Lemma MurmurHash3_small_inj (size size' k k' seed : Z) :
  0 <= size < 2 ^ 64 -> 0 <= size' < 2 ^ 64 ->
  0 <= k < 2 ^ 64 -> 0 <= k' < 2 ^ 64 -> 0 <= seed < 2 ^ 64 ->
  MurmurHash3_small size k seed = MurmurHash3_small size' k' seed ->
  size = size' /\ k = k'.
Proof.
  intros Hsz Hsz' Hk Hk' Hseed Heq. rewrite !MurmurHash3_small_eq in Heq.
  pose proof (lxor_range seed (mix_k1 k) 64 ltac:(lia) Hseed (mix_k1_range k))
    as Hh.
  pose proof (lxor_range seed (mix_k1 k') 64 ltac:(lia) Hseed
                (mix_k1_range k')) as Hh'.
  destruct (finalize_inj _ _ _ _ _ _ Hsz Hsz' Hh Hseed Hh' Hseed Heq)
    as [H1 H2].
  apply lxor_cancel_l in H2. subst size'. split; [reflexivity|].
  apply lxor_cancel_r, lxor_cancel_l in H1.
  exact (mix_k1_inj k k' Hk Hk' H1).
Qed.

(** X11.  For a given seed the overloads for 1-, 2-, 4- and 8-byte keys never
    collide: two keys that differ, in their width [size = sizeof(k)] or in
    their value, have different 128-bit hashes. *)
Theorem integer_keys_never_collide (size size' k k' seed : Z) :
  0 <= size < 2 ^ 64 -> 0 <= size' < 2 ^ 64 ->
  0 <= k < 2 ^ 64 -> 0 <= k' < 2 ^ 64 -> 0 <= seed < 2 ^ 64 ->
  size <> size' \/ k <> k' ->
  MurmurHash3_small size k seed <> MurmurHash3_small size' k' seed.
Proof.
  intros Hsz Hsz' Hk Hk' Hseed Hne Heq.
  destruct (MurmurHash3_small_inj _ _ _ _ _ Hsz Hsz' Hk Hk' Hseed Heq).
  destruct Hne; contradiction.
Qed.

Lemma integer_keys_never_collide_witness :
  MurmurHash3_small 4 7 9001 <> MurmurHash3_small 8 7 9001 /\
  MurmurHash3_small 8 7 9001 <> MurmurHash3_small 8 8 9001.
Proof.
  split.
  - refine (integer_keys_never_collide 4 8 7 7 9001 _ _ _ _ _ _); try lia.
  - refine (integer_keys_never_collide 8 8 7 8 9001 _ _ _ _ _ _); try lia.
Defined.

(** ** The overload for 16-byte keys *)

Lemma block_step_eq (k1 k2 h1 h2 : Z) :
  block_step k1 k2 (h1, h2) =
  (u64 (u64 (rotl64 (Z.lxor h1 (mix_k1 k1)) 27 + h2) * 5 + 0x52dce729),
   u64 (u64 (rotl64 (Z.lxor h2 (mix_k2 k2)) 31 +
             u64 (u64 (rotl64 (Z.lxor h1 (mix_k1 k1)) 27 + h2) * 5 +
                  0x52dce729)) * 5 + 0x38495ab5)).
Proof. reflexivity. Qed.

Lemma block_step_range (k1 k2 h1 h2 : Z) :
  0 <= fst (block_step k1 k2 (h1, h2)) < 2 ^ 64 /\
  0 <= snd (block_step k1 k2 (h1, h2)) < 2 ^ 64.
Proof. rewrite block_step_eq. cbn [fst snd]. split; apply u64_range. Qed.

Lemma times5_inj (a b c : Z) :
  0 <= a < 2 ^ 64 -> 0 <= b < 2 ^ 64 ->
  u64 (a * 5 + c) = u64 (b * 5 + c) -> a = b.
Proof.
  intros Ha Hb Heq. apply u64_add_inj_r in Heq.
  now apply (u64_mul_cancel 5 0xcccccccccccccccd) in Heq.
Qed.

(** One block step is one-to-one in the block it consumes. *)
Lemma block_step_inj (k1 k2 k1' k2' h1 h2 : Z) :
  0 <= k1 < 2 ^ 64 -> 0 <= k2 < 2 ^ 64 ->
  0 <= k1' < 2 ^ 64 -> 0 <= k2' < 2 ^ 64 ->
  0 <= h1 < 2 ^ 64 -> 0 <= h2 < 2 ^ 64 ->
  block_step k1 k2 (h1, h2) = block_step k1' k2' (h1, h2) ->
  k1 = k1' /\ k2 = k2'.
Proof.
  intros Hk1 Hk2 Hk1' Hk2' Hh1 Hh2 Heq. rewrite !block_step_eq in Heq.
  injection Heq as Ha Hb.
  assert (Hmix : forall k h, 0 <= h < 2 ^ 64 ->
            0 <= Z.lxor h (mix_k1 k) < 2 ^ 64).
  { intros k h Hh. apply lxor_range; [lia|exact Hh|apply mix_k1_range]. }
  assert (Hmix2 : forall k h, 0 <= h < 2 ^ 64 ->
            0 <= Z.lxor h (mix_k2 k) < 2 ^ 64).
  { intros k h Hh. apply lxor_range; [lia|exact Hh|apply mix_k2_range]. }
  rewrite Ha in Hb.
  apply times5_inj in Ha; [|apply u64_range..].
  apply u64_add_cancel_r in Ha; [|apply rotl64_range; [auto|lia]..].
  apply rotl64_inj in Ha; [|auto..|lia].
  apply lxor_cancel_l, mix_k1_inj in Ha; [|assumption..].
  apply times5_inj in Hb; [|apply u64_range..].
  apply u64_add_cancel_r in Hb; [|apply rotl64_range; [auto|lia]..].
  apply rotl64_inj in Hb; [|auto..|lia].
  apply lxor_cancel_l, mix_k2_inj in Hb; [|assumption..].
  now split.
Qed.

Lemma MurmurHash3_x64_128_u128_eq (k seed : Z) :
  MurmurHash3_x64_128_u128 k seed =
  finalize 16 (block_step (u64 k) (u64 (Z.shiftr k 64)) (seed, seed)).
Proof. reflexivity. Qed.

(** A 16-byte key is its two 8-byte halves. *)
Lemma halves_of_key (k k' : Z) :
  0 <= k < 2 ^ 128 -> 0 <= k' < 2 ^ 128 ->
  u64 k = u64 k' -> u64 (Z.shiftr k 64) = u64 (Z.shiftr k' 64) -> k = k'.
Proof.
  intros Hk Hk' Hlo Hhi.
  rewrite !Z.shiftr_div_pow2 in Hhi by lia.
  rewrite !u64_small in Hhi
    by (split; [apply Z.div_pos; lia|apply Z.div_lt_upper_bound; lia]).
  rewrite (Z.div_mod k (2 ^ 64)), (Z.div_mod k' (2 ^ 64)) by lia.
  rewrite Hhi. f_equal. exact Hlo.
Qed.

Lemma MurmurHash3_x64_128_u128_inj (k k' seed : Z) :
  0 <= k < 2 ^ 128 -> 0 <= k' < 2 ^ 128 -> 0 <= seed < 2 ^ 64 ->
  MurmurHash3_x64_128_u128 k seed = MurmurHash3_x64_128_u128 k' seed ->
  k = k'.
Proof.
  intros Hk Hk' Hseed Heq. rewrite !MurmurHash3_x64_128_u128_eq in Heq.
  pose proof (block_step_range (u64 k) (u64 (Z.shiftr k 64)) seed seed)
    as [Hr1 Hr2].
  pose proof (block_step_range (u64 k') (u64 (Z.shiftr k' 64)) seed seed)
    as [Hr1' Hr2'].
  destruct (block_step (u64 k) (u64 (Z.shiftr k 64)) (seed, seed))
    as [h1 h2] eqn:Hs.
  destruct (block_step (u64 k') (u64 (Z.shiftr k' 64)) (seed, seed))
    as [h1' h2'] eqn:Hs'.
  cbn [fst snd] in Hr1, Hr2, Hr1', Hr2'.
  destruct (finalize_inj 16 16 h1 h2 h1' h2' ltac:(lia) ltac:(lia)
              Hr1 Hr2 Hr1' Hr2' Heq) as [H1 H2].
  apply lxor_cancel_r in H1, H2. subst h1' h2'.
  rewrite <- Hs' in Hs.
  destruct (block_step_inj _ _ _ _ _ _ (u64_range _) (u64_range _)
              (u64_range _) (u64_range _) Hseed Hseed Hs) as [Hlo Hhi].
  exact (halves_of_key k k' Hk Hk' Hlo Hhi).
Qed.

(** X12.  The overload for [__uint128_t] keys is one-to-one for every seed:
    two different 16-byte keys have different 128-bit hashes. *)
Theorem wide_keys_never_collide (k k' seed : Z) :
  0 <= k < 2 ^ 128 -> 0 <= k' < 2 ^ 128 -> 0 <= seed < 2 ^ 64 ->
  k <> k' ->
  MurmurHash3_x64_128_u128 k seed <> MurmurHash3_x64_128_u128 k' seed.
Proof.
  intros Hk Hk' Hseed Hne Heq.
  exact (Hne (MurmurHash3_x64_128_u128_inj k k' seed Hk Hk' Hseed Heq)).
Qed.

Lemma wide_keys_never_collide_witness :
  MurmurHash3_x64_128_u128 (2 ^ 100) 9001 <> MurmurHash3_x64_128_u128 5 9001.
Proof.
  refine (wide_keys_never_collide (2 ^ 100) 5 9001 _ _ _ _); lia.
Defined.

End MurmurInjective.

(** ** The byte routine reads the key and nothing else *)

Module MurmurBytes.
Import Murmur Bits.

Lemma load64_ext (data data' : list Z) (off : Z) :
  (forall i, off <= i < off + 8 -> byte_at data i = byte_at data' i) ->
  load64 data off = load64 data' off.
Proof.
  intros H. unfold load64.
  rewrite (H off), (H (off + 1)), (H (off + 2)), (H (off + 3)),
    (H (off + 4)), (H (off + 5)), (H (off + 6)), (H (off + 7)) by lia.
  reflexivity.
Qed.

Lemma body_ext (data data' : list Z) (n : nat) :
  forall (i : Z) (h : Z * Z),
  0 <= i ->
  (forall j, 16 * i <= j < 16 * (i + Z.of_nat n) ->
     byte_at data j = byte_at data' j) ->
  body data n i h = body data' n i h.
Proof.
  induction n as [|n IH]; intros i h Hi H; [reflexivity|].
  cbn [body].
  rewrite (load64_ext data data' ((i * 2 + 0) * 8))
    by (intros j Hj; apply H; lia).
  rewrite (load64_ext data data' ((i * 2 + 1) * 8))
    by (intros j Hj; apply H; lia).
  apply IH; [lia|]. intros j Hj. apply H. lia.
Qed.

Lemma from_case_ext (rem c k k' b b' sh : Z) :
  k = k' -> (c <= rem -> b = b') ->
  from_case rem c k b sh = from_case rem c k' b' sh.
Proof.
  intros -> Hb. unfold from_case.
  destruct (Z.leb_spec c rem); [|reflexivity]. now rewrite Hb.
Qed.

Lemma tail_k1_ext (tail tail' : Z -> Z) (rem : Z) :
  (forall j, 0 <= j < rem -> tail j = tail' j) ->
  tail_k1 tail rem = tail_k1 tail' rem.
Proof.
  intros H. unfold tail_k1. cbv zeta.
  repeat (apply from_case_ext; [|intros; apply H; lia]). reflexivity.
Qed.

Lemma tail_k2_ext (tail tail' : Z -> Z) (rem : Z) :
  (forall j, 0 <= j < rem -> tail j = tail' j) ->
  tail_k2 tail rem = tail_k2 tail' rem.
Proof.
  intros H. unfold tail_k2. cbv zeta.
  repeat (apply from_case_ext; [|intros; apply H; lia]). reflexivity.
Qed.

(** X13.  [MurmurHash3_x64_128(key, lenBytes, seed)] reads the [lenBytes]
    bytes of the key and no byte behind them: two buffers that agree on
    their first [lenBytes] bytes have the same hash, whatever follows. *)
Theorem byte_routine_reads_only_the_key (data data' : list Z)
    (lenBytes seed : Z) :
  0 <= lenBytes ->
  (forall i, 0 <= i < lenBytes -> byte_at data i = byte_at data' i) ->
  MurmurHash3_x64_128 data lenBytes seed =
  MurmurHash3_x64_128 data' lenBytes seed.
Proof.
  intros Hlen H. unfold MurmurHash3_x64_128. cbv zeta.
  assert (Hq : Z.shiftr lenBytes 4 = lenBytes / 16)
    by (now rewrite Z.shiftr_div_pow2 by lia).
  assert (Hr : Z.land lenBytes 15 = lenBytes mod 16)
    by (change 15 with (Z.ones 4); now rewrite Z.land_ones by lia).
  pose proof (Z.div_mod lenBytes 16 ltac:(lia)) as Hdm.
  pose proof (Z.mod_pos_bound lenBytes 16 ltac:(lia)) as Hmod.
  assert (Hq0 : 0 <= lenBytes / 16) by (apply Z.div_pos; lia).
  rewrite (body_ext data data' (Z.to_nat (Z.shiftr lenBytes 4)) 0 (seed, seed))
    by (try lia; intros j Hj; apply H; rewrite Hq in Hj; lia).
  destruct (body data' (Z.to_nat (Z.shiftr lenBytes 4)) 0 (seed, seed))
    as [h1 h2].
  assert (Htail : forall j, 0 <= j < Z.land lenBytes 15 ->
            byte_at data (Z.shiftl (Z.shiftr lenBytes 4) 4 + j) =
            byte_at data' (Z.shiftl (Z.shiftr lenBytes 4) 4 + j)).
  { intros j Hj. apply H. rewrite Z.shiftl_mul_pow2 by lia.
    rewrite Hq. rewrite Hr in Hj. change (2 ^ 4) with 16. lia. }
  rewrite (tail_k1_ext _ _ _ Htail), (tail_k2_ext _ _ _ Htail).
  reflexivity.
Qed.

(** A 5-byte key followed by different bytes. *)
Lemma byte_routine_reads_only_the_key_witness :
  MurmurHash3_x64_128 [104; 101; 108; 108; 111; 1; 2; 3] 5 9001 =
  MurmurHash3_x64_128 [104; 101; 108; 108; 111; 200] 5 9001.
Proof.
  apply byte_routine_reads_only_the_key; [lia|].
  intros i Hi.
  assert (i = 0 \/ i = 1 \/ i = 2 \/ i = 3 \/ i = 4) as Hc by lia.
  destruct Hc as [-> | [-> | [-> | [-> | ->]]]]; reflexivity.
Defined.

End MurmurBytes.

(** ** [detail::Hash] and [detail::HashNoUnroll] *)

Module HashMore.
Import Murmur Hash HashSpec Bits.

Lemma kSeed_range : 0 <= kSeed < 2 ^ 64.
Proof. unfold kSeed. lia. Qed.

Lemma zero_canonical_range (w bits : Z) :
  0 <= bits < 2 ^ w -> 0 <= zero_canonical w bits < 2 ^ w.
Proof.
  intros Hb. unfold zero_canonical.
  destruct ((bits =? 0) || (bits =? 2 ^ (w - 1))); lia.
Qed.

(** Only negative zero is moved by the canonicalisation. *)
Lemma zero_canonical_fixes (w bits : Z) :
  1 <= w -> zero_canonical w bits = bits <-> bits <> 2 ^ (w - 1).
Proof.
  intros Hw. unfold zero_canonical.
  assert (0 < 2 ^ (w - 1)) by (apply Z.pow_pos_nonneg; lia).
  destruct (Z.eqb_spec bits 0); destruct (Z.eqb_spec bits (2 ^ (w - 1)));
    cbn [orb]; lia.
Qed.

(** What [Hash] hands to the overload for a floating-point key. *)
Lemma Hash_float_eq (bits seed : Z) :
  0 <= bits < 2 ^ 32 ->
  Hash (KFloat bits) seed = MurmurHash3_small 4 (zero_canonical 32 bits) seed.
Proof.
  intros Hb. cbn [Hash].
  now rewrite HashProofs.fp_hash_bits_float_canonical.
Qed.

Lemma Hash_double_eq (bits seed : Z) :
  0 <= bits < 2 ^ 64 ->
  Hash (KDouble bits) seed = MurmurHash3_small 8 (zero_canonical 64 bits) seed.
Proof.
  intros Hb. cbn [Hash].
  now rewrite HashProofs.fp_hash_bits_double_canonical.
Qed.

(** X14.  Two [float] keys, and two [double] keys, have the same hash exactly
    when they have the same bit pattern or are both zeros: [+0.0] and [-0.0]
    hash alike, and no other two floating-point values collide (two NaNs of
    different payload hash differently). *)
Theorem floating_point_keys_collide_only_at_zero (a b seed : Z) :
  0 <= seed < 2 ^ 64 ->
  (0 <= a < 2 ^ 32 -> 0 <= b < 2 ^ 32 ->
   Hash (KFloat a) seed = Hash (KFloat b) seed <->
   zero_canonical 32 a = zero_canonical 32 b) /\
  (0 <= a < 2 ^ 64 -> 0 <= b < 2 ^ 64 ->
   Hash (KDouble a) seed = Hash (KDouble b) seed <->
   zero_canonical 64 a = zero_canonical 64 b).
Proof.
  intros Hseed. split; intros Ha Hb.
  - rewrite !Hash_float_eq by assumption. split; [|now intros ->].
    intros Heq.
    pose proof (zero_canonical_range 32 a Ha) as Hza.
    pose proof (zero_canonical_range 32 b Hb) as Hzb.
    assert (4 = 4 /\ zero_canonical 32 a = zero_canonical 32 b) as [_ H];
      [|exact H].
    apply (MurmurInjective.MurmurHash3_small_inj 4 4 _ _ seed);
      [lia..|exact Heq].
  - rewrite !Hash_double_eq by assumption. split; [|now intros ->].
    intros Heq.
    pose proof (zero_canonical_range 64 a Ha) as Hza.
    pose proof (zero_canonical_range 64 b Hb) as Hzb.
    assert (8 = 8 /\ zero_canonical 64 a = zero_canonical 64 b) as [_ H];
      [|exact H].
    apply (MurmurInjective.MurmurHash3_small_inj 8 8 _ _ seed);
      [lia..|exact Heq].
Qed.

(** The two zeros, and [1.0f] against [-1.0f]. *)
Lemma floating_point_keys_witness :
  Hash (KFloat 0) 9001 = Hash (KFloat 0x80000000) 9001 /\
  Hash (KFloat 0x3F800000) 9001 <> Hash (KFloat 0xBF800000) 9001.
Proof.
  split.
  - apply (proj1 (floating_point_keys_collide_only_at_zero 0 0x80000000 9001
                    ltac:(lia))); [lia|lia|reflexivity].
  - intros H.
    apply (proj1 (floating_point_keys_collide_only_at_zero 0x3F800000
                    0xBF800000 9001 ltac:(lia))) in H; [|lia|lia].
    vm_compute in H. discriminate H.
Defined.

(** ** The byte routine on the bytes of an arithmetic key *)

Lemma bytes_u128 (k seed : Z) :
  0 <= k < 2 ^ 128 ->
  MurmurHash3_x64_128 (le_bytes 16 k) 16 seed = MurmurHash3_x64_128_u128 k seed.
Proof.
  intros Hk. unfold MurmurHash3_x64_128_u128, MurmurHash3_x64_128.
  change (Z.shiftr 16 4) with 1. change (Z.land 16 15) with 0.
  change (Z.to_nat 1) with 1%nat. cbn [body].
  rewrite MurmurProofs.load64_low, MurmurProofs.load64_high by exact Hk.
  destruct (block_step (u64 k) (u64 (Z.shiftr k 64)) (seed, seed))
    as [h1 h2].
  reflexivity.
Qed.

Lemma bytes_small (n : nat) (k seed : Z) :
  (n = 1 \/ n = 2 \/ n = 4 \/ n = 8)%nat -> 0 <= k < 2 ^ (8 * Z.of_nat n) ->
  MurmurHash3_x64_128 (le_bytes n k) (Z.of_nat n) seed =
  MurmurHash3_small (Z.of_nat n) k seed.
Proof.
  intros Hn Hk. symmetry.
  destruct Hn as [-> | [-> | [-> | ->]]].
  - apply (MurmurProofs.small_refines 1 1);
      [reflexivity|lia|now apply MurmurProofs.tail_k1_width1].
  - apply (MurmurProofs.small_refines 2 2);
      [reflexivity|lia|now apply MurmurProofs.tail_k1_width2].
  - apply (MurmurProofs.small_refines 4 4);
      [reflexivity|lia|now apply MurmurProofs.tail_k1_width4].
  - apply (MurmurProofs.small_refines 8 8);
      [reflexivity|lia|now apply MurmurProofs.tail_k1_width8].
Qed.

(** X15.  [HashNoUnroll] returns what [Hash] returns with the default seed on
    every representable key but one: on the floating-point key [-0.0] [Hash]
    hashes the pattern of [+0.0] and [HashNoUnroll] the bytes of [-0.0], and
    the two results differ.  So the count sketch of
    [cs_final_no_murmur_unroll.hpp] updates the counters of [cs_final.hpp]
    for every key except [-0.0], which it treats as a key of its own. *)
Theorem HashNoUnroll_differs_only_at_negative_zero (k : key) :
  representable k ->
  (HashNoUnroll k = Hash_default k <-> negative_zero k = false) /\
  (negative_zero k = false ->
   forall (t d : Z) (C : list Z),
     CS.Insert_no_murmur_unroll t d k C = CS.Insert t d k C).
Proof.
  intros Hk.
  assert (Hiff : HashNoUnroll k = Hash_default k <-> negative_zero k = false).
  { unfold HashNoUnroll, Hash_default.
    destruct k as [b|b|b|b|b|b|s|b|b|b|b|b];
      cbn [key_bytes key_size negative_zero Hash representable key_bits] in *;
      try (split; [reflexivity|intros _]).
    - apply (bytes_small 2); [tauto|exact Hk].
    - apply (bytes_small 4); [tauto|exact Hk].
    - apply (bytes_small 8); [tauto|exact Hk].
    - now apply bytes_u128.
    - rewrite (bytes_small 4) by (tauto || exact Hk).
      change (Z.of_nat 4) with 4.
      rewrite HashProofs.fp_hash_bits_float_canonical by exact Hk.
      change (MurmurHash3_x64_128_u32 (zero_canonical 32 b) kSeed)
        with (MurmurHash3_small 4 (zero_canonical 32 b) kSeed).
      pose proof (zero_canonical_range 32 b Hk) as Hz.
      pose proof (zero_canonical_fixes 32 b ltac:(lia)) as Hfix.
      pose proof kSeed_range as Hseed.
      change (2 ^ (32 - 1)) with (2 ^ 31) in Hfix.
      destruct (Z.eqb_spec b (2 ^ 31)) as [Heq|Hne]; split; intros H1.
      + exfalso.
        apply (MurmurInjective.MurmurHash3_small_inj 4 4 _ _ kSeed)
          in H1; [|lia..].
        destruct H1 as [_ H1]. symmetry in H1. tauto.
      + discriminate H1.
      + reflexivity.
      + f_equal. symmetry. tauto.
    - rewrite (bytes_small 8) by (tauto || exact Hk).
      change (Z.of_nat 8) with 8.
      rewrite HashProofs.fp_hash_bits_double_canonical by exact Hk.
      change (MurmurHash3_x64_128_u64 (zero_canonical 64 b) kSeed)
        with (MurmurHash3_small 8 (zero_canonical 64 b) kSeed).
      pose proof (zero_canonical_range 64 b Hk) as Hz.
      pose proof (zero_canonical_fixes 64 b ltac:(lia)) as Hfix.
      pose proof kSeed_range as Hseed.
      change (2 ^ (64 - 1)) with (2 ^ 63) in Hfix.
      destruct (Z.eqb_spec b (2 ^ 63)) as [Heq|Hne]; split; intros H1.
      + exfalso.
        apply (MurmurInjective.MurmurHash3_small_inj 8 8 _ _ kSeed)
          in H1; [|lia..].
        destruct H1 as [_ H1]. symmetry in H1. tauto.
      + discriminate H1.
      + reflexivity.
      + f_equal. symmetry. tauto.
    - reflexivity.
    - apply (bytes_small 1); [tauto|exact Hk].
    - apply (bytes_small 2); [tauto|exact Hk].
    - apply (bytes_small 4); [tauto|exact Hk].
    - apply (bytes_small 8); [tauto|exact Hk].
    - now apply bytes_u128. }
  split; [exact Hiff|]. intros Hnz t d C.
  unfold CS.Insert_no_murmur_unroll, CS.Insert.
  now rewrite (proj2 Hiff Hnz).
Qed.

(** The keys [1.5f] and [-0.0f]. *)
Lemma HashNoUnroll_witness :
  HashNoUnroll (KFloat 0x3FC00000) = Hash_default (KFloat 0x3FC00000) /\
  HashNoUnroll (KFloat 0x80000000) <> Hash_default (KFloat 0x80000000).
Proof.
  split.
  - apply (proj1 (HashNoUnroll_differs_only_at_negative_zero
                    (KFloat 0x3FC00000) ltac:(cbn; lia))).
    reflexivity.
  - intros H.
    apply (proj1 (HashNoUnroll_differs_only_at_negative_zero
                    (KFloat 0x80000000) ltac:(cbn; lia))) in H.
    vm_compute in H. discriminate H.
Defined.

End HashMore.

(** ** SpaceSaving: what the weights say about the stream *)

Module SSGuarantee.
Import SS SSSpec SSStream SimdProofs SSFindProofs SSHeapProofs SSInsertProofs.

Lemma occurrences_nonneg (T : arith) (v : Z) (xs : list Z) :
  0 <= occurrences T v xs.
Proof. unfold occurrences. lia. Qed.

Lemma occurrences_snoc (T : arith) (v x : Z) (xs : list Z) :
  occurrences T v (xs ++ [x]) =
  occurrences T v xs + (if Normalized T x =? v then 1 else 0).
Proof.
  unfold occurrences. rewrite List.filter_app, length_app. cbn [List.filter].
  destruct (Normalized T x =? v); cbn [length]; lia.
Qed.

Lemma elem_of_insert_cases {A : Type} (l : list A) (i : nat) (x y : A) :
  x ∈ <[i := y]> l -> x = y \/ exists j, j <> i /\ l !! j = Some x.
Proof.
  intros Hin. apply list_elem_of_lookup in Hin as [j Hj].
  apply list_lookup_insert_Some in Hj as [(-> & -> & _)|[Hne Hj]].
  - now left.
  - right. exists j. split; [congruence|exact Hj].
Qed.

Lemma pairs_lookup (s : sketch) (j : nat) (v w : Z) :
  pairs s !! j = Some (v, w) <->
  values s !! j = Some v /\ weights s !! j = Some w.
Proof.
  unfold pairs. rewrite lookup_zip_with_Some. split.
  - intros (a & b & [= -> ->] & Ha & Hb). now split.
  - intros [Ha Hb]. now exists v, w.
Qed.

Lemma pairs_fst (s : sketch) :
  length (values s) = length (weights s) -> (pairs s).*1 = values s.
Proof. intros Hlen. unfold pairs. apply fst_zip. lia. Qed.

Lemma sum_list_at_least (l : list Z) (m : Z) :
  Forall (fun w => m <= w) l -> Z.of_nat (length l) * m <= sum_list l.
Proof.
  induction 1 as [|w l Hw _ IH]; [cbn; lia|].
  rewrite sum_list_cons. cbn [length]. lia.
Qed.

Section SpaceSaving.

Variable T : arith.
Variable K : nat.
Hypothesis HK : (0 < K)%nat.
Hypothesis HK32 : (K mod 32 = 0)%nat.

(** One insert keeps the sketch on the stream. *)
Lemma Insert_tracks (s : sketch) (xs : list Z) (x : Z) (n : Z) :
  counted K s n -> n + 1 < 2 ^ 64 -> tracks T s xs ->
  tracks T (Insert T K s x) (xs ++ [x]).
Proof.
  intros Hc Hn (Hnd & Hpairs & Hout).
  pose proof (Insert_counted T K s n x HK HK32 Hc Hn) as Hc'.
  destruct Hc as ((Hlv & Hlw & Hrange) & Hheap & Hsum).
  destruct Hc' as ((Hlv' & Hlw' & _) & Hheap' & _).
  set (value := Normalized T x).
  set (i := Find T K 0 s value).
  assert (Hi : (i < K)%nat) by (now apply Find_lt).
  assert (Hwi : 0 <= weights s !!! i <= n).
  { rewrite Forall_forall in Hrange.
    assert (weights s !!! i ∈ weights s)
      by (apply list_elem_of_lookup_total_2; lia).
    split; [apply Hrange; assumption|].
    rewrite <- Hsum. apply sum_list_lookup_le; [|lia].
    apply Forall_forall. intros w Hw. apply Hrange in Hw. lia. }
  assert (Hperm : pairs (Insert T K s x) ≡ₚ
            <[i := (value, weights s !!! i + 1)]> (pairs s)).
  { unfold Insert. fold value. fold i.
    destruct (UpdateHeap_perm K s value i Hlv Hlw Hi) as (Hp & _).
    rewrite Hp. now rewrite Bits.u64_small by lia. }
  set (m := weights s !!! 0%nat) in *.
  set (m' := weights (Insert T K s x) !!! 0%nat).
  assert (Hmin : forall j, (j < K)%nat -> m <= weights s !!! j).
  { intros j Hj. apply heap_root_min; [exact Hheap|lia]. }
  assert (Hold : forall j v w, pairs s !! j = Some (v, w) ->
            values s !! j = Some v /\ w = weights s !!! j /\ (j < K)%nat).
  { intros j v w Hj. apply pairs_lookup in Hj as [Hv Hw].
    split; [exact Hv|]. split.
    - symmetry. now apply list_lookup_total_correct.
    - apply lookup_lt_Some in Hv. lia. }
  (* the least weight does not decrease *)
  assert (Hm : m <= m').
  { assert (Hroot : (values (Insert T K s x) !!! 0%nat, m') ∈
              pairs (Insert T K s x)).
    { apply list_elem_of_lookup. exists 0%nat. apply pairs_lookup.
      split; apply list_lookup_lookup_total_lt; lia. }
    rewrite Hperm in Hroot.
    apply elem_of_insert_cases in Hroot as [[= _ ->]|(j & _ & Hj)].
    - specialize (Hmin i Hi). lia.
    - apply Hold in Hj as (_ & -> & Hj). now apply Hmin. }
  (* where [value] stood *)
  assert (Hfind : (values s !! i = Some value) \/
            ((value ∉ values s) /\ i = 0%nat)).
  { unfold i. rewrite (Find_first K HK32) by exact Hlv.
    destruct (find_first value (values s)) as [r|] eqn:Hf.
    - left. now apply find_first_Some in Hf as [Hr _].
    - right. split; [|reflexivity]. intros Hin.
      apply list_elem_of_lookup in Hin as [j Hj].
      rewrite find_first_None in Hf. now apply (Hf j value). }
  assert (Hvals : values (Insert T K s x) ≡ₚ <[i := value]> (values s)).
  { rewrite <- (pairs_fst (Insert T K s x)) by lia.
    rewrite Hperm, list_fmap_insert. cbn [fst].
    now rewrite pairs_fst by lia. }
  assert (Hocc : forall v, v <> value ->
            occurrences T v (xs ++ [x]) = occurrences T v xs).
  { intros v Hv. rewrite occurrences_snoc. fold value.
    destruct (Z.eqb_spec value v); [congruence|lia]. }
  assert (Hocc1 : occurrences T value (xs ++ [x]) =
            occurrences T value xs + 1).
  { rewrite occurrences_snoc. fold value. now rewrite Z.eqb_refl. }
  assert (Hother : forall j v, j <> i -> values s !! j = Some v -> v <> value).
  { intros j v Hji Hj ->. destruct Hfind as [Hiv|[Hnot _]].
    - apply Hji. eapply NoDup_lookup; eassumption.
    - apply Hnot. eapply list_elem_of_lookup_2; eassumption. }
  split; [|split].
  - (* the values stay distinct *)
    rewrite Hvals. destruct Hfind as [Hiv|[Hnot ->]].
    + now rewrite list_insert_id.
    + destruct (values s) as [|v0 rest]; [cbn in Hlv; lia|].
      cbn [insert list_insert]. apply NoDup_cons in Hnd as [_ Hrest].
      apply NoDup_cons. split; [|exact Hrest].
      intros Hin. apply Hnot. now right.
  - (* tracked values *)
    intros v w Hin. fold m'. rewrite Hperm in Hin.
    apply elem_of_insert_cases in Hin as [[= -> ->]|(j & Hji & Hj)].
    + rewrite Hocc1. pose proof (occurrences_nonneg T value xs).
      destruct Hfind as [Hiv|[Hnot Hi0]].
      * assert (Hin : (value, weights s !!! i) ∈ pairs s).
        { apply list_elem_of_lookup. exists i. apply pairs_lookup.
          split; [exact Hiv|]. apply list_lookup_lookup_total_lt. lia. }
        apply Hpairs in Hin. lia.
      * specialize (Hout value Hnot). rewrite Hi0. fold m. lia.
    + pose proof (Hold j v w Hj) as (Hv & -> & HjK).
      rewrite (Hocc v) by (now apply (Hother j)).
      assert (Hin : (v, weights s !!! j) ∈ pairs s)
        by (eapply list_elem_of_lookup_2; eassumption).
      apply Hpairs in Hin. lia.
  - (* untracked values *)
    intros v Hv. fold m'. rewrite Hvals in Hv.
    assert (Hne : v <> value).
    { intros ->. apply Hv. apply list_elem_of_lookup. exists i.
      apply list_lookup_insert_eq. lia. }
    rewrite (Hocc v Hne).
    destruct (decide (v ∈ values s)) as [Hin|Hnin].
    + apply list_elem_of_lookup in Hin as [j Hj].
      destruct (decide (j = i)) as [->|Hji].
      * assert (Hin : (v, weights s !!! i) ∈ pairs s).
        { apply list_elem_of_lookup. exists i. apply pairs_lookup.
          split; [exact Hj|]. apply list_lookup_lookup_total_lt. lia. }
        apply Hpairs in Hin.
        destruct Hfind as [Hiv|[_ Hi0]]; [congruence|].
        rewrite Hi0 in Hin. fold m in Hin. lia.
      * exfalso. apply Hv. apply list_elem_of_lookup. exists j.
        now rewrite list_lookup_insert_ne by congruence.
    + specialize (Hout v Hnin). lia.
Qed.

Lemma Insert_all_tracks (vs : list Z) :
  forall (s : sketch) (xs : list Z) (n : Z),
  counted K s n -> n + Z.of_nat (length vs) < 2 ^ 64 -> tracks T s xs ->
  tracks T (Insert_all T K s vs) (xs ++ vs).
Proof.
  induction vs as [|v vs IH]; intros s xs n Hc Hn Ht.
  - now rewrite app_nil_r.
  - cbn [length] in Hn. unfold Insert_all. cbn [fold_left].
    replace (xs ++ v :: vs) with ((xs ++ [v]) ++ vs)
      by (now rewrite <- app_assoc).
    apply (IH _ _ (n + 1)).
    + apply Insert_counted; try assumption. lia.
    + lia.
    + apply (Insert_tracks s xs v n); [exact Hc|lia|exact Ht].
Qed.

Lemma init_tracks : NoDup (sequence T K) -> tracks T (init T K) [].
Proof.
  intros Hnd. split; [exact Hnd|].
  assert (Hw : forall j, (j < K)%nat -> replicate K 0 !!! j = 0).
  { intros j Hj. now apply lookup_total_replicate_2. }
  cbn [init weights values]. rewrite (Hw 0%nat HK). split.
  - intros v w Hin. apply list_elem_of_lookup in Hin as [j Hj].
    apply pairs_lookup in Hj as [_ Hj]. cbn [init weights] in Hj.
    apply lookup_replicate in Hj as [-> _].
    unfold occurrences. cbn [List.filter length]. lia.
  - intros v _. unfold occurrences. cbn [List.filter length]. lia.
Qed.

(** X16.  The SpaceSaving guarantee.  After any stream of fewer than [2^64]
    inserts into a sketch whose initial values are distinct: the tracked
    values are distinct; a value in slot [i] has occurred at most
    [weights[i]] times and at least [weights[i]] less the least weight
    [weights[0]]; a value in no slot has occurred at most [weights[0]]
    times; and [K * weights[0]] is at most the length of the stream.
    Occurrences are counted after [Normalized]. *)
Theorem weights_bound_the_occurrences (vs : list Z) :
  NoDup (sequence T K) -> Z.of_nat (length vs) < 2 ^ 64 ->
  let s := Insert_all T K (init T K) vs in
  NoDup (values s) /\
  Z.of_nat K * weights s !!! 0%nat <= Z.of_nat (length vs) /\
  (forall (i : nat) (v : Z), values s !! i = Some v ->
     occurrences T v vs <= weights s !!! i <=
       occurrences T v vs + weights s !!! 0%nat) /\
  (forall v : Z, v ∉ values s -> occurrences T v vs <= weights s !!! 0%nat).
Proof.
  intros Hnd Hlen s.
  pose proof (Insert_all_counted T K vs HK HK32 (init T K) 0
                (init_counted T K) ltac:(lia)) as Hc.
  pose proof (Insert_all_tracks vs (init T K) [] 0 (init_counted T K)
                ltac:(lia) (init_tracks Hnd)) as (Hnd' & Hpairs & Hout).
  cbn [app] in Hpairs, Hout. fold s in Hc, Hnd', Hpairs, Hout.
  destruct Hc as ((Hlv & Hlw & Hrange) & Hheap & Hsum).
  split; [exact Hnd'|]. split; [|split; [|exact Hout]].
  - replace (Z.of_nat (length vs)) with (sum_list (weights s)) by lia.
    rewrite <- Hlw. apply sum_list_at_least.
    apply Forall_lookup. intros j w Hj.
    pose proof (lookup_lt_Some _ _ _ Hj).
    apply list_lookup_total_correct in Hj. subst w.
    now apply heap_root_min.
  - intros i v Hv. apply Hpairs.
    apply list_elem_of_lookup. exists i. apply pairs_lookup.
    split; [exact Hv|]. apply list_lookup_lookup_total_lt.
    apply lookup_lt_Some in Hv. lia.
Qed.

End SpaceSaving.

(** ** The initial values [detail::sequence<T, K>()] *)

(** The exponent and the mantissa field of the pattern of [i]. *)
Lemma fp_of_index_fields (bias mbits i : Z) :
  0 <= mbits -> 0 <= bias -> 1 <= i < 2 ^ (mbits + 1) ->
  Z.shiftr (fp_of_index bias mbits i) mbits = Z.log2 i + bias /\
  Z.land (fp_of_index bias mbits i) (Z.ones mbits) =
    (i - 2 ^ Z.log2 i) * 2 ^ (mbits - Z.log2 i).
Proof.
  intros Hm Hb Hi. unfold fp_of_index.
  destruct (Z.eqb_spec i 0) as [->|_]; [lia|].
  assert (Hlog : 0 <= Z.log2 i <= mbits).
  { split; [apply Z.log2_nonneg|].
    assert (Z.log2 i < mbits + 1); [|lia]. apply Z.log2_lt_pow2; lia. }
  cbv zeta. destruct (Z.leb_spec (Z.log2 i) mbits) as [_|Hbad]; [|lia].
  pose proof (Z.log2_spec i ltac:(lia)) as Hspec.
  set (e := Z.log2 i) in *.
  assert (Hfrac : 0 <= Z.shiftl (i - 2 ^ e) (mbits - e) < 2 ^ mbits).
  { rewrite Z.shiftl_mul_pow2 by lia.
    replace (2 ^ mbits) with (2 ^ e * 2 ^ (mbits - e))
      by (rewrite <- Z.pow_add_r by lia; f_equal; lia).
    rewrite Z.pow_succ_r in Hspec by lia.
    assert (0 < 2 ^ (mbits - e)) by (apply Z.pow_pos_nonneg; lia). nia. }
  split.
  - apply Z.bits_inj'. intros n Hn. Bits.bits.
    destruct (Z.leb_spec 0 n); [|lia].
    destruct (Z.leb_spec 0 (n + mbits)); [|lia]. cbn [andb].
    rewrite <- (Z.shiftl_spec (i - 2 ^ e) (mbits - e) (n + mbits)) by lia.
    rewrite (Bits.testbit_above _ mbits (n + mbits) Hfrac) by lia.
    rewrite orb_false_r. f_equal. lia.
  - rewrite <- Z.shiftl_mul_pow2 by lia.
    apply Z.bits_inj'. intros n Hn.
    rewrite Z.land_spec, Z.lor_spec, Bits.testbit_shl,
      Bits.testbit_ones_range by lia.
    destruct (Z.leb_spec 0 n); [|lia]. cbn [andb].
    destruct (Z.ltb_spec n mbits).
    + rewrite (Z.testbit_neg_r _ (n - mbits)) by lia.
      now rewrite andb_true_r.
    + rewrite (Bits.testbit_above _ mbits n Hfrac) by lia.
      now rewrite andb_false_r.
Qed.

Lemma fp_of_index_inj (bias mbits i j : Z) :
  0 <= mbits -> 0 < bias -> 0 <= i < 2 ^ (mbits + 1) ->
  0 <= j < 2 ^ (mbits + 1) ->
  fp_of_index bias mbits i = fp_of_index bias mbits j -> i = j.
Proof.
  intros Hm Hb Hi Hj Heq.
  assert (Hpos : forall x, 1 <= x < 2 ^ (mbits + 1) ->
            fp_of_index bias mbits x <> 0).
  { intros x Hx H0.
    destruct (fp_of_index_fields bias mbits x Hm ltac:(lia) Hx) as [He _].
    rewrite H0, Z.shiftr_0_l in He. pose proof (Z.log2_nonneg x). lia. }
  destruct (Z.eq_dec i 0) as [->|Hi0]; destruct (Z.eq_dec j 0) as [->|Hj0];
    try reflexivity.
  - exfalso. apply (Hpos j); [lia|]. now rewrite <- Heq.
  - exfalso. now apply (Hpos i); [lia|].
  - destruct (fp_of_index_fields bias mbits i Hm ltac:(lia) ltac:(lia))
      as [Hei Hfi].
    destruct (fp_of_index_fields bias mbits j Hm ltac:(lia) ltac:(lia))
      as [Hej Hfj].
    rewrite Heq in Hei, Hfi. rewrite Hei in Hej. rewrite Hfi in Hfj.
    assert (He : Z.log2 i = Z.log2 j) by lia. rewrite He in Hfj.
    assert (Z.log2 j < mbits + 1) by (apply Z.log2_lt_pow2; lia).
    assert (0 < 2 ^ (mbits - Z.log2 j)) by (apply Z.pow_pos_nonneg; lia).
    nia.
Qed.

(** The bound below which the conversion from [size_t] is one-to-one. *)
Lemma of_index_inj (T : arith) (i j : nat) :
  Z.of_nat i < distinct_below T -> Z.of_nat j < distinct_below T ->
  of_index T i = of_index T j -> i = j.
Proof.
  intros Hi Hj Heq.
  destruct T; cbn [of_index distinct_below is_floating_point] in *;
    try (rewrite !Z.mod_small in Heq by lia; lia).
  - apply Nat2Z.inj. apply (fp_of_index_inj 127 23); try lia; exact Heq.
  - apply Nat2Z.inj. apply (fp_of_index_inj 1023 52); try lia; exact Heq.
Qed.

Lemma sequence_NoDup (T : arith) (K : nat) :
  Z.of_nat K <= distinct_below T -> NoDup (sequence T K).
Proof.
  intros HK. unfold sequence. apply NoDup_fmap_2_strong; [|apply NoDup_seq].
  intros i j Hi Hj. apply elem_of_seq in Hi, Hj.
  apply of_index_inj; lia.
Qed.

(** X17.  [detail::sequence<T, K>()] has [K] entries, entry [i] being [i]
    converted to [T].  They are pairwise distinct as long as [K] is at most
    [2^16], [2^32], [2^64] for the integer types of that width, [2^24] for
    [float] and [2^53] for [double]; for an integer type a longer sequence
    repeats its entry 0. *)
Theorem sequence_entries_distinct (T : arith) (K : nat) :
  length (sequence T K) = K /\
  (forall i : nat, (i < K)%nat -> sequence T K !! i = Some (of_index T i)) /\
  (Z.of_nat K <= distinct_below T -> NoDup (sequence T K)) /\
  (is_floating_point T = false -> distinct_below T < Z.of_nat K ->
   sequence T K !! Z.to_nat (distinct_below T) = sequence T K !! 0%nat).
Proof.
  split; [unfold sequence; now rewrite length_fmap, length_seq|].
  assert (Hlook : forall i : nat, (i < K)%nat ->
            sequence T K !! i = Some (of_index T i)).
  { intros i Hi. unfold sequence. rewrite list_lookup_fmap.
    now rewrite lookup_seq_lt by lia. }
  split; [exact Hlook|]. split; [apply sequence_NoDup|].
  intros HT HK.
  assert (Hpos : 0 < distinct_below T) by (destruct T; reflexivity).
  rewrite !Hlook by lia. f_equal.
  destruct T; try discriminate; cbn [of_index distinct_below width sizeof];
    rewrite Z2Nat.id by lia; cbn; reflexivity.
Qed.

Lemma sequence_entries_distinct_witness :
  NoDup (sequence Float 96) /\
  sequence Int16 (Z.to_nat 65568) !! Z.to_nat (distinct_below Int16) =
    sequence Int16 (Z.to_nat 65568) !! 0%nat.
Proof.
  split.
  - apply (proj1 (proj2 (proj2 (sequence_entries_distinct Float 96)))).
    vm_compute. discriminate.
  - apply (proj2 (proj2 (proj2
             (sequence_entries_distinct Int16 (Z.to_nat 65568)))));
      [reflexivity|].
    rewrite Z2Nat.id by lia. reflexivity.
Defined.

(** The guarantee on a sketch of 32 slots. *)
Lemma weights_bound_the_occurrences_witness :
  let vs := [7; 1000; 7; 2000; 7; 1000] in
  let s := Insert_all Int32 32 (init Int32 32) vs in
  NoDup (values s) /\
  32 * weights s !!! 0%nat <= 6 /\
  (forall (i : nat) (v : Z), values s !! i = Some v ->
     occurrences Int32 v vs <= weights s !!! i <=
       occurrences Int32 v vs + weights s !!! 0%nat) /\
  (forall v : Z, v ∉ values s -> occurrences Int32 v vs <= weights s !!! 0%nat).
Proof.
  apply (weights_bound_the_occurrences Int32 32).
  - lia.
  - reflexivity.
  - apply sequence_NoDup. vm_compute. discriminate.
  - vm_compute. reflexivity.
Defined.

End SSGuarantee.

(** ** SpaceSaving: the final class against its baseline *)

Module SSBaseline.
Import SS SSSpec SSHeap SSHeapSpec SimdProofs SSFindProofs SSInsertProofs.

Lemma equal_plain (T : arith) (a b : Z) :
  plain T a -> plain T b -> equal T a b = (a =? b).
Proof.
  intros Ha Hb. unfold equal.
  destruct (is_floating_point T) eqn:HT; [|reflexivity].
  destruct (Ha HT) as [Hna Hza]. destruct (Hb HT) as [Hnb Hzb].
  rewrite Hna, Hnb. cbn [negb andb].
  destruct (Z.eqb_spec a b) as [Heq|Hne]; [reflexivity|]. cbn [orb].
  destruct (fp_is_zero T a) eqn:Ea; [|reflexivity].
  destruct (fp_is_zero T b) eqn:Eb; [|reflexivity].
  rewrite Hza, Hzb in Hne by reflexivity. congruence.
Qed.

(** On plain values [std::find] finds what the comparison of bit patterns
    finds. *)
Lemma find_plain (T : arith) (value : Z) (vs : list Z) :
  plain T value -> Forall (plain T) vs ->
  find T value vs = find_first value vs.
Proof.
  intros Hv Hall. induction Hall as [|a vs Ha _ IH]; [reflexivity|].
  cbn [find find_first]. rewrite (equal_plain T a value Ha Hv).
  now rewrite IH.
Qed.

Lemma is_nan_zero (T : arith) : is_nan T 0 = false.
Proof. destruct T; reflexivity. Qed.

Lemma Normalized_plain (T : arith) (v : Z) :
  is_nan T v = false -> plain T (Normalized T v).
Proof.
  intros Hv HT. unfold Normalized. rewrite HT.
  destruct (fp_is_zero T v) eqn:Hz.
  - split; [apply is_nan_zero|reflexivity].
  - split; [exact Hv|]. rewrite Hz. discriminate.
Qed.

(** The initial values are plain. *)
Lemma of_index_plain (T : arith) (j : nat) :
  Z.of_nat j < 2 ^ 24 -> plain T (of_index T j).
Proof.
  intros Hj HT. split.
  - destruct (Nat.eq_dec j 0%nat) as [->|Hne].
    + destruct T; try discriminate; reflexivity.
    + assert (Hfields : forall bias mbits ebits,
                0 <= mbits -> 0 < bias -> 24 <= mbits + 1 ->
                bias + mbits + 1 < 2 ^ ebits - 1 -> 0 < ebits ->
                Z.land (fp_of_index bias mbits (Z.of_nat j))
                  (Z.ones (ebits + mbits)) <=
                Z.shiftl (Z.ones ebits) mbits).
      { intros bias mbits ebits Hm Hb Hm24 Hfit He.
        assert (Hjr : 1 <= Z.of_nat j < 2 ^ (mbits + 1)).
        { split; [lia|]. apply Z.lt_le_trans with (2 ^ 24); [lia|].
          apply Z.pow_le_mono_r; lia. }
        destruct (SSGuarantee.fp_of_index_fields bias mbits (Z.of_nat j)
                    Hm ltac:(lia) Hjr) as [Hexp Hfrac].
        set (x := fp_of_index bias mbits (Z.of_nat j)) in *.
        assert (Hlog : 0 <= Z.log2 (Z.of_nat j) <= mbits).
        { split; [apply Z.log2_nonneg|].
          assert (Z.log2 (Z.of_nat j) < mbits + 1); [|lia].
          apply Z.log2_lt_pow2; lia. }
        assert (Hx0 : 0 <= x).
        { unfold x, fp_of_index.
          destruct (Z.eqb_spec (Z.of_nat j) 0); [lia|].
          cbv zeta.
          destruct (Z.leb_spec (Z.log2 (Z.of_nat j)) mbits); [|lia].
          pose proof (Z.log2_spec (Z.of_nat j) ltac:(lia)).
          apply Z.lor_nonneg. split; apply Z.shiftl_nonneg; lia. }
        assert (Hp : 0 < 2 ^ mbits) by (apply Z.pow_pos_nonneg; lia).
        rewrite Z.shiftr_div_pow2 in Hexp by lia.
        pose proof (Z.div_mod x (2 ^ mbits) ltac:(lia)) as Hdm.
        pose proof (Z.mod_pos_bound x (2 ^ mbits) Hp) as Hmod.
        assert (Hle : Z.land x (Z.ones (ebits + mbits)) <= x).
        { rewrite Z.land_ones by lia.
          apply Z.mod_le; [lia|]. apply Z.pow_pos_nonneg; lia. }
        rewrite Z.shiftl_mul_pow2, (Z.ones_equiv ebits) by lia.
        assert (Hq : (x / 2 ^ mbits + 1) * 2 ^ mbits <=
                     Z.pred (2 ^ ebits) * 2 ^ mbits)
          by (apply Z.mul_le_mono_nonneg_r; lia).
        lia. }
      unfold is_nan. rewrite HT. cbn [andb].
      apply SSHeapProofs.gtb_false.
      destruct T; try discriminate; cbn [of_index width sizeof fraction_bits].
      * exact (Hfields 127 23 8 ltac:(lia) ltac:(lia) ltac:(lia) ltac:(lia)
                 ltac:(lia)).
      * exact (Hfields 1023 52 11 ltac:(lia) ltac:(lia) ltac:(lia) ltac:(lia)
                 ltac:(lia)).
  - intros Hz. destruct (Nat.eq_dec j 0%nat) as [->|Hne].
    + destruct T; try discriminate; reflexivity.
    + rewrite SSClaims.of_index_not_zero in Hz by (assumption || lia).
      discriminate.
Qed.

Section SpaceSaving.

Variable T : arith.
Variable K : nat.
Hypothesis HK : (0 < K)%nat.
Hypothesis HK32 : (K mod 32 = 0)%nat.

(** On a sketch of plain values the two inserts of a plain value are
    one. *)
Lemma Insert_same (s : sketch) (v : Z) :
  length (values s) = K -> length (weights s) = K ->
  Forall (plain T) (values s) -> is_nan T v = false ->
  SSHeap.Insert T K s v = SS.Insert T K s v /\
  length (values (SS.Insert T K s v)) = K /\
  length (weights (SS.Insert T K s v)) = K /\
  Forall (plain T) (values (SS.Insert T K s v)).
Proof.
  intros Hlv Hlw Hall Hv.
  pose proof (Normalized_plain T v Hv) as Hplain.
  unfold SSHeap.Insert, SS.Insert.
  rewrite (find_plain T _ _ Hplain Hall).
  rewrite (Find_first K HK32) by exact Hlv.
  split; [reflexivity|].
  set (value := Normalized T v) in *.
  set (i := match find_first value (values s) with
            | Some r => r
            | None => 0%nat
            end).
  assert (Hi : (i < K)%nat).
  { unfold i. destruct (find_first value (values s)) as [r|] eqn:Hf; [|lia].
    apply find_first_lt in Hf. lia. }
  destruct (UpdateHeap_perm K s value i Hlv Hlw Hi) as (Hperm & Hlv' & Hlw').
  split; [exact Hlv'|]. split; [exact Hlw'|].
  assert (Hvals : values (UpdateHeap K s value i) ≡ₚ <[i := value]> (values s)).
  { rewrite <- (fst_zip (values (UpdateHeap K s value i))
                 (weights (UpdateHeap K s value i))) by lia.
    fold (pairs (UpdateHeap K s value i)). rewrite Hperm.
    unfold pairs. rewrite list_fmap_insert. cbn [fst].
    now rewrite fst_zip by lia. }
  rewrite Hvals. apply Forall_insert; assumption.
Qed.

Lemma Insert_all_same (vs : list Z) :
  forall s : sketch,
  length (values s) = K -> length (weights s) = K ->
  Forall (plain T) (values s) ->
  Forall (fun v => is_nan T v = false) vs ->
  SSHeap.Insert_all T K s vs = SS.Insert_all T K s vs.
Proof.
  induction vs as [|v vs IH]; intros s Hlv Hlw Hall Hvs; [reflexivity|].
  apply Forall_cons in Hvs as [Hv Hvs].
  unfold SSHeap.Insert_all, SS.Insert_all. cbn [fold_left].
  destruct (Insert_same s v Hlv Hlw Hall Hv) as (Heq & Hlv' & Hlw' & Hall').
  rewrite Heq. now apply IH.
Qed.

(** X23.  The final SpaceSaving class and its baseline [heap::SpaceSaving]
    (a linear [std::find] with [==] in place of the AVX2 scan) leave the same
    arrays after every stream that holds no NaN, for every arithmetic key
    type.  A NaN sets them apart: [std::find] never finds a NaN, so the
    baseline files every NaN in slot 0 at the root, where the final class
    finds the pattern it stored. *)
Theorem final_agrees_with_heap_baseline (vs : list Z) :
  (is_floating_point T = true -> Z.of_nat K <= 2 ^ 24) ->
  (Forall (fun v => is_nan T v = false) vs ->
   SSHeap.Insert_all T K (SSHeap.init T K) vs =
   SS.Insert_all T K (SS.init T K) vs) /\
  (forall (s : sketch) (v : Z), is_nan T v = true ->
     SSHeap.Insert T K s v = SS.UpdateHeap K s v 0).
Proof.
  intros HKfp. split.
  - intros Hvs. unfold SSHeap.init. apply Insert_all_same; try assumption.
    + cbn [SS.init values]. unfold sequence.
      now rewrite length_fmap, length_seq.
    + cbn [SS.init weights]. apply length_replicate.
    + cbn [SS.init values]. unfold sequence. apply Forall_fmap.
      apply Forall_forall. intros j Hj. apply elem_of_seq in Hj. cbn.
      destruct (is_floating_point T) eqn:HT.
      * apply of_index_plain. specialize (HKfp eq_refl). lia.
      * intros Hfp. congruence.
  - intros s v Hv.
    assert (HT : is_floating_point T = true).
    { unfold is_nan in Hv. now destruct (is_floating_point T). }
    assert (Hnorm : Normalized T v = v).
    { unfold Normalized. rewrite HT.
      destruct (fp_is_zero T v) eqn:Hz; [|reflexivity].
      exfalso. unfold is_nan in Hv. rewrite HT in Hv. cbn [andb] in Hv.
      unfold fp_is_zero in Hz. apply Z.eqb_eq in Hz. rewrite Hz in Hv.
      apply SSHeapProofs.gtb_true in Hv.
      assert (0 <= Z.shiftl (Z.ones (width T - 1 - fraction_bits T))
                    (fraction_bits T))
        by (destruct T; try discriminate; cbn; lia).
      lia. }
    unfold SSHeap.Insert. rewrite Hnorm.
    assert (Hnone : find T v (values s) = None).
    { induction (values s) as [|a l IH]; [reflexivity|].
      cbn [find]. unfold equal at 1. rewrite HT, Hv.
      rewrite andb_false_r. cbn [andb]. now rewrite IH. }
    now rewrite Hnone.
Qed.

End SpaceSaving.

(** Streams of [float] keys with and without a NaN. *)
Lemma final_agrees_with_heap_baseline_witness :
  SSHeap.Insert_all Float 32 (SSHeap.init Float 32)
    [0x3FC00000; 0x80000000; 0x3FC00000] =
  SS.Insert_all Float 32 (SS.init Float 32)
    [0x3FC00000; 0x80000000; 0x3FC00000] /\
  SSHeap.Insert Float 32 (SS.init Float 32) 0x7FC00000 =
  SS.UpdateHeap 32 (SS.init Float 32) 0x7FC00000 0.
Proof.
  pose proof (final_agrees_with_heap_baseline Float 32 ltac:(lia) eq_refl
                [0x3FC00000; 0x80000000; 0x3FC00000])
    as Hthm.
  destruct Hthm as [Hsame Hnan]; [intros _; vm_compute; discriminate|].
  split.
  - apply Hsame. repeat constructor.
  - apply Hnan. reflexivity.
Defined.

End SSBaseline.

(** ** SpaceSaving for hashed keys *)

Module SSHFind.
Import SSH SSSpec SSHSpec ScanSpec SimdProofs ScanProofs Bits.

(** *** [mask &= mask - 1] clears the lowest set bit *)

Lemma clear_lowest_testbit (m n : Z) :
  0 < m -> 0 <= n ->
  Z.testbit (Z.land m (m - 1)) n = Z.testbit m n && negb (n =? ctz m).
Proof.
  intros Hm Hn. set (c := ctz m).
  assert (Hc : 0 <= c) by apply ctz_nonneg.
  assert (Hbit : Z.testbit m c = true) by (now apply ctz_testbit).
  assert (Hlow : forall k, 0 <= k < c -> Z.testbit m k = false)
    by (intros k Hk; now apply ctz_below).
  rewrite Z.land_spec.
  destruct (Z.lt_trichotomy n c) as [Hlt|[->|Hgt]].
  - rewrite (Hlow n) by lia. reflexivity.
  - rewrite Z.eqb_refl, Hbit. cbn [negb andb].
    (* bit [c] of [m - 1] *)
    assert (Hmod : m mod 2 ^ c = 0).
    { rewrite <- Z.land_ones by lia. apply Z.bits_inj'. intros k Hk.
      rewrite Z.land_spec, Z.bits_0, testbit_ones_range by lia.
      destruct (Z.ltb_spec k c).
      - rewrite (Hlow k) by lia. reflexivity.
      - now rewrite !andb_false_r. }
    apply Z.testbit_false; [lia|].
    apply Z.testbit_true in Hbit; [|lia].
    assert (Hp : 0 < 2 ^ c) by (apply Z.pow_pos_nonneg; lia).
    pose proof (Z.div_mod m (2 ^ c) ltac:(lia)) as Hdm.
    pose proof (Z.div_mod (m / 2 ^ c) 2 ltac:(lia)) as Hdm2.
    assert (Hq : (m - 1) / 2 ^ c = m / 2 ^ c - 1).
    { symmetry. apply Z.div_unique with (2 ^ c - 1); [lia|]. lia. }
    rewrite Hq.
    replace (m / 2 ^ c - 1) with (0 + (m / 2 ^ c / 2) * 2) by lia.
    now rewrite Z.mod_add by lia.
  - destruct (Z.eqb_spec n c); [lia|]. cbn [negb].
    rewrite andb_true_r.
    (* the bits above [c] are those of [m] *)
    assert (Hsame : Z.testbit (m - 1) n = Z.testbit m n).
    { assert (Hp : 0 < 2 ^ (c + 1)) by (apply Z.pow_pos_nonneg; lia).
      assert (Hmodc : m mod 2 ^ (c + 1) = 2 ^ c).
      { rewrite <- Z.land_ones by lia. apply Z.bits_inj'. intros k Hk.
        rewrite Z.land_spec, testbit_ones_range, Z.pow2_bits_eqb by lia.
        destruct (Z.leb_spec 0 k); [|lia]. cbn [andb].
        destruct (Z.ltb_spec k (c + 1)).
        - rewrite andb_true_r. destruct (Z.eqb_spec c k) as [<-|Hne].
          + exact Hbit.
          + apply Hlow. lia.
        - rewrite andb_false_r. destruct (Z.eqb_spec c k); [lia|].
          reflexivity. }
      pose proof (Z.div_mod m (2 ^ (c + 1)) ltac:(lia)) as Hdm.
      assert (Hpc : 0 < 2 ^ c) by (apply Z.pow_pos_nonneg; lia).
      assert (Hpow : 2 ^ (c + 1) = 2 * 2 ^ c)
        by (replace (c + 1) with (Z.succ c) by lia; apply Z.pow_succ_r; lia).
      assert (Hq : (m - 1) / 2 ^ (c + 1) = m / 2 ^ (c + 1)).
      { symmetry. apply Z.div_unique with (2 ^ c - 1); lia. }
      replace n with ((n - (c + 1)) + (c + 1)) by lia.
      rewrite <- !Z.div_pow2_bits by lia. now rewrite Hq. }
    rewrite Hsame. now destruct (Z.testbit m n).
Qed.

Section Find.

Context {T : Type} `{EqDecision T}.
Variable T_default : T.
Variable K : nat.
Hypothesis HK32 : (K mod 32 = 0)%nat.

#[local] Hint Extern 0 (Inhabited T) =>
  exact (SSH.T_inhabited T_default) : typeclass_instances.

(** The inner loop returns the first set bit of the mask whose slot holds
    the value; 64 rounds exhaust a [uint64_t]. *)
Lemma match_loop_spec (vs : list T) (value : T) (i : nat) (fuel : nat) :
  forall (mask b : Z),
  0 <= mask -> 0 <= b ->
  (forall n, 0 <= n < b -> Z.testbit mask n = false) ->
  (forall n, 64 <= n -> Z.testbit mask n = false) ->
  64 <= Z.of_nat fuel + b ->
  match match_loop T_default fuel vs value i mask with
  | Some j =>
      exists c, 0 <= c /\ j = (i + Z.to_nat c)%nat /\
        Z.testbit mask c = true /\ vs !!! j = value /\
        forall c', 0 <= c' < c -> Z.testbit mask c' = true ->
          vs !!! (i + Z.to_nat c')%nat <> value
  | None =>
      forall c, 0 <= c -> Z.testbit mask c = true ->
        vs !!! (i + Z.to_nat c)%nat <> value
  end.
Proof.
  induction fuel as [|fuel IH]; intros mask b Hm Hb Hlow Hhigh Hfuel.
  - cbn [match_loop]. intros c Hc Hbit.
    destruct (Z.lt_ge_cases c 64).
    + rewrite Hlow in Hbit by lia. discriminate.
    + rewrite Hhigh in Hbit by lia. discriminate.
  - cbn [match_loop]. destruct (Z.eqb_spec mask 0) as [->|Hne]; cbn [negb].
    { intros c _ Hbit. rewrite Z.bits_0 in Hbit. discriminate. }
    assert (Hpos : 0 < mask) by lia.
    pose proof (ctz_nonneg mask) as Hc0.
    pose proof (ctz_testbit mask Hpos) as Hbit0.
    assert (Hcb : b <= ctz mask).
    { destruct (Z.lt_ge_cases (ctz mask) b) as [Hlt|]; [|lia].
      rewrite Hlow in Hbit0 by lia. discriminate. }
    assert (Hc64 : ctz mask < 64).
    { destruct (Z.lt_ge_cases (ctz mask) 64) as [|Hge]; [lia|].
      rewrite Hhigh in Hbit0 by lia. discriminate. }
    destruct (bool_decide (vs !!! (i + Z.to_nat (ctz mask))%nat = value))
      eqn:Hdec.
    + apply bool_decide_eq_true in Hdec.
      exists (ctz mask). repeat split; try assumption.
      intros c' Hc' Hbit'. rewrite (ctz_below mask c') in Hbit' by lia.
      discriminate.
    + apply bool_decide_eq_false in Hdec.
      assert (Hsmall : 0 <= mask - 1 < 2 ^ 64).
      { split; [lia|].
        assert (mask < 2 ^ 64); [|lia].
        destruct (Z.lt_ge_cases mask (2 ^ 64)) as [|Hge]; [assumption|].
        exfalso.
        assert (Hl : 64 <= Z.log2 mask) by (apply Z.log2_le_pow2; lia).
        pose proof (Z.bit_log2 mask Hpos) as Hb2.
        rewrite Hhigh in Hb2 by lia. discriminate. }
      rewrite u64_small by exact Hsmall.
      assert (Hbits : forall n, 0 <= n ->
                Z.testbit (Z.land mask (mask - 1)) n =
                Z.testbit mask n && negb (n =? ctz mask))
        by (intros n Hn; now apply clear_lowest_testbit).
      specialize (IH (Z.land mask (mask - 1)) (ctz mask + 1)
                    ltac:(apply Z.land_nonneg; lia) ltac:(lia)).
      assert (Hlow' : forall n, 0 <= n < ctz mask + 1 ->
                Z.testbit (Z.land mask (mask - 1)) n = false).
      { intros n Hn. rewrite Hbits by lia.
        destruct (Z.eqb_spec n (ctz mask)) as [->|Hne'].
        - now rewrite andb_false_r.
        - rewrite (ctz_below mask n) by lia. reflexivity. }
      assert (Hhigh' : forall n, 64 <= n ->
                Z.testbit (Z.land mask (mask - 1)) n = false).
      { intros n Hn. rewrite Hbits by lia. now rewrite Hhigh by lia. }
      specialize (IH Hlow' Hhigh' ltac:(lia)).
      destruct (match_loop T_default fuel vs value i
                  (Z.land mask (mask - 1))) as [j|].
      * destruct IH as (c & Hc & Hj & Hbit & Hv & Hfirst).
        rewrite Hbits in Hbit by lia.
        apply andb_true_iff in Hbit as [Hbit Hcne].
        exists c. repeat split; try assumption.
        intros c' Hc' Hbit'.
        destruct (Z.eq_dec c' (ctz mask)) as [->|Hne'']; [exact Hdec|].
        apply Hfirst; [lia|]. rewrite Hbits by lia. rewrite Hbit'.
        destruct (Z.eqb_spec c' (ctz mask)); [lia|reflexivity].
      * intros c Hc Hbit.
        destruct (Z.eq_dec c (ctz mask)) as [->|Hne'']; [exact Hdec|].
        apply IH; [lia|]. rewrite Hbits by lia. rewrite Hbit.
        destruct (Z.eqb_spec c (ctz mask)); [lia|reflexivity].
Qed.

(** The bits of the mask of the block at [i]. *)
Lemma block_mask_testbit (hs : list Z) (hash : Z) (i : nat) (c : Z) :
  (i + 32 <= length hs)%nat -> 0 <= c ->
  Z.testbit (Simd.Compare32Keys64Bit (Simd.broadcast_epi64 hash) (drop i hs))
    c = (c <? 32) && key_matches hash hs (i + Z.to_nat c).
Proof.
  intros Hlen Hc.
  rewrite Compare32Keys64Bit_mask by (rewrite length_drop; lia).
  replace c with (Z.of_nat (Z.to_nat c)) at 1 by lia.
  rewrite match_mask_testbit, key_matches_take, key_matches_drop.
  f_equal. destruct (Nat.ltb_spec (Z.to_nat c) 32);
    destruct (Z.ltb_spec c 32); lia || reflexivity.
Qed.

Lemma block_mask_range (hs : list Z) (hash : Z) (i : nat) :
  (i + 32 <= length hs)%nat ->
  0 <= Simd.Compare32Keys64Bit (Simd.broadcast_epi64 hash) (drop i hs)
    < 2 ^ 32.
Proof.
  intros Hlen.
  rewrite Compare32Keys64Bit_mask by (rewrite length_drop; lia).
  pose proof (match_mask_range hash (take 32 (drop i hs))) as Hr.
  rewrite length_take, length_drop in Hr.
  replace (Z.of_nat (32 `min` (length hs - i))) with 32 in Hr by lia.
  exact Hr.
Qed.

Lemma holds_lookup (s : @sketch T) (value : T) (hash : Z) (j : nat) :
  length (values s) = K -> (j < K)%nat ->
  holds s value hash j <->
  key_matches hash (hashes s) j = true /\ values s !!! j = value.
Proof.
  intros Hlv Hj. unfold holds, key_matches. split.
  - intros [Hh Hv]. rewrite Hh. split; [apply Z.eqb_refl|].
    now apply list_lookup_total_correct.
  - intros [Hh Hv]. split.
    + destruct (hashes s !! j) as [a|]; [|discriminate].
      apply Z.eqb_eq in Hh. now subst a.
    + rewrite <- Hv. apply list_lookup_lookup_total_lt. lia.
Qed.

Lemma hashed_scan_blocks_spec (s : @sketch T) (value : T) (hash : Z) (fuel : nat) :
  forall i : nat,
  length (hashes s) = K -> length (values s) = K ->
  (i mod 32 = 0)%nat -> (i <= K)%nat -> (K <= i + 32 * fuel)%nat ->
  match scan_blocks T_default K s value hash fuel i with
  | Some j =>
      (i <= j < K)%nat /\ holds s value hash j /\
      forall j', (i <= j' < j)%nat -> ~ holds s value hash j'
  | None => forall j', (i <= j' < K)%nat -> ~ holds s value hash j'
  end.
Proof.
  induction fuel as [|fuel IH]; intros i Hlh Hlv Hi HiK Hfuel.
  - cbn [scan_blocks]. intros j' Hj'. lia.
  - cbn [scan_blocks].
    assert (Hstep : (i = K \/ i + 32 <= K)%nat).
    { apply Nat.Div0.mod_divides in HK32 as [a Ha].
      apply Nat.Div0.mod_divides in Hi as [b Hb]. lia. }
    destruct (Nat.leb_spec (i + 32) K) as [Hle|Hgt].
    2:{ intros j' Hj'. lia. }
    set (mask := Simd.Compare32Keys64Bit (Simd.broadcast_epi64 hash)
                   (drop i (hashes s))).
    pose proof (block_mask_range (hashes s) hash i ltac:(lia)) as Hrange.
    fold mask in Hrange.
    assert (Hbits : forall c, 0 <= c ->
              Z.testbit mask c =
              (c <? 32) && key_matches hash (hashes s) (i + Z.to_nat c))
      by (intros c Hc; apply block_mask_testbit; lia).
    pose proof (match_loop_spec (values s) value i 64 mask 0
                  ltac:(lia) ltac:(lia) ltac:(intros; lia)
                  ltac:(intros n Hn; apply (testbit_above mask 32); lia)
                  ltac:(lia)) as Hloop.
    destruct (match_loop T_default 64 (values s) value i mask) as [j|].
    + destruct Hloop as (c & Hc & -> & Hbit & Hv & Hfirst).
      rewrite Hbits in Hbit by lia.
      apply andb_true_iff in Hbit as [Hc32 Hkey].
      apply Z.ltb_lt in Hc32.
      split; [lia|]. split.
      * apply holds_lookup; [exact Hlv|lia|]. now split.
      * intros j' Hj' Hholds.
        apply holds_lookup in Hholds as [Hkey' Hv']; [|exact Hlv|lia].
        apply (Hfirst (Z.of_nat (j' - i))); [lia| |].
        -- rewrite Hbits by lia.
           replace (i + Z.to_nat (Z.of_nat (j' - i)))%nat with j' by lia.
           rewrite Hkey'. destruct (Z.ltb_spec (Z.of_nat (j' - i)) 32);
             [reflexivity|lia].
        -- now replace (i + Z.to_nat (Z.of_nat (j' - i)))%nat with j' by lia.
    + specialize (IH (i + 32)%nat Hlh Hlv).
      assert (Hi' : ((i + 32) mod 32 = 0)%nat).
      { apply Nat.Div0.mod_divides in Hi as [b Hb].
        apply Nat.Div0.mod_divides. exists (b + 1)%nat. lia. }
      specialize (IH Hi' ltac:(lia) ltac:(lia)).
      assert (Hblock : forall j', (i <= j' < i + 32)%nat ->
                ~ holds s value hash j').
      { intros j' Hj' Hholds.
        apply holds_lookup in Hholds as [Hkey' Hv']; [|exact Hlv|lia].
        apply (Hloop (Z.of_nat (j' - i))); [lia| |].
        - rewrite Hbits by lia.
          replace (i + Z.to_nat (Z.of_nat (j' - i)))%nat with j' by lia.
          rewrite Hkey'. destruct (Z.ltb_spec (Z.of_nat (j' - i)) 32);
            [reflexivity|lia].
        - now replace (i + Z.to_nat (Z.of_nat (j' - i)))%nat with j' by lia. }
      destruct (scan_blocks T_default K s value hash fuel (i + 32)) as [j|].
      * destruct IH as (Hj & Hholds & Hfirst).
        split; [lia|]. split; [exact Hholds|].
        intros j' Hj'. destruct (Nat.lt_ge_cases j' (i + 32)).
        -- apply Hblock. lia.
        -- apply Hfirst. lia.
      * intros j' Hj'. destruct (Nat.lt_ge_cases j' (i + 32)).
        -- apply Hblock. lia.
        -- apply IH. lia.
Qed.

(** Where [Find] lands. *)
Lemma Find_cases (NotFound : nat) (s : @sketch T) (value : T) (hash : Z) :
  length (hashes s) = K -> length (values s) = K ->
  let r := Find T_default K NotFound s value hash in
  ((r < K)%nat /\ holds s value hash r /\
   forall j', (j' < r)%nat -> ~ holds s value hash j') \/
  (r = NotFound /\ forall j, ~ holds s value hash j).
Proof.
  intros Hlh Hlv. unfold Find.
  pose proof (hashed_scan_blocks_spec s value hash K 0 Hlh Hlv eq_refl
                ltac:(lia) ltac:(lia)) as Hscan.
  destruct (scan_blocks T_default K s value hash K 0) as [r|]; cbv zeta.
  - left. destruct Hscan as (Hr & Hholds & Hfirst).
    split; [lia|]. split; [exact Hholds|]. intros j' Hj'. apply Hfirst. lia.
  - right. split; [reflexivity|]. intros j Hj.
    assert (j < K)%nat.
    { destruct Hj as [Hh _]. apply lookup_lt_Some in Hh. lia. }
    destruct (Hscan j ltac:(lia) Hj).
Qed.

(** X18.  [Find] of the hashed specialisation returns the first slot that
    holds both the hash and the value; a slot whose hash matches and whose
    value differs (a collision) is passed over.  When no slot holds both it
    returns [NotFound]. *)
Theorem Find_needs_hash_and_value (NotFound : nat) (s : @sketch T)
    (value : T) (hash : Z) :
  length (hashes s) = K -> length (values s) = K ->
  ((forall j, ~ holds s value hash j) ->
     Find T_default K NotFound s value hash = NotFound) /\
  (forall j, holds s value hash j ->
     (forall j', (j' < j)%nat -> ~ holds s value hash j') ->
     Find T_default K NotFound s value hash = j).
Proof.
  intros Hlh Hlv.
  destruct (Find_cases NotFound s value hash Hlh Hlv)
    as [(Hr & Hholds & Hfirst)|[Hr Hnone]].
  - split.
    + intros Hno. now destruct (Hno _ Hholds).
    + intros j Hj Hjfirst.
      destruct (Nat.lt_trichotomy (Find T_default K NotFound s value hash) j)
        as [Hlt|[Heq|Hgt]]; [|exact Heq|].
      * now destruct (Hjfirst _ Hlt).
      * now destruct (Hfirst j Hgt).
  - split; [intros _; exact Hr|]. intros j Hj _. now destruct (Hnone j).
Qed.

End Find.

(** A sketch of strings in which slots 0 and 1 hold the same hash. *)
Lemma Find_needs_hash_and_value_witness :
  let s := {| hashes := replicate 32 5;
              weights := replicate 32 0;
              values := [[97]; [98]] ++ replicate 30 [] |} in
  Find [] 32 0 s [98] 5 = 1%nat /\ Find [] 32 7 s [99] 5 = 7%nat.
Proof.
  intros s.
  pose proof (Find_needs_hash_and_value (T := list Z) [] 32 eq_refl) as Hfind.
  split.
  - apply (proj2 (Hfind 0%nat s [98] 5 eq_refl eq_refl) 1%nat).
    + split; reflexivity.
    + intros j' Hj' [_ Hv]. assert (j' = 0%nat) as -> by lia.
      discriminate Hv.
  - apply (proj1 (Hfind 7%nat s [99] 5 eq_refl eq_refl)).
    intros j [_ Hv].
    destruct j as [|[|j]]; [discriminate Hv..|].
    unfold s in Hv. cbn [values] in Hv.
    rewrite lookup_app_r in Hv by (cbn [length]; lia).
    apply lookup_replicate in Hv as [Hv _]. discriminate Hv.
Defined.

End SSHFind.

(** ** SpaceSaving for hashed keys: the heap and the stream *)

Module SSHInsert.
Import SSH SSSpec SSHSpec SSHeapProofs SSInsertProofs Bits.

(** *** A list of entries that follows a stream *)

Lemma NoDup_insert_fresh {A : Type} (l : list A) (i : nat) (x : A) :
  NoDup l -> (l !! i = Some x \/ x ∉ l) -> NoDup (<[i := x]> l).
Proof.
  intros Hnd [Hi|Hfresh]; [now rewrite list_insert_id|].
  apply NoDup_alt. intros a b y Ha Hb.
  apply list_lookup_insert_Some in Ha as [(-> & -> & _)|[Hai Ha]];
    apply list_lookup_insert_Some in Hb as [(-> & Hy & _)|[Hbi Hb]];
    try reflexivity.
  - exfalso. apply Hfresh. eapply list_elem_of_lookup_2; eassumption.
  - exfalso. subst y. apply Hfresh. eapply list_elem_of_lookup_2; eassumption.
  - eapply NoDup_lookup; eassumption.
Qed.

Lemma insert_cases {A : Type} (l : list A) (i : nat) (x y : A) :
  x ∈ <[i := y]> l -> x = y \/ exists j, j <> i /\ l !! j = Some x.
Proof.
  intros Hin. apply list_elem_of_lookup in Hin as [j Hj].
  apply list_lookup_insert_Some in Hj as [(-> & -> & _)|[Hne Hj]].
  - now left.
  - right. exists j. split; [congruence|exact Hj].
Qed.

Lemma tracked_step {Key : Type} `{EqDecision Key} (P P' : list (Key * Z))
    (i : nat)
    (key k0 : Key) (wi m m' : Z) (occ occ' : Key -> Z) :
  tracked P m occ ->
  P' ≡ₚ <[i := (key, wi + 1)]> P ->
  P !! i = Some (k0, wi) ->
  m <= m' ->
  (k0 = key \/ ((key ∉ P.*1) /\ wi = m)) ->
  (forall k, 0 <= occ k) ->
  occ' key = occ key + 1 -> (forall k, k <> key -> occ' k = occ k) ->
  tracked P' m' occ'.
Proof.
  intros (Hnd & Hin & Hout) Hperm Hi Hm Hcase Hnn Hocc1 Hocc.
  assert (Hkeys : P'.*1 ≡ₚ <[i := key]> P.*1).
  { rewrite Hperm, list_fmap_insert. reflexivity. }
  assert (Hi1 : P.*1 !! i = Some k0)
    by (rewrite list_lookup_fmap, Hi; reflexivity).
  assert (Hother : forall j k w, j <> i -> P !! j = Some (k, w) -> k <> key).
  { intros j k w Hji Hj ->.
    assert (Hj1 : P.*1 !! j = Some key)
      by (rewrite list_lookup_fmap, Hj; reflexivity).
    destruct Hcase as [->|[Hfresh _]].
    - apply Hji. eapply NoDup_lookup; eassumption.
    - apply Hfresh. eapply list_elem_of_lookup_2; eassumption. }
  split; [|split].
  - rewrite Hkeys. apply NoDup_insert_fresh; [exact Hnd|].
    destruct Hcase as [->|[Hfresh _]]; [now left|now right].
  - intros k w Hkw. rewrite Hperm in Hkw.
    apply insert_cases in Hkw as [[= -> ->]|(j & Hji & Hj)].
    + rewrite Hocc1. specialize (Hnn key).
      destruct Hcase as [->|[Hfresh ->]].
      * assert (Hold : (key, wi) ∈ P)
          by (eapply list_elem_of_lookup_2; eassumption).
        apply Hin in Hold. lia.
      * specialize (Hout key Hfresh). lia.
    + rewrite (Hocc k) by (now apply (Hother j k w)).
      assert (Hold : (k, w) ∈ P)
        by (eapply list_elem_of_lookup_2; eassumption).
      apply Hin in Hold. lia.
  - intros k Hk. rewrite Hkeys in Hk.
    assert (Hlt : (i < length P.*1)%nat)
      by (eapply lookup_lt_Some; eassumption).
    assert (Hne : k <> key).
    { intros ->. apply Hk. apply list_elem_of_lookup. exists i.
      now apply list_lookup_insert_eq. }
    rewrite (Hocc k Hne).
    assert (Hdec : k0 = k \/ k ∉ P.*1).
    { destruct (decide (k ∈ P.*1)) as [Hin'|Hnot]; [|now right].
      apply list_elem_of_lookup in Hin' as [j Hj].
      destruct (decide (j = i)) as [->|Hji]; [left; congruence|].
      exfalso. apply Hk. apply list_elem_of_lookup. exists j.
      now rewrite list_lookup_insert_ne by congruence. }
    destruct Hdec as [->|Hnot].
    + destruct Hcase as [->|[_ ->]]; [congruence|].
      assert (Hold : (k, m) ∈ P)
        by (eapply list_elem_of_lookup_2; eassumption).
      apply Hin in Hold. lia.
    + specialize (Hout k Hnot). lia.
Qed.

(** *** The arithmetic sketch inside the hashed one *)

(** [UpdateHeap] of the arithmetic specialisation keeps the count. *)
Lemma UpdateHeap_counted (K : nat) (s : SS.sketch) (value : Z) (i : nat)
    (n : Z) :
  (i < K)%nat -> SSSpec.counted K s n -> n + 1 < 2 ^ 64 ->
  SSSpec.counted K (SS.UpdateHeap K s value i) (n + 1).
Proof.
  intros Hi ((Hlv & Hlw & Hrange) & Hheap & Hsum) Hn.
  assert (Hnonneg : Forall (fun w => 0 <= w) (SS.weights s)).
  { eapply Forall_impl; [exact Hrange|]. cbn. intros w Hw. lia. }
  pose proof (sum_list_lookup_le (SS.weights s) i Hnonneg ltac:(lia)) as Hle.
  assert (Hwi : 0 <= SS.weights s !!! i).
  { rewrite Forall_lookup in Hnonneg.
    apply (Hnonneg i). apply list_lookup_lookup_total_lt. lia. }
  destruct (UpdateHeap_perm K s value i Hlv Hlw Hi) as (Hperm & Hlv' & Hlw').
  assert (Hws : SS.weights (SS.UpdateHeap K s value i) ≡ₚ
                <[i := u64 (SS.weights s !!! i + 1)]> (SS.weights s)).
  { rewrite <- (snd_zip (SS.values (SS.UpdateHeap K s value i))
                 (SS.weights (SS.UpdateHeap K s value i))) by lia.
    fold (pairs (SS.UpdateHeap K s value i)). rewrite Hperm.
    unfold pairs. rewrite <- zip_insert.
    rewrite snd_zip by (rewrite !length_insert; lia). reflexivity. }
  split; [split; [exact Hlv'|split; [exact Hlw'|]]|split].
  - rewrite Hws. apply Forall_range_insert; [exact Hrange|].
    rewrite u64_small by lia. lia.
  - apply UpdateHeap_heap; try assumption. lia.
  - transitivity
      (sum_list (<[i := u64 (SS.weights s !!! i + 1)]> (SS.weights s))).
    + clear -Hws. unfold sum_list. induction Hws; cbn; lia.
    + rewrite sum_list_insert by lia. rewrite u64_small by lia. lia.
Qed.

Section SpaceSaving.

Context {T : Type} `{EqDecision T}.
Variable T_default : T.
Variable K : nat.
Hypothesis HK : (0 < K)%nat.
Hypothesis HK32 : (K mod 32 = 0)%nat.

#[local] Hint Extern 0 (Inhabited T) =>
  exact (SSH.T_inhabited T_default) : typeclass_instances.

Local Abbreviation proj s :=
  {| SS.values := hashes s; SS.weights := weights s |}.

(** The weights and the hashes move as the weights and the values of the
    arithmetic specialisation do. *)
Lemma SiftDown_loop_proj (fuel : nat) (w : Z) :
  forall (ws hs : list Z) (vs : list T) (p c : nat),
  let r := SiftDown_loop T_default K fuel w ws hs vs p c in
  SS.SiftDown_loop K fuel w ws hs p c = (r.1.1.1, r.1.1.2, r.2).
Proof.
  induction fuel as [|fuel IH]; intros ws hs vs p c; [reflexivity|].
  cbn [SiftDown_loop SS.SiftDown_loop].
  destruct (c <? K)%nat; [|reflexivity].
  set (ch := if ((c + 1 <? K)%nat && (ws !!! c >? ws !!! (c + 1)%nat))
             then (c + 1)%nat else c).
  destruct (negb (w >? ws !!! ch)); [reflexivity|]. apply IH.
Qed.

Lemma UpdateHeap_proj (s : @sketch T) (value : T) (hash : Z) (i : nat) :
  proj (UpdateHeap T_default K s value hash i) =
  SS.UpdateHeap K (proj s) hash i.
Proof.
  unfold UpdateHeap, SS.UpdateHeap, SiftDown, SS.SiftDown.
  cbn [hashes weights values SS.values SS.weights].
  set (ws := <[i := u64 (weights s !!! i + 1)]> (weights s)).
  set (hs := <[i := hash]> (hashes s)).
  set (vs := <[i := value]> (values s)).
  pose proof (SiftDown_loop_proj K (ws !!! i) ws hs vs i (2 * i + 1)) as Hp.
  cbv zeta in Hp. rewrite Hp.
  destruct (SiftDown_loop T_default K K (ws !!! i) ws hs vs i (2 * i + 1))
    as [[[ws' hs'] vs'] p'].
  reflexivity.
Qed.

(** [SiftDown] permutes the entries. *)
Lemma SiftDown_loop_entries (fuel : nat) (w h : Z) (v : T) :
  forall (ws hs : list Z) (vs : list T) (p c : nat)
         (ws' hs' : list Z) (vs' : list T) (p' : nat),
  length ws = K -> length hs = K -> length vs = K ->
  (p < K)%nat -> (p < c)%nat ->
  SiftDown_loop T_default K fuel w ws hs vs p c = (ws', hs', vs', p') ->
  zip (zip (<[p' := h]> hs') (<[p' := v]> vs')) (<[p' := w]> ws') ≡ₚ
    zip (zip (<[p := h]> hs) (<[p := v]> vs)) (<[p := w]> ws) /\
  length ws' = K /\ length hs' = K /\ length vs' = K.
Proof.
  induction fuel as [|fuel IH];
    intros ws hs vs p c ws' hs' vs' p' Hlw Hlh Hlv Hp Hc Hrun.
  - cbn in Hrun. injection Hrun as <- <- <- <-. now repeat split.
  - cbn [SiftDown_loop] in Hrun.
    destruct (Nat.ltb_spec c K) as [HcK|HcK].
    2:{ injection Hrun as <- <- <- <-. now repeat split. }
    destruct (chosen_child K ws c HcK) as (Hch & HchK & _ & _).
    set (ch := if ((c + 1 <? K)%nat && (ws !!! c >? ws !!! (c + 1)%nat))
               then (c + 1)%nat else c) in *.
    destruct (w >? ws !!! ch); cbn [negb] in Hrun.
    2:{ injection Hrun as <- <- <- <-. now repeat split. }
    apply IH in Hrun as (Hperm & Hlw' & Hlh' & Hlv');
      [|now rewrite length_insert..|exact HchK|lia].
    split; [|now repeat split].
    rewrite Hperm, !zip_insert.
    set (l := <[p := ((h, v), w)]> (zip (zip hs vs) ws)).
    assert (Hll : length l = K).
    { unfold l. rewrite length_insert, !length_zip. lia. }
    assert (Hlp : l !!! p = ((h, v), w)).
    { unfold l. apply list_lookup_total_insert_eq. rewrite !length_zip. lia. }
    assert (Hlc : l !!! ch = ((hs !!! ch, vs !!! ch), ws !!! ch)).
    { unfold l. rewrite list_lookup_total_insert_ne by lia.
      rewrite zip_lookup_total by (rewrite ?length_zip; lia).
      now rewrite zip_lookup_total by lia. }
    rewrite <- Hlp, <- Hlc.
    replace (<[p := l !!! ch]> (zip (zip hs vs) ws))
      with (<[p := l !!! ch]> l)
      by (unfold l; apply list_insert_insert_eq).
    apply exchange_perm; lia.
Qed.

Lemma UpdateHeap_entries (s : @sketch T) (value : T) (hash : Z) (i : nat) :
  length (hashes s) = K -> length (values s) = K ->
  length (weights s) = K -> (i < K)%nat ->
  entries (UpdateHeap T_default K s value hash i) ≡ₚ
    <[i := ((hash, value), u64 (weights s !!! i + 1))]> (entries s) /\
  length (values (UpdateHeap T_default K s value hash i)) = K.
Proof.
  intros Hlh Hlv Hlw Hi. unfold UpdateHeap, SiftDown, entries, keys.
  cbn [hashes weights values].
  set (ws := <[i := u64 (weights s !!! i + 1)]> (weights s)).
  set (hs := <[i := hash]> (hashes s)).
  set (vs := <[i := value]> (values s)).
  destruct (SiftDown_loop T_default K K (ws !!! i) ws hs vs i (2 * i + 1))
    as [[[ws' hs'] vs'] p'] eqn:Hrun.
  cbn [hashes weights values].
  destruct (SiftDown_loop_entries K (ws !!! i) (hs !!! i) (vs !!! i)
              ws hs vs i (2 * i + 1)%nat ws' hs' vs' p')
    as (Hperm & Hlw' & Hlh' & Hlv');
    try (unfold ws, hs, vs; rewrite length_insert; assumption);
    [exact Hi|lia|exact Hrun|].
  split; [|now rewrite length_insert].
  rewrite Hperm.
  rewrite !list_insert_id
    by (apply list_lookup_lookup_total_lt;
        unfold ws, hs, vs; rewrite length_insert; lia).
  unfold ws, hs, vs. now rewrite !zip_insert.
Qed.

Lemma key_occurrences_nonneg (k : Z * T) (xs : list (T * Z)) :
  0 <= occurrences k xs.
Proof. unfold occurrences. lia. Qed.

Lemma key_occurrences_snoc (k : Z * T) (x : T * Z) (xs : list (T * Z)) :
  occurrences k (xs ++ [x]) =
  occurrences k xs + (if bool_decide (key_of x = k) then 1 else 0).
Proof.
  unfold occurrences. rewrite List.filter_app, length_app. cbn [List.filter].
  destruct (bool_decide (key_of x = k)); cbn [length]; lia.
Qed.

Lemma entries_lookup (s : @sketch T) (j : nat) :
  length (hashes s) = K -> length (values s) = K ->
  length (weights s) = K -> (j < K)%nat ->
  entries s !! j =
  Some ((hashes s !!! j, values s !!! j), weights s !!! j).
Proof.
  intros Hlh Hlv Hlw Hj. unfold entries, keys.
  apply lookup_zip_with_Some. eexists _, _. split; [reflexivity|].
  split.
  - apply lookup_zip_with_Some. eexists _, _. split; [reflexivity|].
    split; apply list_lookup_lookup_total_lt; lia.
  - apply list_lookup_lookup_total_lt; lia.
Qed.

Lemma entries_keys (s : @sketch T) :
  length (hashes s) = K -> length (values s) = K ->
  length (weights s) = K -> (entries s).*1 = keys s.
Proof.
  intros Hlh Hlv Hlw. unfold entries. apply fst_zip.
  unfold keys. rewrite length_zip. lia.
Qed.

Lemma keys_holds (s : @sketch T) (value : T) (hash : Z) :
  (hash, value) ∈ keys s <-> exists j, holds s value hash j.
Proof.
  unfold keys, holds. rewrite list_elem_of_lookup. split.
  - intros [j Hj]. exists j.
    apply lookup_zip_with_Some in Hj as (a & b & [= -> ->] & Ha & Hb).
    now split.
  - intros (j & Hh & Hv). exists j.
    apply lookup_zip_with_Some. now exists hash, value.
Qed.

(** One insert keeps the count and keeps the sketch on the stream. *)
Lemma Insert_hashed_tracks (s : @sketch T) (xs : list (T * Z)) (x : T * Z)
    (n : Z) :
  counted K s n -> n + 1 < 2 ^ 64 ->
  tracked (entries s) (weights s !!! 0%nat) (fun k => occurrences k xs) ->
  let s' := Insert_hashed T_default K s x.1 x.2 in
  counted K s' (n + 1) /\
  tracked (entries s') (weights s' !!! 0%nat)
    (fun k => occurrences k (xs ++ [x])).
Proof.
  intros (Hlh & Hlv & Hc) Hn Ht s'.
  pose proof Hc as ((_ & Hlw & Hrange) & Hheap & Hsum).
  cbn [SS.values SS.weights] in Hlw, Hrange, Hheap, Hsum.
  set (hash := Hash.roll_down x.2) in *. set (value := x.1) in *.
  set (i := Find T_default K 0 s value hash).
  assert (Hs' : s' = UpdateHeap T_default K s value hash i) by reflexivity.
  pose proof (SSHFind.Find_cases T_default K HK32 0 s value hash Hlh Hlv)
    as Hfind.
  cbv zeta in Hfind. fold i in Hfind.
  assert (Hi : (i < K)%nat) by (destruct Hfind as [(Hi & _)|[-> _]]; lia).
  pose proof (UpdateHeap_counted K (proj s) hash i n Hi Hc Hn) as Hc'.
  rewrite <- (UpdateHeap_proj s value hash i), <- Hs' in Hc'.
  destruct (UpdateHeap_entries s value hash i Hlh Hlv Hlw Hi)
    as [Hperm Hlv'].
  rewrite <- Hs' in Hperm, Hlv'.
  pose proof Hc' as ((Hlh' & Hlw' & _) & Hheap' & _).
  cbn [SS.values SS.weights] in Hlh', Hlw', Hheap'.
  split; [split; [exact Hlh'|split; [exact Hlv'|exact Hc']]|].
  assert (Hwi : 0 <= weights s !!! i <= n).
  { rewrite Forall_forall in Hrange.
    assert (weights s !!! i ∈ weights s)
      by (apply list_elem_of_lookup_total_2; lia).
    split; [apply Hrange; assumption|].
    rewrite <- Hsum. apply sum_list_lookup_le; [|lia].
    apply Forall_forall. intros w Hw. apply Hrange in Hw. lia. }
  rewrite u64_small in Hperm by lia.
  assert (Hmin : forall j, (j < K)%nat ->
            weights s !!! 0%nat <= weights s !!! j).
  { intros j Hj. apply heap_root_min; [exact Hheap|lia]. }
  assert (Hm : weights s !!! 0%nat <= weights s' !!! 0%nat).
  { assert (Hroot : ((hashes s' !!! 0%nat, values s' !!! 0%nat),
                     weights s' !!! 0%nat) ∈ entries s').
    { apply list_elem_of_lookup. exists 0%nat.
      now apply entries_lookup. }
    rewrite Hperm in Hroot.
    apply insert_cases in Hroot as [[= _ _ ->]|(j & _ & Hj)].
    - specialize (Hmin i Hi). lia.
    - assert (HjK : (j < K)%nat).
      { apply lookup_lt_Some in Hj. unfold entries, keys in Hj.
        rewrite !length_zip in Hj. lia. }
      rewrite entries_lookup in Hj by assumption.
      injection Hj as _ _ <-. now apply Hmin. }
  apply (tracked_step (entries s) (entries s') i (hash, value)
           (hashes s !!! i, values s !!! i) (weights s !!! i)
           (weights s !!! 0%nat) (weights s' !!! 0%nat)
           (fun k => occurrences k xs)); try assumption.
  - now apply entries_lookup.
  - destruct Hfind as [(_ & [Hh Hv] & _)|[Hi0 Hnone]].
    + left. f_equal; now apply list_lookup_total_correct.
    + right. rewrite Hi0. split; [|reflexivity].
      rewrite entries_keys by assumption.
      intros Hin. apply keys_holds in Hin as [j Hj]. now apply (Hnone j).
  - intros k. apply key_occurrences_nonneg.
  - rewrite key_occurrences_snoc.
    replace (key_of x) with (hash, value) by reflexivity.
    now rewrite bool_decide_eq_true_2.
  - intros k Hk. rewrite key_occurrences_snoc.
    replace (key_of x) with (hash, value) by reflexivity.
    rewrite bool_decide_eq_false_2 by congruence. lia.
Qed.

Lemma hashed_Insert_all_tracks (xs : list (T * Z)) :
  forall (s : @sketch T) (seen : list (T * Z)) (n : Z),
  counted K s n -> n + Z.of_nat (length xs) < 2 ^ 64 ->
  tracked (entries s) (weights s !!! 0%nat) (fun k => occurrences k seen) ->
  let s' := Insert_all T_default K s xs in
  counted K s' (n + Z.of_nat (length xs)) /\
  tracked (entries s') (weights s' !!! 0%nat)
    (fun k => occurrences k (seen ++ xs)).
Proof.
  induction xs as [|x xs IH]; intros s seen n Hc Hn Ht.
  - cbn. rewrite app_nil_r, Z.add_0_r. now split.
  - cbn [length] in Hn. cbv zeta. unfold Insert_all. cbn [fold_left].
    destruct (Insert_hashed_tracks s seen x n Hc ltac:(lia) Ht) as [Hc1 Ht1].
    specialize (IH _ (seen ++ [x]) (n + 1) Hc1 ltac:(lia) Ht1).
    cbv zeta in IH. unfold Insert_all in IH.
    replace (seen ++ x :: xs) with ((seen ++ [x]) ++ xs)
      by (now rewrite <- app_assoc).
    replace (n + Z.of_nat (length (x :: xs)))
      with (n + 1 + Z.of_nat (length xs)) by (cbn [length]; lia).
    exact IH.
Qed.

Lemma init_counted_tracked :
  Z.of_nat K <= 2 ^ 64 ->
  counted K (init T_default K) 0 /\
  tracked (entries (init T_default K)) (weights (init T_default K) !!! 0%nat)
    (fun k => occurrences k []).
Proof.
  intros HK64.
  assert (Hlh : length (hashes (init T_default K)) = K).
  { cbn [init hashes]. unfold SS.sequence.
    now rewrite length_fmap, length_seq. }
  assert (Hlv : length (values (init T_default K)) = K)
    by (cbn [init values]; apply length_replicate).
  assert (Hlw : length (weights (init T_default K)) = K)
    by (cbn [init weights]; apply length_replicate).
  split.
  - split; [exact Hlh|]. split; [exact Hlv|].
    exact (init_counted SS.UInt64 K).
  - assert (Hw : forall j, (j < K)%nat -> replicate K 0 !!! j = 0)
      by (intros j Hj; now apply lookup_total_replicate_2).
    split; [|split].
    + rewrite entries_keys by assumption.
      apply (NoDup_fmap_1 fst).
      unfold keys. rewrite fst_zip by lia.
      apply SSGuarantee.sequence_NoDup. exact HK64.
    + intros k w Hin. apply list_elem_of_lookup in Hin as [j Hj].
      assert (HjK : (j < K)%nat).
      { apply lookup_lt_Some in Hj. unfold entries, keys in Hj.
        rewrite !length_zip in Hj. lia. }
      rewrite entries_lookup in Hj by assumption.
      injection Hj as _ <-. cbn [init weights]. rewrite !Hw by lia.
      unfold occurrences. cbn [List.filter length]. lia.
    + intros k _. cbn [init weights]. rewrite Hw by lia.
      unfold occurrences. cbn [List.filter length]. lia.
Qed.

(** X19.  The hashed specialisation keeps the guarantee of the sketch, with
    an item filed under its 64-bit hash and its value.  After any stream of
    fewer than [2^64] pre-hashed inserts: the weights are in heap order and
    add up to the number of inserts; no two slots hold the same hash and
    value; the item of slot [i] has occurred at most [weights[i]] times and
    at least [weights[i]] less the least weight [weights[0]]; an item in
    no slot has occurred at most [weights[0]] times. *)
Theorem hashed_weights_bound_the_occurrences (xs : list (T * Z)) :
  Z.of_nat K <= 2 ^ 64 -> Z.of_nat (length xs) < 2 ^ 64 ->
  let s := Insert_all T_default K (init T_default K) xs in
  (forall i : nat, (i < K)%nat -> weights s !!! 0%nat <= weights s !!! i) /\
  sum_list (weights s) = Z.of_nat (length xs) /\
  NoDup (keys s) /\
  (forall (i : nat) (value : T) (hash : Z), holds s value hash i ->
     occurrences (hash, value) xs <= weights s !!! i <=
       occurrences (hash, value) xs + weights s !!! 0%nat) /\
  (forall (value : T) (hash : Z), (forall i, ~ holds s value hash i) ->
     occurrences (hash, value) xs <= weights s !!! 0%nat).
Proof.
  intros HK64 Hlen s.
  destruct (init_counted_tracked HK64) as [Hc0 Ht0].
  destruct (hashed_Insert_all_tracks xs (init T_default K) [] 0 Hc0 ltac:(lia) Ht0)
    as [Hc Ht].
  cbv zeta in Hc, Ht. fold s in Hc, Ht. cbn [app] in Ht.
  destruct Hc as (Hlh & Hlv & ((_ & Hlw & _) & Hheap & Hsum)).
  cbn [SS.values SS.weights] in Hlw, Hheap, Hsum.
  destruct Ht as (Hnd & Hin & Hout).
  rewrite entries_keys in Hnd, Hout by assumption.
  split; [|split; [|split; [|split]]].
  - intros i Hi. apply heap_root_min; [exact Hheap|lia].
  - lia.
  - exact Hnd.
  - intros i value hash [Hh Hv].
    assert (Hi : (i < K)%nat) by (apply lookup_lt_Some in Hh; lia).
    apply Hin. apply list_elem_of_lookup. exists i.
    rewrite entries_lookup by assumption.
    apply list_lookup_total_correct in Hh, Hv. now rewrite Hh, Hv.
  - intros value hash Hnone. apply Hout.
    intros Hk. apply keys_holds in Hk as [j Hj]. now apply (Hnone j).
Qed.

End SpaceSaving.

(** A sketch of strings after four pre-hashed inserts. *)
Lemma hashed_weights_witness :
  let xs := [([97], 1000); ([98], 2000); ([97], 1000); ([99], 1000)] in
  let s := Insert_all (T := list Z) [] 32 (init [] 32) xs in
  (forall i : nat, (i < 32)%nat -> weights s !!! 0%nat <= weights s !!! i) /\
  sum_list (weights s) = 4 /\
  NoDup (keys s) /\
  (forall (i : nat) (value : list Z) (hash : Z), holds s value hash i ->
     occurrences (hash, value) xs <= weights s !!! i <=
       occurrences (hash, value) xs + weights s !!! 0%nat) /\
  (forall (value : list Z) (hash : Z), (forall i, ~ holds s value hash i) ->
     occurrences (hash, value) xs <= weights s !!! 0%nat).
Proof.
  apply (hashed_weights_bound_the_occurrences (T := list Z) [] 32).
  - lia.
  - reflexivity.
  - vm_compute. discriminate.
  - vm_compute. reflexivity.
Defined.

End SSHInsert.

(** ** SpaceSaving: the naive baseline keeps the guarantee *)

Module SSNaiveProofs.
Import SS SSSpec SSStream SSHeap SSHeapSpec SSNaive SSNaiveSpec.

(** The loop of [std::min_element] ends at the first least element. *)
Lemma min_element_loop_spec (rest : list Z) :
  forall (pre : list Z) (result : nat) (m0 : Z),
  pre !! result = Some m0 ->
  Forall (fun w => m0 <= w) pre ->
  (forall i w, (i < result)%nat -> pre !! i = Some w -> m0 < w) ->
  exists m,
    (pre ++ rest) !! min_element_loop rest (length pre) result m0 = Some m /\
    Forall (fun w => m <= w) (pre ++ rest) /\
    (forall i w, (i < min_element_loop rest (length pre) result m0)%nat ->
       (pre ++ rest) !! i = Some w -> m < w).
Proof.
  induction rest as [|w rest IH]; intros pre result m0 Hres Hall Hfirst.
  - cbn [min_element_loop]. rewrite app_nil_r. exists m0. auto.
  - cbn [min_element_loop].
    replace (S (length pre)) with (length (pre ++ [w]))
      by (rewrite length_app; cbn; lia).
    replace (pre ++ w :: rest) with ((pre ++ [w]) ++ rest)
      by (now rewrite <- app_assoc).
    destruct (Z.ltb_spec w m0) as [Hlt|Hge].
    + apply IH.
      * rewrite lookup_app_r by lia. now rewrite Nat.sub_diag.
      * apply Forall_app. split; [|repeat constructor; lia].
        eapply Forall_impl; [exact Hall|]. cbn. intros; lia.
      * intros i x Hi Hx. rewrite lookup_app_l in Hx by exact Hi.
        assert (m0 <= x); [|lia].
        eapply (proj1 (Forall_forall _ _) Hall).
        eapply list_elem_of_lookup_2; exact Hx.
    + apply IH.
      * rewrite lookup_app_l; [exact Hres|].
        eapply lookup_lt_Some; exact Hres.
      * apply Forall_app. split; [exact Hall|repeat constructor; lia].
      * intros i x Hi Hx. apply (Hfirst i x Hi).
        rewrite lookup_app_l in Hx; [exact Hx|].
        apply lookup_lt_Some in Hres. lia.
Qed.

Lemma min_element_spec (ws : list Z) :
  ws <> [] ->
  exists j m, min_element ws = Some j /\ ws !! j = Some m /\ least ws m /\
    forall i w, (i < j)%nat -> ws !! i = Some w -> m < w.
Proof.
  destruct ws as [|w rest]; [congruence|]. intros _.
  destruct (min_element_loop_spec rest [w] 0 w) as (m & Hj & Hall & Hfirst).
  - reflexivity.
  - repeat constructor; lia.
  - intros i x Hi; lia.
  - exists (min_element_loop rest 1 0 w), m. cbn [min_element].
    split; [reflexivity|]. split; [exact Hj|]. split; [|exact Hfirst].
    split; [|exact Hall]. eapply list_elem_of_lookup_2; exact Hj.
Qed.

(** Raising one weight by one does not lower the least weight. *)
Lemma least_insert (ws : list Z) (i : nat) (wi m m' : Z) :
  ws !! i = Some wi -> least ws m -> least (<[i := wi + 1]> ws) m' ->
  m <= m'.
Proof.
  intros Hi [_ Hall] [Hin _].
  apply SSGuarantee.elem_of_insert_cases in Hin as [->|(j & _ & Hj)].
  - assert (m <= wi); [|lia].
    eapply (proj1 (Forall_forall _ _) Hall).
    eapply list_elem_of_lookup_2; exact Hi.
  - eapply (proj1 (Forall_forall _ _) Hall).
    eapply list_elem_of_lookup_2; exact Hj.
Qed.

(** [std::find] never finds a NaN. *)
Lemma find_nan (T : arith) (v : Z) (vs : list Z) :
  is_nan T v = true ->
  Normalized T v = v /\ find T v vs = None.
Proof.
  intros Hv.
  assert (HT : is_floating_point T = true).
  { unfold is_nan in Hv. now destruct (is_floating_point T). }
  split.
  - unfold Normalized. rewrite HT.
    destruct (fp_is_zero T v) eqn:Hz; [|reflexivity].
    exfalso. unfold is_nan in Hv. rewrite HT in Hv. cbn [andb] in Hv.
    unfold fp_is_zero in Hz. apply Z.eqb_eq in Hz. rewrite Hz in Hv.
    apply SSHeapProofs.gtb_true in Hv.
    assert (0 <= Z.shiftl (Z.ones (width T - 1 - fraction_bits T))
                  (fraction_bits T))
      by (destruct T; try discriminate; cbn; lia).
    lia.
  - induction vs as [|a l IH]; [reflexivity|].
    cbn [find]. unfold equal at 1. rewrite HT, Hv.
    rewrite andb_false_r. cbn [andb]. now rewrite IH.
Qed.

Section SpaceSaving.

Variable T : arith.
Variable K : nat.
Hypothesis HK : (0 < K)%nat.

Local Abbreviation occ xs := (fun v => occurrences T v xs).

Lemma occ_step (xs : list Z) (x : Z) :
  (forall k, 0 <= occ xs k) /\
  occ (xs ++ [x]) (Normalized T x) = occ xs (Normalized T x) + 1 /\
  (forall k, k <> Normalized T x -> occ (xs ++ [x]) k = occ xs k).
Proof.
  split; [intros k; apply SSGuarantee.occurrences_nonneg|]. split.
  - rewrite SSGuarantee.occurrences_snoc. now rewrite Z.eqb_refl.
  - intros k Hk. rewrite SSGuarantee.occurrences_snoc.
    destruct (Z.eqb_spec (Normalized T x) k); [congruence|lia].
Qed.

Lemma Insert_follows (s : sketch) (xs : list Z) (x : Z) :
  follows T K s xs -> is_nan T x = false ->
  Z.of_nat (length xs) + 1 < 2 ^ 64 ->
  exists s', SSNaive.Insert T s x = Some s' /\ follows T K s' (xs ++ [x]).
Proof.
  intros ((Hlv & Hlw & Hrange) & Hsum & Hplain & Htr) Hx Hn.
  pose proof (SSBaseline.Normalized_plain T x Hx) as Hpv.
  destruct (occ_step xs x) as (Hnn & Hocc1 & Hocc).
  assert (Hne : weights s <> []).
  { intros Heq. rewrite Heq in Hlw. cbn in Hlw. lia. }
  destruct (min_element_spec (weights s) Hne) as (jm & m & Hmin & Hjm & Hm & _).
  assert (Hpos : Forall (fun w => 0 <= w) (weights s))
    by (eapply Forall_impl; [exact Hrange|]; cbn; intros; lia).
  assert (Hstep : forall (i : nat) (k0 wi : Z),
            values s !! i = Some k0 -> weights s !! i = Some wi ->
            (k0 = Normalized T x \/
             ((Normalized T x ∉ values s) /\ wi = m)) ->
            follows T K
              {| values := <[i := Normalized T x]> (values s);
                 weights := <[i := u64 (wi + 1)]> (weights s) |}
              (xs ++ [x])).
  { intros i k0 wi Hvi Hwi Hcase.
    assert (Hi : (i < K)%nat)
      by (apply lookup_lt_Some in Hwi; lia).
    assert (Hwi' : weights s !!! i = wi)
      by (now apply list_lookup_total_correct).
    pose proof (SSHeapProofs.sum_list_lookup_le (weights s) i Hpos
                  ltac:(lia)) as Hle.
    assert (Hwi0 : 0 <= wi).
    { eapply (proj1 (Forall_forall _ _) Hpos).
      eapply list_elem_of_lookup_2; exact Hwi. }
    rewrite Bits.u64_small by lia.
    split; [|split; [|split]].
    - split; [|split]; cbn [values weights].
      + now rewrite length_insert.
      + now rewrite length_insert.
      + apply SSInsertProofs.Forall_range_insert; [exact Hrange|lia].
    - cbn [weights]. rewrite SSHeapProofs.sum_list_insert by lia.
      rewrite Hwi', Hsum, length_app. cbn [length]. lia.
    - cbn [values]. apply Forall_insert; assumption.
    - cbn [weights]. intros m' Hm'.
      pose proof (least_insert _ _ _ _ _ Hwi Hm Hm') as Hmm.
      eapply (SSHInsert.tracked_step (pairs s) _ i (Normalized T x) k0 wi
                m m' (occ xs) (occ (xs ++ [x])) (Htr m Hm)).
      + unfold pairs. cbn [values weights].
        rewrite SSHeapProofs.zip_insert. reflexivity.
      + apply SSGuarantee.pairs_lookup. split; assumption.
      + exact Hmm.
      + destruct Hcase as [->|[Hfresh ->]]; [now left|right].
        split; [|reflexivity].
        rewrite SSGuarantee.pairs_fst by lia. exact Hfresh.
      + exact Hnn.
      + exact Hocc1.
      + exact Hocc. }
  unfold SSNaive.Insert.
  rewrite (SSBaseline.find_plain T _ _ Hpv Hplain).
  destruct (find_first (Normalized T x) (values s)) as [i|] eqn:Hf.
  - apply SimdProofs.find_first_Some in Hf as [Hvi _].
    assert (Hi : (i < K)%nat) by (apply lookup_lt_Some in Hvi; lia).
    assert (Hwi : weights s !! i = Some (weights s !!! i))
      by (apply list_lookup_lookup_total_lt; lia).
    eexists. split; [reflexivity|].
    rewrite <- (list_insert_id (values s) i (Normalized T x) Hvi) at 1.
    apply (Hstep i (Normalized T x) _ Hvi Hwi). now left.
  - rewrite Hmin.
    assert (Hfresh : Normalized T x ∉ values s).
    { intros Hin. apply list_elem_of_lookup in Hin as [j Hj].
      exact (proj1 (SimdProofs.find_first_None _ _) Hf j _ Hj eq_refl). }
    assert (Hj : (jm < K)%nat) by (apply lookup_lt_Some in Hjm; lia).
    assert (Hvj : values s !! jm = Some (values s !!! jm))
      by (apply list_lookup_lookup_total_lt; lia).
    eexists. split; [reflexivity|].
    rewrite (list_lookup_total_correct _ _ _ Hjm).
    apply (Hstep jm _ m Hvj Hjm). right. split; [exact Hfresh|reflexivity].
Qed.

Lemma Insert_all_follows (vs : list Z) :
  forall (s : sketch) (xs : list Z),
  follows T K s xs -> Forall (fun v => is_nan T v = false) vs ->
  Z.of_nat (length xs) + Z.of_nat (length vs) < 2 ^ 64 ->
  exists s', SSNaive.Insert_all T s vs = Some s' /\
    follows T K s' (xs ++ vs).
Proof.
  induction vs as [|v vs IH]; intros s xs Hs Hvs Hn.
  - exists s. rewrite app_nil_r. split; [reflexivity|exact Hs].
  - apply Forall_cons in Hvs as [Hv Hvs]. cbn [length] in Hn.
    destruct (Insert_follows s xs v Hs Hv ltac:(lia)) as (s1 & Hs1 & Hf1).
    destruct (IH s1 (xs ++ [v]) Hf1 Hvs) as (s' & Hs' & Hf').
    { rewrite length_app. cbn [length]. lia. }
    exists s'. cbn [SSNaive.Insert_all]. rewrite Hs1.
    split; [exact Hs'|]. now rewrite <- app_assoc in Hf'.
Qed.

Lemma init_follows :
  NoDup (sequence T K) ->
  (is_floating_point T = true -> Z.of_nat K <= 2 ^ 24) ->
  follows T K (SSNaive.init T K) [].
Proof.
  intros Hnd HKfp. unfold SSNaive.init.
  destruct (SSInsertProofs.init_counted T K) as (Hwf & _ & Hsum).
  split; [exact Hwf|]. split; [exact Hsum|]. split.
  - cbn [SS.init values]. unfold sequence. apply Forall_fmap.
    apply Forall_forall. intros j Hj. apply elem_of_seq in Hj. cbn.
    destruct (is_floating_point T) eqn:HT.
    + apply SSBaseline.of_index_plain. specialize (HKfp eq_refl). lia.
    + intros Hfp. congruence.
  - intros m [Hin _]. cbn [SS.init weights] in Hin.
    apply elem_of_replicate in Hin as [-> _].
    destruct Hwf as (Hlv & Hlw & _).
    split; [|split].
    + rewrite SSGuarantee.pairs_fst by lia. exact Hnd.
    + intros v w Hvw. apply list_elem_of_lookup in Hvw as [j Hj].
      apply SSGuarantee.pairs_lookup in Hj as [_ Hj].
      cbn [SS.init weights] in Hj.
      apply lookup_replicate in Hj as [-> _].
      unfold occurrences. cbn [List.filter length]. lia.
    + intros v _. unfold occurrences. cbn [List.filter length]. lia.
Qed.

(** X25.  The guarantee of [naive::SpaceSaving].  After any stream of fewer
    than [2^64] inserts without NaN into a sketch with [k_ > 0] distinct
    initial values: the values are distinct, the weights add up to the
    stream length, the slot [std::min_element] returns holds the least
    weight [m], [k_ * m] is at most the stream length, the value of slot [i]
    has occurred at most [weights[i]] and at least [weights[i] - m] times,
    and a value in no slot at most [m] times.  A NaN is never found by
    [std::find] and always takes the slot of the least weight. *)
Theorem naive_weights_bound_the_occurrences (vs : list Z) :
  NoDup (sequence T K) ->
  (is_floating_point T = true -> Z.of_nat K <= 2 ^ 24) ->
  (Forall (fun v => is_nan T v = false) vs ->
   Z.of_nat (length vs) < 2 ^ 64 ->
   exists (s : sketch) (j : nat),
     SSNaive.Insert_all T (SSNaive.init T K) vs = Some s /\
     min_element (weights s) = Some j /\
     NoDup (values s) /\
     sum_list (weights s) = Z.of_nat (length vs) /\
     (forall i : nat, (i < K)%nat -> weights s !!! j <= weights s !!! i) /\
     Z.of_nat K * weights s !!! j <= Z.of_nat (length vs) /\
     (forall (i : nat) (v : Z), values s !! i = Some v ->
        occurrences T v vs <= weights s !!! i <=
          occurrences T v vs + weights s !!! j) /\
     (forall v : Z, v ∉ values s ->
        occurrences T v vs <= weights s !!! j)) /\
  (forall (s : sketch) (v : Z) (j : nat),
     is_nan T v = true -> min_element (weights s) = Some j ->
     SSNaive.Insert T s v =
       Some {| values := <[j := v]> (values s);
               weights := <[j := u64 (weights s !!! j + 1)]> (weights s) |}).
Proof.
  intros Hnd HKfp. split.
  - intros Hvs Hn.
    destruct (Insert_all_follows vs (SSNaive.init T K) []
                (init_follows Hnd HKfp) Hvs) as (s & Hs & Hf).
    { cbn [length]. lia. }
    rewrite app_nil_l in Hf.
    destruct Hf as ((Hlv & Hlw & Hrange) & Hsum & _ & Htr).
    assert (Hne : weights s <> []).
    { intros Heq. rewrite Heq in Hlw. cbn in Hlw. lia. }
    destruct (min_element_spec (weights s) Hne)
      as (j & m & Hmin & Hj & Hm & _).
    destruct (Htr m Hm) as (Hnd' & Hin & Hout).
    rewrite SSGuarantee.pairs_fst in Hnd', Hout by lia.
    exists s, j. rewrite (list_lookup_total_correct _ _ _ Hj).
    destruct Hm as [_ Hall].
    split; [exact Hs|]. split; [exact Hmin|]. split; [exact Hnd'|].
    split; [exact Hsum|]. split; [|split; [|split]].
    + intros i Hi.
      eapply (proj1 (Forall_forall _ _) Hall).
      apply list_elem_of_lookup_total_2. lia.
    + rewrite <- Hsum, <- Hlw.
      apply SSGuarantee.sum_list_at_least. exact Hall.
    + intros i v Hv.
      assert (Hi : (i < K)%nat) by (apply lookup_lt_Some in Hv; lia).
      apply (Hin v (weights s !!! i)).
      eapply list_elem_of_lookup_2 with (i := i).
      apply SSGuarantee.pairs_lookup. split; [exact Hv|].
      apply list_lookup_lookup_total_lt. lia.
    + exact Hout.
  - intros s v j Hv Hmin. unfold SSNaive.Insert.
    destruct (find_nan T v (values s) Hv) as [-> ->].
    now rewrite Hmin.
Qed.

End SpaceSaving.

(** The theorem for a float sketch of three slots and the stream
    [1.5, -0.0, 1.5, 2.5, 1.5], and for a NaN. *)
Lemma naive_weights_witness :
  let vs := [0x3FC00000; 0x80000000; 0x3FC00000; 0x40200000; 0x3FC00000] in
  (exists (s : sketch) (j : nat),
     SSNaive.Insert_all Float (SSNaive.init Float 3) vs = Some s /\
     min_element (weights s) = Some j /\
     NoDup (values s) /\
     sum_list (weights s) = Z.of_nat (length vs) /\
     (forall i : nat, (i < 3)%nat -> weights s !!! j <= weights s !!! i) /\
     Z.of_nat 3 * weights s !!! j <= Z.of_nat (length vs) /\
     (forall (i : nat) (v : Z), values s !! i = Some v ->
        occurrences Float v vs <= weights s !!! i <=
          occurrences Float v vs + weights s !!! j) /\
     (forall v : Z, v ∉ values s ->
        occurrences Float v vs <= weights s !!! j)) /\
  SSNaive.Insert Float (SSNaive.init Float 3) 0x7FC00000 =
    Some {| values := <[0%nat := 0x7FC00000]> (values (SSNaive.init Float 3));
            weights := <[0%nat := u64 (weights (SSNaive.init Float 3) !!! 0%nat + 1)]>
                         (weights (SSNaive.init Float 3)) |}.
Proof.
  intros vs.
  destruct (naive_weights_bound_the_occurrences Float 3 ltac:(lia) vs)
    as [Hstream Hnan].
  - apply SSGuarantee.sequence_NoDup. vm_compute. discriminate.
  - intros _. vm_compute. discriminate.
  - split.
    + apply Hstream; [repeat constructor|vm_compute; reflexivity].
    + apply Hnan; reflexivity.
Defined.

End SSNaiveProofs.
